(** * Gyro-maze: the level generator and the game engine, verified

    A shallow embedding of [src/js/game/LevelGenerator.js] and of the
    physics / session part of [src/js/game/GameEngine.js].

    Numbers.  A JavaScript number that the code only ever uses as an
    integer (level numbers, grid indices, counters, the generator's seed)
    is a [Z] or a [nat]; every other number is an exact rational [Q].
    Binary64 rounding is not part of the model: [Math.floor], [Math.round],
    [Math.min], [Math.max] and the comparisons are the exact ones, and
    [Math.sqrt] only ever occurs under a comparison in the generator, which
    is decided exactly on the squares.  [Math.pow], [Math.sqrt] (when its
    value is used) and [Math.sin] of the engine are parameters of the
    engine's section. *)

From Stdlib Require Import ZArith QArith Qround Qminmax Qabs Lia Lqa String.
From stdpp Require Import base option list gmap strings pretty.

Local Open Scope Z_scope.

(** ** The generator's effects: the seeded stream, and the two ways a call
    can fail to return a value *)

(** [this.seed] is the only state of a [LevelGenerator]; a computation of
    the generator reads and writes it, and either returns ([Done]), throws
    the [TypeError] JavaScript raises on reading a property of [undefined],
    or is cut by the model's loop budget ([OutOfFuel]; only the two
    [while] loops of the source without a bound of their own take fuel). *)
Inductive outcome (A : Type) : Type :=
  | Done (a : A) (seed' : Z)
  | TypeError
  | OutOfFuel.
Arguments Done {A} a seed'.
Arguments TypeError {A}.
Arguments OutOfFuel {A}.

Definition Gen (A : Type) : Type := Z -> outcome A.

Definition ret {A} (a : A) : Gen A := fun s => Done a s.

Definition bind {A B} (m : Gen A) (k : A -> Gen B) : Gen B :=
  fun s => match m s with
           | Done a s' => k a s'
           | TypeError => TypeError
           | OutOfFuel => OutOfFuel
           end.

Definition throw {A} : Gen A := fun _ => TypeError.
Definition timeout {A} : Gen A := fun _ => OutOfFuel.

(** Reading a possibly [undefined] value and then using it as an object. *)
Definition defined {A} (o : option A) : Gen A :=
  match o with Some a => ret a | None => throw end.

Notation "'let*' x ':=' m 'in' k" := (bind m (fun x => k))
  (at level 10, x name, m at level 100, k at level 200).
Notation "'let*' ' p ':=' m 'in' k" := (bind m (fun x => match x with p => k end))
  (at level 10, p pattern, m at level 100, k at level 200).

(** [random(levelSeed)] stores the seed in the object and returns the
    closure [rng]; the closure is [rng] below, and storing the seed is
    [random].  JavaScript's [%] is the truncating remainder [Z.rem]. *)
Definition lcg (s : Z) : Z := Z.rem (s * 9301 + 49297) 233280.

Definition random (levelSeed : Z) : Gen unit := fun _ => Done tt levelSeed.

Definition rng : Gen Q := fun s => let s' := lcg s in Done (s' # 233280)%Q s'.

(** [Math.floor(rng() * n)] *)
Definition rand_below (n : Z) : Gen Z :=
  let* x := rng in ret (Qfloor (x * inject_Z n)).

(** ** The maze grid *)

Record Walls := { w_top : bool; w_right : bool; w_bottom : bool; w_left : bool }.
Record Cell := { visited : bool; walls : Walls }.

Abbreviation Grid := (list (list Cell)).

Record Pos := { row : nat; col : nat }.

#[global] Instance Pos_eq_dec : EqDecision Pos.
Proof. solve_decision. Defined.

(** [grid[row][col]], [undefined] out of range *)
Definition cell_at (grid : Grid) (r c : nat) : option Cell :=
  match grid !! r with
  | Some line => line !! c
  | None => None
  end.

(** An assignment to a property of [grid[row][col]]: a [TypeError] when the
    cell is [undefined]. *)
Definition update_cell (f : Cell -> Cell) (grid : Grid) (r c : nat) : Gen Grid :=
  match cell_at grid r c with
  | Some _ => ret (alter (alter f c) r grid)
  | None => throw
  end.

Definition set_visited (cl : Cell) : Cell := {| visited := true; walls := walls cl |}.
Definition clear_top (cl : Cell) : Cell :=
  {| visited := visited cl;
     walls := {| w_top := false; w_right := w_right (walls cl);
                 w_bottom := w_bottom (walls cl); w_left := w_left (walls cl) |} |}.
Definition clear_right (cl : Cell) : Cell :=
  {| visited := visited cl;
     walls := {| w_top := w_top (walls cl); w_right := false;
                 w_bottom := w_bottom (walls cl); w_left := w_left (walls cl) |} |}.
Definition clear_bottom (cl : Cell) : Cell :=
  {| visited := visited cl;
     walls := {| w_top := w_top (walls cl); w_right := w_right (walls cl);
                 w_bottom := false; w_left := w_left (walls cl) |} |}.
Definition clear_left (cl : Cell) : Cell :=
  {| visited := visited cl;
     walls := {| w_top := w_top (walls cl); w_right := w_right (walls cl);
                 w_bottom := w_bottom (walls cl); w_left := false |} |}.

Definition fresh_cell : Cell :=
  {| visited := false;
     walls := {| w_top := true; w_right := true; w_bottom := true; w_left := true |} |}.

(** [grid[r][c].visited], a [TypeError] when the cell is [undefined] *)
Definition is_visited (grid : Grid) (r c : nat) : Gen bool :=
  let* cl := defined (cell_at grid r c) in ret (visited cl).

(** [getUnvisitedNeighbors]: top, right, bottom, left, in this order.  The
    [dir] tag of a neighbour is never read and is left out. *)
Definition getUnvisitedNeighbors (grid : Grid) (r c rows cols : nat) : Gen (list Pos) :=
  let* n1 := (if (0 <? r)%nat
            then let* v := is_visited grid (r - 1)%nat c in
                 ret (if v then [] else [{| row := (r - 1)%nat; col := c |}])
            else ret []) in
  let* n2 := (if (c <? cols - 1)%nat
            then let* v := is_visited grid r (c + 1)%nat in
                 ret (if v then [] else [{| row := r; col := (c + 1)%nat |}])
            else ret []) in
  let* n3 := (if (r <? rows - 1)%nat
            then let* v := is_visited grid (r + 1)%nat c in
                 ret (if v then [] else [{| row := (r + 1)%nat; col := c |}])
            else ret []) in
  let* n4 := (if (0 <? c)%nat
            then let* v := is_visited grid r (c - 1)%nat in
                 ret (if v then [] else [{| row := r; col := (c - 1)%nat |}])
            else ret []) in
  ret (n1 ++ n2 ++ n3 ++ n4).

(** [removeWallBetween] *)
Definition removeWallBetween (grid : Grid) (current next : Pos) : Gen Grid :=
  let rowDiff := Z.of_nat (row next) - Z.of_nat (row current) in
  let colDiff := Z.of_nat (col next) - Z.of_nat (col current) in
  if rowDiff =? -1 then
    let* g := update_cell clear_top grid (row current) (col current) in
    update_cell clear_bottom g (row next) (col next)
  else if rowDiff =? 1 then
    let* g := update_cell clear_bottom grid (row current) (col current) in
    update_cell clear_top g (row next) (col next)
  else if colDiff =? 1 then
    let* g := update_cell clear_right grid (row current) (col current) in
    update_cell clear_left g (row next) (col next)
  else if colDiff =? -1 then
    let* g := update_cell clear_left grid (row current) (col current) in
    update_cell clear_right g (row next) (col next)
  else ret grid.

(** The recursive-backtracking loop [while (stack.length > 0)].  The head of
    [stack] is the top of the JavaScript stack (its last element). *)
Fixpoint carve (fuel : nat) (rows cols : nat) (grid : Grid) (stack : list Pos)
  : Gen Grid :=
  match stack with
  | [] => ret grid
  | current :: rest =>
      match fuel with
      | O => timeout
      | S fuel' =>
          let* neighbors := getUnvisitedNeighbors grid (row current) (col current) rows cols in
          match neighbors with
          | [] => carve fuel' rows cols grid rest
          | _ :: _ =>
              let* i := rand_below (Z.of_nat (length neighbors)) in
              let* next := defined (if i <? 0 then None else neighbors !! Z.to_nat i) in
              let* g1 := removeWallBetween grid current next in
              let* g2 := update_cell set_visited g1 (row next) (col next) in
              carve fuel' rows cols g2 (next :: stack)
          end
      end
  end.

(** One round of the loop that opens extra passages. *)
Definition extra_passage (rows cols : nat) (grid : Grid) : Gen Grid :=
  let* r := rand_below (Z.of_nat rows) in
  let* c := rand_below (Z.of_nat cols) in
  let* dir := rand_below 4 in
  let r := Z.to_nat r in
  let c := Z.to_nat c in
  if (dir =? 0) && (0 <? r)%nat then
    let* g := update_cell clear_top grid r c in
    update_cell clear_bottom g (r - 1)%nat c
  else if (dir =? 1) && (c <? cols - 1)%nat then
    let* g := update_cell clear_right grid r c in
    update_cell clear_left g r (c + 1)%nat
  else if (dir =? 2) && (r <? rows - 1)%nat then
    let* g := update_cell clear_bottom grid r c in
    update_cell clear_top g (r + 1)%nat c
  else if (dir =? 3) && (0 <? c)%nat then
    let* g := update_cell clear_left grid r c in
    update_cell clear_right g r (c - 1)%nat
  else ret grid.

Fixpoint extra_passages (n : nat) (rows cols : nat) (grid : Grid) : Gen Grid :=
  match n with
  | O => ret grid
  | S n' => let* g := extra_passage rows cols grid in extra_passages n' rows cols g
  end.

(** [generateMazeGrid(cols, rows, rng)].  [cols] and [rows] are the numbers
    the caller computed; a grid has no row of negative index, so a count
    below one makes the first access [grid[startRow][startCol]] throw. *)
Definition generateMazeGrid (fuel : nat) (cols rows : Z) : Gen Grid :=
  let nrows := Z.to_nat rows in
  let ncols := Z.to_nat cols in
  let grid := replicate nrows (replicate ncols fresh_cell) in
  if rows <? 1 then throw else
  let startRow := (nrows - 1)%nat in
  let startCol := 0%nat in
  let* g0 := update_cell set_visited grid startRow startCol in
  let* g1 := carve fuel nrows ncols g0 [{| row := startRow; col := startCol |}] in
  let extraPassages := Qfloor (inject_Z (cols * rows) * (8 # 100)) in
  extra_passages (Z.to_nat extraPassages) nrows ncols g1.

(** ** Numbers *)

Definition Qltb (a b : Q) : bool := negb (Qle_bool b a).

(** [Math.round]: the nearest integer, a half rounding up *)
Definition Math_round (q : Q) : Z := Qfloor (q + (1 # 2)).

Definition sqr (a : Q) : Q := a * a.

(** [(x - px) ** 2 + (y - py) ** 2], the argument of every [Math.sqrt] of the
    generator *)
Definition dist2 (x y px py : Q) : Q := (sqr (x - px) + sqr (y - py))%Q.

(** [Math.sqrt(a) < c] and [Math.sqrt(a) > c] for a sum of squares [a],
    decided on the squares. *)
Definition sqrt_lt (a c : Q) : bool := Qltb 0 c && Qltb a (c * c).
Definition sqrt_gt (a c : Q) : bool := Qltb c 0 || Qltb (c * c) a.

(** ** The level's data *)

Record Difficulty := {
  name : string; complexity : Z; holes : Z; sizeBonus : Z }.

Record Point := { pt_x : Q; pt_y : Q }.
Record Goal := { goal_x : Q; goal_y : Q; goal_radius : Z }.
Record Rect := { rect_x : Q; rect_y : Q; rect_width : Q; rect_height : Q }.
Record Hole := { hole_x : Q; hole_y : Q; hole_radius : Z }.
(** Coins and extra lives: both coordinates come out of [Math.round]. *)
Record Coin := { coin_x : Z; coin_y : Z }.
Record Powerup := { pu_x : Z; pu_y : Z; pu_type : string; pu_radius : Z }.
Record BouncePad := {
  pad_x : Z; pad_y : Z; pad_width : Z; pad_height : Z;
  pad_direction : string; pad_force : Z }.
Record SpeedZone := {
  zone_x : Z; zone_y : Z; zone_width : Z; zone_height : Z;
  zone_type : string; zone_multiplier : Q }.
Record MovingWall := {
  originalX : Q; originalY : Q; mw_width : Q; mw_height : Q;
  mw_direction : string; mw_range : Z; mw_speed : Z; mw_phase : Q }.

Record MazeDefinition := {
  id : Z;
  level_name : string;
  difficulty : string;
  width : Z;
  height : Z;
  ballRadius : Z;
  start : Point;
  goal : Goal;
  walls_of : list Rect;
  holes_of : list Hole;
  coins : list Coin;
  extraLives : list Coin;
  powerups : list Powerup;
  bouncePads : list BouncePad;
  speedZones : list SpeedZone;
  movingWalls : list MovingWall;
  starTimes : list Z;
  generated : bool }.

(** [getDifficulty] *)
Definition getDifficulty (levelNum : Z) : Difficulty :=
  if levelNum <=? 5 then {| name := "Easy"; complexity := 1; holes := 1; sizeBonus := 0 |}
  else if levelNum <=? 10 then {| name := "Easy"; complexity := 1; holes := 2; sizeBonus := 0 |}
  else if levelNum <=? 20 then {| name := "Easy"; complexity := 2; holes := 3; sizeBonus := 15 |}
  else if levelNum <=? 30 then {| name := "Medium"; complexity := 3; holes := 4; sizeBonus := 30 |}
  else if levelNum <=? 40 then {| name := "Medium"; complexity := 4; holes := 5; sizeBonus := 50 |}
  else if levelNum <=? 50 then {| name := "Hard"; complexity := 5; holes := 6; sizeBonus := 70 |}
  else if levelNum <=? 60 then {| name := "Hard"; complexity := 6; holes := 7; sizeBonus := 90 |}
  else if levelNum <=? 70 then {| name := "Expert"; complexity := 7; holes := 8; sizeBonus := 110 |}
  else if levelNum <=? 80 then {| name := "Expert"; complexity := 8; holes := 9; sizeBonus := 130 |}
  else if levelNum <=? 90 then {| name := "Master"; complexity := 9; holes := 10; sizeBonus := 150 |}
  else {| name := "Master"; complexity := 10; holes := 12; sizeBonus := 170 |}.

(** ** Loops over index ranges and arrays *)

Fixpoint for_each {A S : Type} (l : list A) (body : A -> S -> Gen S) (acc : S) : Gen S :=
  match l with
  | [] => ret acc
  | a :: l' => let* acc' := body a acc in for_each l' body acc'
  end.

(** [for (let i = 0; i < n; i++)] *)
Definition for_range {S : Type} (n : nat) (body : nat -> S -> Gen S) (acc : S) : Gen S :=
  for_each (seq 0 n) body acc.

(** The centre of the cell in column (or row) [k]:
    [offset + k * cellSize + cellSize / 2]. *)
Definition cell_centre (offset : Q) (k cellSize : Z) : Q :=
  (offset + inject_Z k * inject_Z cellSize + inject_Z cellSize / 2)%Q.

(** ** [mazeToWalls] *)

Definition W : Q := 8.

Definition mazeToWalls (grid : Grid) (cols rows cellSize canvasWidth canvasHeight : Z)
  : Gen (list Rect) :=
  let cw := inject_Z canvasWidth in
  let ch := inject_Z canvasHeight in
  let cs := inject_Z cellSize in
  let offsetX := ((cw - inject_Z cols * cs) / 2)%Q in
  let offsetY := ((ch - inject_Z rows * cs) / 2)%Q in
  let boundary :=
    [ {| rect_x := 0; rect_y := 0; rect_width := cw; rect_height := W |};
      {| rect_x := 0; rect_y := (ch - W)%Q; rect_width := cw; rect_height := W |};
      {| rect_x := 0; rect_y := 0; rect_width := W; rect_height := ch |};
      {| rect_x := (cw - W)%Q; rect_y := 0; rect_width := W; rect_height := ch |} ] in
  let* inner :=
    for_range (Z.to_nat rows) (fun r acc =>
      for_range (Z.to_nat cols) (fun c acc =>
        let* cl := defined (cell_at grid r c) in
        let x := (offsetX + inject_Z (Z.of_nat c) * cs)%Q in
        let y := (offsetY + inject_Z (Z.of_nat r) * cs)%Q in
        let acc1 :=
          if w_top (walls cl) && (0 <? r)%nat
          then acc ++ [{| rect_x := x; rect_y := (y - W / 2)%Q;
                          rect_width := cs; rect_height := W |}]
          else acc in
        let acc2 :=
          if w_left (walls cl) && (0 <? c)%nat
          then acc1 ++ [{| rect_x := (x - W / 2)%Q; rect_y := y;
                           rect_width := W; rect_height := cs |}]
          else acc1 in
        if (w_top (walls cl) || w_left (walls cl)) && (0 <? r)%nat && (0 <? c)%nat
        then
          let* topCell := defined (cell_at grid (r - 1)%nat c) in
          let* leftCell := defined (cell_at grid r (c - 1)%nat) in
          if w_top (walls cl) || w_left (walls cl)
             || w_left (walls topCell) || w_top (walls leftCell)
          then ret (acc2 ++ [{| rect_x := (x - W / 2)%Q; rect_y := (y - W / 2)%Q;
                                rect_width := W; rect_height := W |}])
          else ret acc2
        else ret acc2) acc) boundary in
  let* with_right :=
    for_range (Z.to_nat rows) (fun r acc =>
      let* cl := defined (if cols <? 1 then None
                          else cell_at grid r (Z.to_nat (cols - 1))) in
      if w_right (walls cl)
      then ret (acc ++ [{| rect_x := (offsetX + inject_Z cols * cs - W / 2)%Q;
                           rect_y := (offsetY + inject_Z (Z.of_nat r) * cs)%Q;
                           rect_width := W; rect_height := cs |}])
      else ret acc) inner in
  for_range (Z.to_nat cols) (fun c acc =>
    let* cl := defined (if rows <? 1 then None
                        else cell_at grid (Z.to_nat (rows - 1)) c) in
    if w_bottom (walls cl)
    then ret (acc ++ [{| rect_x := (offsetX + inject_Z (Z.of_nat c) * cs)%Q;
                         rect_y := (offsetY + inject_Z rows * cs - W / 2)%Q;
                         rect_width := cs; rect_height := W |}])
    else ret acc) with_right.

(** ** [generateHoles] *)

Section Placement.
(** What every placement routine is given. *)
Variables (levelNum : Z) (maze : Grid) (cols rows cellSize : Z) (offsetX offsetY : Q).
Variables (start : Point) (goal : Goal).

Definition cs : Q := inject_Z cellSize.

(** [Math.sqrt((x - start.x) ** 2 + (y - start.y) ** 2)], under its
    comparison *)
Definition distStart2 (x y : Q) : Q := dist2 x y (pt_x start) (pt_y start).
Definition distGoal2 (x y : Q) : Q := dist2 x y (goal_x goal) (goal_y goal).

(** A random cell: its column, then its row. *)
Definition random_cell : Gen (Q * Q) :=
  let* c := rand_below cols in
  let* r := rand_below rows in
  ret (cell_centre offsetX c cellSize, cell_centre offsetY r cellSize).

Definition near_hole (x y : Q) (d : Q) (hole : Hole) : bool :=
  sqrt_lt (dist2 x y (hole_x hole) (hole_y hole)) d.

(** The loop [while (attempts < 30)] for one hole. *)
Fixpoint hole_attempts (attempts_left : nat) (holes : list Hole) : Gen (list Hole) :=
  match attempts_left with
  | O => ret holes
  | S n =>
      let* '(x, y) := random_cell in
      let* k := rand_below 4 in
      let radius := 10 + k in
      if sqrt_lt (distStart2 x y) (cs * 1.5) || sqrt_lt (distGoal2 x y) (cs * 1.5)
      then hole_attempts n holes
      else if existsb (near_hole x y cs) holes
      then hole_attempts n holes
      else ret (holes ++ [{| hole_x := x; hole_y := y; hole_radius := radius |}])
  end.

Definition generateHoles (difficulty : Difficulty) : Gen (list Hole) :=
  for_range (Z.to_nat (holes difficulty)) (fun _ hs => hole_attempts 30 hs) [].

(** ** [generateCoins] *)

(** [Object.values(cell.walls).filter(w => w).length] *)
Definition wallCount (cl : Cell) : nat :=
  length (filter (fun w => w = true)
            [w_top (walls cl); w_right (walls cl); w_bottom (walls cl); w_left (walls cl)]).

(** The scan for dead ends, row by row; [keep] is what the caller asks of a
    dead end besides its three walls. *)
Definition dead_ends (keep : nat -> nat -> bool) : Gen (list Pos) :=
  for_range (Z.to_nat rows) (fun r acc =>
    for_range (Z.to_nat cols) (fun c acc =>
      let* cl := defined (cell_at maze r c) in
      if (3 <=? wallCount cl)%nat && keep r c
      then ret (acc ++ [{| row := r; col := c |}])
      else ret acc) acc) [].

(** [[a[i], a[j]] = [a[j], a[i]]].  Both indices are in range wherever the
    source swaps; outside, the array would hold [undefined] and its next
    read as an object throws, which the model raises here. *)
Definition swap {A} (l : list A) (i j : nat) : Gen (list A) :=
  let* ai := defined (l !! i) in
  let* aj := defined (l !! j) in
  ret (<[j := ai]> (<[i := aj]> l)).

(** [for (let i = a.length - 1; i > 0; i--)]: called with [i = a.length - 1] *)
Fixpoint shuffle_from {A} (i : nat) (l : list A) : Gen (list A) :=
  match i with
  | O => ret l
  | S i' =>
      let* j := rand_below (Z.of_nat i + 1) in
      let* l' := swap l i (Z.to_nat j) in
      shuffle_from i' l'
  end.

Definition shuffle {A} (l : list A) : Gen (list A) := shuffle_from (length l - 1) l.

Definition pos_centre (p : Pos) : Q * Q :=
  (cell_centre offsetX (Z.of_nat (col p)) cellSize,
   cell_centre offsetY (Z.of_nat (row p)) cellSize).

Definition near_coin (x y : Q) (d : Q) (coin : Coin) : bool :=
  sqrt_lt (dist2 x y (inject_Z (coin_x coin)) (inject_Z (coin_y coin))) d.

(** The coins put in dead ends: the first [numCoins] of the shuffled list,
    those away from start and goal. *)
Definition dead_end_coins (numCoins : nat) (deadEnds : list Pos) : list Coin :=
  fold_left (fun coins cell =>
    let '(x, y) := pos_centre cell in
    if sqrt_gt (distStart2 x y) cs && sqrt_gt (distGoal2 x y) cs
    then coins ++ [{| coin_x := Math_round x; coin_y := Math_round y |}]
    else coins) (take numCoins deadEnds) [].

(** [while (coins.length < numCoins)]: the loop has no bound of its own. *)
Fixpoint fill_coins (fuel : nat) (numCoins : nat) (coins : list Coin) : Gen (list Coin) :=
  if (length coins <? numCoins)%nat then
    match fuel with
    | O => timeout
    | S fuel' =>
        let* '(x, y) := random_cell in
        if sqrt_lt (distStart2 x y) cs || sqrt_lt (distGoal2 x y) cs
        then fill_coins fuel' numCoins coins
        else if existsb (near_coin x y (cs * 0.8)) coins
        then fill_coins fuel' numCoins coins
        else fill_coins fuel' numCoins
               (coins ++ [{| coin_x := Math_round x; coin_y := Math_round y |}])
    end
  else ret coins.

Definition numCoins_of : nat := Z.to_nat (Z.min (3 + levelNum / 12) 10).

Definition generateCoins (fuel : nat) : Gen (list Coin) :=
  let numCoins := numCoins_of in
  let* deadEnds := dead_ends (fun _ _ => true) in
  let* deadEnds := shuffle deadEnds in
  fill_coins fuel numCoins (dead_end_coins numCoins deadEnds).
End Placement.

Section MorePlacement.
Variables (levelNum : Z) (maze : Grid) (cols rows cellSize : Z) (offsetX offsetY : Q).
Variables (start : Point) (goal : Goal).

Let cs : Q := inject_Z cellSize.
Let centre_of := random_cell cols rows cellSize offsetX offsetY.

(** ** [generateExtraLives] *)

Definition chanceForLife : Q := Qmin 0.3 (0.05 + inject_Z levelNum * 0.003).

Definition generateExtraLives (coins : list Coin) (holes : list Hole) : Gen (list Coin) :=
  let* r := rng in
  if Qltb chanceForLife r then ret [] else
  let* deadEnds :=
    for_range (Z.to_nat rows) (fun r acc =>
      for_range (Z.to_nat cols) (fun c acc =>
        let* cl := defined (cell_at maze r c) in
        if (3 <=? wallCount cl)%nat then
          let x := cell_centre offsetX (Z.of_nat c) cellSize in
          let y := cell_centre offsetY (Z.of_nat r) cellSize in
          if sqrt_lt (distStart2 start x y) (cs * 2) || sqrt_lt (distGoal2 goal x y) (cs * 2)
          then ret acc
          else if existsb (near_coin x y (cs * 0.5)) coins then ret acc
          else if existsb (near_hole x y (cs * 0.5)) holes then ret acc
          else ret (acc ++ [{| pt_x := x; pt_y := y |}])
        else ret acc) acc) [] in
  if (0 <? length deadEnds)%nat then
    let* i := rand_below (Z.of_nat (length deadEnds)) in
    let* spot := defined (if i <? 0 then None else deadEnds !! Z.to_nat i) in
    ret [{| coin_x := Math_round (pt_x spot); coin_y := Math_round (pt_y spot) |}]
  else ret [].

(** ** [generatePowerups] *)

Definition availableTypes : list string :=
  (if 6 <=? levelNum then ["speed_boost"; "slow_motion"] else [])
  ++ (if 15 <=? levelNum then ["shield"] else [])
  ++ (if 25 <=? levelNum then ["magnet"; "shrink"] else [])
  ++ (if 35 <=? levelNum then ["ghost"] else [])
  ++ (if 45 <=? levelNum then ["time_freeze"] else [])
  ++ (if 55 <=? levelNum then ["double_coins"] else []).

Definition near_powerup (x y : Q) (d : Q) (p : Powerup) : bool :=
  sqrt_lt (dist2 x y (inject_Z (pu_x p)) (inject_Z (pu_y p))) d.

(** [arr[Math.floor(rng() * arr.length)]] of an array of strings; a read
    out of range gives [undefined], written as that word. *)
Definition pick (arr : list string) : Gen string :=
  let* i := rand_below (Z.of_nat (length arr)) in
  ret (default "undefined" (if i <? 0 then None else arr !! Z.to_nat i)).

(** [for (let attempt = 0; attempt < 20; attempt++)] for one powerup *)
Fixpoint powerup_attempts (attempts_left : nat) (holes : list Hole)
    (powerups : list Powerup) : Gen (list Powerup) :=
  match attempts_left with
  | O => ret powerups
  | S n =>
      let* '(x, y) := centre_of in
      if sqrt_lt (distStart2 start x y) (cs * 2) || sqrt_lt (distGoal2 goal x y) cs
      then powerup_attempts n holes powerups
      else if existsb (near_hole x y cs) holes
      then powerup_attempts n holes powerups
      else if existsb (near_powerup x y (cs * 1.5)) powerups
      then powerup_attempts n holes powerups
      else
        let* type := pick availableTypes in
        ret (powerups ++ [{| pu_x := Math_round x; pu_y := Math_round y;
                             pu_type := type; pu_radius := 14 |}])
  end.

Definition numPowerups : Z := Z.min 3 ((levelNum - 5) / 15 + 1).

Definition generatePowerups (holes : list Hole) : Gen (list Powerup) :=
  if levelNum <? 6 then ret [] else
  for_range (Z.to_nat numPowerups) (fun _ ps => powerup_attempts 20 holes ps) [].

(** ** [generateBouncePads] *)

Definition near_pad (x y : Q) (d : Q) (pad : BouncePad) : bool :=
  sqrt_lt (dist2 x y (inject_Z (pad_x pad)) (inject_Z (pad_y pad))) d.

Definition directions : list string := ["up"; "down"; "left"; "right"].

Fixpoint pad_attempts (attempts_left : nat) (holes : list Hole)
    (bouncePads : list BouncePad) : Gen (list BouncePad) :=
  match attempts_left with
  | O => ret bouncePads
  | S n =>
      let* '(x, y) := centre_of in
      if sqrt_lt (distStart2 start x y) (cs * 1.5) || sqrt_lt (distGoal2 goal x y) (cs * 1.5)
      then pad_attempts n holes bouncePads
      else if existsb (near_hole x y (cs * 0.8)) holes
      then pad_attempts n holes bouncePads
      else if existsb (near_pad x y (cs * 2)) bouncePads
      then pad_attempts n holes bouncePads
      else
        let* direction := pick directions in
        let* k := rand_below 6 in
        ret (bouncePads ++ [{| pad_x := Math_round x; pad_y := Math_round y;
                               pad_width := 25; pad_height := 10;
                               pad_direction := direction; pad_force := 12 + k |}])
  end.

Definition numPads : Z := Z.min 4 ((levelNum - 10) / 12 + 1).

Definition generateBouncePads (holes : list Hole) : Gen (list BouncePad) :=
  if levelNum <? 11 then ret [] else
  for_range (Z.to_nat numPads) (fun _ ps => pad_attempts 20 holes ps) [].

(** ** [generateSpeedZones] *)

Definition near_zone (x y : Q) (d : Q) (zone : SpeedZone) : bool :=
  sqrt_lt (dist2 x y (inject_Z (zone_x zone)) (inject_Z (zone_y zone))) d.

Fixpoint zone_attempts (attempts_left : nat) (speedZones : list SpeedZone)
  : Gen (list SpeedZone) :=
  match attempts_left with
  | O => ret speedZones
  | S n =>
      let* c := rand_below (cols - 1) in
      let* r := rand_below (rows - 1) in
      let x := (offsetX + inject_Z c * cs)%Q in
      let y := (offsetY + inject_Z r * cs)%Q in
      if existsb (near_zone x y (cs * 2)) speedZones
      then zone_attempts n speedZones
      else
        let* v := rng in
        let isSlowZone := Qltb 0.5 v in
        ret (speedZones ++ [{| zone_x := Math_round x; zone_y := Math_round y;
                               zone_width := cellSize; zone_height := cellSize;
                               zone_type := if isSlowZone then "slow" else "fast";
                               zone_multiplier := if isSlowZone then 0.4 else 2 |}])
  end.

Definition numZones : Z := Z.min 3 ((levelNum - 15) / 15 + 1).

Definition generateSpeedZones : Gen (list SpeedZone) :=
  if levelNum <? 16 then ret [] else
  for_range (Z.to_nat numZones) (fun _ zs => zone_attempts 15 zs) [].
End MorePlacement.

(** ** [generateMovingWalls] *)

(** [Math.PI], the binary64 number 3.141592653589793 *)
Definition Math_PI : Q := 884279719003555 # 281474976710656.

Definition numMoving (levelNum : Z) : Z := Z.min 3 ((levelNum - 20) / 15 + 1).

Definition generateMovingWalls (levelNum : Z) (walls : list Rect) : Gen (list MovingWall) :=
  if levelNum <? 21 then ret [] else
  let candidateWalls :=
    List.filter (fun w => Qltb 30 (rect_width w) || Qltb 30 (rect_height w)) walls in
  if (length candidateWalls =? 0)%nat then ret [] else
  let* candidateWalls := shuffle candidateWalls in
  for_each (take (Z.to_nat (numMoving levelNum)) candidateWalls) (fun wall acc =>
    let isHorizontal := Qltb (rect_height wall) (rect_width wall) in
    let* a := rand_below 30 in
    let* b := rand_below 30 in
    let* p := rng in
    ret (acc ++ [{| originalX := rect_x wall; originalY := rect_y wall;
                    mw_width := rect_width wall; mw_height := rect_height wall;
                    mw_direction := if isHorizontal then "vertical" else "horizontal";
                    mw_range := 30 + a; mw_speed := 20 + b;
                    mw_phase := (p * Math_PI * 2)%Q |}])) [].

(** ** [getLevelName] *)

Definition names : list string :=
  [ "First Steps"; "Getting Started"; "Easy Does It"; "Rolling Along"; "Simple Path";
    "Learning Curve"; "Basic Maze"; "Warm Up"; "Foundation"; "Ready Set Go";
    "The Journey"; "Winding Road"; "Twist & Turn"; "Maze Runner"; "Path Finder";
    "Navigate"; "Explore"; "Discovery"; "Adventure"; "Challenge Ahead";
    "Tight Squeeze"; "Narrow Passage"; "Compact"; "Dense Path"; "Crowded";
    "Complex Route"; "Intricate"; "Detailed"; "Elaborate"; "Sophisticated";
    "Precision"; "Careful Steps"; "Delicate"; "Fine Control"; "Steady";
    "Concentration"; "Focus Zone"; "Attention"; "Mindful"; "Deliberate";
    "Danger Zone"; "Risk Taker"; "Perilous"; "Hazardous"; "Treacherous";
    "Risky Business"; "High Stakes"; "Edge Walker"; "Cliff Hanger"; "Survivor";
    "Labyrinth"; "Deep Maze"; "Lost Ways"; "Confusion"; "Bewildering";
    "Perplexing"; "Enigma"; "Mystery"; "Puzzle Box"; "Riddle";
    "Time Trial"; "Speed Demon"; "Quick Reflex"; "Fast Lane"; "Rapid";
    "Swift"; "Velocity"; "Momentum"; "Acceleration"; "Turbo";
    "Ghost Walk"; "Phase Shift"; "Ethereal"; "Phantom"; "Spirit";
    "Spectral"; "Astral"; "Dimensional"; "Void Walker"; "Shadow";
    "Magnetic"; "Attraction"; "Pull Force"; "Gravity Well"; "Force Field";
    "Energy"; "Power Core"; "Dynamo"; "Generator"; "Reactor";
    "Ultimate"; "Supreme"; "Pinnacle"; "Apex"; "Zenith";
    "Summit"; "Crown"; "Throne"; "Glory"; "Legendary" ].

Definition getLevelName (levelNum : Z) : string :=
  default ("Level " +:+ pretty levelNum)
    (if levelNum <? 1 then None else names !! Z.to_nat (levelNum - 1)).

(** ** [generateLevel] *)

Definition cellSize_of (d : Difficulty) : Z := Z.max 50 (70 - complexity d * 2).
Definition width_of (d : Difficulty) : Z := Qfloor (300 + inject_Z (sizeBonus d)).
Definition height_of (d : Difficulty) : Z := Qfloor (420 + inject_Z (sizeBonus d) * 1.2).
Definition cols_of (d : Difficulty) : Z :=
  Qfloor (inject_Z (width_of d - 60) / inject_Z (cellSize_of d)).
Definition rows_of (d : Difficulty) : Z :=
  Qfloor (inject_Z (height_of d - 60) / inject_Z (cellSize_of d)).

Definition baseTime (levelNum : Z) : Z :=
  12000 + levelNum * 600 + complexity (getDifficulty levelNum) * 1500.

Definition starTimes_of (levelNum : Z) : list Z :=
  [ Qfloor (inject_Z (baseTime levelNum));
    Qfloor (inject_Z (baseTime levelNum) * 0.65);
    Qfloor (inject_Z (baseTime levelNum) * 0.4) ].

Definition generateLevel (fuel : nat) (levelNum : Z) : Gen MazeDefinition :=
  let* _ := random (levelNum * 7919) in
  let difficulty := getDifficulty levelNum in
  let width := width_of difficulty in
  let height := height_of difficulty in
  let cellSize := cellSize_of difficulty in
  let cols := cols_of difficulty in
  let rows := rows_of difficulty in
  let* maze := generateMazeGrid fuel cols rows in
  let* walls := mazeToWalls maze cols rows cellSize width height in
  let ballRadius := Z.max 6 (12 - levelNum / 20) in
  let offsetX := ((inject_Z width - inject_Z cols * inject_Z cellSize) / 2)%Q in
  let offsetY := ((inject_Z height - inject_Z rows * inject_Z cellSize) / 2)%Q in
  let start := {| pt_x := cell_centre offsetX 0 cellSize;
                  pt_y := cell_centre offsetY (rows - 1) cellSize |} in
  let goal := {| goal_x := cell_centre offsetX (cols - 1) cellSize;
                 goal_y := cell_centre offsetY 0 cellSize;
                 goal_radius := Z.max 14 (22 - levelNum / 25) |} in
  let* holes := generateHoles cols rows cellSize offsetX offsetY start goal difficulty in
  let* coins := generateCoins levelNum maze cols rows cellSize offsetX offsetY start goal fuel in
  let* extraLives :=
    generateExtraLives levelNum maze cols rows cellSize offsetX offsetY start goal coins holes in
  let* powerups :=
    generatePowerups levelNum cols rows cellSize offsetX offsetY start goal holes in
  let* bouncePads :=
    generateBouncePads levelNum cols rows cellSize offsetX offsetY start goal holes in
  let* speedZones := generateSpeedZones levelNum cols rows cellSize offsetX offsetY in
  let* movingWalls := generateMovingWalls levelNum walls in
  ret {| id := levelNum;
         level_name := getLevelName levelNum;
         difficulty := name difficulty;
         width := width;
         height := height;
         ballRadius := ballRadius;
         start := start;
         goal := goal;
         walls_of := walls;
         holes_of := holes;
         coins := coins;
         extraLives := extraLives;
         powerups := powerups;
         bouncePads := bouncePads;
         speedZones := speedZones;
         movingWalls := movingWalls;
         starTimes := starTimes_of levelNum;
         generated := true |}.

(** * The game engine ([GameEngine.js]) *)

Local Open Scope Q_scope.

(** ** Data *)

(** The level object the level manager hands to [loadLevel].  A property
    the engine guards ([x || []], [x?.y]) or dereferences unguarded may be
    absent; [width] and [height] are plain numbers. *)
Record LevelObject := {
  o_width : Z;
  o_height : Z;
  o_ballRadius : option Z;
  o_start : option Point;
  o_goal : option Goal;
  o_walls : option (list Rect);
  o_holes : option (list Hole);
  o_coins : option (list Coin);
  o_extraLives : option (list Coin);
  o_powerups : option (list Powerup);
  o_bouncePads : option (list BouncePad);
  o_speedZones : option (list SpeedZone);
  o_movingWalls : option (list MovingWall);
  o_starTimes : option (list Z) }.

(** A generated definition, as the object [getLevel] copies it into. *)
Definition level_object (m : MazeDefinition) : LevelObject :=
  {| o_width := width m; o_height := height m;
     o_ballRadius := Some (ballRadius m);
     o_start := Some (start m); o_goal := Some (goal m);
     o_walls := Some (walls_of m); o_holes := Some (holes_of m);
     o_coins := Some (coins m); o_extraLives := Some (extraLives m);
     o_powerups := Some (powerups m); o_bouncePads := Some (bouncePads m);
     o_speedZones := Some (speedZones m); o_movingWalls := Some (movingWalls m);
     o_starTimes := Some (starTimes m) |}.

Record Ball := {
  ball_x : Q; ball_y : Q; ball_vx : Q; ball_vy : Q;
  ball_radius : Q; ball_mass : Q; ball_friction : Q; ball_bounce : Q }.

(** A coin or an extra life of the running level: a copy the magnet may move. *)
Record RtCoin := { rc_x : Q; rc_y : Q }.
Record RtPowerup := {
  rp_x : Q; rp_y : Q; rp_type : string; rp_radius : Q; rp_collected : bool }.
Record RtMovingWall := {
  rw_wall : MovingWall; currentX : Q; currentY : Q; rw_time : Q }.

(** What a pending [setTimeout] of the engine does when it fires. *)
Inductive TimerAction :=
  | ExpirePowerup (type : string)
  | DeactivateTimeWarp.

Record Timeout := { t_id : nat; t_due : Q; t_action : TimerAction }.

Record ActivePowerup := { ap_active : bool; ap_endTime : Q; ap_timer : nat }.

(** The callbacks the engine invokes, recorded in the order of the calls. *)
Inductive Event :=
  | onLevelStart
  | onWallHit
  | onCoinCollected (total : Z)
  | onLifeCollected
  | onPowerup (type : string)
  | onBouncePad
  | onTimeUpdate (elapsed : Q)
  | onFellInHole
  | onWin (time : Q) (stars : Z).

(** The engine's fields, and what the browser holds for it: the pending
    timeouts, whether an animation frame is requested and whether the
    100 ms interval timer runs.  Rendering, particles, the trail, sound and
    vibration never feed back into these and are left out. *)
Record Engine := {
  isRunning : bool;
  isPaused : bool;
  currentLevel : option LevelObject;
  levelIndex : Z;
  ball : Ball;
  gravity : Q;
  maxSpeed : Q;
  startTime : Q;
  elapsedTime : Q;
  timerInterval : bool;
  timeScale : Q;
  timeWarpActive : bool;
  timeWarpUsed : bool;
  timeWarpDuration : Q;
  frameRequested : bool;
  lastFrameTime : Q;
  levelCoins : list RtCoin;
  coinRadius : Q;
  coinsCollectedThisLevel : Z;
  levelExtraLives : list RtCoin;
  extraLifeRadius : Q;
  levelPowerups : list RtPowerup;
  activePowerups : gmap string ActivePowerup;
  levelBouncePads : list BouncePad;
  levelSpeedZones : list SpeedZone;
  levelMovingWalls : list RtMovingWall;
  timeouts : list Timeout;
  next_timer : nat;
  events : list Event }.

(** The constructor's values. *)
Definition new_engine : Engine :=
  {| isRunning := false; isPaused := false; currentLevel := None; levelIndex := 0;
     ball := {| ball_x := 0; ball_y := 0; ball_vx := 0; ball_vy := 0;
                ball_radius := 15; ball_mass := 1;
                ball_friction := 0.98; ball_bounce := 0.75 |};
     gravity := 0.5; maxSpeed := 12;
     startTime := 0; elapsedTime := 0; timerInterval := false;
     timeScale := 1; timeWarpActive := false; timeWarpUsed := false;
     timeWarpDuration := 3000;
     frameRequested := false; lastFrameTime := 0;
     levelCoins := []; coinRadius := 12; coinsCollectedThisLevel := 0;
     levelExtraLives := []; extraLifeRadius := 14;
     levelPowerups := []; activePowerups := ∅;
     levelBouncePads := []; levelSpeedZones := []; levelMovingWalls := [];
     timeouts := []; next_timer := 0; events := [] |}.

(** A call either returns or throws; both leave the engine as mutated so far. *)
Inductive completion (A : Type) :=
  | Normal (a : A) (e : Engine)
  | Thrown (e : Engine).
Arguments Normal {A} a e.
Arguments Thrown {A} e.

Definition engine_of {A} (c : completion A) : Engine :=
  match c with Normal _ e => e | Thrown e => e end.

(** Assignments to one field: [this.f = v]. *)
Definition set_isRunning (v : bool) (e : Engine) : Engine :=
  {| isRunning := v; isPaused := isPaused e; currentLevel := currentLevel e;
     levelIndex := levelIndex e; ball := ball e; gravity := gravity e;
     maxSpeed := maxSpeed e; startTime := startTime e; elapsedTime := elapsedTime e;
     timerInterval := timerInterval e; timeScale := timeScale e;
     timeWarpActive := timeWarpActive e; timeWarpUsed := timeWarpUsed e;
     timeWarpDuration := timeWarpDuration e; frameRequested := frameRequested e;
     lastFrameTime := lastFrameTime e; levelCoins := levelCoins e;
     coinRadius := coinRadius e; coinsCollectedThisLevel := coinsCollectedThisLevel e;
     levelExtraLives := levelExtraLives e; extraLifeRadius := extraLifeRadius e;
     levelPowerups := levelPowerups e; activePowerups := activePowerups e;
     levelBouncePads := levelBouncePads e; levelSpeedZones := levelSpeedZones e;
     levelMovingWalls := levelMovingWalls e; timeouts := timeouts e;
     next_timer := next_timer e; events := events e |}.
Definition set_isPaused (v : bool) (e : Engine) : Engine :=
  {| isRunning := isRunning e; isPaused := v; currentLevel := currentLevel e;
     levelIndex := levelIndex e; ball := ball e; gravity := gravity e;
     maxSpeed := maxSpeed e; startTime := startTime e; elapsedTime := elapsedTime e;
     timerInterval := timerInterval e; timeScale := timeScale e;
     timeWarpActive := timeWarpActive e; timeWarpUsed := timeWarpUsed e;
     timeWarpDuration := timeWarpDuration e; frameRequested := frameRequested e;
     lastFrameTime := lastFrameTime e; levelCoins := levelCoins e;
     coinRadius := coinRadius e; coinsCollectedThisLevel := coinsCollectedThisLevel e;
     levelExtraLives := levelExtraLives e; extraLifeRadius := extraLifeRadius e;
     levelPowerups := levelPowerups e; activePowerups := activePowerups e;
     levelBouncePads := levelBouncePads e; levelSpeedZones := levelSpeedZones e;
     levelMovingWalls := levelMovingWalls e; timeouts := timeouts e;
     next_timer := next_timer e; events := events e |}.
Definition set_currentLevel (v : option LevelObject) (e : Engine) : Engine :=
  {| isRunning := isRunning e; isPaused := isPaused e; currentLevel := v;
     levelIndex := levelIndex e; ball := ball e; gravity := gravity e;
     maxSpeed := maxSpeed e; startTime := startTime e; elapsedTime := elapsedTime e;
     timerInterval := timerInterval e; timeScale := timeScale e;
     timeWarpActive := timeWarpActive e; timeWarpUsed := timeWarpUsed e;
     timeWarpDuration := timeWarpDuration e; frameRequested := frameRequested e;
     lastFrameTime := lastFrameTime e; levelCoins := levelCoins e;
     coinRadius := coinRadius e; coinsCollectedThisLevel := coinsCollectedThisLevel e;
     levelExtraLives := levelExtraLives e; extraLifeRadius := extraLifeRadius e;
     levelPowerups := levelPowerups e; activePowerups := activePowerups e;
     levelBouncePads := levelBouncePads e; levelSpeedZones := levelSpeedZones e;
     levelMovingWalls := levelMovingWalls e; timeouts := timeouts e;
     next_timer := next_timer e; events := events e |}.
Definition set_levelIndex (v : Z) (e : Engine) : Engine :=
  {| isRunning := isRunning e; isPaused := isPaused e; currentLevel := currentLevel e;
     levelIndex := v; ball := ball e; gravity := gravity e; maxSpeed := maxSpeed e;
     startTime := startTime e; elapsedTime := elapsedTime e;
     timerInterval := timerInterval e; timeScale := timeScale e;
     timeWarpActive := timeWarpActive e; timeWarpUsed := timeWarpUsed e;
     timeWarpDuration := timeWarpDuration e; frameRequested := frameRequested e;
     lastFrameTime := lastFrameTime e; levelCoins := levelCoins e;
     coinRadius := coinRadius e; coinsCollectedThisLevel := coinsCollectedThisLevel e;
     levelExtraLives := levelExtraLives e; extraLifeRadius := extraLifeRadius e;
     levelPowerups := levelPowerups e; activePowerups := activePowerups e;
     levelBouncePads := levelBouncePads e; levelSpeedZones := levelSpeedZones e;
     levelMovingWalls := levelMovingWalls e; timeouts := timeouts e;
     next_timer := next_timer e; events := events e |}.
Definition set_ball (v : Ball) (e : Engine) : Engine :=
  {| isRunning := isRunning e; isPaused := isPaused e; currentLevel := currentLevel e;
     levelIndex := levelIndex e; ball := v; gravity := gravity e;
     maxSpeed := maxSpeed e; startTime := startTime e; elapsedTime := elapsedTime e;
     timerInterval := timerInterval e; timeScale := timeScale e;
     timeWarpActive := timeWarpActive e; timeWarpUsed := timeWarpUsed e;
     timeWarpDuration := timeWarpDuration e; frameRequested := frameRequested e;
     lastFrameTime := lastFrameTime e; levelCoins := levelCoins e;
     coinRadius := coinRadius e; coinsCollectedThisLevel := coinsCollectedThisLevel e;
     levelExtraLives := levelExtraLives e; extraLifeRadius := extraLifeRadius e;
     levelPowerups := levelPowerups e; activePowerups := activePowerups e;
     levelBouncePads := levelBouncePads e; levelSpeedZones := levelSpeedZones e;
     levelMovingWalls := levelMovingWalls e; timeouts := timeouts e;
     next_timer := next_timer e; events := events e |}.
Definition set_startTime (v : Q) (e : Engine) : Engine :=
  {| isRunning := isRunning e; isPaused := isPaused e; currentLevel := currentLevel e;
     levelIndex := levelIndex e; ball := ball e; gravity := gravity e;
     maxSpeed := maxSpeed e; startTime := v; elapsedTime := elapsedTime e;
     timerInterval := timerInterval e; timeScale := timeScale e;
     timeWarpActive := timeWarpActive e; timeWarpUsed := timeWarpUsed e;
     timeWarpDuration := timeWarpDuration e; frameRequested := frameRequested e;
     lastFrameTime := lastFrameTime e; levelCoins := levelCoins e;
     coinRadius := coinRadius e; coinsCollectedThisLevel := coinsCollectedThisLevel e;
     levelExtraLives := levelExtraLives e; extraLifeRadius := extraLifeRadius e;
     levelPowerups := levelPowerups e; activePowerups := activePowerups e;
     levelBouncePads := levelBouncePads e; levelSpeedZones := levelSpeedZones e;
     levelMovingWalls := levelMovingWalls e; timeouts := timeouts e;
     next_timer := next_timer e; events := events e |}.
Definition set_elapsedTime (v : Q) (e : Engine) : Engine :=
  {| isRunning := isRunning e; isPaused := isPaused e; currentLevel := currentLevel e;
     levelIndex := levelIndex e; ball := ball e; gravity := gravity e;
     maxSpeed := maxSpeed e; startTime := startTime e; elapsedTime := v;
     timerInterval := timerInterval e; timeScale := timeScale e;
     timeWarpActive := timeWarpActive e; timeWarpUsed := timeWarpUsed e;
     timeWarpDuration := timeWarpDuration e; frameRequested := frameRequested e;
     lastFrameTime := lastFrameTime e; levelCoins := levelCoins e;
     coinRadius := coinRadius e; coinsCollectedThisLevel := coinsCollectedThisLevel e;
     levelExtraLives := levelExtraLives e; extraLifeRadius := extraLifeRadius e;
     levelPowerups := levelPowerups e; activePowerups := activePowerups e;
     levelBouncePads := levelBouncePads e; levelSpeedZones := levelSpeedZones e;
     levelMovingWalls := levelMovingWalls e; timeouts := timeouts e;
     next_timer := next_timer e; events := events e |}.
Definition set_timerInterval (v : bool) (e : Engine) : Engine :=
  {| isRunning := isRunning e; isPaused := isPaused e; currentLevel := currentLevel e;
     levelIndex := levelIndex e; ball := ball e; gravity := gravity e;
     maxSpeed := maxSpeed e; startTime := startTime e; elapsedTime := elapsedTime e;
     timerInterval := v; timeScale := timeScale e; timeWarpActive := timeWarpActive e;
     timeWarpUsed := timeWarpUsed e; timeWarpDuration := timeWarpDuration e;
     frameRequested := frameRequested e; lastFrameTime := lastFrameTime e;
     levelCoins := levelCoins e; coinRadius := coinRadius e;
     coinsCollectedThisLevel := coinsCollectedThisLevel e;
     levelExtraLives := levelExtraLives e; extraLifeRadius := extraLifeRadius e;
     levelPowerups := levelPowerups e; activePowerups := activePowerups e;
     levelBouncePads := levelBouncePads e; levelSpeedZones := levelSpeedZones e;
     levelMovingWalls := levelMovingWalls e; timeouts := timeouts e;
     next_timer := next_timer e; events := events e |}.
Definition set_timeScale (v : Q) (e : Engine) : Engine :=
  {| isRunning := isRunning e; isPaused := isPaused e; currentLevel := currentLevel e;
     levelIndex := levelIndex e; ball := ball e; gravity := gravity e;
     maxSpeed := maxSpeed e; startTime := startTime e; elapsedTime := elapsedTime e;
     timerInterval := timerInterval e; timeScale := v;
     timeWarpActive := timeWarpActive e; timeWarpUsed := timeWarpUsed e;
     timeWarpDuration := timeWarpDuration e; frameRequested := frameRequested e;
     lastFrameTime := lastFrameTime e; levelCoins := levelCoins e;
     coinRadius := coinRadius e; coinsCollectedThisLevel := coinsCollectedThisLevel e;
     levelExtraLives := levelExtraLives e; extraLifeRadius := extraLifeRadius e;
     levelPowerups := levelPowerups e; activePowerups := activePowerups e;
     levelBouncePads := levelBouncePads e; levelSpeedZones := levelSpeedZones e;
     levelMovingWalls := levelMovingWalls e; timeouts := timeouts e;
     next_timer := next_timer e; events := events e |}.
Definition set_timeWarpActive (v : bool) (e : Engine) : Engine :=
  {| isRunning := isRunning e; isPaused := isPaused e; currentLevel := currentLevel e;
     levelIndex := levelIndex e; ball := ball e; gravity := gravity e;
     maxSpeed := maxSpeed e; startTime := startTime e; elapsedTime := elapsedTime e;
     timerInterval := timerInterval e; timeScale := timeScale e; timeWarpActive := v;
     timeWarpUsed := timeWarpUsed e; timeWarpDuration := timeWarpDuration e;
     frameRequested := frameRequested e; lastFrameTime := lastFrameTime e;
     levelCoins := levelCoins e; coinRadius := coinRadius e;
     coinsCollectedThisLevel := coinsCollectedThisLevel e;
     levelExtraLives := levelExtraLives e; extraLifeRadius := extraLifeRadius e;
     levelPowerups := levelPowerups e; activePowerups := activePowerups e;
     levelBouncePads := levelBouncePads e; levelSpeedZones := levelSpeedZones e;
     levelMovingWalls := levelMovingWalls e; timeouts := timeouts e;
     next_timer := next_timer e; events := events e |}.
Definition set_timeWarpUsed (v : bool) (e : Engine) : Engine :=
  {| isRunning := isRunning e; isPaused := isPaused e; currentLevel := currentLevel e;
     levelIndex := levelIndex e; ball := ball e; gravity := gravity e;
     maxSpeed := maxSpeed e; startTime := startTime e; elapsedTime := elapsedTime e;
     timerInterval := timerInterval e; timeScale := timeScale e;
     timeWarpActive := timeWarpActive e; timeWarpUsed := v;
     timeWarpDuration := timeWarpDuration e; frameRequested := frameRequested e;
     lastFrameTime := lastFrameTime e; levelCoins := levelCoins e;
     coinRadius := coinRadius e; coinsCollectedThisLevel := coinsCollectedThisLevel e;
     levelExtraLives := levelExtraLives e; extraLifeRadius := extraLifeRadius e;
     levelPowerups := levelPowerups e; activePowerups := activePowerups e;
     levelBouncePads := levelBouncePads e; levelSpeedZones := levelSpeedZones e;
     levelMovingWalls := levelMovingWalls e; timeouts := timeouts e;
     next_timer := next_timer e; events := events e |}.
Definition set_frameRequested (v : bool) (e : Engine) : Engine :=
  {| isRunning := isRunning e; isPaused := isPaused e; currentLevel := currentLevel e;
     levelIndex := levelIndex e; ball := ball e; gravity := gravity e;
     maxSpeed := maxSpeed e; startTime := startTime e; elapsedTime := elapsedTime e;
     timerInterval := timerInterval e; timeScale := timeScale e;
     timeWarpActive := timeWarpActive e; timeWarpUsed := timeWarpUsed e;
     timeWarpDuration := timeWarpDuration e; frameRequested := v;
     lastFrameTime := lastFrameTime e; levelCoins := levelCoins e;
     coinRadius := coinRadius e; coinsCollectedThisLevel := coinsCollectedThisLevel e;
     levelExtraLives := levelExtraLives e; extraLifeRadius := extraLifeRadius e;
     levelPowerups := levelPowerups e; activePowerups := activePowerups e;
     levelBouncePads := levelBouncePads e; levelSpeedZones := levelSpeedZones e;
     levelMovingWalls := levelMovingWalls e; timeouts := timeouts e;
     next_timer := next_timer e; events := events e |}.
Definition set_lastFrameTime (v : Q) (e : Engine) : Engine :=
  {| isRunning := isRunning e; isPaused := isPaused e; currentLevel := currentLevel e;
     levelIndex := levelIndex e; ball := ball e; gravity := gravity e;
     maxSpeed := maxSpeed e; startTime := startTime e; elapsedTime := elapsedTime e;
     timerInterval := timerInterval e; timeScale := timeScale e;
     timeWarpActive := timeWarpActive e; timeWarpUsed := timeWarpUsed e;
     timeWarpDuration := timeWarpDuration e; frameRequested := frameRequested e;
     lastFrameTime := v; levelCoins := levelCoins e; coinRadius := coinRadius e;
     coinsCollectedThisLevel := coinsCollectedThisLevel e;
     levelExtraLives := levelExtraLives e; extraLifeRadius := extraLifeRadius e;
     levelPowerups := levelPowerups e; activePowerups := activePowerups e;
     levelBouncePads := levelBouncePads e; levelSpeedZones := levelSpeedZones e;
     levelMovingWalls := levelMovingWalls e; timeouts := timeouts e;
     next_timer := next_timer e; events := events e |}.
Definition set_levelCoins (v : list RtCoin) (e : Engine) : Engine :=
  {| isRunning := isRunning e; isPaused := isPaused e; currentLevel := currentLevel e;
     levelIndex := levelIndex e; ball := ball e; gravity := gravity e;
     maxSpeed := maxSpeed e; startTime := startTime e; elapsedTime := elapsedTime e;
     timerInterval := timerInterval e; timeScale := timeScale e;
     timeWarpActive := timeWarpActive e; timeWarpUsed := timeWarpUsed e;
     timeWarpDuration := timeWarpDuration e; frameRequested := frameRequested e;
     lastFrameTime := lastFrameTime e; levelCoins := v; coinRadius := coinRadius e;
     coinsCollectedThisLevel := coinsCollectedThisLevel e;
     levelExtraLives := levelExtraLives e; extraLifeRadius := extraLifeRadius e;
     levelPowerups := levelPowerups e; activePowerups := activePowerups e;
     levelBouncePads := levelBouncePads e; levelSpeedZones := levelSpeedZones e;
     levelMovingWalls := levelMovingWalls e; timeouts := timeouts e;
     next_timer := next_timer e; events := events e |}.
Definition set_coinsCollectedThisLevel (v : Z) (e : Engine) : Engine :=
  {| isRunning := isRunning e; isPaused := isPaused e; currentLevel := currentLevel e;
     levelIndex := levelIndex e; ball := ball e; gravity := gravity e;
     maxSpeed := maxSpeed e; startTime := startTime e; elapsedTime := elapsedTime e;
     timerInterval := timerInterval e; timeScale := timeScale e;
     timeWarpActive := timeWarpActive e; timeWarpUsed := timeWarpUsed e;
     timeWarpDuration := timeWarpDuration e; frameRequested := frameRequested e;
     lastFrameTime := lastFrameTime e; levelCoins := levelCoins e;
     coinRadius := coinRadius e; coinsCollectedThisLevel := v;
     levelExtraLives := levelExtraLives e; extraLifeRadius := extraLifeRadius e;
     levelPowerups := levelPowerups e; activePowerups := activePowerups e;
     levelBouncePads := levelBouncePads e; levelSpeedZones := levelSpeedZones e;
     levelMovingWalls := levelMovingWalls e; timeouts := timeouts e;
     next_timer := next_timer e; events := events e |}.
Definition set_levelExtraLives (v : list RtCoin) (e : Engine) : Engine :=
  {| isRunning := isRunning e; isPaused := isPaused e; currentLevel := currentLevel e;
     levelIndex := levelIndex e; ball := ball e; gravity := gravity e;
     maxSpeed := maxSpeed e; startTime := startTime e; elapsedTime := elapsedTime e;
     timerInterval := timerInterval e; timeScale := timeScale e;
     timeWarpActive := timeWarpActive e; timeWarpUsed := timeWarpUsed e;
     timeWarpDuration := timeWarpDuration e; frameRequested := frameRequested e;
     lastFrameTime := lastFrameTime e; levelCoins := levelCoins e;
     coinRadius := coinRadius e; coinsCollectedThisLevel := coinsCollectedThisLevel e;
     levelExtraLives := v; extraLifeRadius := extraLifeRadius e;
     levelPowerups := levelPowerups e; activePowerups := activePowerups e;
     levelBouncePads := levelBouncePads e; levelSpeedZones := levelSpeedZones e;
     levelMovingWalls := levelMovingWalls e; timeouts := timeouts e;
     next_timer := next_timer e; events := events e |}.
Definition set_levelPowerups (v : list RtPowerup) (e : Engine) : Engine :=
  {| isRunning := isRunning e; isPaused := isPaused e; currentLevel := currentLevel e;
     levelIndex := levelIndex e; ball := ball e; gravity := gravity e;
     maxSpeed := maxSpeed e; startTime := startTime e; elapsedTime := elapsedTime e;
     timerInterval := timerInterval e; timeScale := timeScale e;
     timeWarpActive := timeWarpActive e; timeWarpUsed := timeWarpUsed e;
     timeWarpDuration := timeWarpDuration e; frameRequested := frameRequested e;
     lastFrameTime := lastFrameTime e; levelCoins := levelCoins e;
     coinRadius := coinRadius e; coinsCollectedThisLevel := coinsCollectedThisLevel e;
     levelExtraLives := levelExtraLives e; extraLifeRadius := extraLifeRadius e;
     levelPowerups := v; activePowerups := activePowerups e;
     levelBouncePads := levelBouncePads e; levelSpeedZones := levelSpeedZones e;
     levelMovingWalls := levelMovingWalls e; timeouts := timeouts e;
     next_timer := next_timer e; events := events e |}.
Definition set_activePowerups (v : gmap string ActivePowerup) (e : Engine) : Engine :=
  {| isRunning := isRunning e; isPaused := isPaused e; currentLevel := currentLevel e;
     levelIndex := levelIndex e; ball := ball e; gravity := gravity e;
     maxSpeed := maxSpeed e; startTime := startTime e; elapsedTime := elapsedTime e;
     timerInterval := timerInterval e; timeScale := timeScale e;
     timeWarpActive := timeWarpActive e; timeWarpUsed := timeWarpUsed e;
     timeWarpDuration := timeWarpDuration e; frameRequested := frameRequested e;
     lastFrameTime := lastFrameTime e; levelCoins := levelCoins e;
     coinRadius := coinRadius e; coinsCollectedThisLevel := coinsCollectedThisLevel e;
     levelExtraLives := levelExtraLives e; extraLifeRadius := extraLifeRadius e;
     levelPowerups := levelPowerups e; activePowerups := v;
     levelBouncePads := levelBouncePads e; levelSpeedZones := levelSpeedZones e;
     levelMovingWalls := levelMovingWalls e; timeouts := timeouts e;
     next_timer := next_timer e; events := events e |}.
Definition set_levelBouncePads (v : list BouncePad) (e : Engine) : Engine :=
  {| isRunning := isRunning e; isPaused := isPaused e; currentLevel := currentLevel e;
     levelIndex := levelIndex e; ball := ball e; gravity := gravity e;
     maxSpeed := maxSpeed e; startTime := startTime e; elapsedTime := elapsedTime e;
     timerInterval := timerInterval e; timeScale := timeScale e;
     timeWarpActive := timeWarpActive e; timeWarpUsed := timeWarpUsed e;
     timeWarpDuration := timeWarpDuration e; frameRequested := frameRequested e;
     lastFrameTime := lastFrameTime e; levelCoins := levelCoins e;
     coinRadius := coinRadius e; coinsCollectedThisLevel := coinsCollectedThisLevel e;
     levelExtraLives := levelExtraLives e; extraLifeRadius := extraLifeRadius e;
     levelPowerups := levelPowerups e; activePowerups := activePowerups e;
     levelBouncePads := v; levelSpeedZones := levelSpeedZones e;
     levelMovingWalls := levelMovingWalls e; timeouts := timeouts e;
     next_timer := next_timer e; events := events e |}.
Definition set_levelSpeedZones (v : list SpeedZone) (e : Engine) : Engine :=
  {| isRunning := isRunning e; isPaused := isPaused e; currentLevel := currentLevel e;
     levelIndex := levelIndex e; ball := ball e; gravity := gravity e;
     maxSpeed := maxSpeed e; startTime := startTime e; elapsedTime := elapsedTime e;
     timerInterval := timerInterval e; timeScale := timeScale e;
     timeWarpActive := timeWarpActive e; timeWarpUsed := timeWarpUsed e;
     timeWarpDuration := timeWarpDuration e; frameRequested := frameRequested e;
     lastFrameTime := lastFrameTime e; levelCoins := levelCoins e;
     coinRadius := coinRadius e; coinsCollectedThisLevel := coinsCollectedThisLevel e;
     levelExtraLives := levelExtraLives e; extraLifeRadius := extraLifeRadius e;
     levelPowerups := levelPowerups e; activePowerups := activePowerups e;
     levelBouncePads := levelBouncePads e; levelSpeedZones := v;
     levelMovingWalls := levelMovingWalls e; timeouts := timeouts e;
     next_timer := next_timer e; events := events e |}.
Definition set_levelMovingWalls (v : list RtMovingWall) (e : Engine) : Engine :=
  {| isRunning := isRunning e; isPaused := isPaused e; currentLevel := currentLevel e;
     levelIndex := levelIndex e; ball := ball e; gravity := gravity e;
     maxSpeed := maxSpeed e; startTime := startTime e; elapsedTime := elapsedTime e;
     timerInterval := timerInterval e; timeScale := timeScale e;
     timeWarpActive := timeWarpActive e; timeWarpUsed := timeWarpUsed e;
     timeWarpDuration := timeWarpDuration e; frameRequested := frameRequested e;
     lastFrameTime := lastFrameTime e; levelCoins := levelCoins e;
     coinRadius := coinRadius e; coinsCollectedThisLevel := coinsCollectedThisLevel e;
     levelExtraLives := levelExtraLives e; extraLifeRadius := extraLifeRadius e;
     levelPowerups := levelPowerups e; activePowerups := activePowerups e;
     levelBouncePads := levelBouncePads e; levelSpeedZones := levelSpeedZones e;
     levelMovingWalls := v; timeouts := timeouts e; next_timer := next_timer e;
     events := events e |}.
Definition set_timeouts (v : list Timeout) (e : Engine) : Engine :=
  {| isRunning := isRunning e; isPaused := isPaused e; currentLevel := currentLevel e;
     levelIndex := levelIndex e; ball := ball e; gravity := gravity e;
     maxSpeed := maxSpeed e; startTime := startTime e; elapsedTime := elapsedTime e;
     timerInterval := timerInterval e; timeScale := timeScale e;
     timeWarpActive := timeWarpActive e; timeWarpUsed := timeWarpUsed e;
     timeWarpDuration := timeWarpDuration e; frameRequested := frameRequested e;
     lastFrameTime := lastFrameTime e; levelCoins := levelCoins e;
     coinRadius := coinRadius e; coinsCollectedThisLevel := coinsCollectedThisLevel e;
     levelExtraLives := levelExtraLives e; extraLifeRadius := extraLifeRadius e;
     levelPowerups := levelPowerups e; activePowerups := activePowerups e;
     levelBouncePads := levelBouncePads e; levelSpeedZones := levelSpeedZones e;
     levelMovingWalls := levelMovingWalls e; timeouts := v; next_timer := next_timer e;
     events := events e |}.
Definition set_next_timer (v : nat) (e : Engine) : Engine :=
  {| isRunning := isRunning e; isPaused := isPaused e; currentLevel := currentLevel e;
     levelIndex := levelIndex e; ball := ball e; gravity := gravity e;
     maxSpeed := maxSpeed e; startTime := startTime e; elapsedTime := elapsedTime e;
     timerInterval := timerInterval e; timeScale := timeScale e;
     timeWarpActive := timeWarpActive e; timeWarpUsed := timeWarpUsed e;
     timeWarpDuration := timeWarpDuration e; frameRequested := frameRequested e;
     lastFrameTime := lastFrameTime e; levelCoins := levelCoins e;
     coinRadius := coinRadius e; coinsCollectedThisLevel := coinsCollectedThisLevel e;
     levelExtraLives := levelExtraLives e; extraLifeRadius := extraLifeRadius e;
     levelPowerups := levelPowerups e; activePowerups := activePowerups e;
     levelBouncePads := levelBouncePads e; levelSpeedZones := levelSpeedZones e;
     levelMovingWalls := levelMovingWalls e; timeouts := timeouts e; next_timer := v;
     events := events e |}.
Definition set_events (v : list Event) (e : Engine) : Engine :=
  {| isRunning := isRunning e; isPaused := isPaused e; currentLevel := currentLevel e;
     levelIndex := levelIndex e; ball := ball e; gravity := gravity e;
     maxSpeed := maxSpeed e; startTime := startTime e; elapsedTime := elapsedTime e;
     timerInterval := timerInterval e; timeScale := timeScale e;
     timeWarpActive := timeWarpActive e; timeWarpUsed := timeWarpUsed e;
     timeWarpDuration := timeWarpDuration e; frameRequested := frameRequested e;
     lastFrameTime := lastFrameTime e; levelCoins := levelCoins e;
     coinRadius := coinRadius e; coinsCollectedThisLevel := coinsCollectedThisLevel e;
     levelExtraLives := levelExtraLives e; extraLifeRadius := extraLifeRadius e;
     levelPowerups := levelPowerups e; activePowerups := activePowerups e;
     levelBouncePads := levelBouncePads e; levelSpeedZones := levelSpeedZones e;
     levelMovingWalls := levelMovingWalls e; timeouts := timeouts e;
     next_timer := next_timer e; events := v |}.

Definition emit (ev : Event) (e : Engine) : Engine := set_events (events e ++ [ev]) e.

Definition set_ball_x (v : Q) (b : Ball) : Ball :=
  {| ball_x := v; ball_y := ball_y b; ball_vx := ball_vx b; ball_vy := ball_vy b;
     ball_radius := ball_radius b; ball_mass := ball_mass b;
     ball_friction := ball_friction b; ball_bounce := ball_bounce b |}.
Definition set_ball_y (v : Q) (b : Ball) : Ball :=
  {| ball_x := ball_x b; ball_y := v; ball_vx := ball_vx b; ball_vy := ball_vy b;
     ball_radius := ball_radius b; ball_mass := ball_mass b;
     ball_friction := ball_friction b; ball_bounce := ball_bounce b |}.
Definition set_ball_vx (v : Q) (b : Ball) : Ball :=
  {| ball_x := ball_x b; ball_y := ball_y b; ball_vx := v; ball_vy := ball_vy b;
     ball_radius := ball_radius b; ball_mass := ball_mass b;
     ball_friction := ball_friction b; ball_bounce := ball_bounce b |}.
Definition set_ball_vy (v : Q) (b : Ball) : Ball :=
  {| ball_x := ball_x b; ball_y := ball_y b; ball_vx := ball_vx b; ball_vy := v;
     ball_radius := ball_radius b; ball_mass := ball_mass b;
     ball_friction := ball_friction b; ball_bounce := ball_bounce b |}.
Definition set_ball_radius (v : Q) (b : Ball) : Ball :=
  {| ball_x := ball_x b; ball_y := ball_y b; ball_vx := ball_vx b; ball_vy := ball_vy b;
     ball_radius := v; ball_mass := ball_mass b;
     ball_friction := ball_friction b; ball_bounce := ball_bounce b |}.

(** ** The session: load, start, pause, resume, stop, restart *)

(** [x || 15] on a number: zero is falsy. *)
Definition or_default (d : Z) (o : option Z) : Z :=
  match o with
  | Some v => if (v =? 0)%Z then d else v
  | None => d
  end.

Definition copy_coin (c : Coin) : RtCoin :=
  {| rc_x := inject_Z (coin_x c); rc_y := inject_Z (coin_y c) |}.
Definition copy_powerup (p : Powerup) : RtPowerup :=
  {| rp_x := inject_Z (pu_x p); rp_y := inject_Z (pu_y p); rp_type := pu_type p;
     rp_radius := inject_Z (pu_radius p); rp_collected := false |}.
Definition copy_moving_wall (w : MovingWall) : RtMovingWall :=
  {| rw_wall := w; currentX := originalX w; currentY := originalY w; rw_time := 0 |}.

(** [resetBall] *)
Definition resetBall (e : Engine) : completion unit :=
  match currentLevel e with
  | None => Normal tt e
  | Some level =>
      match o_start level with
      | None => Thrown e
      | Some start =>
          let b := {| ball_x := pt_x start; ball_y := pt_y start; ball_vx := 0; ball_vy := 0;
                      ball_radius := inject_Z (or_default 15 (o_ballRadius level));
                      ball_mass := ball_mass (ball e);
                      ball_friction := ball_friction (ball e);
                      ball_bounce := ball_bounce (ball e) |} in
          let e := set_ball b e in
          let e := set_levelCoins (map copy_coin (default [] (o_coins level))) e in
          let e := set_coinsCollectedThisLevel 0%Z e in
          let e := set_levelExtraLives (map copy_coin (default [] (o_extraLives level))) e in
          let e := set_levelPowerups (map copy_powerup (default [] (o_powerups level))) e in
          let e := set_activePowerups ∅ e in
          let e := set_levelMovingWalls
                     (map copy_moving_wall (default [] (o_movingWalls level))) e in
          Normal tt e
      end
  end.

(** [loadLevel(levelIndex)]; [getLevel] is the level manager's method. *)
Definition loadLevel (getLevel : Z -> option LevelObject) (index : Z) (e : Engine)
  : completion bool :=
  let e := set_levelIndex index e in
  let e := set_currentLevel (getLevel index) e in
  match currentLevel e with
  | None => Normal false e
  | Some level =>
      let e := set_timeScale 1 e in
      let e := set_timeWarpActive false e in
      let e := set_timeWarpUsed false e in
      match resetBall e with
      | Thrown e => Thrown e
      | Normal _ e =>
          let e := set_levelCoins (map copy_coin (default [] (o_coins level))) e in
          let e := set_coinsCollectedThisLevel 0%Z e in
          let e := set_levelExtraLives (map copy_coin (default [] (o_extraLives level))) e in
          let e := set_levelPowerups (map copy_powerup (default [] (o_powerups level))) e in
          let e := set_levelBouncePads (default [] (o_bouncePads level)) e in
          let e := set_levelSpeedZones (default [] (o_speedZones level)) e in
          let e := set_levelMovingWalls
                     (map copy_moving_wall (default [] (o_movingWalls level))) e in
          let e := set_activePowerups ∅ e in
          Normal true e
      end
  end.

(** [LevelManager.getLevel] over the generated levels *)
Definition getLevel (levels : list MazeDefinition) (index : Z) : option LevelObject :=
  if (index <? 0)%Z || (Z.of_nat (length levels) <=? index)%Z then None
  else level_object <$> levels !! Z.to_nat index.

(** [startTimer] and [stopTimer]: the interval that refreshes [elapsedTime] *)
Definition startTimer (e : Engine) : Engine := set_timerInterval true e.
Definition stopTimer (e : Engine) : Engine := set_timerInterval false e.

(** The interval's callback, run by the browser at clock reading [now]. *)
Definition timer_tick (now : Q) (e : Engine) : Engine :=
  if timerInterval e then
    let e := set_elapsedTime (now - startTime e) e in
    emit (onTimeUpdate (elapsedTime e)) e
  else e.

(** [start()]; [now] is what [performance.now()] reads during the call. *)
Definition start_game (now : Q) (e : Engine) : Engine :=
  if isRunning e then e else
  let e := set_isRunning true e in
  let e := set_isPaused false e in
  let e := set_elapsedTime 0 e in
  let e := set_startTime now e in
  let e := emit onLevelStart e in
  let e := startTimer e in
  let e := set_lastFrameTime now e in
  set_frameRequested true e.

(** [pause()] *)
Definition pause (e : Engine) : Engine :=
  if negb (isRunning e) || isPaused e then e else
  let e := set_isPaused true e in
  let e := stopTimer e in
  set_frameRequested false e.

(** [resume()] *)
Definition resume (now : Q) (e : Engine) : Engine :=
  if negb (isRunning e) || negb (isPaused e) then e else
  let e := set_isPaused false e in
  let e := startTimer e in
  let e := set_lastFrameTime now e in
  set_frameRequested true e.

(** [stop()] *)
Definition stop (e : Engine) : Engine :=
  let e := set_isRunning false e in
  let e := set_isPaused false e in
  let e := stopTimer e in
  set_frameRequested false e.

(** [restart()] *)
Definition restart (now : Q) (e : Engine) : completion unit :=
  match resetBall (stop e) with
  | Thrown e => Thrown e
  | Normal _ e => Normal tt (start_game now e)
  end.

(** ** Time warp and timed powerups *)

Definition setTimeout (action : TimerAction) (due : Q) (e : Engine) : nat * Engine :=
  let id := next_timer e in
  (id, set_next_timer (S id)
         (set_timeouts (timeouts e ++ [{| t_id := id; t_due := due; t_action := action |}]) e)).

Definition clearTimeout (id : nat) (e : Engine) : Engine :=
  set_timeouts (List.filter (fun t => negb (t_id t =? id)%nat) (timeouts e)) e.

(** [deactivateTimeWarp()] *)
Definition deactivateTimeWarp (e : Engine) : Engine :=
  set_timeScale 1 (set_timeWarpActive false e).

(** [activateTimeWarp()]; [slowMotion] is the upgrade manager's flag and
    [now] the clock at the call. *)
Definition activateTimeWarp (slowMotion : bool) (now : Q) (e : Engine) : bool * Engine :=
  if negb slowMotion then (false, e)
  else if timeWarpUsed e then (false, e)
  else if timeWarpActive e then (false, e)
  else
    let e := set_timeWarpActive true e in
    let e := set_timeWarpUsed true e in
    let e := set_timeScale 0.4 e in
    (true, snd (setTimeout DeactivateTimeWarp (now + timeWarpDuration e) e)).

(** [canUseTimeWarp()] *)
Definition canUseTimeWarp (slowMotion : bool) (e : Engine) : bool :=
  slowMotion && negb (timeWarpUsed e) && negb (timeWarpActive e).

Definition durations (type : string) : Q :=
  if String.eqb type "speed_boost" then 3000
  else if String.eqb type "slow_motion" then 4000
  else if String.eqb type "shield" then 5000
  else if String.eqb type "magnet" then 6000
  else if String.eqb type "ghost" then 2500
  else if String.eqb type "shrink" then 5000
  else if String.eqb type "time_freeze" then 3000
  else if String.eqb type "double_coins" then 8000
  else 3000.

(** [activatePowerup(type)]; [now] is both clocks' reading, the timeout being
    due [duration] after it. *)
Definition activatePowerup (now : Q) (type : string) (e : Engine) : Engine :=
  let duration := durations type in
  let e := match activePowerups e !! type with
           | Some old => clearTimeout (ap_timer old) e
           | None => e
           end in
  let '(id, e) := setTimeout (ExpirePowerup type) (now + duration) e in
  set_activePowerups
    (<[type := {| ap_active := true; ap_endTime := now + duration; ap_timer := id |}]>
       (activePowerups e)) e.

(** The body of a timeout's callback. *)
Definition run_action (a : TimerAction) (e : Engine) : Engine :=
  match a with
  | ExpirePowerup type =>
      match activePowerups e !! type with
      | Some p =>
          set_activePowerups
            (<[type := {| ap_active := false; ap_endTime := ap_endTime p;
                          ap_timer := ap_timer p |}]> (activePowerups e)) e
      | None => e
      end
  | DeactivateTimeWarp => deactivateTimeWarp e
  end.

(** The browser running the timeouts that are due at clock reading [now], in
    the order they were set. *)
Definition run_timeouts (now : Q) (e : Engine) : Engine :=
  let due := List.filter (fun t => Qle_bool (t_due t) now) (timeouts e) in
  let e := set_timeouts (List.filter (fun t => negb (Qle_bool (t_due t) now)) (timeouts e)) e in
  fold_left (fun e t => run_action (t_action t) e) due e.

(** [isPowerupActive(type)] *)
Definition isPowerupActive (type : string) (e : Engine) : bool :=
  match activePowerups e !! type with
  | Some p => ap_active p
  | None => false
  end.

(** [calculateStars(time)] *)
Definition calculateStars (e : Engine) (time : Q) : Z :=
  match currentLevel e with
  | None => 1
  | Some level =>
      match o_starTimes level with
      | Some (t0 :: t1 :: t2 :: _) =>
          if Qle_bool time (inject_Z t2) then 3
          else if Qle_bool time (inject_Z t1) then 2
          else if Qle_bool time (inject_Z t0) then 1
          else 1
      | _ => 1
      end
  end%Z.

(** ** One frame: [update] and what it calls *)

(** What a frame reads from outside the engine: the tilt and the sensitivity
    setting, the upgrade manager's magnet radius, the two numbers
    [Math.random()] returns at the deflection sites (each in [0, 1)), and
    the clock. *)
Record FrameInput := {
  tilt_x : Q; tilt_y : Q;
  sensitivity : Q;
  magnetRadius : Q;
  random_x : Q; random_y : Q;
  now : Q }.

Record Collision := { col_x : bool; col_y : bool; col_newX : Q; col_newY : Q }.

Section Physics.
(** [Math.pow], [Math.sqrt] and [Math.sin]: the theorems on the engine hold
    whatever numbers these return. *)
Variable Math_pow : Q -> Q -> Q.
Variable Math_sqrt : Q -> Q.
Variable Math_sin : Q -> Q.

(** [Math.sqrt(dx ** 2 + dy ** 2)] *)
Definition distance (dx dy : Q) : Q := Math_sqrt (dx * dx + dy * dy).

(** The test of one rectangle in [checkWallCollisions]; [ox], [oy] are the
    ball's position before the move and [r] its radius. *)
Definition wall_check (newX newY ox oy r : Q) (left right top bottom : Q)
    (result : Collision) : Collision :=
  let nearestX := Qmax left (Qmin newX right) in
  let nearestY := Qmax top (Qmin oy bottom) in
  let distanceX := distance (newX - nearestX) (oy - nearestY) in
  let result :=
    if Qltb distanceX r then
      {| col_x := true; col_y := col_y result;
         col_newX := if Qltb newX left then left - r
                     else if Qltb right newX then right + r
                     else col_newX result;
         col_newY := col_newY result |}
    else result in
  let nearestX2 := Qmax left (Qmin ox right) in
  let nearestY2 := Qmax top (Qmin newY bottom) in
  let distanceY := distance (ox - nearestX2) (newY - nearestY2) in
  if Qltb distanceY r then
    {| col_x := col_x result; col_y := true;
       col_newX := col_newX result;
       col_newY := if Qltb newY top then top - r
                   else if Qltb bottom newY then bottom + r
                   else col_newY result |}
  else result.

(** [checkWallCollisions(newX, newY)]; [None] is the [TypeError] of a level
    without a wall list. *)
Definition checkWallCollisions (newX newY : Q) (e : Engine) : option Collision :=
  level ← currentLevel e;
  walls ← o_walls level;
  let b := ball e in
  let r := ball_radius b in
  let result := {| col_x := false; col_y := false;
                   col_newX := ball_x b; col_newY := ball_y b |} in
  let result :=
    fold_left (fun res wall =>
      wall_check newX newY (ball_x b) (ball_y b) r
        (rect_x wall) (rect_x wall + rect_width wall)
        (rect_y wall) (rect_y wall + rect_height wall) res) walls result in
  let result :=
    fold_left (fun res wall =>
      wall_check newX newY (ball_x b) (ball_y b) r
        (currentX wall) (currentX wall + mw_width (rw_wall wall))
        (currentY wall) (currentY wall + mw_height (rw_wall wall)) res)
      (levelMovingWalls e) result in
  let mazeWidth := inject_Z (o_width level) in
  let mazeHeight := inject_Z (o_height level) in
  let result :=
    if Qltb (newX - r) 0 then
      {| col_x := true; col_y := col_y result; col_newX := r; col_newY := col_newY result |}
    else if Qltb mazeWidth (newX + r) then
      {| col_x := true; col_y := col_y result;
         col_newX := mazeWidth - r; col_newY := col_newY result |}
    else result in
  let result :=
    if Qltb (newY - r) 0 then
      {| col_x := col_x result; col_y := true; col_newX := col_newX result; col_newY := r |}
    else if Qltb mazeHeight (newY + r) then
      {| col_x := col_x result; col_y := true;
         col_newX := col_newX result; col_newY := mazeHeight - r |}
    else result in
  Some result.

(** The factor of the bounce, [-this.ball.bounce * 1.2] *)
Definition bounce_factor (b : Ball) : Q := - ball_bounce b * 1.2.

(** The deflection, [(Math.random() - 0.5) * 2] *)
Definition deflection (random : Q) : Q := (random - 0.5) * 2.

(** Lines 446 to 482 of [update]: the response to the collision flags. *)
Definition bounce (collision : Collision) (newX newY : Q) (inp : FrameInput)
    (e : Engine) : Engine :=
  let e :=
    if col_x collision then
      let b := ball e in
      let b := set_ball_vx (ball_vx b * bounce_factor b) b in
      let b := set_ball_vy (ball_vy b + deflection (random_x inp)) b in
      let b := set_ball_x (col_newX collision) b in
      emit onWallHit (set_ball b e)
    else set_ball (set_ball_x newX (ball e)) e in
  if col_y collision then
    let b := ball e in
    let b := set_ball_vy (ball_vy b * bounce_factor b) b in
    let b := set_ball_vx (ball_vx b + deflection (random_y inp)) b in
    let b := set_ball_y (col_newY collision) b in
    emit onWallHit (set_ball b e)
  else set_ball (set_ball_y newY (ball e)) e.

(** [checkHoleCollision()] *)
Definition checkHoleCollision (e : Engine) : option bool :=
  level ← currentLevel e;
  Some (existsb (fun hole =>
          Qltb (distance (ball_x (ball e) - hole_x hole) (ball_y (ball e) - hole_y hole))
               (inject_Z (hole_radius hole) * 0.85))
        (default [] (o_holes level))).

(** [checkGoalCollision()]; [None] is the [TypeError] of a level without a
    goal. *)
Definition checkGoalCollision (e : Engine) : option bool :=
  level ← currentLevel e;
  goal ← o_goal level;
  Some (Qltb (distance (ball_x (ball e) - goal_x goal) (ball_y (ball e) - goal_y goal))
             (inject_Z (goal_radius goal))).

(** [handleLose()] and [handleWin()], as far as the engine's own state goes *)
Definition handleLose (e : Engine) : Engine := emit onFellInHole (stop e).

Definition handleWin (e : Engine) : Engine :=
  let e := stop e in
  let time := elapsedTime e in
  emit (onWin time (calculateStars e time)) e.

(** [checkCoinCollision()]: the loop runs from the last coin to the first *)
Definition checkCoinCollision (inp : FrameInput) (e : Engine) : Engine :=
  let b := ball e in
  let step coin (acc : list RtCoin * Engine) :=
    let '(kept, e) := acc in
    let dx := ball_x b - rc_x coin in
    let dy := ball_y b - rc_y coin in
    let d := distance dx dy in
    let coin :=
      if Qltb 0 (magnetRadius inp) && Qltb d (magnetRadius inp)
         && Qltb (ball_radius b + coinRadius e) d
      then
        let pullStrength := 0.15 in
        {| rc_x := rc_x coin + dx / d * pullStrength * (magnetRadius inp - d);
           rc_y := rc_y coin + dy / d * pullStrength * (magnetRadius inp - d) |}
      else coin in
    if Qltb d (ball_radius b + coinRadius e) then
      let e := set_coinsCollectedThisLevel (coinsCollectedThisLevel e + 1)%Z e in
      (kept, emit (onCoinCollected (coinsCollectedThisLevel e)) e)
    else (coin :: kept, e) in
  let '(kept, e) := fold_right step ([], e) (levelCoins e) in
  set_levelCoins kept e.

(** [checkExtraLifeCollision()] *)
Definition checkExtraLifeCollision (e : Engine) : Engine :=
  let b := ball e in
  let step life (acc : list RtCoin * Engine) :=
    let '(kept, e) := acc in
    let d := distance (ball_x b - rc_x life) (ball_y b - rc_y life) in
    if Qltb d (ball_radius b + extraLifeRadius e)
    then (kept, emit onLifeCollected e)
    else (life :: kept, e) in
  let '(kept, e) := fold_right step ([], e) (levelExtraLives e) in
  set_levelExtraLives kept e.

(** [checkPowerupCollision()] *)
Definition checkPowerupCollision (inp : FrameInput) (e : Engine) : Engine :=
  let b := ball e in
  let step powerup (acc : list RtPowerup * Engine) :=
    let '(seen, e) := acc in
    if rp_collected powerup then (powerup :: seen, e) else
    let dx := ball_x b - rp_x powerup in
    let dy := ball_y b - rp_y powerup in
    let dist := Math_sqrt (dx * dx + dy * dy) in
    if Qltb dist (ball_radius b + rp_radius powerup) then
      ({| rp_x := rp_x powerup; rp_y := rp_y powerup; rp_type := rp_type powerup;
          rp_radius := rp_radius powerup; rp_collected := true |} :: seen,
       emit (onPowerup (rp_type powerup)) (activatePowerup (now inp) (rp_type powerup) e))
    else (powerup :: seen, e) in
  let '(seen, e) := fold_right step ([], e) (levelPowerups e) in
  set_levelPowerups seen e.

(** [checkBouncePadCollision()] *)
Definition checkBouncePadCollision (e : Engine) : Engine :=
  fold_left (fun e pad =>
    let b := ball e in
    let padLeft := inject_Z (pad_x pad) - inject_Z (pad_width pad) / 2 in
    let padRight := inject_Z (pad_x pad) + inject_Z (pad_width pad) / 2 in
    let padTop := inject_Z (pad_y pad) - inject_Z (pad_height pad) / 2 in
    let padBottom := inject_Z (pad_y pad) + inject_Z (pad_height pad) / 2 in
    if Qltb padLeft (ball_x b + ball_radius b)
       && Qltb (ball_x b - ball_radius b) padRight
       && Qltb padTop (ball_y b + ball_radius b)
       && Qltb (ball_y b - ball_radius b) padBottom
    then
      let force := inject_Z (or_default 15 (Some (pad_force pad))) in
      let b :=
        if String.eqb (pad_direction pad) "up" then set_ball_vy (- force) b
        else if String.eqb (pad_direction pad) "down" then set_ball_vy force b
        else if String.eqb (pad_direction pad) "left" then set_ball_vx (- force) b
        else if String.eqb (pad_direction pad) "right" then set_ball_vx force b
        else b in
      emit onBouncePad (set_ball b e)
    else e) (levelBouncePads e) e.

(** [applySpeedZoneEffects()] *)
Definition applySpeedZoneEffects (e : Engine) : Engine :=
  fold_left (fun e zone =>
    let b := ball e in
    if Qltb (inject_Z (zone_x zone)) (ball_x b)
       && Qltb (ball_x b) (inject_Z (zone_x zone) + inject_Z (zone_width zone))
       && Qltb (inject_Z (zone_y zone)) (ball_y b)
       && Qltb (ball_y b) (inject_Z (zone_y zone) + inject_Z (zone_height zone))
    then
      if String.eqb (zone_type zone) "fast"
      then set_ball (set_ball_vy (ball_vy b * 1.02) (set_ball_vx (ball_vx b * 1.02) b)) e
      else if String.eqb (zone_type zone) "slow"
      then set_ball (set_ball_vy (ball_vy b * 0.95) (set_ball_vx (ball_vx b * 0.95) b)) e
      else e
    else e) (levelSpeedZones e) e.

(** The position [updateMovingWalls] gives one wall at clock reading [t]. *)
Definition move_wall (t : Q) (wall : RtMovingWall) : RtMovingWall :=
  let gameTime := t / 1000 in
  let w := rw_wall wall in
  let offset :=
    Math_sin (gameTime * (inject_Z (mw_speed w) / 50) + mw_phase w) * inject_Z (mw_range w) in
  if String.eqb (mw_direction w) "horizontal"
  then {| rw_wall := w; currentX := originalX w + offset;
          currentY := currentY wall; rw_time := rw_time wall |}
  else {| rw_wall := w; currentX := currentX wall;
          currentY := originalY w + offset; rw_time := rw_time wall |}.

(** [updateMovingWalls(deltaTime)] *)
Definition updateMovingWalls (inp : FrameInput) (e : Engine) : Engine :=
  set_levelMovingWalls (map (move_wall (now inp)) (levelMovingWalls e)) e.

(** [updateActivePowerups(deltaTime)], block by block: the time scale, *)
Definition powerup_timeScale (e : Engine) : Engine :=
  if isPowerupActive "slow_motion" e then set_timeScale 0.4 e
  else if isPowerupActive "speed_boost" e then e
  else set_timeScale 1 e.

(** the magnet, *)
Definition powerup_magnet (e : Engine) : Engine :=
  if isPowerupActive "magnet" e then
    let magnetRange := 100 in
    set_levelCoins
      (map (fun coin =>
         let dx := ball_x (ball e) - rc_x coin in
         let dy := ball_y (ball e) - rc_y coin in
         let dist := Math_sqrt (dx * dx + dy * dy) in
         if Qltb dist magnetRange && Qltb 0 dist then
           let force := 0.1 * (1 - dist / magnetRange) in
           {| rc_x := rc_x coin + dx * force; rc_y := rc_y coin + dy * force |}
         else coin) (levelCoins e)) e
  else e.

(** and the shrunken ball. *)
Definition powerup_shrink (e : Engine) : Engine :=
  let base :=
    inject_Z (or_default 15 (match currentLevel e with
                             | Some level => o_ballRadius level
                             | None => None
                             end)) in
  if isPowerupActive "shrink" e
  then set_ball (set_ball_radius (base * 0.6) (ball e)) e
  else set_ball (set_ball_radius base (ball e)) e.

Definition updateActivePowerups (e : Engine) : Engine :=
  powerup_shrink (powerup_magnet (powerup_timeScale e)).

(** The velocity and the candidate position of lines 412 to 441. *)
Definition integrate (deltaTime : Q) (inp : FrameInput) (e : Engine) : Engine * Q * Q :=
  let b := ball e in
  let sens := if Qeq_bool (sensitivity inp) 0 then 1 else sensitivity inp in
  let ax := tilt_x inp * gravity e * sens * 60 * deltaTime in
  let ay := tilt_y inp * gravity e * sens * 60 * deltaTime in
  let b := set_ball_vx (ball_vx b + ax) b in
  let b := set_ball_vy (ball_vy b + ay) b in
  let b := set_ball_vx (ball_vx b * Math_pow (ball_friction b) (deltaTime * 60)) b in
  let b := set_ball_vy (ball_vy b * Math_pow (ball_friction b) (deltaTime * 60)) b in
  let speed := distance (ball_vx b) (ball_vy b) in
  let b :=
    if Qltb (maxSpeed e) speed then
      let b := set_ball_vx (ball_vx b / speed * maxSpeed e) b in
      set_ball_vy (ball_vy b / speed * maxSpeed e) b
    else b in
  let newX := ball_x b + ball_vx b * deltaTime * 60 in
  let newY := ball_y b + ball_vy b * deltaTime * 60 in
  (set_ball b e, newX, newY).

(** [update(deltaTime)] *)
Definition update (deltaTime : Q) (inp : FrameInput) (e : Engine) : completion unit :=
  let scaledDelta := deltaTime * timeScale e in
  let '(e, newX, newY) := integrate deltaTime inp e in
  match checkWallCollisions newX newY e with
  | None => Thrown e
  | Some collision =>
      let e := bounce collision newX newY inp e in
      match checkHoleCollision e with
      | None => Thrown e
      | Some true => Normal tt (handleLose e)
      | Some false =>
          match checkGoalCollision e with
          | None => Thrown e
          | Some true => Normal tt (handleWin e)
          | Some false =>
              let e := checkCoinCollision inp e in
              let e := checkExtraLifeCollision e in
              let e := checkPowerupCollision inp e in
              let e := checkBouncePadCollision e in
              let e := applySpeedZoneEffects e in
              let e := updateMovingWalls inp e in
              Normal tt (updateActivePowerups e)
          end
      end
  end.

(** [gameLoop(timestamp)] *)
Definition gameLoop (timestamp : Q) (inp : FrameInput) (e : Engine) : completion unit :=
  if negb (isRunning e) || isPaused e then Normal tt e else
  let deltaTime := Qmin ((timestamp - lastFrameTime e) / 1000) 0.05 in
  let e := set_lastFrameTime timestamp e in
  match update deltaTime inp e with
  | Thrown e => Thrown e
  | Normal _ e => Normal tt (set_frameRequested true e)
  end.

(** The browser calling the frame callback, when one is requested. *)
Definition animation_frame (timestamp : Q) (inp : FrameInput) (e : Engine)
  : completion unit :=
  if frameRequested e then gameLoop timestamp inp (set_frameRequested false e)
  else Normal tt e.
End Physics.

(** * Properties of the generator *)

Local Open Scope Z_scope.

(** ** Fuel only decides whether a call returns *)

(** [le_out o1 o2]: [o2] is what [o1] becomes with more fuel. *)
Definition le_out {A} (o1 o2 : outcome A) : Prop := o1 = OutOfFuel \/ o1 = o2.

Lemma le_out_refl {A} (o : outcome A) : le_out o o.
Proof. by right. Qed.

Lemma le_out_Done {A} (o1 o2 : outcome A) a s :
  le_out o1 o2 -> o1 = Done a s -> o2 = Done a s.
Proof. intros [H | H] E; congruence. Qed.

Lemma bind_mono {A B} (m1 m2 : Gen A) (k1 k2 : A -> Gen B) s :
  le_out (m1 s) (m2 s) ->
  (forall a s', le_out (k1 a s') (k2 a s')) ->
  le_out (bind m1 k1 s) (bind m2 k2 s).
Proof.
  intros [H | H] Hk; unfold bind.
  - left. by rewrite H.
  - rewrite <- H. destruct (m1 s); [apply Hk | by right | by right].
Qed.

Lemma carve_mono fuel fuel' rows cols grid stack s :
  (fuel <= fuel')%nat ->
  le_out (carve fuel rows cols grid stack s) (carve fuel' rows cols grid stack s).
Proof.
  revert fuel' grid stack s.
  induction fuel as [| fuel IH]; intros fuel' grid stack s Hle.
  - destruct stack; [destruct fuel'; apply le_out_refl | by left].
  - destruct fuel' as [| fuel']; [lia |].
    destruct stack as [| current rest]; [apply le_out_refl |].
    cbn [carve]. apply bind_mono; [apply le_out_refl |].
    intros neighbors s1. destruct neighbors as [| n ns]; [apply IH; lia |].
    repeat (apply bind_mono; [apply le_out_refl | intros ? ?]).
    apply IH; lia.
Qed.

Lemma generateMazeGrid_mono fuel fuel' cols rows s :
  (fuel <= fuel')%nat ->
  le_out (generateMazeGrid fuel cols rows s) (generateMazeGrid fuel' cols rows s).
Proof.
  intros Hle. unfold generateMazeGrid.
  destruct (rows <? 1); [apply le_out_refl |].
  apply bind_mono; [apply le_out_refl | intros g0 s0].
  apply bind_mono; [by apply carve_mono | intros; apply le_out_refl].
Qed.

Lemma fill_coins_mono cols rows cellSize offsetX offsetY start goal fuel fuel' n coins s :
  (fuel <= fuel')%nat ->
  le_out (fill_coins cols rows cellSize offsetX offsetY start goal fuel n coins s)
         (fill_coins cols rows cellSize offsetX offsetY start goal fuel' n coins s).
Proof.
  revert fuel' coins s.
  induction fuel as [| fuel IH]; intros fuel' coins s Hle.
  - cbn [fill_coins]. destruct (length coins <? n)%nat eqn:E; [by left |].
    destruct fuel'; cbn [fill_coins]; rewrite E; apply le_out_refl.
  - destruct fuel' as [| fuel']; [lia |].
    cbn [fill_coins]. destruct (length coins <? n)%nat; [| apply le_out_refl].
    apply bind_mono; [apply le_out_refl | intros [x y] s1].
    destruct (_ || _); [apply IH; lia |].
    destruct (existsb _ _); apply IH; lia.
Qed.

Lemma generateCoins_mono levelNum maze cols rows cellSize offsetX offsetY start goal
    fuel fuel' s :
  (fuel <= fuel')%nat ->
  le_out (generateCoins levelNum maze cols rows cellSize offsetX offsetY start goal fuel s)
         (generateCoins levelNum maze cols rows cellSize offsetX offsetY start goal fuel' s).
Proof.
  intros Hle. unfold generateCoins.
  repeat (apply bind_mono; [apply le_out_refl | intros ? ?]).
  by apply fill_coins_mono.
Qed.

Lemma generateLevel_mono fuel fuel' levelNum s :
  (fuel <= fuel')%nat ->
  le_out (generateLevel fuel levelNum s) (generateLevel fuel' levelNum s).
Proof.
  intros Hle. unfold generateLevel.
  apply bind_mono; [apply le_out_refl | intros _ s0].
  apply bind_mono; [by apply generateMazeGrid_mono | intros maze s1].
  apply bind_mono; [apply le_out_refl | intros walls s2].
  apply bind_mono; [apply le_out_refl | intros holes s3].
  apply bind_mono; [by apply generateCoins_mono | intros coins s4].
  apply le_out_refl.
Qed.

(** The seed the object held before the call is never read. *)
Lemma generateLevel_reseeds fuel levelNum s1 s2 :
  generateLevel fuel levelNum s1 = generateLevel fuel levelNum s2.
Proof. reflexivity. Qed.

(** ** C1: determinism *)

(** C1: any two calls of [generateLevel] for the same level number that
    return, whatever seed the generator object held before each call (left
    by an earlier call, or the constructor's) and whatever budget the model
    gave its unbounded loops, return the same MazeDefinition, field by
    field, and leave the same seed behind.  The calls take no input but the
    level number and the object's seed cell: every random decision is a
    step of the stream started at [levelNum * 7919]. *)
Theorem generateLevel_deterministic :
  forall (levelNum : Z) (fuel1 fuel2 : nat) (seed1 seed2 : Z)
         (m1 m2 : MazeDefinition) (t1 t2 : Z),
    generateLevel fuel1 levelNum seed1 = Done m1 t1 ->
    generateLevel fuel2 levelNum seed2 = Done m2 t2 ->
    m1 = m2 /\ t1 = t2.
Proof.
  intros levelNum fuel1 fuel2 seed1 seed2 m1 m2 t1 t2 H1 H2.
  rewrite (generateLevel_reseeds _ _ seed1 seed2) in H1.
  pose proof (generateLevel_mono fuel1 (Nat.max fuel1 fuel2) levelNum seed2
                ltac:(lia)) as L1.
  pose proof (generateLevel_mono fuel2 (Nat.max fuel1 fuel2) levelNum seed2
                ltac:(lia)) as L2.
  pose proof (le_out_Done _ _ _ _ L1 H1) as E1.
  pose proof (le_out_Done _ _ _ _ L2 H2) as E2.
  rewrite E1 in E2. by inversion E2.
Qed.

Lemma generateLevel_deterministic_witness :
  exists m1 t1 m2 t2,
    generateLevel 100 1 12345 = Done m1 t1 /\
    generateLevel 200 1 0 = Done m2 t2 /\
    m1 = m2 /\ t1 = t2.
Proof.
  eexists _, _, _, _.
  split; [vm_compute; reflexivity |].
  split; [vm_compute; reflexivity |].
  apply (generateLevel_deterministic 1 100 200 12345 0); vm_compute; reflexivity.
Defined.

(** * Properties of the engine *)

(** ** What a call leaves alone *)

(** A fold of engine steps keeps what every step keeps. *)
Lemma fold_left_keeps {A} (P : Engine -> Prop) (f : Engine -> A -> Engine) l e :
  (forall e x, P e -> P (f e x)) -> P e -> P (fold_left f l e).
Proof.
  intros Hf. revert e. induction l as [| x l IH]; intros e He; [done |].
  cbn. apply IH. by apply Hf.
Qed.

Lemma fold_right_keeps {A B} (P : Engine -> Prop) (f : A -> B * Engine -> B * Engine) l acc :
  (forall x acc, P (snd acc) -> P (snd (f x acc))) -> P (snd acc) ->
  P (snd (fold_right f acc l)).
Proof.
  intros Hf Hacc. induction l as [| x l IH]; [done |].
  cbn. by apply Hf.
Qed.

Section Frames.
Variable Math_pow : Q -> Q -> Q.
Variable Math_sqrt : Q -> Q.
Variable Math_sin : Q -> Q.

Abbreviation update := (update Math_pow Math_sqrt Math_sin).
Abbreviation gameLoop := (gameLoop Math_pow Math_sqrt Math_sin).
Abbreviation animation_frame := (animation_frame Math_pow Math_sqrt Math_sin).

(** [keeps F f]: the step [f] does not assign the field [F]. *)
Definition keeps {T} (F : Engine -> T) (f : Engine -> Engine) : Prop :=
  forall e, F (f e) = F e.

(** What no frame and no timer assigns: the time-warp flag of the level, the
    ball's restitution and the level; and what the steps of a frame leave
    alone besides: the moving walls, until [updateMovingWalls], and the
    running flag, unless the frame ends the attempt. *)
Definition fixed (e : Engine) : bool * Q * option LevelObject :=
  (timeWarpUsed e, ball_bounce (ball e), currentLevel e).
Definition during_frame (e : Engine) :=
  (fixed e, levelMovingWalls e, isRunning e).

Lemma during_frame_fixed e e' : during_frame e' = during_frame e -> fixed e' = fixed e.
Proof. intros H. exact (f_equal (fun p => p.1.1) H). Qed.

Lemma keeps_fixed f : keeps during_frame f -> keeps fixed f.
Proof. intros H e. apply during_frame_fixed, H. Qed.

Lemma activatePowerup_keeps_frame now type :
  keeps during_frame (activatePowerup now type).
Proof.
  intros e. unfold activatePowerup, setTimeout, clearTimeout.
  by destruct (activePowerups e !! type).
Qed.

Lemma checkCoinCollision_keeps_frame inp :
  keeps during_frame (checkCoinCollision Math_sqrt inp).
Proof.
  intros e. unfold checkCoinCollision.
  match goal with |- context [fold_right ?f ?a ?l] =>
    pose proof (fold_right_keeps (fun e' => during_frame e' = during_frame e) f l a) as H;
    destruct (fold_right f a l) as [kept e'] end.
  change (during_frame e' = during_frame e). apply H; [| done].
  intros coin [k e1] He1. cbn [snd] in *. rewrite <- He1. by repeat case_match.
Qed.

Lemma checkExtraLifeCollision_keeps_frame :
  keeps during_frame (checkExtraLifeCollision Math_sqrt).
Proof.
  intros e. unfold checkExtraLifeCollision.
  match goal with |- context [fold_right ?f ?a ?l] =>
    pose proof (fold_right_keeps (fun e' => during_frame e' = during_frame e) f l a) as H;
    destruct (fold_right f a l) as [kept e'] end.
  change (during_frame e' = during_frame e). apply H; [| done].
  intros life [k e1] He1. cbn [snd] in *. rewrite <- He1. by repeat case_match.
Qed.

Lemma checkPowerupCollision_keeps_frame inp :
  keeps during_frame (checkPowerupCollision Math_sqrt inp).
Proof.
  intros e. unfold checkPowerupCollision.
  match goal with |- context [fold_right ?f ?a ?l] =>
    pose proof (fold_right_keeps (fun e' => during_frame e' = during_frame e) f l a) as H;
    destruct (fold_right f a l) as [kept e'] end.
  change (during_frame e' = during_frame e). apply H; [| done].
  intros p [k e1] He1. cbn [snd] in He1.
  destruct (rp_collected p); [done |]. destruct (Qltb _ _); [| done].
  cbn [snd]. rewrite <- He1, <- (activatePowerup_keeps_frame (now inp) (rp_type p) e1).
  reflexivity.
Qed.

Lemma checkBouncePadCollision_keeps_frame : keeps during_frame checkBouncePadCollision.
Proof.
  intros e. unfold checkBouncePadCollision.
  apply (fold_left_keeps (fun e' => during_frame e' = during_frame e)); [| done].
  intros e1 pad He1. rewrite <- He1. by repeat case_match.
Qed.

Lemma applySpeedZoneEffects_keeps_frame : keeps during_frame applySpeedZoneEffects.
Proof.
  intros e. unfold applySpeedZoneEffects.
  apply (fold_left_keeps (fun e' => during_frame e' = during_frame e)); [| done].
  intros e1 zone He1. rewrite <- He1. by repeat case_match.
Qed.

Lemma updateActivePowerups_keeps_frame :
  keeps during_frame (updateActivePowerups Math_sqrt).
Proof.
  intros e. unfold updateActivePowerups, powerup_shrink, powerup_magnet, powerup_timeScale.
  repeat match goal with |- context [if ?b then _ else _] => destruct b end; reflexivity.
Qed.

Lemma bounce_keeps_frame collision newX newY inp :
  keeps during_frame (bounce collision newX newY inp).
Proof. intros e. unfold bounce. by destruct (col_x collision), (col_y collision). Qed.

Lemma integrate_keeps_frame dt inp e :
  during_frame (integrate Math_pow Math_sqrt dt inp e).1.1 = during_frame e.
Proof. unfold integrate. cbn. by destruct (Qltb _ _). Qed.

Lemma update_keeps_fixed dt inp e :
  fixed (engine_of (update dt inp e)) = fixed e.
Proof.
  unfold update.
  pose proof (during_frame_fixed _ _ (integrate_keeps_frame dt inp e)) as Hi.
  destruct (integrate Math_pow Math_sqrt dt inp e) as [[e1 newX] newY].
  cbn [fst] in Hi. rewrite <- Hi.
  pose proof (fun c => during_frame_fixed _ _ (bounce_keeps_frame c newX newY inp e1)) as Hb.
  destruct (checkWallCollisions _ _ _ _) as [collision |]; [| done].
  destruct (checkHoleCollision _ _) as [[] |]; cbn [engine_of];
    [by rewrite <- (Hb collision) | | by rewrite Hb].
  destruct (checkGoalCollision _ _) as [[] |]; cbn [engine_of];
    [by rewrite <- (Hb collision) | | by rewrite Hb].
  rewrite (keeps_fixed _ (updateActivePowerups_keeps_frame)).
  change (fixed (updateMovingWalls ?m ?i ?x)) with (fixed x).
  rewrite (keeps_fixed _ applySpeedZoneEffects_keeps_frame),
    (keeps_fixed _ checkBouncePadCollision_keeps_frame),
    (keeps_fixed _ (checkPowerupCollision_keeps_frame inp)),
    (keeps_fixed _ checkExtraLifeCollision_keeps_frame),
    (keeps_fixed _ (checkCoinCollision_keeps_frame inp)).
  apply Hb.
Qed.

Lemma gameLoop_keeps_fixed ts inp e :
  fixed (engine_of (gameLoop ts inp e)) = fixed e.
Proof.
  unfold gameLoop. destruct (_ || _); [done |].
  match goal with |- context [update ?d ?i ?x] =>
    pose proof (update_keeps_fixed d i x) as H; destruct (update d i x) end;
    exact H.
Qed.

Lemma resetBall_keeps_fixed e :
  fixed (engine_of (resetBall e)) = fixed e.
Proof.
  unfold resetBall. destruct (currentLevel e) as [level |]; [| done].
  by destruct (o_start level).
Qed.

Lemma run_timeouts_keeps_fixed now : keeps fixed (run_timeouts now).
Proof.
  intros e. unfold run_timeouts.
  apply (fold_left_keeps (fun e' => fixed e' = fixed e)); [| done].
  intros e1 t He1. destruct (t_action t) as [type |]; cbn; [| done].
  by destruct (activePowerups e1 !! type).
Qed.

(** ** C10: restarting does not give the time warp back *)

(** Every entry point of the engine but [loadLevel], and what the browser
    calls back. *)
Inductive Call :=
  | call_start (now : Q)
  | call_pause
  | call_resume (now : Q)
  | call_stop
  | call_restart (now : Q)
  | call_resetBall
  | call_activateTimeWarp (slowMotion : bool) (now : Q)
  | call_frame (timestamp : Q) (inp : FrameInput)
  | call_timeouts (now : Q)
  | call_timer_tick (now : Q).

Definition run_call (e : Engine) (c : Call) : Engine :=
  match c with
  | call_start now => start_game now e
  | call_pause => pause e
  | call_resume now => resume now e
  | call_stop => stop e
  | call_restart now => engine_of (restart now e)
  | call_resetBall => engine_of (resetBall e)
  | call_activateTimeWarp slowMotion now => snd (activateTimeWarp slowMotion now e)
  | call_frame timestamp inp => engine_of (animation_frame timestamp inp e)
  | call_timeouts now => run_timeouts now e
  | call_timer_tick now => timer_tick now e
  end.

Lemma run_call_keeps_used e c :
  timeWarpUsed e = true -> timeWarpUsed (run_call e c) = true.
Proof.
  intros He. destruct c as [t | | t | | t | | slowMotion t | ts inp | t | t]; cbn.
  - unfold start_game. by destruct (isRunning e).
  - unfold pause. by destruct (_ || _).
  - unfold resume. by destruct (_ || _).
  - done.
  - unfold restart.
    pose proof (f_equal (fun p => p.1.1) (resetBall_keeps_fixed (stop e))) as H.
    destruct (resetBall (stop e)) as [[] e1 | e1]; cbn in *; [| congruence].
    unfold start_game. destruct (isRunning e1); cbn; congruence.
  - pose proof (f_equal (fun p => p.1.1) (resetBall_keeps_fixed e)) as H. cbn in H. congruence.
  - unfold activateTimeWarp. rewrite He. by destruct slowMotion.
  - unfold animation_frame. destruct (frameRequested e); [| done].
    match goal with |- context [gameLoop ?t ?i ?x] =>
      pose proof (f_equal (fun p => p.1.1) (gameLoop_keeps_fixed t i x)) as H end.
    cbn in H. congruence.
  - pose proof (f_equal (fun p => p.1.1) (run_timeouts_keeps_fixed t e)) as H. cbn in H. congruence.
  - unfold timer_tick. by destruct (timerInterval e).
Qed.

(** C10: once [activateTimeWarp()] has succeeded, it returns false, and
    [canUseTimeWarp()] is false, after any sequence of [restart()] calls,
    and indeed of any calls of the engine other than [loadLevel]
    (frames, pauses and timer callbacks included); [restart] resets the
    ball, the coins, the lives, the powerups, the moving walls and the
    elapsed time; a successful [loadLevel] clears the flag and time warp
    is available again. *)
Theorem timeWarp_not_restored_by_restart :
  forall (e0 e1 : Engine) (slow0 : bool) (now0 : Q) (calls : list Call),
    activateTimeWarp slow0 now0 e0 = (true, e1) ->
    let e := fold_left run_call calls e1 in
    (forall slowMotion now,
        fst (activateTimeWarp slowMotion now e) = false /\
        canUseTimeWarp slowMotion e = false) /\
    (forall now level er,
        currentLevel e = Some level ->
        restart now e = Normal tt er ->
        timeWarpUsed er = true /\
        levelCoins er = map copy_coin (default [] (o_coins level)) /\
        levelPowerups er = map copy_powerup (default [] (o_powerups level)) /\
        levelMovingWalls er = map copy_moving_wall (default [] (o_movingWalls level)) /\
        (exists start, o_start level = Some start /\
           ball_x (ball er) = pt_x start /\ ball_y (ball er) = pt_y start) /\
        elapsedTime er = 0%Q) /\
    (forall getLevel index el now,
        loadLevel getLevel index e = Normal true el ->
        timeWarpUsed el = false /\
        fst (activateTimeWarp true now el) = true).
Proof.
  intros e0 e1 slow0 now0 calls Hact e.
  assert (timeWarpUsed e1 = true) as H1.
  { unfold activateTimeWarp in Hact.
    destruct (negb slow0); [discriminate |].
    destruct (timeWarpUsed e0); [discriminate |].
    destruct (timeWarpActive e0); [discriminate |].
    by inversion Hact. }
  assert (timeWarpUsed e = true) as He.
  { subst e. apply (fold_left_keeps (fun e' => timeWarpUsed e' = true)); [| done].
    intros; by apply run_call_keeps_used. }
  split; [| split].
  - intros slowMotion now. unfold activateTimeWarp, canUseTimeWarp. rewrite He.
    by destruct slowMotion.
  - intros now level er Hlevel Hr. unfold restart, resetBall in Hr.
    cbn in Hr. rewrite Hlevel in Hr.
    destruct (o_start level) as [st |] eqn:Hst; [| discriminate].
    inversion Hr; subst er; clear Hr. cbn.
    repeat split; try done. by exists st.
  - intros getLevel index el now Hl. unfold loadLevel in Hl. cbn in Hl.
    destruct (getLevel index) as [level |]; [| discriminate].
    unfold resetBall in Hl. cbn in Hl.
    destruct (o_start level); [| discriminate].
    inversion Hl; subst el; clear Hl. by cbn.
Qed.
End Frames.

(** A small level for the examples: start and goal, no wall. *)
Definition tiny_level : LevelObject :=
  {| o_width := 300; o_height := 420; o_ballRadius := Some 12;
     o_start := Some {| pt_x := 82; pt_y := 346 |};
     o_goal := Some {| goal_x := 218; goal_y := 74; goal_radius := 22 |};
     o_walls := Some []; o_holes := Some [];
     o_coins := Some [{| coin_x := 150; coin_y := 278 |}];
     o_extraLives := Some []; o_powerups := Some []; o_bouncePads := Some [];
     o_speedZones := Some []; o_movingWalls := Some [];
     o_starTimes := Some [14100; 9165; 5640] |}.

(** The engine after [loadLevel] of the small level and [start()] at clock
    reading 0. *)
Definition tiny_session : Engine :=
  start_game 0 (engine_of (loadLevel (fun _ => Some tiny_level) 0 new_engine)).

Lemma timeWarp_not_restored_by_restart_witness :
  let e1 := snd (activateTimeWarp true 5 tiny_session) in
  let e := fold_left (run_call (fun _ _ => 1%Q) (fun _ => 0%Q) (fun _ => 0%Q))
             [call_restart 10; call_restart 20] e1 in
  fst (activateTimeWarp true 5 tiny_session) = true /\
  fst (activateTimeWarp true 30 e) = false /\
  canUseTimeWarp true e = false.
Proof.
  cbn zeta. split; [vm_compute; reflexivity |].
  apply (proj1 (timeWarp_not_restored_by_restart
                  (fun _ _ => 1%Q) (fun _ => 0%Q) (fun _ => 0%Q)
                  tiny_session (snd (activateTimeWarp true 5 tiny_session)) true 5
                  [call_restart 10; call_restart 20]
                  ltac:(vm_compute; reflexivity))).
Defined.

(** ** The states the engine can be in *)





(** ** C7: the bounce off a wall *)



Definition example_input : FrameInput :=
  {| tilt_x := 1; tilt_y := 0; sensitivity := 1; magnetRadius := 0;
     random_x := 1 # 4; random_y := 3 # 4; now := 16 |}.




(** ** C6: what [loadLevel] checks *)

(** The small level without its goal; its wall list is empty as well. *)
Definition goalless_level : LevelObject :=
  {| o_width := 300; o_height := 420; o_ballRadius := Some 12;
     o_start := Some {| pt_x := 82; pt_y := 346 |};
     o_goal := None;
     o_walls := Some []; o_holes := Some [];
     o_coins := Some [{| coin_x := 150; coin_y := 278 |}];
     o_extraLives := Some []; o_powerups := Some []; o_bouncePads := Some [];
     o_speedZones := Some []; o_movingWalls := Some [];
     o_starTimes := Some [14100; 9165; 5640] |}.

(** C6, as the claim states it, fails: a level with no goal and an empty
    wall list loads, and [loadLevel] returns true. *)
Lemma loadLevel_accepts_malformed_counterexample :
  o_goal goalless_level = None /\ o_walls goalless_level = Some [] /\
  exists e, loadLevel (fun _ => Some goalless_level) 0 new_engine = Normal true e.
Proof. split; [done |]. split; [done |]. eexists. vm_compute. reflexivity. Qed.

Section LoadLevel.
Variable Math_pow : Q -> Q -> Q.
Variable Math_sqrt : Q -> Q.
Variable Math_sin : Q -> Q.

(** A frame of a level without a goal cannot get past [checkGoalCollision]. *)
Lemma update_without_goal level dt inp e ef :
  currentLevel e = Some level -> o_goal level = None ->
  update Math_pow Math_sqrt Math_sin dt inp e = Normal tt ef ->
  isRunning ef = false /\ last (events ef) = Some onFellInHole.
Proof.
  intros Hlevel Hgoal. unfold update.
  pose proof (integrate_keeps_frame Math_pow Math_sqrt dt inp e) as Hi.
  destruct (integrate Math_pow Math_sqrt dt inp e) as [[e1 newX] newY].
  cbn [fst] in Hi.
  destruct (checkWallCollisions _ _ _ _) as [collision |]; [| discriminate].
  pose proof (bounce_keeps_frame collision newX newY inp e1) as Hb.
  destruct (checkHoleCollision _ _) as [[] |]; [| | discriminate].
  - intros Hup. inversion Hup. cbn. by rewrite last_snoc.
  - unfold checkGoalCollision.
    assert (currentLevel (bounce collision newX newY inp e1) = Some level) as ->.
    { transitivity (fixed (bounce collision newX newY inp e1)).2; [done |].
      by rewrite (during_frame_fixed _ _ Hb), (during_frame_fixed _ _ Hi). }
    cbn. rewrite Hgoal. discriminate.
Qed.

(** A frame of a level without a wall list throws in [checkWallCollisions],
    which iterates [currentLevel.walls] as it is. *)
Lemma update_without_walls level dt inp e :
  currentLevel e = Some level -> o_walls level = None ->
  exists ef, update Math_pow Math_sqrt Math_sin dt inp e = Thrown ef.
Proof.
  intros Hlevel Hwalls. unfold update.
  pose proof (integrate_keeps_frame Math_pow Math_sqrt dt inp e) as Hi.
  destruct (integrate Math_pow Math_sqrt dt inp e) as [[e1 newX] newY].
  cbn [fst] in Hi.
  assert (currentLevel e1 = Some level) as Hcur.
  { transitivity (fixed e1).2; [done |]. by rewrite (during_frame_fixed _ _ Hi). }
  unfold checkWallCollisions. rewrite Hcur. cbn. rewrite Hwalls. cbn. by eexists.
Qed.

(** C6, amended: [loadLevel] reports failure (returns false) exactly when
    the level manager has no level for the index; it validates nothing
    else.  A level whose start is missing makes it throw the [TypeError] of
    [resetBall]; every other level, whatever its goal and its wall list,
    loads and [loadLevel] returns true.  With a goal missing, a frame that
    gets past the wall and hole checks throws in [checkGoalCollision]: no
    frame of such a level returns normally unless the ball fell in a hole.
    With the wall list missing, the first frame throws in
    [checkWallCollisions]. *)
Theorem loadLevel_validates_nothing :
  forall (getLevel : Z -> option LevelObject) (index : Z) (e : Engine),
    ((exists e', loadLevel getLevel index e = Normal false e') <->
       getLevel index = None) /\
    ((exists e', loadLevel getLevel index e = Thrown e') <->
       exists level, getLevel index = Some level /\ o_start level = None) /\
    ((exists e', loadLevel getLevel index e = Normal true e') <->
       exists level, getLevel index = Some level /\ is_Some (o_start level)) /\
    (forall level el dt inp ef,
       getLevel index = Some level -> o_goal level = None ->
       loadLevel getLevel index e = Normal true el ->
       update Math_pow Math_sqrt Math_sin dt inp (start_game (now inp) el)
         = Normal tt ef ->
       isRunning ef = false /\ last (events ef) = Some onFellInHole) /\
    (forall level el dt inp,
       getLevel index = Some level -> o_walls level = None ->
       loadLevel getLevel index e = Normal true el ->
       exists ef,
         update Math_pow Math_sqrt Math_sin dt inp (start_game (now inp) el)
           = Thrown ef).
Proof.
  intros getLevel index e.
  assert (forall level el, getLevel index = Some level ->
            loadLevel getLevel index e = Normal true el ->
            currentLevel el = Some level) as Hcur.
  { intros level el Hget. unfold loadLevel, resetBall. cbn. rewrite Hget.
    destruct (o_start level); [| discriminate]. intros H. by inversion H. }
  split; [| split; [| split; [| split]]].
  - unfold loadLevel, resetBall. cbn.
    destruct (getLevel index) as [level |]; [| split; eauto].
    destruct (o_start level); split; try discriminate; by intros [e' He'].
  - unfold loadLevel, resetBall. cbn.
    destruct (getLevel index) as [level |].
    + destruct (o_start level) eqn:Hst; split.
      * by intros [e' He'].
      * intros (l & Hl & Hs). congruence.
      * intros _. by exists level.
      * intros _. by eexists.
    + split; [by intros [e' He'] | by intros (l & Hl & _)].
  - unfold loadLevel, resetBall. cbn.
    destruct (getLevel index) as [level |].
    + destruct (o_start level) eqn:Hst; split.
      * intros _. exists level. by rewrite Hst.
      * intros _. by eexists.
      * by intros [e' He'].
      * intros (l & Hl & [st Hs]). congruence.
    + split; [by intros [e' He'] | by intros (l & Hl & _)].
  - intros level el dt inp ef Hget Hgoal Hload.
    apply (update_without_goal level); [| done].
    unfold start_game. destruct (isRunning el); cbn; by apply Hcur.
  - intros level el dt inp Hget Hwalls Hload.
    apply (update_without_walls level); [| done].
    unfold start_game. destruct (isRunning el); cbn; by apply Hcur.
Qed.
End LoadLevel.

(** The small level without its wall list: it loads, and its first frame
    throws. *)
Definition wallless_level : LevelObject :=
  {| o_width := 300; o_height := 420; o_ballRadius := Some 12;
     o_start := Some {| pt_x := 82; pt_y := 346 |};
     o_goal := Some {| goal_x := 218; goal_y := 74; goal_radius := 22 |};
     o_walls := None; o_holes := Some [];
     o_coins := Some [{| coin_x := 150; coin_y := 278 |}];
     o_extraLives := Some []; o_powerups := Some []; o_bouncePads := Some [];
     o_speedZones := Some []; o_movingWalls := Some [];
     o_starTimes := Some [14100; 9165; 5640] |}.

Example wallless_level_loads_then_throws :
  let loaded := loadLevel (fun _ => Some wallless_level) 0 new_engine in
  (exists el, loaded = Normal true el) /\
  (exists ef,
     gameLoop (fun _ _ => 1%Q) (fun _ => 0%Q) (fun _ => 0%Q) 16 example_input
       (start_game 0 (engine_of loaded)) = Thrown ef).
Proof. split; eexists; vm_compute; reflexivity. Qed.

(** ** C5: pausing *)

(** The small session with a slow-motion pickup at clock reading 0 (what
    [checkPowerupCollision] calls on the pickup), paused afterwards. *)
Definition paused_with_powerup : Engine :=
  pause (activatePowerup 0 "slow_motion" tiny_session).

(** C5, as the claim states it, fails: the powerup's timeout is not
    cancelled by [pause()], and when the browser runs it, 4000 ms after the
    pickup, the effect expires although the session is still paused. *)
Lemma powerup_expires_while_paused_counterexample :
  isPaused paused_with_powerup = true /\
  isPowerupActive "slow_motion" paused_with_powerup = true /\
  isPaused (run_timeouts 4000 paused_with_powerup) = true /\
  isPowerupActive "slow_motion" (run_timeouts 4000 paused_with_powerup) = false.
Proof. repeat split; vm_compute; reflexivity. Qed.

Section Pause.
Variable Math_pow : Q -> Q -> Q.
Variable Math_sqrt : Q -> Q.
Variable Math_sin : Q -> Q.

Abbreviation update' := (update Math_pow Math_sqrt Math_sin).
Abbreviation gameLoop' := (gameLoop Math_pow Math_sqrt Math_sin).
Abbreviation animation_frame' := (animation_frame Math_pow Math_sqrt Math_sin).

Lemma frame_walls e e' :
  during_frame e' = during_frame e -> levelMovingWalls e' = levelMovingWalls e.
Proof. intros H. exact (f_equal (fun p => p.1.2) H). Qed.

(** A frame that does not end the attempt puts every moving wall where the
    clock says: at [move_wall] of the frame's clock reading. *)
Lemma update_moves_walls dt inp e ef :
  update' dt inp e = Normal tt ef ->
  isRunning e = true -> isRunning ef = true ->
  levelMovingWalls ef = map (move_wall Math_sin (now inp)) (levelMovingWalls e).
Proof.
  unfold update. intros Hup Hrun Hrun'.
  pose proof (integrate_keeps_frame Math_pow Math_sqrt dt inp e) as Hi.
  destruct (integrate Math_pow Math_sqrt dt inp e) as [[e1 newX] newY].
  cbn [fst] in Hi.
  destruct (checkWallCollisions _ _ _ _) as [collision |]; [| discriminate].
  pose proof (bounce_keeps_frame collision newX newY inp e1) as Hb.
  destruct (checkHoleCollision _ _) as [[] |]; [| | discriminate].
  { inversion Hup; subst ef. discriminate. }
  destruct (checkGoalCollision _ _) as [[] |]; [| | discriminate].
  { inversion Hup; subst ef. discriminate. }
  inversion Hup; subst ef; clear Hup.
  etransitivity; [apply frame_walls, updateActivePowerups_keeps_frame |].
  unfold updateMovingWalls. cbn [levelMovingWalls set_levelMovingWalls]. f_equal.
  etransitivity; [apply frame_walls, applySpeedZoneEffects_keeps_frame |].
  etransitivity; [apply frame_walls, checkBouncePadCollision_keeps_frame |].
  etransitivity; [apply frame_walls, checkPowerupCollision_keeps_frame |].
  etransitivity; [apply frame_walls, checkExtraLifeCollision_keeps_frame |].
  etransitivity; [apply frame_walls, checkCoinCollision_keeps_frame |].
  etransitivity; [apply frame_walls, Hb |].
  apply frame_walls, Hi.
Qed.

(** C5, amended: while a session is paused no frame runs: the frame
    callback and the elapsed-time interval leave every field of the engine
    as [pause()] left it, so the ball, the coins and the moving walls keep
    their values; [resume()] samples [lastFrameTime] at the resume instant,
    so the first frame after it uses the delta-time
    [min((timestamp - resume instant) / 1000, 0.05)] with nothing added for
    the paused interval.  The claim's other two parts are not kept: timed
    effects expire by wall-clock timeouts that pausing does not hold back,
    and the first frame after the resume puts each moving wall where the
    wall clock says, at
    [original + sin(now / 1000 * (speed / 50) + phase) * range], not where
    it stood at the pause. *)
Theorem pause_stops_frames_only :
  forall (e : Engine),
    isRunning e = true -> isPaused e = false ->
    let ep := pause e in
    (isPaused ep = true /\ frameRequested ep = false /\ timerInterval ep = false) /\
    (forall timestamp inp,
        gameLoop' timestamp inp ep = Normal tt ep /\
        animation_frame' timestamp inp ep = Normal tt ep) /\
    (forall t, timer_tick t ep = ep) /\
    (ball ep = ball e /\ levelCoins ep = levelCoins e /\
     levelMovingWalls ep = levelMovingWalls e /\
     activePowerups ep = activePowerups e /\ elapsedTime ep = elapsedTime e) /\
    (forall resumed_at,
        let er := resume resumed_at ep in
        isPaused er = false /\ lastFrameTime er = resumed_at /\
        ball er = ball e /\ levelMovingWalls er = levelMovingWalls e /\
        forall timestamp inp,
          let deltaTime := Qmin ((timestamp - resumed_at) / 1000) 0.05 in
          gameLoop' timestamp inp er =
            match update' deltaTime inp (set_lastFrameTime timestamp er) with
            | Thrown e' => Thrown e'
            | Normal _ e' => Normal tt (set_frameRequested true e')
            end /\
          forall ef,
            gameLoop' timestamp inp er = Normal tt ef -> isRunning ef = true ->
            levelMovingWalls ef =
              map (move_wall Math_sin (now inp)) (levelMovingWalls e)).
Proof.
  intros e Hrun Hpaused ep.
  assert (ep = set_frameRequested false (stopTimer (set_isPaused true e))) as Hep.
  { subst ep. unfold pause. by rewrite Hrun, Hpaused. }
  split; [by rewrite Hep |].
  split.
  { intros timestamp inp. unfold animation_frame, gameLoop. rewrite Hep. cbn.
    by rewrite Hrun. }
  split.
  { intros t. unfold timer_tick. by rewrite Hep. }
  split; [by rewrite Hep |].
  intros resumed_at er.
  assert (er = set_frameRequested true (set_lastFrameTime resumed_at
                 (startTimer (set_isPaused false ep)))) as Her.
  { subst er. unfold resume. by rewrite Hep; cbn; rewrite Hrun. }
  split; [by rewrite Her |]. split; [by rewrite Her |].
  split; [by rewrite Her, Hep |]. split; [by rewrite Her, Hep |].
  intros timestamp inp deltaTime.
  assert (gameLoop' timestamp inp er =
            match update' deltaTime inp (set_lastFrameTime timestamp er) with
            | Thrown e' => Thrown e'
            | Normal _ e' => Normal tt (set_frameRequested true e')
            end) as Hloop.
  { unfold gameLoop. subst deltaTime.
    replace (isRunning er) with true by (by rewrite Her, Hep; cbn; rewrite Hrun).
    replace (isPaused er) with false by (by rewrite Her).
    replace (lastFrameTime er) with resumed_at by (by rewrite Her).
    reflexivity. }
  split; [exact Hloop |].
  intros ef Hef Hrunf. rewrite Hloop in Hef.
  destruct (update' deltaTime inp (set_lastFrameTime timestamp er)) as [[] e' |] eqn:Hup;
    [| discriminate].
  inversion Hef; subst ef; clear Hef. cbn in Hrunf |- *.
  rewrite (update_moves_walls _ _ _ _ Hup).
  - by rewrite Her, Hep.
  - rewrite Her, Hep. cbn. exact Hrun.
  - exact Hrunf.
Qed.
End Pause.

(** Stand-ins for [Math.pow], [Math.sqrt] and [Math.sin] in the example
    below: the base itself (the exponent [deltaTime * 60] of a frame is about
    1), the integer square root, and the sine's series up to the cubic term
    (the arguments below are under 1). *)
Definition approx_pow (b _ : Q) : Q := b.
Definition approx_sqrt (q : Q) : Q := inject_Z (Z.sqrt (Qfloor q)).
Definition approx_sin (x : Q) : Q := (x - x * x * x / 6)%Q.

(** The small level with one moving wall. *)
Definition patrol_level : LevelObject :=
  {| o_width := 300; o_height := 420; o_ballRadius := Some 12%Z;
     o_start := Some {| pt_x := 82; pt_y := 346 |};
     o_goal := Some {| goal_x := 218; goal_y := 74; goal_radius := 22 |};
     o_walls := Some []; o_holes := Some [];
     o_coins := Some [{| coin_x := 150; coin_y := 278 |}];
     o_extraLives := Some []; o_powerups := Some []; o_bouncePads := Some [];
     o_speedZones := Some [];
     o_movingWalls :=
       Some [{| originalX := 116; originalY := 206; mw_width := 68; mw_height := 8;
                mw_direction := "vertical"; mw_range := 40; mw_speed := 30;
                mw_phase := 0 |}];
     o_starTimes := Some [14100; 9165; 5640]%Z |}.

(** Its session: loaded, started at clock reading 0, and one frame run at
    clock reading 16. *)
Definition patrol_session : Engine :=
  engine_of (gameLoop approx_pow approx_sqrt approx_sin 16 example_input
               (start_game 0 (engine_of (loadLevel (fun _ => Some patrol_level) 0
                                           new_engine)))).

(** The clock reading of the first frame after the resume. *)
Definition later_input : FrameInput :=
  {| tilt_x := 1; tilt_y := 0; sensitivity := 1; magnetRadius := 0;
     random_x := 1 # 4; random_y := 3 # 4; now := 1016 |}.

(** The amended C5 on that session, paused after its frame and resumed at
    clock reading 1000: the frame at 1016 returns, the attempt goes on, and
    the wall stands where the clock reading 1016 puts it, which is not where
    it stood at the pause. *)
Lemma pause_stops_frames_only_witness :
  let Math_pow := approx_pow in
  let Math_sqrt := approx_sqrt in
  let Math_sin := approx_sin in
  let e := patrol_session in
  let ep := pause e in
  ((isPaused ep = true /\ frameRequested ep = false /\ timerInterval ep = false) /\
   (forall timestamp inp,
       gameLoop Math_pow Math_sqrt Math_sin timestamp inp ep = Normal tt ep /\
       animation_frame Math_pow Math_sqrt Math_sin timestamp inp ep = Normal tt ep) /\
   (forall t, timer_tick t ep = ep) /\
   (ball ep = ball e /\ levelCoins ep = levelCoins e /\
    levelMovingWalls ep = levelMovingWalls e /\
    activePowerups ep = activePowerups e /\ elapsedTime ep = elapsedTime e) /\
   (forall resumed_at,
       let er := resume resumed_at ep in
       isPaused er = false /\ lastFrameTime er = resumed_at /\
       ball er = ball e /\ levelMovingWalls er = levelMovingWalls e /\
       forall timestamp inp,
         let deltaTime := Qmin ((timestamp - resumed_at) / 1000) 0.05 in
         gameLoop Math_pow Math_sqrt Math_sin timestamp inp er =
           match update Math_pow Math_sqrt Math_sin deltaTime inp
                   (set_lastFrameTime timestamp er) with
           | Thrown e' => Thrown e'
           | Normal _ e' => Normal tt (set_frameRequested true e')
           end /\
         forall ef,
           gameLoop Math_pow Math_sqrt Math_sin timestamp inp er = Normal tt ef ->
           isRunning ef = true ->
           levelMovingWalls ef =
             map (move_wall Math_sin (now inp)) (levelMovingWalls e))) /\
  length (levelMovingWalls e) = 1%nat /\
  exists ef,
    gameLoop Math_pow Math_sqrt Math_sin 1016 later_input (resume 1000 ep) = Normal tt ef /\
    isRunning ef = true /\
    levelMovingWalls ef = map (move_wall Math_sin 1016) (levelMovingWalls e) /\
    levelMovingWalls ef <> levelMovingWalls e.
Proof.
  assert (isRunning patrol_session = true) as Hrun by (vm_compute; reflexivity).
  assert (isPaused patrol_session = false) as Hpaused by (vm_compute; reflexivity).
  pose proof (pause_stops_frames_only approx_pow approx_sqrt approx_sin
                patrol_session Hrun Hpaused) as H.
  split; [exact H |].
  split; [vm_compute; reflexivity |].
  eexists. split; [vm_compute; reflexivity |].
  split; [vm_compute; reflexivity |].
  split; [vm_compute; reflexivity |].
  vm_compute. discriminate.
Defined.


(** ** C3: the time scale and the physics step *)

Section TimeScale.
Variable Math_pow : Q -> Q -> Q.
Variable Math_sqrt : Q -> Q.
Variable Math_sin : Q -> Q.

Lemma fold_left_commute {A} (g : Engine -> Engine) (f : Engine -> A -> Engine) l e :
  (forall e x, f (g e) x = g (f e x)) -> fold_left f l (g e) = g (fold_left f l e).
Proof.
  intros Hf. revert e. induction l as [| x l IH]; intros e; [done |].
  cbn. by rewrite Hf, IH.
Qed.

Lemma fold_right_commute {A B} (g : Engine -> Engine)
    (f : A -> B * Engine -> B * Engine) l b e :
  (forall x b e, f x (b, g e) = ((f x (b, e)).1, g (f x (b, e)).2)) ->
  fold_right f (b, g e) l = ((fold_right f (b, e) l).1, g (fold_right f (b, e) l).2).
Proof.
  intros Hf. induction l as [| x l IH]; [done |].
  cbn. rewrite IH. destruct (fold_right f (b, e) l) as [b' e']. apply Hf.
Qed.

Lemma activatePowerup_timeScale ts now type e :
  activatePowerup now type (set_timeScale ts e)
  = set_timeScale ts (activatePowerup now type e).
Proof.
  unfold activatePowerup. cbn. by destruct (activePowerups e !! type).
Qed.

Lemma checkCoinCollision_timeScale ts inp e :
  checkCoinCollision Math_sqrt inp (set_timeScale ts e)
  = set_timeScale ts (checkCoinCollision Math_sqrt inp e).
Proof.
  unfold checkCoinCollision.
  change (ball (set_timeScale ts e)) with (ball e).
  change (levelCoins (set_timeScale ts e)) with (levelCoins e).
  rewrite fold_right_commute.
  - by destruct (fold_right _ _ _).
  - intros coin k e0. cbn. by repeat case_match.
Qed.

Lemma checkExtraLifeCollision_timeScale ts e :
  checkExtraLifeCollision Math_sqrt (set_timeScale ts e)
  = set_timeScale ts (checkExtraLifeCollision Math_sqrt e).
Proof.
  unfold checkExtraLifeCollision.
  change (ball (set_timeScale ts e)) with (ball e).
  change (levelExtraLives (set_timeScale ts e)) with (levelExtraLives e).
  rewrite fold_right_commute.
  - by destruct (fold_right _ _ _).
  - intros life k e0. cbn. by repeat case_match.
Qed.

Lemma checkPowerupCollision_timeScale ts inp e :
  checkPowerupCollision Math_sqrt inp (set_timeScale ts e)
  = set_timeScale ts (checkPowerupCollision Math_sqrt inp e).
Proof.
  unfold checkPowerupCollision.
  change (ball (set_timeScale ts e)) with (ball e).
  change (levelPowerups (set_timeScale ts e)) with (levelPowerups e).
  rewrite fold_right_commute.
  - by destruct (fold_right _ _ _).
  - intros p k e0. cbn [fst snd].
    destruct (rp_collected p); [done |]. destruct (Qltb _ _); [| done].
    cbn [fst snd]. by rewrite activatePowerup_timeScale.
Qed.

Lemma checkBouncePadCollision_timeScale ts e :
  checkBouncePadCollision (set_timeScale ts e)
  = set_timeScale ts (checkBouncePadCollision e).
Proof.
  unfold checkBouncePadCollision.
  change (levelBouncePads (set_timeScale ts e)) with (levelBouncePads e).
  apply fold_left_commute. intros e0 pad. cbn. by repeat case_match.
Qed.

Lemma applySpeedZoneEffects_timeScale ts e :
  applySpeedZoneEffects (set_timeScale ts e)
  = set_timeScale ts (applySpeedZoneEffects e).
Proof.
  unfold applySpeedZoneEffects.
  change (levelSpeedZones (set_timeScale ts e)) with (levelSpeedZones e).
  apply fold_left_commute. intros e0 zone. cbn. by repeat case_match.
Qed.

(** [updateActivePowerups] assigns the time scale without reading it. *)
Lemma updateActivePowerups_timeScale ts e :
  set_timeScale 0 (updateActivePowerups Math_sqrt (set_timeScale ts e))
  = set_timeScale 0 (updateActivePowerups Math_sqrt e).
Proof.
  assert (forall t x, powerup_shrink (set_timeScale t x)
                      = set_timeScale t (powerup_shrink x)) as Hshrink.
  { intros t x. unfold powerup_shrink.
    change (isPowerupActive "shrink" (set_timeScale t x))
      with (isPowerupActive "shrink" x).
    by destruct (isPowerupActive "shrink" x). }
  assert (forall t x, powerup_magnet Math_sqrt (set_timeScale t x)
                      = set_timeScale t (powerup_magnet Math_sqrt x)) as Hmagnet.
  { intros t x. unfold powerup_magnet.
    change (isPowerupActive "magnet" (set_timeScale t x))
      with (isPowerupActive "magnet" x).
    by destruct (isPowerupActive "magnet" x). }
  unfold updateActivePowerups, powerup_timeScale.
  change (isPowerupActive "slow_motion" (set_timeScale ts e))
    with (isPowerupActive "slow_motion" e).
  change (isPowerupActive "speed_boost" (set_timeScale ts e))
    with (isPowerupActive "speed_boost" e).
  destruct (isPowerupActive "slow_motion" e);
    [| destruct (isPowerupActive "speed_boost" e)];
    by rewrite !Hmagnet, !Hshrink.
Qed.

(** C3: the code computes [scaledDelta = deltaTime * timeScale] and never
    uses it: tilt acceleration, friction and the position step all take the
    unscaled [deltaTime].  So the frame's outcome does not depend on the
    time scale at all: from two engines that differ in nothing but
    [timeScale], [update] throws or returns alike and leaves engines that
    again differ in nothing but [timeScale]; the ball ends at the same
    position with the same velocity, and its displacement under
    [timeScale = 0.4] equals, and so is not smaller than, its displacement
    under [timeScale = 1]. *)
Theorem update_ignores_timeScale :
  forall (deltaTime : Q) (inp : FrameInput) (e : Engine) (ts1 ts2 : Q),
    let r1 := update Math_pow Math_sqrt Math_sin deltaTime inp (set_timeScale ts1 e) in
    let r2 := update Math_pow Math_sqrt Math_sin deltaTime inp (set_timeScale ts2 e) in
    set_timeScale 0 (engine_of r1) = set_timeScale 0 (engine_of r2) /\
    (match r1, r2 with
     | Normal _ _, Normal _ _ | Thrown _, Thrown _ => True
     | _, _ => False
     end) /\
    ball (engine_of r1) = ball (engine_of r2) /\
    (ball_x (ball (engine_of r1)) - ball_x (ball (set_timeScale ts1 e)) =
     ball_x (ball (engine_of r2)) - ball_x (ball (set_timeScale ts2 e)))%Q /\
    (ball_y (ball (engine_of r1)) - ball_y (ball (set_timeScale ts1 e)) =
     ball_y (ball (engine_of r2)) - ball_y (ball (set_timeScale ts2 e)))%Q.
Proof.
  intros deltaTime inp e ts1 ts2 r1 r2.
  assert (forall ts,
    match update Math_pow Math_sqrt Math_sin deltaTime inp (set_timeScale ts e),
          update Math_pow Math_sqrt Math_sin deltaTime inp e with
    | Normal _ e1, Normal _ e2 | Thrown e1, Thrown e2 =>
        set_timeScale 0 e1 = set_timeScale 0 e2
    | _, _ => False
    end) as Hone.
  { intros ts. unfold update.
    assert (integrate Math_pow Math_sqrt deltaTime inp (set_timeScale ts e)
            = (set_timeScale ts (integrate Math_pow Math_sqrt deltaTime inp e).1.1,
               (integrate Math_pow Math_sqrt deltaTime inp e).1.2,
               (integrate Math_pow Math_sqrt deltaTime inp e).2)) as ->.
    { unfold integrate. cbn. by destruct (Qltb _ _). }
    destruct (integrate Math_pow Math_sqrt deltaTime inp e) as [[e1 newX] newY].
    cbn [fst snd].
    change (checkWallCollisions Math_sqrt newX newY (set_timeScale ts e1))
      with (checkWallCollisions Math_sqrt newX newY e1).
    destruct (checkWallCollisions Math_sqrt newX newY e1) as [collision |]; [| done].
    assert (bounce collision newX newY inp (set_timeScale ts e1)
            = set_timeScale ts (bounce collision newX newY inp e1)) as ->.
    { unfold bounce. by destruct (col_x collision), (col_y collision). }
    set (e2 := bounce collision newX newY inp e1).
    change (checkHoleCollision Math_sqrt (set_timeScale ts e2))
      with (checkHoleCollision Math_sqrt e2).
    destruct (checkHoleCollision Math_sqrt e2) as [[] |]; [done | | done].
    change (checkGoalCollision Math_sqrt (set_timeScale ts e2))
      with (checkGoalCollision Math_sqrt e2).
    destruct (checkGoalCollision Math_sqrt e2) as [[] |]; [done | | done].
    rewrite checkCoinCollision_timeScale, checkExtraLifeCollision_timeScale,
      checkPowerupCollision_timeScale, checkBouncePadCollision_timeScale,
      applySpeedZoneEffects_timeScale.
    change (updateMovingWalls Math_sin inp (set_timeScale ts ?x))
      with (set_timeScale ts (updateMovingWalls Math_sin inp x)).
    apply updateActivePowerups_timeScale. }
  pose proof (Hone ts1) as H1. pose proof (Hone ts2) as H2.
  subst r1 r2.
  destruct (update Math_pow Math_sqrt Math_sin deltaTime inp (set_timeScale ts1 e))
    as [[] e1 | e1],
    (update Math_pow Math_sqrt Math_sin deltaTime inp (set_timeScale ts2 e))
    as [[] e2 | e2],
    (update Math_pow Math_sqrt Math_sin deltaTime inp e) as [[] e0 | e0];
    try done; cbn [engine_of].
  all: assert (set_timeScale 0 e1 = set_timeScale 0 e2) as Heq by congruence.
  all: pose proof (f_equal ball Heq) as Hball; cbn in Hball.
  all: repeat split; try done; by rewrite Hball.
Qed.
End TimeScale.

(** * More on the generator *)

Lemma bind_Done {A B} (m : Gen A) (k : A -> Gen B) s b s' :
  bind m k s = Done b s' -> exists a s1, m s = Done a s1 /\ k a s1 = Done b s'.
Proof. unfold bind. destruct (m s) as [a s1 | |]; [eauto | done | done]. Qed.

(** What a returning call of [generateLevel] went through. *)
#[warnings="-cannot-define-projection"]
Record Generation (levelNum : Z) (m : MazeDefinition) : Prop := {
  gen_maze : Grid;
  gen_fuel : nat;
  gen_s1 : Z; gen_s2 : Z; gen_s3 : Z; gen_s4 : Z;
  gen_s5 : Z; gen_s6 : Z; gen_s7 : Z; gen_s8 : Z; gen_s9 : Z;
  gen_d := getDifficulty levelNum;
  gen_cols := cols_of gen_d;
  gen_rows := rows_of gen_d;
  gen_cellSize := cellSize_of gen_d;
  gen_offsetX :=
    ((inject_Z (width_of gen_d) - inject_Z gen_cols * inject_Z gen_cellSize) / 2)%Q;
  gen_offsetY :=
    ((inject_Z (height_of gen_d) - inject_Z gen_rows * inject_Z gen_cellSize) / 2)%Q;
  gen_grid :
    generateMazeGrid gen_fuel gen_cols gen_rows (levelNum * 7919) = Done gen_maze gen_s1;
  gen_walls :
    mazeToWalls gen_maze gen_cols gen_rows gen_cellSize (width_of gen_d) (height_of gen_d)
      gen_s1 = Done (walls_of m) gen_s2;
  gen_start :
    start m = {| pt_x := cell_centre gen_offsetX 0 gen_cellSize;
                 pt_y := cell_centre gen_offsetY (gen_rows - 1) gen_cellSize |};
  gen_goal :
    goal m = {| goal_x := cell_centre gen_offsetX (gen_cols - 1) gen_cellSize;
                goal_y := cell_centre gen_offsetY 0 gen_cellSize;
                goal_radius := Z.max 14 (22 - levelNum / 25) |};
  gen_holes :
    generateHoles gen_cols gen_rows gen_cellSize gen_offsetX gen_offsetY
      (start m) (goal m) gen_d gen_s2 = Done (holes_of m) gen_s3;
  gen_coins :
    generateCoins levelNum gen_maze gen_cols gen_rows gen_cellSize gen_offsetX gen_offsetY
      (start m) (goal m) gen_fuel gen_s3 = Done (coins m) gen_s4;
  gen_lives :
    generateExtraLives levelNum gen_maze gen_cols gen_rows gen_cellSize
      gen_offsetX gen_offsetY (start m) (goal m) (coins m) (holes_of m) gen_s4
      = Done (extraLives m) gen_s5;
  gen_powerups :
    generatePowerups levelNum gen_cols gen_rows gen_cellSize gen_offsetX gen_offsetY
      (start m) (goal m) (holes_of m) gen_s5 = Done (powerups m) gen_s6;
  gen_pads :
    generateBouncePads levelNum gen_cols gen_rows gen_cellSize gen_offsetX gen_offsetY
      (start m) (goal m) (holes_of m) gen_s6 = Done (bouncePads m) gen_s7;
  gen_zones :
    generateSpeedZones levelNum gen_cols gen_rows gen_cellSize gen_offsetX gen_offsetY
      gen_s7 = Done (speedZones m) gen_s8;
  gen_moving :
    generateMovingWalls levelNum (walls_of m) gen_s8 = Done (movingWalls m) gen_s9;
  gen_stars : starTimes m = starTimes_of levelNum;
  gen_size : width m = width_of gen_d /\ height m = height_of gen_d;
  gen_id : id m = levelNum }.

Lemma generateLevel_inv fuel levelNum s m s' :
  generateLevel fuel levelNum s = Done m s' -> Generation levelNum m.
Proof.
  unfold generateLevel. intros H.
  apply bind_Done in H as ([] & s0 & H0 & H). inversion H0; subst s0; clear H0.
  apply bind_Done in H as (maze & s1 & Hmaze & H).
  apply bind_Done in H as (walls & s2 & Hwalls & H).
  apply bind_Done in H as (holes & s3 & Hholes & H).
  apply bind_Done in H as (coins & s4 & Hcoins & H).
  apply bind_Done in H as (lives & s5 & Hlives & H).
  apply bind_Done in H as (pus & s6 & Hpus & H).
  apply bind_Done in H as (pads & s7 & Hpads & H).
  apply bind_Done in H as (zones & s8 & Hzones & H).
  apply bind_Done in H as (mws & s9 & Hmws & H).
  inversion H; subst m s'; clear H.
  by eapply (Build_Generation _ _ maze fuel s1 s2 s3 s4 s5 s6 s7 s8 s9).
Qed.

(** ** C8: stars *)

Lemma starTimes_ordered levelNum :
  1 <= levelNum ->
  exists t0 t1 t2, starTimes_of levelNum = [t0; t1; t2] /\ 0 <= t2 <= t1 /\ t1 <= t0.
Proof.
  intros Hn. unfold starTimes_of.
  assert (0 <= baseTime levelNum) as Hb.
  { unfold baseTime, getDifficulty.
    repeat match goal with |- context [if ?b then _ else _] => destruct b end; cbn; lia. }
  set (b := baseTime levelNum) in *.
  assert (0 <= inject_Z b)%Q as Hq
    by (change 0%Q with (inject_Z 0); rewrite <- Zle_Qle; lia).
  clearbody b.
  eexists _, _, _. split; [reflexivity |].
  repeat split.
  - change 0 with (Qfloor 0). apply Qfloor_resp_le. lra.
  - apply Qfloor_resp_le. lra.
  - apply Qfloor_resp_le. lra.
Qed.

(** C8: for every level the generator returns, a completion time that is no
    larger never earns fewer stars, and every time earns at least one star;
    the three thresholds are [floor base], [floor (base * 0.65)] and
    [floor (base * 0.4)], in descending order. *)
Theorem calculateStars_monotone :
  forall (levelNum : Z) (fuel : nat) (seed seed' : Z) (m : MazeDefinition) (e : Engine),
    1 <= levelNum ->
    generateLevel fuel levelNum seed = Done m seed' ->
    currentLevel e = Some (level_object m) ->
    (forall t1 t2 : Q, (t1 <= t2)%Q -> calculateStars e t2 <= calculateStars e t1) /\
    (forall t : Q, 1 <= calculateStars e t <= 3) /\
    (exists t0 t1 t2, starTimes m = [t0; t1; t2] /\ t2 <= t1 <= t0 /\
       forall t : Q,
         calculateStars e t =
           if Qle_bool t (inject_Z t2) then 3
           else if Qle_bool t (inject_Z t1) then 2 else 1).
Proof.
  intros levelNum fuel seed seed' m e Hn Hgen Hlevel.
  destruct (generateLevel_inv _ _ _ _ _ Hgen) as [? ? ? ? ? ? ? ? ? ? ? ? ? ? ? ? ? _ _ _ _ _ _ _ _ _ _ _ Hstars _ _].
  destruct (starTimes_ordered levelNum Hn) as (t0 & t1 & t2 & Hst & [H2 H21] & H10).
  rewrite <- Hstars in Hst.
  assert (forall t : Q, calculateStars e t =
            if Qle_bool t (inject_Z t2) then 3
            else if Qle_bool t (inject_Z t1) then 2 else 1) as Hcalc.
  { intros t. unfold calculateStars. rewrite Hlevel. cbn. rewrite Hst.
    by destruct (Qle_bool t (inject_Z t2)), (Qle_bool t (inject_Z t1)),
      (Qle_bool t (inject_Z t0)). }
  split; [| split].
  - intros u1 u2 Hu. rewrite !Hcalc.
    destruct (Qle_bool u2 (inject_Z t2)) eqn:E2.
    + apply Qle_bool_iff in E2.
      assert (Qle_bool u1 (inject_Z t2) = true) as ->; [| lia].
      apply Qle_bool_iff. by eapply Qle_trans.
    + destruct (Qle_bool u2 (inject_Z t1)) eqn:E1.
      * apply Qle_bool_iff in E1.
        assert (Qle_bool u1 (inject_Z t1) = true) as ->.
        { apply Qle_bool_iff. by eapply Qle_trans. }
        destruct (Qle_bool u1 (inject_Z t2)); lia.
      * destruct (Qle_bool u1 (inject_Z t2)), (Qle_bool u1 (inject_Z t1)); lia.
  - intros t. rewrite Hcalc.
    destruct (Qle_bool t (inject_Z t2)), (Qle_bool t (inject_Z t1)); lia.
  - exists t0, t1, t2. repeat split; try done; lia.
Qed.

Lemma calculateStars_monotone_witness :
  exists m seed',
    generateLevel 100 1 0 = Done m seed' /\
    let e := set_currentLevel (Some (level_object m)) new_engine in
    (forall t1 t2 : Q, (t1 <= t2)%Q -> calculateStars e t2 <= calculateStars e t1) /\
    (forall t : Q, 1 <= calculateStars e t <= 3) /\
    (exists t0 t1 t2, starTimes m = [t0; t1; t2] /\ t2 <= t1 <= t0 /\
       forall t : Q,
         calculateStars e t =
           if Qle_bool t (inject_Z t2) then 3
           else if Qle_bool t (inject_Z t1) then 2 else 1).
Proof.
  eexists _, _. split; [vm_compute; reflexivity |].
  eapply (calculateStars_monotone 1 100 0);
    [lia | vm_compute; reflexivity | reflexivity].
Defined.


(** ** The stream stays in range *)

Definition modulus : Z := 233280.

Lemma lcg_range s : 0 <= s -> 0 <= lcg s < modulus.
Proof.
  intros Hs. unfold lcg, modulus.
  rewrite Z.rem_mod_nonneg by lia. apply Z.mod_pos_bound. lia.
Qed.

(** [Math.floor(rng() * n)] is an index below [n]. *)
Lemma rand_below_spec n s :
  0 <= s -> 0 < n ->
  exists i, rand_below n s = Done i (lcg s) /\ 0 <= i < n.
Proof.
  intros Hs Hn. pose proof (lcg_range s Hs) as Hr. unfold modulus in Hr.
  unfold rand_below, bind, rng, ret. eexists. split; [reflexivity |].
  unfold Qfloor, Qmult, inject_Z. cbn [Qnum Qden].
  change (Z.pos (233280 * 1)) with 233280.
  split.
  - apply Z.div_pos; nia.
  - apply Z.div_lt_upper_bound; nia.
Qed.

Lemma rand_below_zero s : rand_below 0 s = Done 0 (lcg s).
Proof.
  unfold rand_below, bind, rng, ret. f_equal.
  unfold Qfloor, Qmult, inject_Z. cbn [Qnum Qden]. by rewrite Z.mul_0_r.
Qed.

(** ** Grids *)

Definition wf_grid (rows cols : nat) (g : Grid) : Prop :=
  length g = rows /\ Forall (fun line => length line = cols) g.

Definition in_grid (rows cols : nat) (p : Pos) : Prop :=
  (row p < rows)%nat /\ (col p < cols)%nat.

Lemma cell_at_in_grid rows cols g p :
  wf_grid rows cols g -> in_grid rows cols p -> is_Some (cell_at g (row p) (col p)).
Proof.
  intros [Hlen Hall] [Hr Hc]. unfold cell_at.
  destruct (g !! row p) as [line |] eqn:Hline.
  - apply lookup_lt_is_Some.
    rewrite Forall_forall in Hall.
    rewrite (Hall line); [done |]. eapply list_elem_of_lookup_2, Hline.
  - apply lookup_ge_None in Hline. lia.
Qed.

Lemma cell_at_Some_in_grid rows cols g r c cl :
  wf_grid rows cols g -> cell_at g r c = Some cl ->
  in_grid rows cols {| row := r; col := c |}.
Proof.
  intros [Hlen Hall] H. unfold cell_at in H.
  destruct (g !! r) as [line |] eqn:Hline; [| done].
  split; cbn.
  - rewrite <- Hlen. eapply lookup_lt_Some, Hline.
  - rewrite Forall_forall in Hall.
    rewrite <- (Hall line); [eapply lookup_lt_Some, H |].
    eapply list_elem_of_lookup_2, Hline.
Qed.

Lemma cell_at_alter f g r c r' c' :
  cell_at (alter (alter f c) r g) r' c'
  = if decide (r = r' /\ c = c') then f <$> cell_at g r' c' else cell_at g r' c'.
Proof.
  unfold cell_at. destruct (decide (r = r')) as [-> | Hr].
  - rewrite list_lookup_alter_eq. destruct (g !! r') as [line |]; cbn.
    + destruct (decide (c = c')) as [-> | Hc].
      * rewrite list_lookup_alter_eq. by rewrite decide_True.
      * rewrite list_lookup_alter_ne by done. rewrite decide_False; [done | tauto].
    + by destruct (decide _).
  - rewrite list_lookup_alter_ne by done. rewrite decide_False; [done | tauto].
Qed.

Lemma wf_grid_alter f rows cols g r c :
  wf_grid rows cols g -> wf_grid rows cols (alter (alter f c) r g).
Proof.
  intros [Hlen Hall]. split; [by rewrite length_alter |].
  rewrite Forall_forall in Hall |- *. intros line Hin.
  apply list_elem_of_lookup in Hin as [i Hi].
  destruct (decide (r = i)) as [-> | Hne].
  - rewrite list_lookup_alter_eq in Hi.
    destruct (g !! i) as [line0 |] eqn:Hl; [| done].
    inversion Hi; subst line. rewrite length_alter. apply Hall.
    eapply list_elem_of_lookup_2, Hl.
  - rewrite list_lookup_alter_ne in Hi by done. apply Hall.
    eapply list_elem_of_lookup_2, Hi.
Qed.

Lemma update_cell_Done f g r c s :
  is_Some (cell_at g r c) -> update_cell f g r c s = Done (alter (alter f c) r g) s.
Proof. intros [cl H]. unfold update_cell. by rewrite H. Qed.

Lemma wf_grid_replicate rows cols :
  wf_grid rows cols (replicate rows (replicate cols fresh_cell)).
Proof.
  split; [by rewrite length_replicate |].
  apply Forall_forall. intros line Hin.
  apply elem_of_replicate in Hin as [-> _]. by rewrite length_replicate.
Qed.

(** ** Passages and connection *)

(** Two cells are [adjacent] when one is directly above, below, left or
    right of the other. *)
Definition adjacent (p q : Pos) : Prop :=
  (row p = S (row q) /\ col p = col q) \/ (row q = S (row p) /\ col p = col q) \/
  (col q = S (col p) /\ row p = row q) \/ (col p = S (col q) /\ row p = row q).

(** [passage g p q]: [p] and [q] are adjacent cells of the grid and the wall
    between them is open on both of its sides. *)
Definition passage (g : Grid) (p q : Pos) : Prop :=
  exists cp cq,
    cell_at g (row p) (col p) = Some cp /\ cell_at g (row q) (col q) = Some cq /\
    ((row p = S (row q) /\ col p = col q /\
        w_top (walls cp) = false /\ w_bottom (walls cq) = false) \/
     (row q = S (row p) /\ col p = col q /\
        w_bottom (walls cp) = false /\ w_top (walls cq) = false) \/
     (col q = S (col p) /\ row p = row q /\
        w_right (walls cp) = false /\ w_left (walls cq) = false) \/
     (col p = S (col q) /\ row p = row q /\
        w_left (walls cp) = false /\ w_right (walls cq) = false)).

(** What a breadth-first search over the open adjacencies from [p] reaches:
    the cells a path of passages leads to. *)
Definition connected (g : Grid) : Pos -> Pos -> Prop := rtc (passage g).

(** [opens g g']: [g'] is [g] with some walls removed and some cells marked
    visited. *)
Definition more_open (c c' : Cell) : Prop :=
  (visited c = true -> visited c' = true) /\
  (w_top (walls c) = false -> w_top (walls c') = false) /\
  (w_right (walls c) = false -> w_right (walls c') = false) /\
  (w_bottom (walls c) = false -> w_bottom (walls c') = false) /\
  (w_left (walls c) = false -> w_left (walls c') = false).

Definition opens (g g' : Grid) : Prop :=
  forall r c cl, cell_at g r c = Some cl ->
    exists cl', cell_at g' r c = Some cl' /\ more_open cl cl'.

Lemma opens_refl g : opens g g.
Proof. intros r c cl H. exists cl. split; [done |]. by repeat split. Qed.

Lemma opens_trans g1 g2 g3 : opens g1 g2 -> opens g2 g3 -> opens g1 g3.
Proof.
  intros H12 H23 r c cl H.
  destruct (H12 r c cl H) as (cl2 & H2 & M2).
  destruct (H23 r c cl2 H2) as (cl3 & H3 & M3).
  exists cl3. split; [done |].
  destruct M2 as (? & ? & ? & ? & ?), M3 as (? & ? & ? & ? & ?). repeat split; auto.
Qed.

Lemma opens_alter f g r c :
  (forall cl, more_open cl (f cl)) -> opens g (alter (alter f c) r g).
Proof.
  intros Hf r' c' cl H. rewrite cell_at_alter.
  destruct (decide _).
  - rewrite H. cbn. eauto.
  - exists cl. split; [done |]. by repeat split.
Qed.

Lemma passage_opens g g' p q : opens g g' -> passage g p q -> passage g' p q.
Proof.
  intros Ho (cp & cq & Hp & Hq & H).
  destruct (Ho _ _ _ Hp) as (cp' & Hp' & Mp), (Ho _ _ _ Hq) as (cq' & Hq' & Mq).
  exists cp', cq'. split; [done |]. split; [done |].
  destruct Mp as (_ & ? & ? & ? & ?), Mq as (_ & ? & ? & ? & ?).
  destruct H as [H | [H | [H | H]]]; [left | right; left | do 2 right; left | do 3 right];
    destruct H as (? & ? & ? & ?); auto.
Qed.

Lemma connected_opens g g' p q : opens g g' -> connected g p q -> connected g' p q.
Proof.
  intros Ho. induction 1 as [| x y z Hxy _ IH]; [apply rtc_refl |].
  eapply rtc_l; [by eapply passage_opens | done].
Qed.

Lemma more_open_set_visited cl : more_open cl (set_visited cl).
Proof. by repeat split. Qed.
Lemma more_open_clear_top cl : more_open cl (clear_top cl).
Proof. by repeat split. Qed.
Lemma more_open_clear_right cl : more_open cl (clear_right cl).
Proof. by repeat split. Qed.
Lemma more_open_clear_bottom cl : more_open cl (clear_bottom cl).
Proof. by repeat split. Qed.
Lemma more_open_clear_left cl : more_open cl (clear_left cl).
Proof. by repeat split. Qed.

Lemma bind_run {A B} (m : Gen A) (k : A -> Gen B) s a s1 :
  m s = Done a s1 -> bind m k s = k a s1.
Proof. intros H. unfold bind. by rewrite H. Qed.

(** ** The visited flags *)

Definition visited_of (g : Grid) (p : Pos) : bool :=
  match cell_at g (row p) (col p) with
  | Some cl => visited cl
  | None => false
  end.

Definition unvisited_weight (cl : Cell) : nat := if visited cl then 0 else 1.

(** The number of cells not yet visited. *)
Definition count_unvisited (g : Grid) : nat :=
  sum_list_with (sum_list_with unvisited_weight) g.

Lemma sum_list_with_alter {A} (f : A -> nat) (h : A -> A) l i x :
  l !! i = Some x ->
  (sum_list_with f (alter h i l) + f x = sum_list_with f l + f (h x))%nat.
Proof.
  revert i. induction l as [| y l IH]; intros [| i] H; cbn in *; try done.
  - inversion H; subst. lia.
  - specialize (IH i H). lia.
Qed.

Lemma count_unvisited_alter h g r c cl :
  cell_at g r c = Some cl ->
  (count_unvisited (alter (alter h c) r g) + unvisited_weight cl
   = count_unvisited g + unvisited_weight (h cl))%nat.
Proof.
  unfold cell_at, count_unvisited. intros H.
  destruct (g !! r) as [line |] eqn:Hline; [| done].
  pose proof (sum_list_with_alter (sum_list_with unvisited_weight) (alter h c) g r line Hline).
  pose proof (sum_list_with_alter unvisited_weight h line c cl H).
  lia.
Qed.

Lemma visited_of_opens g g' p :
  opens g g' -> visited_of g p = true -> visited_of g' p = true.
Proof.
  unfold visited_of. intros Ho H.
  destruct (cell_at g (row p) (col p)) as [cl |] eqn:E; [| done].
  destruct (Ho _ _ _ E) as (cl' & -> & M & _). auto.
Qed.

Lemma visited_of_alter f g r c p :
  (forall cl, visited (f cl) = visited cl) ->
  visited_of (alter (alter f c) r g) p = visited_of g p.
Proof.
  intros Hf. unfold visited_of. rewrite cell_at_alter.
  destruct (decide _); [| done].
  destruct (cell_at g (row p) (col p)); cbn; [apply Hf | done].
Qed.

Lemma pos_eta p : {| row := row p; col := col p |} = p.
Proof. by destruct p. Qed.

Lemma visited_of_set_visited g q p :
  is_Some (cell_at g (row q) (col q)) ->
  visited_of (alter (alter set_visited (col q)) (row q) g) p
  = if decide (q = p) then true else visited_of g p.
Proof.
  intros [cl Hq]. unfold visited_of. rewrite cell_at_alter.
  destruct (decide (q = p)) as [-> | Hne].
  - rewrite decide_True by done. by rewrite Hq.
  - rewrite decide_False; [done |]. intros [Hr Hc]. apply Hne.
    destruct p, q; cbn in *; congruence.
Qed.

(** ** Opening the wall between two cells *)

Lemma adjacent_ne p q : adjacent p q -> p <> q.
Proof. intros H ->. unfold adjacent in H. lia. Qed.

Section Open.
Variables rows cols : nat.

Lemma open_both f1 f2 g p q s :
  wf_grid rows cols g -> in_grid rows cols p -> in_grid rows cols q -> p <> q ->
  (forall cl, more_open cl (f1 cl)) -> (forall cl, visited (f1 cl) = visited cl) ->
  (forall cl, more_open cl (f2 cl)) -> (forall cl, visited (f2 cl) = visited cl) ->
  exists g',
    (let* g1 := update_cell f1 g (row p) (col p) in update_cell f2 g1 (row q) (col q)) s
    = Done g' s /\
    wf_grid rows cols g' /\ opens g g' /\
    (forall x, visited_of g' x = visited_of g x) /\
    count_unvisited g' = count_unvisited g /\
    exists cp cq,
      cell_at g (row p) (col p) = Some cp /\ cell_at g (row q) (col q) = Some cq /\
      cell_at g' (row p) (col p) = Some (f1 cp) /\
      cell_at g' (row q) (col q) = Some (f2 cq).
Proof.
  intros Hwf Hp Hq Hne M1 V1 M2 V2.
  destruct (cell_at_in_grid _ _ _ _ Hwf Hp) as [cp Hcp].
  destruct (cell_at_in_grid _ _ _ _ Hwf Hq) as [cq Hcq].
  set (g1 := alter (alter f1 (col p)) (row p) g).
  assert (wf_grid rows cols g1) as Hwf1 by by apply wf_grid_alter.
  assert (cell_at g1 (row q) (col q) = Some cq) as Hcq1.
  { unfold g1. rewrite cell_at_alter, decide_False; [done |].
    intros [Hr Hc]. apply Hne. destruct p, q; cbn in *; congruence. }
  exists (alter (alter f2 (col q)) (row q) g1).
  split; [| split; [| split; [| split; [| split]]]].
  - erewrite bind_run by (apply update_cell_Done; eauto).
    apply update_cell_Done. fold g1. eauto.
  - by apply wf_grid_alter.
  - eapply opens_trans; by apply opens_alter.
  - intros x. rewrite visited_of_alter by done. by apply visited_of_alter.
  - pose proof (count_unvisited_alter f2 g1 _ _ _ Hcq1) as E2.
    pose proof (count_unvisited_alter f1 g _ _ _ Hcp) as E1. fold g1 in E1.
    unfold unvisited_weight in *. rewrite V1 in E1. rewrite V2 in E2. lia.
  - exists cp, cq. split; [done |]. split; [done |]. split.
    + rewrite cell_at_alter, decide_False.
      * unfold g1. rewrite cell_at_alter, decide_True by done. by rewrite Hcp.
      * intros [Hr Hc]. apply Hne. destruct p, q; cbn in *; congruence.
    + rewrite cell_at_alter, decide_True by done. by rewrite Hcq1.
Qed.

Lemma removeWallBetween_spec g p q s :
  wf_grid rows cols g -> in_grid rows cols p -> in_grid rows cols q -> adjacent p q ->
  exists g',
    removeWallBetween g p q s = Done g' s /\
    wf_grid rows cols g' /\ opens g g' /\
    (forall x, visited_of g' x = visited_of g x) /\
    count_unvisited g' = count_unvisited g /\
    passage g' p q.
Proof.
  intros Hwf Hp Hq Hadj. pose proof (adjacent_ne _ _ Hadj) as Hne.
  unfold removeWallBetween.
  destruct Hadj as [[Hr Hc] | [[Hr Hc] | [[Hc Hr] | [Hc Hr]]]].
  - replace (Z.of_nat (row q) - Z.of_nat (row p) =? -1)%Z with true
      by (symmetry; apply Z.eqb_eq; lia).
    destruct (open_both clear_top clear_bottom g p q s Hwf Hp Hq Hne)
      as (g' & Hrun & Hwf' & Ho & Hv & Hcount & cp & cq & _ & _ & Hcp & Hcq);
      try done; try apply more_open_clear_top; try apply more_open_clear_bottom.
    exists g'. repeat (split; [done |]).
    exists (clear_top cp), (clear_bottom cq). split; [done |]. split; [done |].
    left. by repeat split.
  - replace (Z.of_nat (row q) - Z.of_nat (row p) =? -1)%Z with false
      by (symmetry; apply Z.eqb_neq; lia).
    replace (Z.of_nat (row q) - Z.of_nat (row p) =? 1)%Z with true
      by (symmetry; apply Z.eqb_eq; lia).
    destruct (open_both clear_bottom clear_top g p q s Hwf Hp Hq Hne)
      as (g' & Hrun & Hwf' & Ho & Hv & Hcount & cp & cq & _ & _ & Hcp & Hcq);
      try done; try apply more_open_clear_top; try apply more_open_clear_bottom.
    exists g'. repeat (split; [done |]).
    exists (clear_bottom cp), (clear_top cq). split; [done |]. split; [done |].
    right; left. by repeat split.
  - replace (Z.of_nat (row q) - Z.of_nat (row p) =? -1)%Z with false
      by (symmetry; apply Z.eqb_neq; lia).
    replace (Z.of_nat (row q) - Z.of_nat (row p) =? 1)%Z with false
      by (symmetry; apply Z.eqb_neq; lia).
    replace (Z.of_nat (col q) - Z.of_nat (col p) =? 1)%Z with true
      by (symmetry; apply Z.eqb_eq; lia).
    destruct (open_both clear_right clear_left g p q s Hwf Hp Hq Hne)
      as (g' & Hrun & Hwf' & Ho & Hv & Hcount & cp & cq & _ & _ & Hcp & Hcq);
      try done; try apply more_open_clear_right; try apply more_open_clear_left.
    exists g'. repeat (split; [done |]).
    exists (clear_right cp), (clear_left cq). split; [done |]. split; [done |].
    do 2 right; left. by repeat split.
  - replace (Z.of_nat (row q) - Z.of_nat (row p) =? -1)%Z with false
      by (symmetry; apply Z.eqb_neq; lia).
    replace (Z.of_nat (row q) - Z.of_nat (row p) =? 1)%Z with false
      by (symmetry; apply Z.eqb_neq; lia).
    replace (Z.of_nat (col q) - Z.of_nat (col p) =? 1)%Z with false
      by (symmetry; apply Z.eqb_neq; lia).
    replace (Z.of_nat (col q) - Z.of_nat (col p) =? -1)%Z with true
      by (symmetry; apply Z.eqb_eq; lia).
    destruct (open_both clear_left clear_right g p q s Hwf Hp Hq Hne)
      as (g' & Hrun & Hwf' & Ho & Hv & Hcount & cp & cq & _ & _ & Hcp & Hcq);
      try done; try apply more_open_clear_right; try apply more_open_clear_left.
    exists g'. repeat (split; [done |]).
    exists (clear_left cp), (clear_right cq). split; [done |]. split; [done |].
    do 3 right. by repeat split.
Qed.

End Open.

(** ** The recursive-backtracking carve *)

Section Carve.
Variables rows cols : nat.
Variable origin : Pos.

Abbreviation wf := (wf_grid rows cols).
Abbreviation inside := (in_grid rows cols).

Definition unvisited (g : Grid) (r c : nat) : list Pos :=
  if visited_of g {| row := r; col := c |} then [] else [{| row := r; col := c |}].

(** What [getUnvisitedNeighbors] returns on a cell of the grid. *)
Definition neighbors_of (g : Grid) (r c : nat) : list Pos :=
  (if (0 <? r)%nat then unvisited g (r - 1) c else []) ++
  (if (c <? cols - 1)%nat then unvisited g r (c + 1) else []) ++
  (if (r <? rows - 1)%nat then unvisited g (r + 1) c else []) ++
  (if (0 <? c)%nat then unvisited g r (c - 1) else []).

Lemma neighbor_probe (cond : bool) g r c s :
  wf g -> (cond = true -> inside {| row := r; col := c |}) ->
  (if cond
   then let* v := is_visited g r c in
        ret (if v then [] else [{| row := r; col := c |}])
   else ret []) s
  = Done (if cond then unvisited g r c else []) s.
Proof.
  intros Hwf Hin. destruct cond; [| done].
  destruct (cell_at_in_grid _ _ _ _ Hwf (Hin eq_refl)) as [cl Hcl]. cbn in Hcl.
  unfold is_visited, unvisited, visited_of, bind, defined, ret. cbn. by rewrite Hcl.
Qed.

Lemma getUnvisitedNeighbors_spec g r c s :
  wf g -> inside {| row := r; col := c |} ->
  getUnvisitedNeighbors g r c rows cols s = Done (neighbors_of g r c) s.
Proof.
  intros Hwf [Hr Hc]. cbn in Hr, Hc. unfold getUnvisitedNeighbors.
  erewrite bind_run; cycle 1.
  { apply neighbor_probe; [done |]. intros H%Nat.ltb_lt. split; cbn; lia. }
  erewrite bind_run; cycle 1.
  { apply neighbor_probe; [done |]. intros H%Nat.ltb_lt. split; cbn; lia. }
  erewrite bind_run; cycle 1.
  { apply neighbor_probe; [done |]. intros H%Nat.ltb_lt. split; cbn; lia. }
  erewrite bind_run; cycle 1.
  { apply neighbor_probe; [done |]. intros H%Nat.ltb_lt. split; cbn; lia. }
  done.
Qed.

Lemma elem_of_unvisited g r c q :
  q ∈ unvisited g r c -> q = {| row := r; col := c |} /\ visited_of g q = false.
Proof.
  unfold unvisited. destruct (visited_of g _) eqn:E.
  - by intros ?%elem_of_nil.
  - by intros ->%list_elem_of_singleton.
Qed.

Lemma elem_of_neighbors_of g r c q :
  inside {| row := r; col := c |} ->
  q ∈ neighbors_of g r c ->
  inside q /\ adjacent {| row := r; col := c |} q /\ visited_of g q = false.
Proof.
  intros [Hr Hc]. cbn in Hr, Hc. unfold neighbors_of.
  rewrite !elem_of_app. intros [H | [H | [H | H]]].
  - destruct (Nat.ltb_spec 0 r); [| by apply elem_of_nil in H].
    apply elem_of_unvisited in H as [-> Hv]. split; [| split; [| done]].
    + split; cbn; lia.
    + left. cbn. lia.
  - destruct (Nat.ltb_spec c (cols - 1)); [| by apply elem_of_nil in H].
    apply elem_of_unvisited in H as [-> Hv]. split; [| split; [| done]].
    + split; cbn; lia.
    + do 2 right; left. cbn. lia.
  - destruct (Nat.ltb_spec r (rows - 1)); [| by apply elem_of_nil in H].
    apply elem_of_unvisited in H as [-> Hv]. split; [| split; [| done]].
    + split; cbn; lia.
    + right; left. cbn. lia.
  - destruct (Nat.ltb_spec 0 c); [| by apply elem_of_nil in H].
    apply elem_of_unvisited in H as [-> Hv]. split; [| split; [| done]].
    + split; cbn; lia.
    + do 3 right. cbn. lia.
Qed.

Lemma unvisited_nil g r c :
  unvisited g r c = [] -> visited_of g {| row := r; col := c |} = true.
Proof. unfold unvisited. by destruct (visited_of g _). Qed.

Lemma neighbors_of_nil g r c q :
  neighbors_of g r c = [] ->
  inside q -> adjacent {| row := r; col := c |} q -> visited_of g q = true.
Proof.
  unfold neighbors_of. intros H [Hqr Hqc] Hadj.
  apply app_eq_nil in H as [H1 H]. apply app_eq_nil in H as [H2 H].
  apply app_eq_nil in H as [H3 H4].
  destruct q as [qr qc]. cbn in Hqr, Hqc.
  destruct Hadj as [[Ha Hb] | [[Ha Hb] | [[Ha Hb] | [Ha Hb]]]]; cbn in Ha, Hb; subst.
  - destruct (Nat.ltb_spec 0 (S qr)); [| lia].
    apply unvisited_nil in H1. by rewrite Nat.sub_1_r in H1.
  - destruct (Nat.ltb_spec r (rows - 1)); [| lia].
    apply unvisited_nil in H3. by rewrite Nat.add_1_r in H3.
  - destruct (Nat.ltb_spec c (cols - 1)); [| lia].
    apply unvisited_nil in H2. by rewrite Nat.add_1_r in H2.
  - destruct (Nat.ltb_spec 0 (S qc)); [| lia].
    apply unvisited_nil in H4. by rewrite Nat.sub_1_r in H4.
Qed.

(** The invariant of the loop: the cells on the stack are visited cells of
    the grid; every visited cell is joined to the origin by passages; and a
    visited cell that has left the stack has no unvisited neighbour. *)
Record carving (g : Grid) (stack : list Pos) : Prop := {
  carving_wf : wf g;
  carving_origin : inside origin /\ visited_of g origin = true;
  carving_stack : forall p, p ∈ stack -> inside p /\ visited_of g p = true;
  carving_joined : forall p, visited_of g p = true -> connected g origin p;
  carving_done : forall p q,
    visited_of g p = true -> p ∉ stack -> inside q -> adjacent p q ->
    visited_of g q = true }.

Lemma visited_of_inside g p : wf g -> visited_of g p = true -> inside p.
Proof.
  intros Hwf H. unfold visited_of in H.
  destruct (cell_at g (row p) (col p)) as [cl |] eqn:E; [| done].
  rewrite <- (pos_eta p). by eapply cell_at_Some_in_grid.
Qed.

Lemma count_unvisited_pos g q :
  wf g -> inside q -> visited_of g q = false -> (0 < count_unvisited g)%nat.
Proof.
  intros Hwf Hq Hv. destruct (cell_at_in_grid _ _ _ _ Hwf Hq) as [cl Hcl].
  pose proof (count_unvisited_alter set_visited g _ _ _ Hcl) as E.
  unfold visited_of in Hv. rewrite Hcl in Hv.
  unfold unvisited_weight in E. rewrite Hv in E. cbn in E. lia.
Qed.

(** One round that moves on to a neighbour. *)
Lemma carve_push g p rest q s :
  carving g (p :: rest) -> q ∈ neighbors_of g (row p) (col p) ->
  exists g1 g2,
    removeWallBetween g p q s = Done g1 s /\
    update_cell set_visited g1 (row q) (col q) s = Done g2 s /\
    carving g2 (q :: p :: rest) /\ opens g g2 /\
    S (count_unvisited g2) = count_unvisited g.
Proof.
  intros [Hwf Ho Hst Hj Hd] Hq.
  destruct (Hst p) as [Hp Hpv]; [by left |].
  rewrite <- (pos_eta p) in Hp.
  destruct (elem_of_neighbors_of _ _ _ _ Hp Hq) as (Hqin & Hadj & Hqv).
  rewrite pos_eta in Hp, Hadj.
  destruct (removeWallBetween_spec rows cols g p q s Hwf Hp Hqin Hadj)
    as (g1 & Hrun & Hwf1 & Hopen1 & Hv1 & Hc1 & Hpass).
  destruct (cell_at_in_grid _ _ _ _ Hwf1 Hqin) as [cq Hcq].
  set (g2 := alter (alter set_visited (col q)) (row q) g1).
  assert (opens g1 g2) as Hopen2 by apply opens_alter, more_open_set_visited.
  assert (opens g g2) as Hopen by (eapply opens_trans; [exact Hopen1 | exact Hopen2]).
  assert (forall x, visited_of g2 x = if decide (q = x) then true else visited_of g x) as Hv2.
  { intros x. unfold g2. rewrite visited_of_set_visited by eauto.
    destruct (decide _); [done | apply Hv1]. }
  exists g1, g2. split; [done |]. split; [apply update_cell_Done; eauto |].
  split; [| split].
  - split.
    + by apply wf_grid_alter.
    + split; [tauto |]. rewrite Hv2. destruct (decide _); tauto.
    + intros x Hx. rewrite Hv2. apply elem_of_cons in Hx as [-> | Hx].
      * by rewrite decide_True.
      * destruct (Hst x Hx). destruct (decide _); tauto.
    + intros x. rewrite Hv2. destruct (decide (q = x)) as [<- | Hne]; intros Hx.
      * apply (rtc_r _ p); [| eapply passage_opens, Hpass; exact Hopen2].
        eapply connected_opens; [exact Hopen |]. by apply Hj.
      * eapply connected_opens; [exact Hopen |]. by apply Hj.
    + intros x y. rewrite !Hv2. intros Hx Hnot Hy Hxy.
      destruct (decide (q = x)) as [<- | Hne]; [exfalso; apply Hnot; by left |].
      destruct (decide (q = y)); [done |].
      eapply Hd; eauto. intros Hin. apply Hnot. by right.
  - exact Hopen.
  - pose proof (count_unvisited_alter set_visited g1 _ _ _ Hcq) as E. fold g2 in E.
    rewrite <- Hv1 in Hqv. unfold visited_of in Hqv. rewrite Hcq in Hqv.
    unfold unvisited_weight in E. rewrite Hqv in E. cbn in E. lia.
Qed.

(** One round that backtracks. *)
Lemma carve_pop g p rest :
  carving g (p :: rest) -> neighbors_of g (row p) (col p) = [] -> carving g rest.
Proof.
  intros [Hwf Ho Hst Hj Hd] Hnil. split; try done.
  - intros x Hx. apply Hst. by right.
  - intros x y Hx Hnot Hy Hxy. destruct (decide (x = p)) as [-> | Hne].
    + eapply neighbors_of_nil; eauto.
    + eapply Hd; eauto. intros [-> | Hin]%elem_of_cons; tauto.
Qed.

(** The loop ends, within [2 * unvisited + |stack|] rounds, and keeps the
    invariant. *)
Lemma carve_spec fuel : forall g stack s,
  0 <= s -> carving g stack ->
  (2 * count_unvisited g + length stack <= fuel)%nat ->
  exists g' s',
    carve fuel rows cols g stack s = Done g' s' /\ 0 <= s' /\
    carving g' [] /\ opens g g'.
Proof.
  induction fuel as [| fuel IH]; intros g stack s Hs Hinv Hfuel.
  - destruct stack; [| cbn in Hfuel; lia].
    exists g, s. cbn. auto using opens_refl.
  - destruct stack as [| p rest].
    { exists g, s. cbn. auto using opens_refl. }
    cbn [carve].
    destruct (carving_stack _ _ Hinv p) as [Hp Hpv]; [by left |].
    erewrite bind_run; cycle 1.
    { apply getUnvisitedNeighbors_spec; [apply Hinv | by rewrite pos_eta]. }
    destruct (neighbors_of g (row p) (col p)) as [| n ns] eqn:Hns.
    + apply IH; [done | by eapply carve_pop |]. cbn in Hfuel. lia.
    + rewrite <- Hns.
      assert (0 < Z.of_nat (length (neighbors_of g (row p) (col p)))) as Hlen
        by (rewrite Hns; cbn; lia).
      destruct (rand_below_spec _ s Hs Hlen) as (i & Hi & Hrange).
      erewrite bind_run by exact Hi.
      destruct (Z.ltb_spec i 0) as [| _]; [lia |].
      destruct (lookup_lt_is_Some_2 (neighbors_of g (row p) (col p)) (Z.to_nat i))
        as [q Hq]; [lia |].
      rewrite Hq. cbn [defined]. erewrite bind_run by reflexivity.
      apply list_elem_of_lookup_2 in Hq.
      destruct (carve_push g p rest q (lcg s) Hinv Hq)
        as (g1 & g2 & Hrun1 & Hrun2 & Hinv2 & Hopen & Hcount).
      erewrite bind_run by exact Hrun1. erewrite bind_run by exact Hrun2.
      destruct (IH g2 (q :: p :: rest) (lcg s)) as (g' & s' & Hrun & Hs' & Hinv' & Hopen').
      * pose proof (lcg_range s Hs). lia.
      * done.
      * cbn [length] in *. lia.
      * exists g', s'. split; [done |]. split; [done |]. split; [done |].
        eapply opens_trans; eassumption.
Qed.

(** A set of cells that holds a cell of the grid and, with a cell, its
    neighbours in the grid holds every cell of the grid. *)
Lemma grid_closed (V : Pos -> Prop) p0 :
  inside p0 -> V p0 ->
  (forall p q, V p -> inside p -> inside q -> adjacent p q -> V q) ->
  forall p, inside p -> V p.
Proof.
  intros [Hr0 Hc0] H0 Hstep.
  destruct p0 as [r0 c0]. cbn in Hr0, Hc0.
  assert (forall k, (r0 + k < rows)%nat -> V {| row := r0 + k; col := c0 |}) as Hdown.
  { induction k as [| k IHk]; intros Hk.
    - by rewrite Nat.add_0_r.
    - apply (Hstep {| row := r0 + k; col := c0 |}); [apply IHk; lia | | |].
      + split; cbn; lia.
      + split; cbn; lia.
      + right; left. cbn. lia. }
  assert (forall k, (k <= r0)%nat -> V {| row := r0 - k; col := c0 |}) as Hup.
  { induction k as [| k IHk]; intros Hk.
    - by rewrite Nat.sub_0_r.
    - apply (Hstep {| row := r0 - k; col := c0 |}); [apply IHk; lia | | |].
      + split; cbn; lia.
      + split; cbn; lia.
      + left. cbn. lia. }
  assert (forall r, (r < rows)%nat -> V {| row := r; col := c0 |}) as Hcol.
  { intros r Hr. destruct (le_lt_dec r0 r).
    - replace r with (r0 + (r - r0))%nat by lia. apply Hdown. lia.
    - replace r with (r0 - (r0 - r))%nat by lia. apply Hup. lia. }
  intros [r c] [Hr Hc]. cbn in Hr, Hc.
  assert (forall k, (c0 + k < cols)%nat -> V {| row := r; col := c0 + k |}) as Hright.
  { induction k as [| k IHk]; intros Hk.
    - rewrite Nat.add_0_r. by apply Hcol.
    - apply (Hstep {| row := r; col := c0 + k |}); [apply IHk; lia | | |].
      + split; cbn; lia.
      + split; cbn; lia.
      + do 2 right; left. cbn. lia. }
  assert (forall k, (k <= c0)%nat -> V {| row := r; col := c0 - k |}) as Hleft.
  { induction k as [| k IHk]; intros Hk.
    - rewrite Nat.sub_0_r. by apply Hcol.
    - apply (Hstep {| row := r; col := c0 - k |}); [apply IHk; lia | | |].
      + split; cbn; lia.
      + split; cbn; lia.
      + do 3 right. cbn. lia. }
  destruct (le_lt_dec c0 c).
  - replace c with (c0 + (c - c0))%nat by lia. apply Hright. lia.
  - replace c with (c0 - (c0 - c))%nat by lia. apply Hleft. lia.
Qed.

(** When the stack is empty every cell has been visited, and is joined to
    the origin. *)
Lemma carving_complete g p :
  carving g [] -> inside p -> visited_of g p = true /\ connected g origin p.
Proof.
  intros [Hwf [Ho Hov] Hst Hj Hd] Hp.
  assert (visited_of g p = true) as Hv.
  { apply (grid_closed (fun x => visited_of g x = true) origin); try done.
    intros x y Hx _ Hy Hxy. eapply Hd; eauto. apply not_elem_of_nil. }
  auto.
Qed.

End Carve.

(** ** The extra passages *)

Lemma extra_passage_spec rows cols g s :
  (0 < rows)%nat -> (0 < cols)%nat -> 0 <= s -> wf_grid rows cols g ->
  exists g' s',
    extra_passage rows cols g s = Done g' s' /\ 0 <= s' /\
    wf_grid rows cols g' /\ opens g g'.
Proof.
  intros Hrows Hcols Hs Hwf. unfold extra_passage.
  destruct (rand_below_spec (Z.of_nat rows) s Hs) as (r & Hr & Hrr); [lia |].
  pose proof (lcg_range s Hs) as Hs1.
  destruct (rand_below_spec (Z.of_nat cols) (lcg s)) as (c & Hc & Hcr); [lia | lia |].
  pose proof (lcg_range (lcg s) ltac:(lia)) as Hs2.
  destruct (rand_below_spec 4 (lcg (lcg s))) as (dir & Hdir & Hdr); [lia | lia |].
  pose proof (lcg_range (lcg (lcg s)) ltac:(lia)) as Hs3.
  erewrite bind_run by exact Hr. erewrite bind_run by exact Hc.
  erewrite bind_run by exact Hdir. cbv zeta.
  set (s3 := lcg (lcg (lcg s))) in *.
  assert (in_grid rows cols {| row := Z.to_nat r; col := Z.to_nat c |}) as Hp
    by (split; cbn; lia).
  set (p := {| row := Z.to_nat r; col := Z.to_nat c |}) in *.
  assert (forall q f1 f2,
    in_grid rows cols q -> p <> q ->
    (forall cl, more_open cl (f1 cl)) -> (forall cl, visited (f1 cl) = visited cl) ->
    (forall cl, more_open cl (f2 cl)) -> (forall cl, visited (f2 cl) = visited cl) ->
    exists g' s',
      (let* g1 := update_cell f1 g (row p) (col p) in update_cell f2 g1 (row q) (col q)) s3
      = Done g' s' /\ 0 <= s' /\ wf_grid rows cols g' /\ opens g g') as Hopen.
  { intros q f1 f2 Hq Hne M1 V1 M2 V2.
    destruct (open_both rows cols f1 f2 g p q s3 Hwf Hp Hq Hne M1 V1 M2 V2)
      as (g' & Hrun & Hwf' & Ho & _).
    exists g', s3. split; [done |]. split; [lia |]. by split. }
  destruct ((dir =? 0) && (0 <? Z.to_nat r)%nat) eqn:E0.
  { apply andb_prop in E0 as [_ E%Nat.ltb_lt].
    apply (Hopen {| row := Z.to_nat r - 1; col := Z.to_nat c |} clear_top clear_bottom);
      try done; [split; cbn; lia |].
    intros H. apply (f_equal row) in H. cbn in H. lia. }
  destruct ((dir =? 1) && (Z.to_nat c <? cols - 1)%nat) eqn:E1.
  { apply andb_prop in E1 as [_ E%Nat.ltb_lt].
    apply (Hopen {| row := Z.to_nat r; col := Z.to_nat c + 1 |} clear_right clear_left);
      try done; [split; cbn; lia |].
    intros H. apply (f_equal col) in H. cbn in H. lia. }
  destruct ((dir =? 2) && (Z.to_nat r <? rows - 1)%nat) eqn:E2.
  { apply andb_prop in E2 as [_ E%Nat.ltb_lt].
    apply (Hopen {| row := Z.to_nat r + 1; col := Z.to_nat c |} clear_bottom clear_top);
      try done; [split; cbn; lia |].
    intros H. apply (f_equal row) in H. cbn in H. lia. }
  destruct ((dir =? 3) && (0 <? Z.to_nat c)%nat) eqn:E3.
  { apply andb_prop in E3 as [_ E%Nat.ltb_lt].
    apply (Hopen {| row := Z.to_nat r; col := Z.to_nat c - 1 |} clear_left clear_right);
      try done; [split; cbn; lia |].
    intros H. apply (f_equal col) in H. cbn in H. lia. }
  exists g, s3. split; [done |]. split; [lia |]. split; [done | apply opens_refl].
Qed.

Lemma extra_passages_spec rows cols n : forall g s,
  (0 < rows)%nat -> (0 < cols)%nat -> 0 <= s -> wf_grid rows cols g ->
  exists g' s',
    extra_passages n rows cols g s = Done g' s' /\ 0 <= s' /\
    wf_grid rows cols g' /\ opens g g'.
Proof.
  induction n as [| n IH]; intros g s Hrows Hcols Hs Hwf.
  - exists g, s. cbn. auto using opens_refl.
  - destruct (extra_passage_spec rows cols g s) as (g1 & s1 & Hrun1 & Hs1 & Hwf1 & Ho1);
      try done.
    destruct (IH g1 s1) as (g' & s' & Hrun & Hs' & Hwf' & Ho'); try done.
    exists g', s'. cbn [extra_passages]. erewrite bind_run by exact Hrun1.
    split; [done |]. split; [done |]. split; [done |]. eapply opens_trans; eassumption.
Qed.

(** ** [generateMazeGrid] *)

(** The cell the carve starts from, the bottom-left one, which is the cell
    of the level's start; and the top-right one, the cell of its goal. *)
Definition start_cell (rows : nat) : Pos := {| row := rows - 1; col := 0 |}.
Definition goal_cell (cols : nat) : Pos := {| row := 0; col := cols - 1 |}.

Lemma cell_at_replicate rows cols (x : Cell) r c :
  cell_at (replicate rows (replicate cols x)) r c
  = if decide (r < rows /\ c < cols)%nat then Some x else None.
Proof.
  unfold cell_at. destruct (decide (r < rows)%nat) as [Hr | Hr].
  - rewrite lookup_replicate_2 by done. destruct (decide (c < cols)%nat) as [Hc | Hc].
    + rewrite lookup_replicate_2 by done. by rewrite decide_True.
    + rewrite (proj1 (lookup_replicate_None cols x c)) by lia.
      rewrite decide_False; [done | tauto].
  - rewrite (proj1 (lookup_replicate_None rows (replicate cols x) r)) by lia.
    rewrite decide_False; [done | tauto].
Qed.

Lemma sum_list_with_replicate {A} (f : A -> nat) n x :
  sum_list_with f (replicate n x) = (n * f x)%nat.
Proof. induction n as [| n IH]; cbn; [done | rewrite IH; lia]. Qed.

Lemma count_unvisited_fresh rows cols :
  count_unvisited (replicate rows (replicate cols fresh_cell)) = (rows * cols)%nat.
Proof.
  unfold count_unvisited. rewrite !sum_list_with_replicate. cbn. lia.
Qed.

(** The grid the carve starts on: every wall closed, the start cell visited. *)
Lemma carving_initial rows cols :
  (0 < rows)%nat -> (0 < cols)%nat ->
  let g0 := alter (alter set_visited 0%nat) (rows - 1)%nat
              (replicate rows (replicate cols fresh_cell)) in
  carving rows cols (start_cell rows) g0 [start_cell rows] /\
  S (count_unvisited g0) = (rows * cols)%nat.
Proof.
  intros Hrows Hcols g0.
  assert (in_grid rows cols (start_cell rows)) as Hin by (split; cbn; lia).
  assert (forall p, visited_of g0 p = true <-> p = start_cell rows) as Hv.
  { intros p. unfold g0.
    rewrite (visited_of_set_visited _ (start_cell rows)).
    - destruct (decide _) as [-> | Hne]; [done |].
      unfold visited_of. rewrite cell_at_replicate. by destruct (decide _).
    - cbn. rewrite cell_at_replicate, decide_True; [eauto | lia]. }
  split.
  - split.
    + apply wf_grid_alter, wf_grid_replicate.
    + split; [done |]. by apply Hv.
    + intros p ->%list_elem_of_singleton. split; [done |]. by apply Hv.
    + intros p ->%Hv. apply rtc_refl.
    + intros p q ->%Hv Hnot. exfalso. apply Hnot. by left.
  - pose proof (count_unvisited_alter set_visited
                  (replicate rows (replicate cols fresh_cell)) (rows - 1) 0 fresh_cell) as E.
    rewrite cell_at_replicate, decide_True in E by lia. specialize (E eq_refl).
    rewrite count_unvisited_fresh in E. fold g0 in E. cbn in E. lia.
Qed.

(** [generateMazeGrid] returns when it is given [2 * rows * cols] rounds for
    its carve; by the end of the carve every cell has been visited and is
    joined to the start cell; the extra passages only open walls. *)
Lemma generateMazeGrid_spec fuel cols rows s :
  1 <= cols -> 1 <= rows -> 0 <= s ->
  (2 * Z.to_nat rows * Z.to_nat cols <= fuel)%nat ->
  let nrows := Z.to_nat rows in
  let ncols := Z.to_nat cols in
  let g0 := alter (alter set_visited 0%nat) (nrows - 1)%nat
              (replicate nrows (replicate ncols fresh_cell)) in
  exists g1 s1 g s',
    carve fuel nrows ncols g0 [start_cell nrows] s = Done g1 s1 /\
    (forall p, in_grid nrows ncols p ->
       visited_of g1 p = true /\ connected g1 (start_cell nrows) p) /\
    generateMazeGrid fuel cols rows s = Done g s' /\ 0 <= s' /\
    wf_grid nrows ncols g /\ opens g1 g.
Proof.
  intros Hcols Hrows Hs Hfuel nrows ncols g0.
  assert (0 < nrows)%nat as Hnr by (unfold nrows; lia).
  assert (0 < ncols)%nat as Hnc by (unfold ncols; lia).
  destruct (carving_initial nrows ncols Hnr Hnc) as [Hinv Hcount]. fold g0 in Hinv, Hcount.
  destruct (carve_spec nrows ncols (start_cell nrows) fuel g0 [start_cell nrows] s Hs Hinv)
    as (g1 & s1 & Hrun1 & Hs1 & Hinv1 & Ho1).
  { cbn [length]. unfold nrows, ncols in *. nia. }
  destruct (extra_passages_spec nrows ncols
              (Z.to_nat (Qfloor (inject_Z (cols * rows) * (8 # 100)))) g1 s1)
    as (g & s' & Hrun & Hs' & Hwf & Ho); try done; [apply Hinv1 |].
  exists g1, s1, g, s'. split; [done |]. split.
  { intros p Hp. by eapply carving_complete. }
  split; [| done].
  unfold generateMazeGrid. destruct (Z.ltb_spec rows 1); [lia |].
  fold nrows ncols. erewrite bind_run; cycle 1.
  { apply update_cell_Done. rewrite cell_at_replicate, decide_True; [eauto | lia]. }
  fold g0. change {| row := (nrows - 1)%nat; col := 0%nat |} with (start_cell nrows).
  erewrite bind_run by exact Hrun1. exact Hrun.
Qed.

(** ** C2: the maze is connected *)

Definition maze_rows (levelNum : Z) : nat := Z.to_nat (rows_of (getDifficulty levelNum)).
Definition maze_cols (levelNum : Z) : nat := Z.to_nat (cols_of (getDifficulty levelNum)).

(** The grid on which the carve of a level starts. *)
Definition carve_start (levelNum : Z) : Grid :=
  alter (alter set_visited 0%nat) (maze_rows levelNum - 1)%nat
    (replicate (maze_rows levelNum) (replicate (maze_cols levelNum) fresh_cell)).

Lemma grid_size levelNum :
  3 <= cols_of (getDifficulty levelNum) <= 8 /\ 5 <= rows_of (getDifficulty levelNum) <= 11.
Proof. unfold getDifficulty. repeat case_match; by vm_compute. Qed.

(** C2.  For every level number from 1 on, and as soon as the carve is given
    [2 * rows * cols] rounds: the recursive-backtracking carve returns a grid
    in which every cell has been visited and is joined to the start cell (the
    bottom-left one) by open passages; [generateMazeGrid] then returns a grid
    that has these passages and possibly more, so that in it too every cell,
    and the goal cell (the top-right one) among them, is reached from the
    start cell. *)
Theorem maze_connected (levelNum : Z) (fuel : nat) :
  1 <= levelNum ->
  (2 * maze_rows levelNum * maze_cols levelNum <= fuel)%nat ->
  exists g1 s1 g s',
    carve fuel (maze_rows levelNum) (maze_cols levelNum) (carve_start levelNum)
      [start_cell (maze_rows levelNum)] (levelNum * 7919) = Done g1 s1 /\
    (forall p, in_grid (maze_rows levelNum) (maze_cols levelNum) p ->
       visited_of g1 p = true /\ connected g1 (start_cell (maze_rows levelNum)) p) /\
    generateMazeGrid fuel (cols_of (getDifficulty levelNum)) (rows_of (getDifficulty levelNum))
      (levelNum * 7919) = Done g s' /\
    opens g1 g /\
    (forall p, in_grid (maze_rows levelNum) (maze_cols levelNum) p ->
       connected g (start_cell (maze_rows levelNum)) p) /\
    connected g (start_cell (maze_rows levelNum)) (goal_cell (maze_cols levelNum)).
Proof.
  intros Hn Hfuel. pose proof (grid_size levelNum) as [Hc Hr].
  destruct (generateMazeGrid_spec fuel (cols_of (getDifficulty levelNum))
              (rows_of (getDifficulty levelNum)) (levelNum * 7919))
    as (g1 & s1 & g & s' & Hrun1 & Hall & Hrun & _ & _ & Ho); try lia; [exact Hfuel |].
  exists g1, s1, g, s'. split; [exact Hrun1 |]. split; [exact Hall |].
  split; [exact Hrun |]. split; [exact Ho |].
  assert (forall p, in_grid (maze_rows levelNum) (maze_cols levelNum) p ->
            connected g (start_cell (maze_rows levelNum)) p) as Hconn.
  { intros p Hp. eapply connected_opens; [exact Ho |]. by apply Hall. }
  split; [exact Hconn |]. apply Hconn.
  unfold maze_rows, maze_cols, in_grid, goal_cell. cbn [row col]. lia.
Qed.

Lemma maze_connected_witness :
  exists g1 s1 g s',
    carve 30 (maze_rows 1) (maze_cols 1) (carve_start 1)
      [start_cell (maze_rows 1)] (1 * 7919) = Done g1 s1 /\
    (forall p, in_grid (maze_rows 1) (maze_cols 1) p ->
       visited_of g1 p = true /\ connected g1 (start_cell (maze_rows 1)) p) /\
    generateMazeGrid 30 (cols_of (getDifficulty 1)) (rows_of (getDifficulty 1))
      (1 * 7919) = Done g s' /\
    opens g1 g /\
    (forall p, in_grid (maze_rows 1) (maze_cols 1) p ->
       connected g (start_cell (maze_rows 1)) p) /\
    connected g (start_cell (maze_rows 1)) (goal_cell (maze_cols 1)).
Proof.
  apply (maze_connected 1 30).
  - lia.
  - vm_compute. lia.
Defined.

(** The grid of a returning [generateLevel] is this grid. *)
Lemma generateLevel_maze fuel levelNum s m s' :
  1 <= levelNum -> generateLevel fuel levelNum s = Done m s' ->
  exists g s1,
    generateMazeGrid fuel (cols_of (getDifficulty levelNum)) (rows_of (getDifficulty levelNum))
      (levelNum * 7919) = Done g s1 /\
    connected g (start_cell (maze_rows levelNum)) (goal_cell (maze_cols levelNum)).
Proof.
  intros Hn H. unfold generateLevel in H.
  apply bind_Done in H as ([] & s0 & H0 & H). inversion H0; subst s0; clear H0.
  apply bind_Done in H as (maze & s1 & Hmaze & _).
  exists maze, s1. split; [exact Hmaze |].
  pose (big := (fuel + 2 * maze_rows levelNum * maze_cols levelNum)%nat).
  pose proof (grid_size levelNum) as [Hc Hr].
  destruct (generateMazeGrid_spec big (cols_of (getDifficulty levelNum))
              (rows_of (getDifficulty levelNum)) (levelNum * 7919))
    as (g1 & t1 & g & t' & _ & Hall & Hrun & _ & _ & Ho); try lia.
  { unfold big, maze_rows, maze_cols. lia. }
  assert (fuel <= big)%nat as Hbig by (unfold big; lia).
  pose proof (generateMazeGrid_mono fuel big (cols_of (getDifficulty levelNum))
                (rows_of (getDifficulty levelNum)) (levelNum * 7919) Hbig) as Hle.
  apply (le_out_Done _ _ _ _ Hle) in Hmaze. rewrite Hmaze in Hrun.
  inversion Hrun; subst g t'.
  eapply connected_opens; [exact Ho |]. apply Hall.
  unfold maze_rows, maze_cols, in_grid, goal_cell. cbn [row col]. lia.
Qed.

(** * Beyond the maze: the rest of the generator *)

(** * The generator returns *)

(** [returns m s P]: from a seed that is not negative, [m] returns a value
    that satisfies [P], and leaves such a seed. *)
Definition returns {A} (m : Gen A) (s : Z) (P : A -> Prop) : Prop :=
  exists a s', m s = Done a s' /\ 0 <= s' /\ P a.

Lemma returns_ret {A} (a : A) s (P : A -> Prop) : 0 <= s -> P a -> returns (ret a) s P.
Proof. intros Hs Ha. by exists a, s. Qed.

Lemma returns_bind {A B} (m : Gen A) (k : A -> Gen B) s (Q : A -> Prop) (P : B -> Prop) :
  returns m s Q ->
  (forall a s', 0 <= s' -> Q a -> returns (k a) s' P) ->
  returns (bind m k) s P.
Proof.
  intros (a & s1 & Hm & Hs1 & Ha) Hk.
  destruct (Hk a s1 Hs1 Ha) as (b & s2 & Hb & Hs2 & Pb).
  exists b, s2. split; [| done]. by erewrite bind_run.
Qed.

Lemma returns_weaken {A} (m : Gen A) s (P Q : A -> Prop) :
  returns m s P -> (forall a, P a -> Q a) -> returns m s Q.
Proof. intros (a & s' & Hm & Hs & Ha) HPQ. exists a, s'. auto. Qed.

Lemma returns_Done {A} (m : Gen A) s (P : A -> Prop) a s' :
  returns m s P -> m s = Done a s' -> P a /\ 0 <= s'.
Proof. intros (a0 & s0 & Hm & Hs & Ha) H. rewrite Hm in H. by inversion H; subst. Qed.

Lemma returns_rand_below n s :
  0 <= s -> 0 < n -> returns (rand_below n) s (fun i => 0 <= i < n).
Proof.
  intros Hs Hn. destruct (rand_below_spec n s Hs Hn) as (i & Hi & Hr).
  exists i, (lcg s). split; [done |]. split; [| done].
  pose proof (lcg_range s Hs). lia.
Qed.

Lemma returns_rng s : 0 <= s -> returns rng s (fun _ => True).
Proof.
  intros Hs. unfold rng. eexists _, _. split; [reflexivity |].
  split; [| done]. pose proof (lcg_range s Hs). lia.
Qed.

Lemma returns_defined {A} (o : option A) s (P : A -> Prop) :
  0 <= s -> (exists a, o = Some a /\ P a) -> returns (defined o) s P.
Proof. intros Hs (a & -> & Ha). by apply returns_ret. Qed.

(** A loop over a list keeps what each of its rounds keeps. *)
Lemma returns_for_each {A St} (l : list A) (body : A -> St -> Gen St)
    (I : nat -> St -> Prop) :
  forall k acc s,
    0 <= s -> I k acc ->
    (forall i a acc s, l !! i = Some a -> 0 <= s -> I (k + i)%nat acc ->
       returns (body a acc) s (I (S (k + i)))) ->
    returns (for_each l body acc) s (I (k + length l)%nat).
Proof.
  induction l as [| a l IH]; intros k acc s Hs Hacc Hbody.
  - cbn. rewrite Nat.add_0_r. by apply returns_ret.
  - cbn [for_each length]. eapply returns_bind.
    + specialize (Hbody 0%nat a acc s eq_refl Hs). rewrite Nat.add_0_r in Hbody. by apply Hbody.
    + intros acc' s' Hs' Hacc'. replace (k + S (length l))%nat with (S k + length l)%nat by lia.
      apply IH; [done | done |].
      intros i b acc1 s1 Hb Hs1 Hacc1.
      replace (S k + i)%nat with (k + S i)%nat in * by lia. by apply Hbody.
Qed.

Lemma returns_for_range {St} (n : nat) (body : nat -> St -> Gen St)
    (I : nat -> St -> Prop) acc s :
  0 <= s -> I 0%nat acc ->
  (forall i acc s, (i < n)%nat -> 0 <= s -> I i acc -> returns (body i acc) s (I (S i))) ->
  returns (for_range n body acc) s (I n).
Proof.
  intros Hs Hacc Hbody. unfold for_range.
  pose proof (returns_for_each (seq 0 n) body I 0%nat acc s Hs Hacc) as H.
  rewrite length_seq in H. cbn in H. apply H.
  intros i a acc1 s1 Ha Hs1 Hacc1. apply lookup_seq in Ha as [-> Hi]. cbn. by apply Hbody.
Qed.

Lemma returns_rand_below_any n s :
  0 <= s -> 0 <= n -> returns (rand_below n) s (fun _ => True).
Proof.
  intros Hs Hn. destruct (Z.eq_dec n 0) as [-> | Hne].
  - exists 0, (lcg s). split; [apply rand_below_zero |]. split; [| done].
    pose proof (lcg_range s Hs). lia.
  - eapply returns_weaken; [apply returns_rand_below; [done | lia] | done].
Qed.

Lemma returns_pick arr s : 0 <= s -> returns (pick arr) s (fun _ => True).
Proof.
  intros Hs. unfold pick. eapply returns_bind; [apply returns_rand_below_any; [done | lia] |].
  intros i s1 Hs1 _. by apply returns_ret.
Qed.

(** A loop of rounds that each add at most one entry. *)
Lemma returns_grow {A} (n : nat) (step : list A -> Gen (list A))
    (Good : list A -> A -> Prop) (Inv : list A -> Prop) s :
  0 <= s -> Inv [] ->
  (forall l s, 0 <= s -> Inv l ->
     returns (step l) s (fun l' => l' = l \/ exists e, l' = l ++ [e] /\ Good l e)) ->
  (forall l e, Inv l -> Good l e -> Inv (l ++ [e])) ->
  returns (for_range n (fun _ l => step l) []) s
    (fun l => (length l <= n)%nat /\ Inv l).
Proof.
  intros Hs Hnil Hstep Hgood.
  apply (returns_for_range n _ (fun k l => (length l <= k)%nat /\ Inv l)); [done | |].
  { split; [cbn; lia | done]. }
  intros i l s1 _ Hs1 [Hlen Hinv].
  eapply returns_weaken; [by apply Hstep |].
  intros l' [-> | (e & -> & He)].
  - split; [lia | done].
  - split; [rewrite length_app; cbn; lia | by apply Hgood].
Qed.


Lemma swap_spec {A} (l : list A) (i j : nat) s :
  (i < length l)%nat -> (j < length l)%nat ->
  exists l', swap l i j s = Done l' s /\ length l' = length l /\
    (forall x, x ∈ l' -> x ∈ l) /\ (NoDup l -> NoDup l').
Proof.
  intros Hi Hj.
  destruct (lookup_lt_is_Some_2 l i Hi) as [ai Hai].
  destruct (lookup_lt_is_Some_2 l j Hj) as [aj Haj].
  exists (<[j := ai]> (<[i := aj]> l)).
  assert (forall k x, <[j := ai]> (<[i := aj]> l) !! k = Some x ->
            (k = j /\ x = ai) \/ (k <> j /\ k = i /\ x = aj) \/
            (k <> j /\ k <> i /\ l !! k = Some x)) as Hlook.
  { intros k x Hk.
    apply list_lookup_insert_Some in Hk as [(-> & -> & _) | [Hne Hk]]; [by left | right].
    apply list_lookup_insert_Some in Hk as [(-> & -> & _) | [Hne' Hk]]; [left | right]; auto. }
  split; [| split; [| split]].
  - unfold swap, bind, defined, ret. by rewrite Hai, Haj.
  - by rewrite !length_insert.
  - intros x [k Hk]%list_elem_of_lookup.
    destruct (Hlook k x Hk) as [[_ ->] | [(_ & _ & ->) | (_ & _ & H)]];
      eapply list_elem_of_lookup_2; eassumption.
  - rewrite !NoDup_alt. intros Hnd k1 k2 x H1 H2.
    destruct (Hlook _ _ H1) as [[-> ->] | [(? & -> & ->) | (? & ? & E1)]];
      destruct (Hlook _ _ H2) as [[-> E] | [(? & -> & E) | (? & ? & E2)]];
      try done; subst.
    + pose proof (Hnd _ _ _ Hai Haj). congruence.
    + pose proof (Hnd _ _ _ Hai E2). congruence.
    + pose proof (Hnd _ _ _ Hai Haj). congruence.
    + pose proof (Hnd _ _ _ Haj E2). congruence.
    + pose proof (Hnd _ _ _ Hai E1). congruence.
    + pose proof (Hnd _ _ _ Haj E1). congruence.
    + by eapply Hnd.
Qed.

Lemma returns_shuffle_from {A} (i : nat) : forall (l : list A) s,
  0 <= s -> (i < length l \/ i = 0)%nat ->
  returns (shuffle_from i l) s
    (fun l' => length l' = length l /\ (forall x, x ∈ l' -> x ∈ l) /\ (NoDup l -> NoDup l')).
Proof.
  induction i as [| i IH]; intros l s Hs Hi.
  - apply returns_ret; [done |]. auto.
  - cbn [shuffle_from].
    eapply returns_bind; [apply returns_rand_below; [done | lia] |].
    intros j s1 Hs1 Hj. cbn beta in Hj.
    destruct (swap_spec l (S i) (Z.to_nat j) s1) as (l' & Hrun & Hlen & Hin & Hnd); [lia | lia |].
    apply (returns_bind _ _ _
             (fun l' => length l' = length l /\ (forall x, x ∈ l' -> x ∈ l) /\
                        (NoDup l -> NoDup l'))).
    { exists l', s1. split; [exact Hrun |]. split; [done |].
      exact (conj Hlen (conj Hin Hnd)). }
    intros l1 s2 Hs2 (Hlen1 & Hin1 & Hnd1).
    eapply returns_weaken; [apply IH; [done | lia] |].
    intros l2 (Hlen2 & Hin2 & Hnd2). split; [congruence |]. split; auto.
Qed.

Lemma returns_shuffle {A} (l : list A) s :
  0 <= s ->
  returns (shuffle l) s
    (fun l' => length l' = length l /\ (forall x, x ∈ l' -> x ∈ l) /\ (NoDup l -> NoDup l')).
Proof. intros Hs. unfold shuffle. apply returns_shuffle_from; [done | lia]. Qed.

(** * Distances on the lattice of cell centres *)

Local Open Scope Q_scope.

Lemma Qltb_lt a b : Qltb a b = true <-> a < b.
Proof.
  unfold Qltb. rewrite negb_true_iff. split.
  - intros H. apply Qnot_le_lt. intros Hle. apply Qle_bool_iff in Hle. congruence.
  - intros H. destruct (Qle_bool b a) eqn:E; [| done].
    apply Qle_bool_iff in E. by apply Qlt_not_le in H.
Qed.

Lemma Qltb_ge a b : Qltb a b = false <-> b <= a.
Proof.
  unfold Qltb. rewrite negb_false_iff. apply Qle_bool_iff.
Qed.

Lemma sqrt_lt_true a d : sqrt_lt a d = true <-> 0 < d /\ a < d * d.
Proof. unfold sqrt_lt. by rewrite andb_true_iff, !Qltb_lt. Qed.

Lemma sqrt_lt_false a d : 0 < d -> sqrt_lt a d = false <-> d * d <= a.
Proof.
  intros Hd. unfold sqrt_lt. apply Qltb_lt in Hd as ->. cbn. apply Qltb_ge.
Qed.

Lemma sqrt_gt_true a d : 0 <= d -> sqrt_gt a d = true <-> d * d < a.
Proof.
  intros Hd. unfold sqrt_gt. apply Qltb_ge in Hd as ->. cbn. apply Qltb_lt.
Qed.

Lemma Qfloor_unique q n : inject_Z n <= q -> q < inject_Z (n + 1) -> Qfloor q = n.
Proof.
  intros Hle Hlt.
  pose proof (Qfloor_le q) as H1. pose proof (Qlt_floor q) as H2.
  assert (inject_Z n < inject_Z (Qfloor q + 1)) as H3 by (eapply Qle_lt_trans; eassumption).
  assert (inject_Z (Qfloor q) < inject_Z (n + 1)) as H4 by (eapply Qle_lt_trans; eassumption).
  rewrite <- Zlt_Qlt in H3, H4. lia.
Qed.

Lemma Qfloor_add_Z q n : Qfloor (q + inject_Z n) = (Qfloor q + n)%Z.
Proof.
  pose proof (Qfloor_le q) as H1. pose proof (Qlt_floor q) as H2.
  apply Qfloor_unique.
  - rewrite inject_Z_plus. lra.
  - rewrite !inject_Z_plus in *. lra.
Qed.

Lemma Math_round_bounds q : q - (1 # 2) < inject_Z (Math_round q) /\ inject_Z (Math_round q) <= q + (1 # 2).
Proof.
  unfold Math_round.
  pose proof (Qfloor_le (q + (1 # 2))) as H1. pose proof (Qlt_floor (q + (1 # 2))) as H2.
  rewrite inject_Z_plus in H2. change (inject_Z 1) with 1 in H2. split; lra.
Qed.

Lemma Math_round_cell_centre off k cellSize :
  Math_round (cell_centre off k cellSize)
  = (Math_round (cell_centre off 0 cellSize) + k * cellSize)%Z.
Proof.
  unfold Math_round. rewrite <- Qfloor_add_Z. apply Qfloor_comp.
  unfold cell_centre. rewrite inject_Z_mult. ring.
Qed.

(** The shift that rounding applies to the centre of every cell of a column
    (or row): the cell size is a whole number, so it is the same for all. *)
Definition round_shift (off : Q) (cellSize : Z) : Q :=
  inject_Z (Math_round (cell_centre off 0 cellSize)) - cell_centre off 0 cellSize.

Lemma round_shift_bounds off cellSize :
  - (1 # 2) < round_shift off cellSize /\ round_shift off cellSize <= 1 # 2.
Proof.
  unfold round_shift. pose proof (Math_round_bounds (cell_centre off 0 cellSize)). lra.
Qed.

Lemma rounded_centre off k cellSize :
  inject_Z (Math_round (cell_centre off k cellSize))
  == cell_centre off k cellSize + round_shift off cellSize.
Proof.
  rewrite Math_round_cell_centre. unfold round_shift, cell_centre.
  rewrite inject_Z_plus, inject_Z_mult. ring.
Qed.

Lemma centre_diff off k k' cellSize :
  cell_centre off k cellSize - cell_centre off k' cellSize
  == inject_Z (k - k') * inject_Z cellSize.
Proof. unfold cell_centre, Z.sub. rewrite inject_Z_plus, inject_Z_opp. ring. Qed.

(** Whole numbers among the rationals *)
Lemma Z_cases_0 (a : Z) : a = 0%Z \/ inject_Z a <= -1 \/ 1 <= inject_Z a.
Proof.
  destruct (Z.eq_dec a 0%Z) as [-> | Hne]; [by left | right].
  destruct (Z_lt_le_dec a 0%Z).
  - left. change (-1) with (inject_Z (-1)). rewrite <- Zle_Qle. lia.
  - right. change 1 with (inject_Z 1). rewrite <- Zle_Qle. lia.
Qed.

Lemma Z_cases_1 (a : Z) :
  (-1 <= inject_Z a /\ inject_Z a <= 1) \/ inject_Z a <= -2 \/ 2 <= inject_Z a.
Proof.
  destruct (Z_lt_le_dec a (-1)%Z); [right; left |].
  { change (-2) with (inject_Z (-2)). rewrite <- Zle_Qle. lia. }
  destruct (Z_lt_le_dec 1%Z a); [right; right |].
  { change 2 with (inject_Z 2). rewrite <- Zle_Qle. lia. }
  left. change (-1) with (inject_Z (-1)). change 1 with (inject_Z 1).
  rewrite <- !Zle_Qle. lia.
Qed.

Lemma sqr_nonneg (x : Q) : 0 <= sqr x.
Proof. unfold sqr. nra. Qed.

Lemma sq_lower (x m : Q) : 0 <= m -> m <= x \/ x <= - m -> m * m <= x * x.
Proof. intros Hm [H | H]; nra. Qed.

Lemma sq_upper (x m : Q) : - m <= x -> x <= m -> x * x <= m * m.
Proof. intros H1 H2. nra. Qed.

(** Multiples of the cell size *)
Lemma multiple_cases_0 (a : Z) (c : Q) :
  0 <= c -> a = 0%Z \/ inject_Z a * c <= - c \/ c <= inject_Z a * c.
Proof.
  intros Hc. destruct (Z_cases_0 a) as [-> | [H | H]]; [by left | right; left | right; right];
    set (a' := inject_Z a) in *; clearbody a'; nra.
Qed.

Lemma multiple_cases_1 (a : Z) (c : Q) :
  0 <= c ->
  (- c <= inject_Z a * c /\ inject_Z a * c <= c) \/
  inject_Z a * c <= - (2 * c) \/ 2 * c <= inject_Z a * c.
Proof.
  intros Hc.
  destruct (Z_cases_1 a) as [[H1 H2] | [H | H]]; [left | right; left | right; right];
    set (a' := inject_Z a) in *; clearbody a'; try split; nra.
Qed.

Section Lattice.
Variables (c dx dy : Q) (a b : Z).
Hypothesis Hc : 50 <= c.
Hypothesis Hdx : - (1 # 2) <= dx /\ dx <= 1 # 2.
Hypothesis Hdy : - (1 # 2) <= dy /\ dy <= 1 # 2.

Let A := inject_Z a * c.
Let B := inject_Z b * c.

Lemma A_cases_0 : a = 0%Z \/ A <= - c \/ c <= A.
Proof. apply multiple_cases_0. lra. Qed.
Lemma B_cases_0 : b = 0%Z \/ B <= - c \/ c <= B.
Proof. apply multiple_cases_0. lra. Qed.
Lemma A_cases_1 : (- c <= A /\ A <= c) \/ A <= - (2 * c) \/ 2 * c <= A.
Proof. apply multiple_cases_1. lra. Qed.
Lemma B_cases_1 : (- c <= B /\ B <= c) \/ B <= - (2 * c) \/ 2 * c <= B.
Proof. apply multiple_cases_1. lra. Qed.

Lemma shift_small : sqr dx + sqr dy <= 1 # 2.
Proof.
  unfold sqr. pose proof (sq_upper dx (1 # 2)). pose proof (sq_upper dy (1 # 2)). lra.
Qed.

Lemma shifted_far (x d : Q) :
  c <= x \/ x <= - c -> - (1 # 2) <= d /\ d <= 1 # 2 ->
  (c - (1 # 2)) * (c - (1 # 2)) <= sqr (x + d).
Proof.
  intros Hx Hd. unfold sqr. apply sq_lower; [lra |]. destruct Hx; [left | right]; lra.
Qed.

(** A point less than 0.8 cell sizes from a rounded centre is in its cell,
    and the centre of the cell is such a point. *)
Lemma lattice_same :
  sqr (A + dx) + sqr (B + dy) < (c * 0.8) * (c * 0.8) <-> a = 0%Z /\ b = 0%Z.
Proof.
  split.
  - intros H.
    pose proof (sqr_nonneg (A + dx)) as HA.
    pose proof (sqr_nonneg (B + dy)) as HB.
    assert ((c * 0.8) * (c * 0.8) < (c - (1 # 2)) * (c - (1 # 2))) as Hgap by nra.
    destruct A_cases_0 as [Ha | Ha]; [| exfalso].
    + split; [done |].
      destruct B_cases_0 as [Hb | Hb]; [done | exfalso].
      pose proof (shifted_far B dy ltac:(tauto) Hdy). lra.
    + pose proof (shifted_far A dx ltac:(tauto) Hdx). lra.
  - intros [-> ->]. subst A B. pose proof shift_small. unfold sqr in *.
    ring_simplify (inject_Z 0 * c + dx) (inject_Z 0 * c + dy). nra.
Qed.

(** Two rounded centres are as far apart as the check between the centre of
    one and the rounding of the other found them to be, for the distances
    the generator asks for. *)
Lemma lattice_apart (d : Q) :
  1 <= d -> d <= 2 * c -> d <= c \/ c * 1.5 <= d ->
  d * d <= sqr (A + dx) + sqr (B + dy) -> d * d <= sqr A + sqr B.
Proof.
  intros Hd1 Hd2 Hd H.
  pose proof (sqr_nonneg A) as HA.
  pose proof (sqr_nonneg B) as HB.
  destruct Hd as [Hd | Hd].
  - assert (d * d <= c * c) as Hdc by nra.
    destruct A_cases_0 as [Ha | Ha].
    + destruct B_cases_0 as [Hb | Hb]; [exfalso |].
      * subst A B. rewrite Ha, Hb in H. pose proof shift_small. unfold sqr in *.
        ring_simplify (inject_Z 0 * c + dx) (inject_Z 0 * c + dy) in H. nra.
      * pose proof (sq_lower B c ltac:(lra) ltac:(tauto)). unfold sqr in *. lra.
    + pose proof (sq_lower A c ltac:(lra) ltac:(tauto)). unfold sqr in *. lra.
  - assert (d * d <= (2 * c) * (2 * c)) as Hdc by nra.
    destruct A_cases_1 as [Ha | Ha].
    + destruct B_cases_1 as [Hb | Hb]; [exfalso |].
      * pose proof (sq_upper (A + dx) (c + (1 # 2)) ltac:(lra) ltac:(lra)).
        pose proof (sq_upper (B + dy) (c + (1 # 2)) ltac:(lra) ltac:(lra)).
        unfold sqr in *. nra.
      * pose proof (sq_lower B (2 * c) ltac:(lra) ltac:(tauto)). unfold sqr in *. lra.
    + pose proof (sq_lower A (2 * c) ltac:(lra) ltac:(tauto)). unfold sqr in *. lra.
Qed.

(** A rounded centre whose cell centre is at least 1.5 cell sizes from a
    cell centre is itself at least 1.5 cell sizes from it. *)
Lemma lattice_far (d : Q) :
  c * 1.5 <= d -> d * d <= sqr A + sqr B ->
  (c * 1.5) * (c * 1.5) <= sqr (A + dx) + sqr (B + dy).
Proof.
  intros Hd H.
  pose proof (sqr_nonneg (A + dx)) as HA.
  pose proof (sqr_nonneg (B + dy)) as HB.
  assert ((c * 1.5) * (c * 1.5) <= (2 * c - (1 # 2)) * (2 * c - (1 # 2))) as Hgap by nra.
  assert (2 * (c * c) < d * d) as Hd2 by nra.
  destruct A_cases_1 as [Ha | Ha].
  - destruct B_cases_1 as [Hb | Hb]; [exfalso |].
    + pose proof (sq_upper A c ltac:(lra) ltac:(lra)).
      pose proof (sq_upper B c ltac:(lra) ltac:(lra)). unfold sqr in *. lra.
    + pose proof (sq_lower (B + dy) (2 * c - (1 # 2)) ltac:(lra)) as Hs. unfold sqr in *.
      assert (2 * c - (1 # 2) <= B + dy \/ B + dy <= - (2 * c - (1 # 2))) as Hor
        by (destruct Hb; [right | left]; lra).
      specialize (Hs Hor). lra.
  - pose proof (sq_lower (A + dx) (2 * c - (1 # 2)) ltac:(lra)) as Hs. unfold sqr in *.
    assert (2 * c - (1 # 2) <= A + dx \/ A + dx <= - (2 * c - (1 # 2))) as Hor
      by (destruct Ha; [right | left]; lra).
    specialize (Hs Hor). lra.
Qed.

(** A rounded centre of a cell other than a given one is at least one cell
    size less a half from the centre of that one. *)
Lemma lattice_other :
  a <> 0%Z \/ b <> 0%Z ->
  (c - (1 # 2)) * (c - (1 # 2)) <= sqr (A + dx) + sqr (B + dy).
Proof.
  intros Hab.
  pose proof (sqr_nonneg (A + dx)) as HA.
  pose proof (sqr_nonneg (B + dy)) as HB.
  destruct A_cases_0 as [Ha | Ha].
  - destruct B_cases_0 as [Hb | Hb]; [tauto |].
    pose proof (shifted_far B dy ltac:(tauto) Hdy). lra.
  - pose proof (shifted_far A dx ltac:(tauto) Hdx). lra.
Qed.

(** The centres of two cells are less than a cell size apart only when the
    cells are the same. *)
Lemma lattice_centres :
  sqr A + sqr B < c * c <-> a = 0%Z /\ b = 0%Z.
Proof.
  pose proof (sqr_nonneg A) as HA.
  pose proof (sqr_nonneg B) as HB.
  split.
  - intros H. destruct A_cases_0 as [Ha | Ha]; [| exfalso].
    + split; [done |]. destruct B_cases_0 as [Hb | Hb]; [done | exfalso].
      pose proof (sq_lower B c ltac:(lra) ltac:(tauto)). unfold sqr in *. lra.
    + pose proof (sq_lower A c ltac:(lra) ltac:(tauto)). unfold sqr in *. lra.
  - intros [-> ->]. subst A B. unfold sqr.
    ring_simplify (inject_Z 0 * c). nra.
Qed.
End Lattice.

(** * Where the generator puts things *)

Lemma sqrt_lt_comp a a' d : a == a' -> sqrt_lt a d = sqrt_lt a' d.
Proof.
  intros E. unfold sqrt_lt, Qltb. f_equal. f_equal. by rewrite E.
Qed.

Lemma sqr_comp a a' : a == a' -> sqr a == sqr a'.
Proof. intros E. unfold sqr. by rewrite E. Qed.

Lemma dist2_sym x y px py : dist2 x y px py == dist2 px py x y.
Proof. unfold dist2, sqr. ring. Qed.

(** [far_from p d q]: the point [q] is not within [d] of [p], in the
    generator's own test [Math.sqrt(dx * dx + dy * dy) < d]. *)
Definition far_from (p : Point) (d : Q) (q : Q * Q) : Prop :=
  sqrt_lt (dist2 q.1 q.2 (pt_x p) (pt_y p)) d = false.

Definition apart (d : Q) (p q : Q * Q) : Prop :=
  sqrt_lt (dist2 p.1 p.2 q.1 q.2) d = false.

(** No two entries of the list are within [d] of each other. *)
Definition pairwise_apart {A} (pos : A -> Q * Q) (d : Q) (l : list A) : Prop :=
  forall i j a b, i <> j -> l !! i = Some a -> l !! j = Some b -> apart d (pos a) (pos b).

Lemma apart_sym d p q : apart d p q -> apart d q p.
Proof. unfold apart. intros H. by rewrite (sqrt_lt_comp _ _ _ (dist2_sym _ _ _ _)). Qed.

Lemma pairwise_apart_nil {A} (pos : A -> Q * Q) d : pairwise_apart pos d [].
Proof. intros i j a b _ H. by rewrite lookup_nil in H. Qed.

Lemma pairwise_apart_snoc {A} (pos : A -> Q * Q) d l x :
  pairwise_apart pos d l ->
  (forall a, a ∈ l -> apart d (pos x) (pos a)) ->
  pairwise_apart pos d (l ++ [x]).
Proof.
  intros Hl Hx i j a b Hij Ha Hb.
  apply lookup_snoc_Some in Ha as [[Hi Ha] | [Hi <-]];
    apply lookup_snoc_Some in Hb as [[Hj Hb] | [Hj <-]].
  - by eapply Hl.
  - apply apart_sym, Hx. by eapply list_elem_of_lookup_2.
  - apply Hx. by eapply list_elem_of_lookup_2.
  - lia.
Qed.

Lemma existsb_false {A} (f : A -> bool) l :
  existsb f l = false <-> forall a, a ∈ l -> f a = false.
Proof.
  induction l as [| x l IH]; cbn.
  - split; [intros _ a Ha; by apply elem_of_nil in Ha | done].
  - rewrite orb_false_iff, IH. split.
    + intros [Hx Hl] a [-> | Ha]%elem_of_cons; auto.
    + intros H. split; [apply H; by left | intros a Ha; apply H; by right].
Qed.

Definition hole_pos (h : Hole) : Q * Q := (hole_x h, hole_y h).
Definition coin_pos (c : Coin) : Q * Q := (inject_Z (coin_x c), inject_Z (coin_y c)).
Definition powerup_pos (p : Powerup) : Q * Q := (inject_Z (pu_x p), inject_Z (pu_y p)).
Definition pad_pos (p : BouncePad) : Q * Q := (inject_Z (pad_x p), inject_Z (pad_y p)).

Section Sites.
Variables (cols rows cellSize : Z) (offsetX offsetY : Q) (start : Point) (goal : Goal).
Hypothesis Hcs : (50 <= cellSize)%Z.
Hypothesis Hcols : (1 <= cols)%Z.
Hypothesis Hrows : (1 <= rows)%Z.
Hypothesis Hstart :
  start = {| pt_x := cell_centre offsetX 0 cellSize;
             pt_y := cell_centre offsetY (rows - 1) cellSize |}.
Hypothesis Hgoal :
  goal_x goal = cell_centre offsetX (cols - 1) cellSize /\
  goal_y goal = cell_centre offsetY 0 cellSize.

(** A cell, as its column and its row. *)
Definition Site : Type := Z * Z.

Definition centre (p : Site) : Q * Q :=
  (cell_centre offsetX p.1 cellSize, cell_centre offsetY p.2 cellSize).

(** The rounded centre, which is what is stored for a coin, an extra life, a
    powerup or a bounce pad. *)
Definition rounded (p : Site) : Q * Q :=
  (inject_Z (Math_round (cell_centre offsetX p.1 cellSize)),
   inject_Z (Math_round (cell_centre offsetY p.2 cellSize))).

Definition start_site : Site := (0, rows - 1)%Z.
Definition goal_site : Site := (cols - 1, 0)%Z.

Definition in_range (p : Site) : Prop := (0 <= p.1 < cols)%Z /\ (0 <= p.2 < rows)%Z.

Let c : Q := inject_Z cellSize.
Let dx : Q := round_shift offsetX cellSize.
Let dy : Q := round_shift offsetY cellSize.

Lemma c_large : 50 <= c.
Proof. unfold c. change 50 with (inject_Z 50). by rewrite <- Zle_Qle. Qed.

Lemma dx_bounds : - (1 # 2) <= dx /\ dx <= 1 # 2.
Proof. pose proof (round_shift_bounds offsetX cellSize). unfold dx. lra. Qed.
Lemma dy_bounds : - (1 # 2) <= dy /\ dy <= 1 # 2.
Proof. pose proof (round_shift_bounds offsetY cellSize). unfold dy. lra. Qed.
Lemma dx_bounds' : - (1 # 2) <= - dx /\ - dx <= 1 # 2.
Proof. pose proof dx_bounds. lra. Qed.
Lemma dy_bounds' : - (1 # 2) <= - dy /\ - dy <= 1 # 2.
Proof. pose proof dy_bounds. lra. Qed.

(** The three distances that matter, in multiples of the cell size *)
Lemma dist2_centres (p q : Site) :
  dist2 (centre p).1 (centre p).2 (centre q).1 (centre q).2
  == sqr (inject_Z (p.1 - q.1) * c) + sqr (inject_Z (p.2 - q.2) * c).
Proof.
  unfold dist2, centre. cbn [fst snd].
  by rewrite (sqr_comp _ _ (centre_diff offsetX _ _ _)), (sqr_comp _ _ (centre_diff offsetY _ _ _)).
Qed.

Lemma dist2_roundeds (p q : Site) :
  dist2 (rounded p).1 (rounded p).2 (rounded q).1 (rounded q).2
  == sqr (inject_Z (p.1 - q.1) * c) + sqr (inject_Z (p.2 - q.2) * c).
Proof.
  unfold dist2, rounded. cbn [fst snd].
  assert (forall off k k',
    inject_Z (Math_round (cell_centre off k cellSize))
    - inject_Z (Math_round (cell_centre off k' cellSize))
    == inject_Z (k - k') * c) as E.
  { intros off k k'. unfold c.
    pose proof (rounded_centre off k cellSize). pose proof (rounded_centre off k' cellSize).
    pose proof (centre_diff off k k' cellSize). lra. }
  by rewrite (sqr_comp _ _ (E offsetX _ _)), (sqr_comp _ _ (E offsetY _ _)).
Qed.

Lemma dist2_centre_rounded (p q : Site) :
  dist2 (centre p).1 (centre p).2 (rounded q).1 (rounded q).2
  == sqr (inject_Z (p.1 - q.1) * c + - dx) + sqr (inject_Z (p.2 - q.2) * c + - dy).
Proof.
  unfold dist2, centre, rounded. cbn [fst snd].
  assert (forall off k k',
    cell_centre off k cellSize - inject_Z (Math_round (cell_centre off k' cellSize))
    == inject_Z (k - k') * c + - round_shift off cellSize) as E.
  { intros off k k'. unfold c.
    pose proof (rounded_centre off k cellSize). pose proof (rounded_centre off k' cellSize).
    pose proof (centre_diff off k k' cellSize). lra. }
  by rewrite (sqr_comp _ _ (E offsetX _ _)), (sqr_comp _ _ (E offsetY _ _)).
Qed.

Lemma dist2_rounded_centre (p q : Site) :
  dist2 (rounded p).1 (rounded p).2 (centre q).1 (centre q).2
  == sqr (inject_Z (p.1 - q.1) * c + dx) + sqr (inject_Z (p.2 - q.2) * c + dy).
Proof.
  unfold dist2, centre, rounded. cbn [fst snd].
  assert (forall off k k',
    inject_Z (Math_round (cell_centre off k cellSize)) - cell_centre off k' cellSize
    == inject_Z (k - k') * c + round_shift off cellSize) as E.
  { intros off k k'. unfold c.
    pose proof (rounded_centre off k cellSize). pose proof (rounded_centre off k' cellSize).
    pose proof (centre_diff off k k' cellSize). lra. }
  by rewrite (sqr_comp _ _ (E offsetX _ _)), (sqr_comp _ _ (E offsetY _ _)).
Qed.

Lemma start_is_centre : (pt_x start, pt_y start) = centre start_site.
Proof. by rewrite Hstart. Qed.

Lemma goal_is_centre : (goal_x goal, goal_y goal) = centre goal_site.
Proof. destruct Hgoal as [-> ->]. done. Qed.

Lemma site_eq (p q : Site) : (p.1 - q.1 = 0 /\ p.2 - q.2 = 0)%Z <-> p = q.
Proof. destruct p, q; cbn. split; [intros [? ?]; f_equal; lia | intros [= -> ->]; lia]. Qed.

(** The tests of the generator, read on cells *)

(** Within one cell size of the start (or the goal): in its cell. *)
Lemma near_start_iff (p : Site) :
  sqrt_lt (distStart2 start (centre p).1 (centre p).2) c = true <-> p = start_site.
Proof.
  unfold distStart2.
  change (pt_x start) with (pt_x start, pt_y start).1.
  change (pt_y start) with (pt_x start, pt_y start).2 at 2.
  rewrite start_is_centre, (sqrt_lt_comp _ _ _ (dist2_centres _ _)), sqrt_lt_true.
  rewrite <- site_eq, <- (lattice_centres c dx dy _ _ c_large dx_bounds dy_bounds). pose proof c_large. intuition lra.
Qed.

Lemma near_goal_iff (p : Site) :
  sqrt_lt (distGoal2 goal (centre p).1 (centre p).2) c = true <-> p = goal_site.
Proof.
  unfold distGoal2.
  change (goal_x goal) with (goal_x goal, goal_y goal).1.
  change (goal_y goal) with (goal_x goal, goal_y goal).2 at 2.
  rewrite goal_is_centre, (sqrt_lt_comp _ _ _ (dist2_centres _ _)), sqrt_lt_true.
  rewrite <- site_eq, <- (lattice_centres c dx dy _ _ c_large dx_bounds dy_bounds). pose proof c_large. intuition lra.
Qed.

(** Within 0.8 cell sizes of a stored coin: in its cell. *)
Lemma near_rounded_iff (p q : Site) :
  sqrt_lt (dist2 (centre p).1 (centre p).2 (rounded q).1 (rounded q).2) (c * 0.8) = true
  <-> p = q.
Proof.
  rewrite (sqrt_lt_comp _ _ _ (dist2_centre_rounded _ _)), sqrt_lt_true.
  rewrite <- site_eq, <- (lattice_same c (- dx) (- dy) _ _ c_large dx_bounds' dy_bounds').
  pose proof c_large. intuition lra.
Qed.

(** What the test against an entity placed earlier gives for the two stored
    positions. *)
Lemma checked_apart (d : Q) (p q : Site) :
  1 <= d -> d <= 2 * c -> d <= c \/ c * 1.5 <= d ->
  sqrt_lt (dist2 (centre p).1 (centre p).2 (rounded q).1 (rounded q).2) d = false ->
  apart d (rounded p) (rounded q).
Proof.
  intros Hd1 Hd2 Hd. unfold apart.
  rewrite (sqrt_lt_comp _ _ _ (dist2_centre_rounded _ _)).
  rewrite (sqrt_lt_comp _ _ _ (dist2_roundeds _ _)).
  rewrite !sqrt_lt_false by lra.
  by apply lattice_apart; [apply c_large | apply dx_bounds' | apply dy_bounds' | ..].
Qed.

(** What the test against the start gives for the stored position. *)
Lemma checked_far (d : Q) (p : Site) :
  c * 1.5 <= d ->
  sqrt_lt (distStart2 start (centre p).1 (centre p).2) d = false ->
  far_from start (c * 1.5) (rounded p).
Proof.
  intros Hd. unfold far_from, distStart2.
  change (pt_x start) with (pt_x start, pt_y start).1.
  change (pt_y start) with (pt_x start, pt_y start).2 at 2 4.
  rewrite start_is_centre.
  rewrite (sqrt_lt_comp _ _ _ (dist2_centres _ _)).
  rewrite (sqrt_lt_comp _ _ _ (dist2_rounded_centre _ _)).
  pose proof c_large.
  rewrite !sqrt_lt_false by lra.
  by apply lattice_far; [apply c_large | apply dx_bounds | apply dy_bounds | ..].
Qed.

(** A stored position in another cell than the start's is at least a cell
    size less a half from the start. *)
Lemma other_cell_far (p : Site) :
  p <> start_site -> far_from start (c - (1 # 2)) (rounded p).
Proof.
  intros Hne. unfold far_from.
  change (pt_x start) with (pt_x start, pt_y start).1.
  change (pt_y start) with (pt_x start, pt_y start).2 at 2.
  rewrite start_is_centre.
  rewrite (sqrt_lt_comp _ _ _ (dist2_rounded_centre _ _)).
  pose proof c_large.
  rewrite sqrt_lt_false by lra.
  apply lattice_other; [apply c_large | apply dx_bounds | apply dy_bounds |].
  rewrite <- site_eq in Hne. lia.
Qed.

(** Stored positions of different cells are at least a cell size apart. *)
Lemma other_cells_apart (p q : Site) : p <> q -> apart c (rounded p) (rounded q).
Proof.
  intros Hne. unfold apart.
  rewrite (sqrt_lt_comp _ _ _ (dist2_roundeds _ _)).
  pose proof c_large.
  rewrite sqrt_lt_false by lra.
  apply Qnot_lt_le. rewrite (lattice_centres c dx dy _ _ c_large dx_bounds dy_bounds), site_eq. done.
Qed.

Lemma apart_weaken (d d' : Q) p q : 0 < d' -> d' <= d -> apart d p q -> apart d' p q.
Proof.
  unfold apart. intros H0 Hd. rewrite !sqrt_lt_false by lra. intros H. nra.
Qed.

(** [random_cell] draws a cell of the grid. *)
Lemma returns_random_cell s :
  (0 <= s)%Z ->
  returns (random_cell cols rows cellSize offsetX offsetY) s
    (fun xy => exists p, in_range p /\ xy = centre p).
Proof.
  intros Hs. unfold random_cell.
  eapply returns_bind; [apply returns_rand_below; [done | lia] |].
  intros col s1 Hs1 Hcol.
  eapply returns_bind; [apply returns_rand_below; [done | lia] |].
  intros row s2 Hs2 Hrow.
  apply returns_ret; [done |]. by exists (col, row).
Qed.


(** ** The loops with an attempt budget *)

(** [generateHoles] *)
Definition holes_placed (holes : list Hole) : Prop :=
  Forall (fun h => far_from start (c * 1.5) (hole_pos h) /\
                   sqrt_lt (distGoal2 goal (hole_x h) (hole_y h)) (c * 1.5) = false) holes /\
  pairwise_apart hole_pos c holes.

Lemma returns_hole_attempts n : forall holes s,
  (0 <= s)%Z ->
  returns (hole_attempts cols rows cellSize offsetX offsetY start goal n holes) s
    (fun hs => hs = holes \/
               exists h, hs = holes ++ [h] /\
                 (far_from start (c * 1.5) (hole_pos h) /\
                  sqrt_lt (distGoal2 goal (hole_x h) (hole_y h)) (c * 1.5) = false) /\
                 forall o, o ∈ holes -> apart c (hole_pos h) (hole_pos o)).
Proof.
  induction n as [| n IH]; intros holes s Hs.
  - apply returns_ret; auto.
  - cbn [hole_attempts].
    eapply returns_bind; [by apply returns_random_cell |].
    intros [x y] s1 Hs1 _.
    eapply returns_bind; [apply returns_rand_below; [done | lia] |].
    intros k s2 Hs2 _.
    destruct (sqrt_lt (distStart2 start x y) (cs cellSize * 1.5)
              || sqrt_lt (distGoal2 goal x y) (cs cellSize * 1.5)) eqn:E1; [by apply IH |].
    destruct (existsb (near_hole x y (cs cellSize)) holes) eqn:E2; [by apply IH |].
    apply returns_ret; [done |]. right. eexists. split; [reflexivity |].
    apply orb_false_iff in E1 as [E1 E1']. split; [exact (conj E1 E1') |].
    intros o Ho. by apply (proj1 (existsb_false _ _) E2).
Qed.

Lemma returns_generateHoles difficulty s :
  (0 <= s)%Z ->
  returns (generateHoles cols rows cellSize offsetX offsetY start goal difficulty) s
    (fun hs => (length hs <= Z.to_nat (holes difficulty))%nat /\ holes_placed hs).
Proof.
  intros Hs. unfold generateHoles.
  apply (returns_grow _ _
           (fun holes h => (far_from start (c * 1.5) (hole_pos h) /\
                            sqrt_lt (distGoal2 goal (hole_x h) (hole_y h)) (c * 1.5) = false) /\
                           forall o, o ∈ holes -> apart c (hole_pos h) (hole_pos o))).
  - done.
  - split; [constructor | apply pairwise_apart_nil].
  - intros l s1 Hs1 _. by apply returns_hole_attempts.
  - intros l h [Hfar Hpair] [Hh Hho]. split.
    + apply Forall_app. split; [done | by constructor].
    + by apply pairwise_apart_snoc.
Qed.

(** Entries stored on rounded cell centres *)
Definition on_sites {A} (pos : A -> Q * Q) (l : list A) : Prop :=
  Forall (fun e => exists p : Site, pos e = rounded p) l.

Definition placed {A} (pos : A -> Q * Q) (d : Q) (l : list A) : Prop :=
  on_sites pos l /\
  Forall (fun e => far_from start (c * 1.5) (pos e)) l /\
  pairwise_apart pos d l.

Definition well_placed {A} (pos : A -> Q * Q) (d : Q) (l : list A) (e : A) : Prop :=
  (exists p : Site, pos e = rounded p) /\
  far_from start (c * 1.5) (pos e) /\
  forall o, o ∈ l -> apart d (pos e) (pos o).

Lemma placed_nil {A} (pos : A -> Q * Q) d : placed pos d [].
Proof. split; [constructor | split; [constructor | apply pairwise_apart_nil]]. Qed.

Lemma placed_snoc {A} (pos : A -> Q * Q) d l e :
  placed pos d l -> well_placed pos d l e -> placed pos d (l ++ [e]).
Proof.
  intros (Hs & Hf & Hp) (He & Hfar & Hap). split; [| split].
  - apply Forall_app. split; [done | by constructor].
  - apply Forall_app. split; [done | by constructor].
  - by apply pairwise_apart_snoc.
Qed.

(** From the tests on the centre of a cell to the rounded centre *)
Lemma well_placed_intro {A} (pos : A -> Q * Q) (near : Q -> Q -> Q -> A -> bool)
    (d D : Q) (l : list A) (e : A) (p : Site) :
  (forall x y o, near x y d o = sqrt_lt (dist2 x y (pos o).1 (pos o).2) d) ->
  1 <= d -> d <= 2 * c -> d <= c \/ c * 1.5 <= d -> c * 1.5 <= D ->
  on_sites pos l ->
  pos e = rounded p ->
  sqrt_lt (distStart2 start (centre p).1 (centre p).2) D = false ->
  existsb (near (centre p).1 (centre p).2 d) l = false ->
  well_placed pos d l e.
Proof.
  intros Hnear Hd1 Hd2 Hd HD Hl He Hstart' Hex. split; [by exists p |].
  rewrite He. split; [by eapply checked_far |].
  intros o Ho. unfold on_sites in Hl. rewrite Forall_forall in Hl.
  destruct (Hl o Ho) as [q Hq]. rewrite Hq.
  apply checked_apart; try done.
  pose proof (proj1 (existsb_false _ _) Hex o Ho) as Hn.
  rewrite Hnear, Hq in Hn. exact Hn.
Qed.

(** [generatePowerups] *)
Lemma returns_powerup_attempts levelNum holes n : forall powerups s,
  (0 <= s)%Z -> on_sites powerup_pos powerups ->
  returns (powerup_attempts levelNum cols rows cellSize offsetX offsetY start goal n
             holes powerups) s
    (fun ps => ps = powerups \/
               exists e, ps = powerups ++ [e] /\
                 well_placed powerup_pos (c * 1.5) powerups e).
Proof.
  pose proof c_large as Hc.
  induction n as [| n IH]; intros powerups s Hs Hon.
  - apply returns_ret; auto.
  - cbn [powerup_attempts].
    eapply returns_bind; [by apply returns_random_cell |].
    intros [x y] s1 Hs1 (p & Hp & Hxy).
    destruct (sqrt_lt (distStart2 start x y) (inject_Z cellSize * 2)
              || sqrt_lt (distGoal2 goal x y) (inject_Z cellSize)) eqn:E1; [by apply IH |].
    destruct (existsb (near_hole x y (inject_Z cellSize)) holes) eqn:E2; [by apply IH |].
    destruct (existsb (near_powerup x y (inject_Z cellSize * 1.5)) powerups) eqn:E3;
      [by apply IH |].
    eapply returns_bind; [by apply returns_pick |].
    intros type s2 Hs2 _. apply returns_ret; [done |]. right. eexists. split; [reflexivity |].
    apply orb_false_iff in E1 as [E1 _]. inversion Hxy; subst x y.
    apply (well_placed_intro powerup_pos near_powerup (c * 1.5) (c * 2) _ _ p);
      try done; try (fold c; lra).
Qed.

Lemma returns_generatePowerups levelNum holes s :
  (0 <= s)%Z ->
  returns (generatePowerups levelNum cols rows cellSize offsetX offsetY start goal holes) s
    (fun ps => (length ps <= Z.to_nat (numPowerups levelNum))%nat /\
               placed powerup_pos (c * 1.5) ps).
Proof.
  intros Hs. unfold generatePowerups.
  destruct (levelNum <? 6)%Z.
  { apply returns_ret; [done |]. split; [cbn; lia | apply placed_nil]. }
  apply (returns_grow _ _ (well_placed powerup_pos (c * 1.5))).
  - done.
  - apply placed_nil.
  - intros l s1 Hs1 Hl. apply returns_powerup_attempts; [done | apply Hl].
  - intros l e. apply placed_snoc.
Qed.

(** [generateBouncePads] *)
Lemma returns_pad_attempts holes n : forall pads s,
  (0 <= s)%Z -> on_sites pad_pos pads ->
  returns (pad_attempts cols rows cellSize offsetX offsetY start goal n holes pads) s
    (fun ps => ps = pads \/
               exists e, ps = pads ++ [e] /\ well_placed pad_pos (c * 2) pads e).
Proof.
  pose proof c_large as Hc.
  induction n as [| n IH]; intros pads s Hs Hon.
  - apply returns_ret; auto.
  - cbn [pad_attempts].
    eapply returns_bind; [by apply returns_random_cell |].
    intros [x y] s1 Hs1 (p & Hp & Hxy).
    destruct (sqrt_lt (distStart2 start x y) (inject_Z cellSize * 1.5)
              || sqrt_lt (distGoal2 goal x y) (inject_Z cellSize * 1.5)) eqn:E1;
      [by apply IH |].
    destruct (existsb (near_hole x y (inject_Z cellSize * 0.8)) holes) eqn:E2;
      [by apply IH |].
    destruct (existsb (near_pad x y (inject_Z cellSize * 2)) pads) eqn:E3; [by apply IH |].
    eapply returns_bind; [by apply returns_pick |].
    intros direction s2 Hs2 _.
    eapply returns_bind; [apply returns_rand_below; [done | lia] |].
    intros k s3 Hs3 _.
    apply returns_ret; [done |]. right. eexists. split; [reflexivity |].
    apply orb_false_iff in E1 as [E1 _]. inversion Hxy; subst x y.
    apply (well_placed_intro pad_pos near_pad (c * 2) (c * 1.5) _ _ p);
      try done; try (fold c; lra).
Qed.

Lemma returns_generateBouncePads levelNum holes s :
  (0 <= s)%Z ->
  returns (generateBouncePads levelNum cols rows cellSize offsetX offsetY start goal holes) s
    (fun ps => (length ps <= Z.to_nat (numPads levelNum))%nat /\ placed pad_pos (c * 2) ps).
Proof.
  intros Hs. unfold generateBouncePads.
  destruct (levelNum <? 11)%Z.
  { apply returns_ret; [done |]. split; [cbn; lia | apply placed_nil]. }
  apply (returns_grow _ _ (well_placed pad_pos (c * 2))).
  - done.
  - apply placed_nil.
  - intros l s1 Hs1 Hl. apply returns_pad_attempts; [done | apply Hl].
  - intros l e. apply placed_snoc.
Qed.


(** ** Dead ends and the shuffle *)

Lemma returns_dead_ends maze keep s :
  (0 <= s)%Z -> wf_grid (Z.to_nat rows) (Z.to_nat cols) maze ->
  returns (dead_ends maze cols rows keep) s
    (fun l => NoDup l /\ forall p, p ∈ l -> in_grid (Z.to_nat rows) (Z.to_nat cols) p).
Proof.
  intros Hs Hwf. unfold dead_ends.
  set (I := fun (r : nat) (acc : list Pos) =>
              NoDup acc /\
              forall p, p ∈ acc -> (row p < r)%nat /\ (col p < Z.to_nat cols)%nat).
  eapply returns_weaken.
  - apply (returns_for_range _ _ I); [done | | ].
    { split; [constructor | intros p Hp; by apply elem_of_nil in Hp]. }
    intros r acc s1 Hr Hs1 [Hnd Hacc].
    set (J := fun (k : nat) (acc : list Pos) =>
                NoDup acc /\
                forall p, p ∈ acc ->
                  ((row p < r)%nat /\ (col p < Z.to_nat cols)%nat) \/
                  (row p = r /\ (col p < k)%nat)).
    eapply returns_weaken.
    + apply (returns_for_range _ _ J); [done | | ].
      { split; [done | intros p Hp; left; by apply Hacc]. }
      intros k acc1 s2 Hk Hs2 [Hnd1 Hacc1].
      destruct (cell_at_in_grid (Z.to_nat rows) (Z.to_nat cols) maze {| row := r; col := k |})
        as [cl Hcl]; [done | by split |].
      cbn in Hcl. rewrite Hcl. cbn [defined].
      eapply (returns_bind _ _ _ (fun _ => True)); [by apply returns_ret |].
      intros cl' s3 Hs3 _.
      destruct ((3 <=? wallCount cl')%nat && keep r k).
      * apply returns_ret; [done |]. split.
        -- apply NoDup_app. split; [done |]. split; [| apply NoDup_singleton].
           intros p Hp ->%list_elem_of_singleton.
           destruct (Hacc1 _ Hp) as [[H _] | [_ H]]; cbn in H; lia.
        -- intros p [Hp | ->%list_elem_of_singleton]%elem_of_app.
           ++ destruct (Hacc1 _ Hp) as [H | [H1 H2]]; [by left | right; split; [done | lia]].
           ++ right. cbn. split; [done | lia].
      * apply returns_ret; [done |]. split; [done |].
        intros p Hp. destruct (Hacc1 _ Hp) as [H | [H1 H2]]; [by left | right; split; [done | lia]].
    + intros acc1 [Hnd1 Hacc1]. split; [done |].
      intros p Hp. destruct (Hacc1 _ Hp) as [[H1 H2] | [H1 H2]]; split; lia.
  - intros l [Hnd Hl]. split; [done |]. intros p Hp. by apply Hl.
Qed.


(** ** [generateCoins] *)

Definition site_of (p : Pos) : Site := (Z.of_nat (col p), Z.of_nat (row p)).

Definition coin_at (p : Site) : Coin :=
  {| coin_x := Math_round (cell_centre offsetX p.1 cellSize);
     coin_y := Math_round (cell_centre offsetY p.2 cellSize) |}.

Lemma site_of_inj p q : site_of p = site_of q -> p = q.
Proof. destruct p, q. unfold site_of. cbn. intros [= H1 H2]. f_equal; lia. Qed.

(** The coins are the rounded centres of the cells [sites], which are
    different cells, none of them the start's or the goal's. *)
Record coins_on (sites : list Site) (coins : list Coin) : Prop := {
  coins_sites : coins = map coin_at sites;
  coins_NoDup : NoDup sites;
  coins_start : start_site ∉ sites;
  coins_goal : goal_site ∉ sites }.

Lemma coins_on_nil : coins_on [] [].
Proof. split; [done | constructor | apply not_elem_of_nil | apply not_elem_of_nil]. Qed.

Lemma coins_on_snoc sites coins p :
  coins_on sites coins -> p ∉ sites -> p <> start_site -> p <> goal_site ->
  coins_on (sites ++ [p]) (coins ++ [coin_at p]).
Proof.
  intros [-> Hnd Hs Hg] Hp Hps Hpg. split.
  - by rewrite map_app.
  - apply NoDup_app. split; [done |]. split; [| apply NoDup_singleton].
    by intros x Hx ->%list_elem_of_singleton.
  - intros [H | H%list_elem_of_singleton]%elem_of_app; [auto | congruence].
  - intros [H | H%list_elem_of_singleton]%elem_of_app; [auto | congruence].
Qed.

Lemma coins_on_length sites coins : coins_on sites coins -> length coins = length sites.
Proof. intros [-> _ _ _]. by rewrite length_map. Qed.

Lemma away_from_start (p : Site) :
  sqrt_gt (distStart2 start (centre p).1 (centre p).2) c = true -> p <> start_site.
Proof.
  pose proof c_large as Hc. rewrite sqrt_gt_true by lra. intros H Hp.
  apply near_start_iff in Hp. apply sqrt_lt_true in Hp. lra.
Qed.

Lemma away_from_goal (p : Site) :
  sqrt_gt (distGoal2 goal (centre p).1 (centre p).2) c = true -> p <> goal_site.
Proof.
  pose proof c_large as Hc. rewrite sqrt_gt_true by lra. intros H Hp.
  apply near_goal_iff in Hp. apply sqrt_lt_true in Hp. lra.
Qed.

Lemma dead_end_coins_fold (l : list Pos) : forall sites coins,
  coins_on sites coins -> NoDup (sites ++ map site_of l) ->
  exists sites',
    coins_on sites'
      (fold_left (fun coins cell =>
         let '(x, y) := pos_centre cellSize offsetX offsetY cell in
         if sqrt_gt (distStart2 start x y) (cs cellSize)
            && sqrt_gt (distGoal2 goal x y) (cs cellSize)
         then coins ++ [{| coin_x := Math_round x; coin_y := Math_round y |}]
         else coins) l coins) /\
    (length sites' <= length sites + length l)%nat.
Proof.
  induction l as [| cell l IH]; intros sites coins Hon Hnd.
  - exists sites. cbn. split; [done | lia].
  - cbn [fold_left map length] in *.
    change (pos_centre cellSize offsetX offsetY cell) with (centre (site_of cell)).
    unfold centre at 1.
    destruct (sqrt_gt (distStart2 start _ _) (cs cellSize)
              && sqrt_gt (distGoal2 goal _ _) (cs cellSize)) eqn:E.
    + apply andb_prop in E as [E1 E2].
      destruct (IH (sites ++ [site_of cell]) (coins ++ [coin_at (site_of cell)]))
        as (sites' & Hon' & Hlen).
      * apply coins_on_snoc; [done | | by apply away_from_start | by apply away_from_goal].
        apply NoDup_app in Hnd as (_ & Hd & _). intros Hin. apply (Hd _ Hin). by left.
      * by rewrite <- app_assoc.
      * exists sites'. split; [exact Hon' |]. rewrite length_app in Hlen. cbn in Hlen. lia.
    + destruct (IH sites coins) as (sites' & Hon' & Hlen); [done | |].
      * apply NoDup_app in Hnd as (H1 & H2 & H3). apply NoDup_app. split; [done |].
        split; [| by apply NoDup_cons in H3 as [_ H3]].
        intros x Hx Hin. apply (H2 _ Hx). by right.
      * exists sites'. split; [exact Hon' | lia].
Qed.

Lemma dead_end_coins_spec (n : nat) (deadEnds : list Pos) :
  NoDup deadEnds ->
  exists sites,
    coins_on sites (dead_end_coins cellSize offsetX offsetY start goal n deadEnds) /\
    (length sites <= n)%nat.
Proof.
  intros Hnd. unfold dead_end_coins.
  destruct (dead_end_coins_fold (take n deadEnds) [] []) as (sites & Hon & Hlen).
  - apply coins_on_nil.
  - cbn. apply NoDup_fmap_2; [intros p q; apply site_of_inj |].
    apply (sublist_NoDup _ deadEnds Hnd), sublist_take.
  - exists sites. split; [exact Hon |]. rewrite length_take in Hlen. cbn in Hlen. lia.
Qed.

(** The cell of the next attempt, and those of the attempts that follow *)
Definition draw (n s : Z) : Z := (lcg s * n / 233280)%Z.

Lemma rand_below_draw n s : rand_below n s = Done (draw n s) (lcg s).
Proof. reflexivity. Qed.

Definition next_site (s : Z) : Site := (draw cols s, draw rows (lcg s)).

Lemma random_cell_next s :
  random_cell cols rows cellSize offsetX offsetY s = Done (centre (next_site s)) (lcg (lcg s)).
Proof. reflexivity. Qed.

Fixpoint site_stream (n : nat) (s : Z) : list Site :=
  match n with
  | O => []
  | S n' => next_site s :: site_stream n' (lcg (lcg s))
  end.

Lemma fill_coins_unfold fuel numCoins coins :
  fill_coins cols rows cellSize offsetX offsetY start goal (S fuel) numCoins coins
  = if (length coins <? numCoins)%nat then
      let* '(x, y) := random_cell cols rows cellSize offsetX offsetY in
      if sqrt_lt (distStart2 start x y) (cs cellSize)
         || sqrt_lt (distGoal2 goal x y) (cs cellSize)
      then fill_coins cols rows cellSize offsetX offsetY start goal fuel numCoins coins
      else if existsb (near_coin x y (cs cellSize * 0.8)) coins
      then fill_coins cols rows cellSize offsetX offsetY start goal fuel numCoins coins
      else fill_coins cols rows cellSize offsetX offsetY start goal fuel numCoins
             (coins ++ [{| coin_x := Math_round x; coin_y := Math_round y |}])
    else ret coins.
Proof. reflexivity. Qed.

Lemma near_coin_iff (p : Site) sites coins :
  coins_on sites coins ->
  existsb (near_coin (centre p).1 (centre p).2 (c * 0.8)) coins = true <-> p ∈ sites.
Proof.
  intros [-> _ _ _]. rewrite existsb_exists. split.
  - intros (coin & Hin & Hnear). apply in_map_iff in Hin as (q & <- & Hq).
    apply near_rounded_iff in Hnear as ->. by apply list_elem_of_In.
  - intros Hp. exists (coin_at p). split.
    + apply in_map. by apply list_elem_of_In.
    + by apply near_rounded_iff.
Qed.

(** One attempt of the loop that tops the coins up: the cell is taken when
    it is not the start's, the goal's or a coin's. *)
Lemma fill_coins_attempt fuel numCoins sites coins s :
  coins_on sites coins -> (length coins < numCoins)%nat ->
  let p := next_site s in
  fill_coins cols rows cellSize offsetX offsetY start goal (S fuel) numCoins coins s
  = if decide (p ∈ start_site :: goal_site :: sites)
    then fill_coins cols rows cellSize offsetX offsetY start goal fuel numCoins coins
           (lcg (lcg s))
    else fill_coins cols rows cellSize offsetX offsetY start goal fuel numCoins
           (coins ++ [coin_at p]) (lcg (lcg s)).
Proof.
  intros Hon Hlen p. rewrite fill_coins_unfold.
  apply Nat.ltb_lt in Hlen as ->.
  erewrite bind_run by apply random_cell_next. fold p.
  change (cs cellSize) with c.
  assert (centre p = ((centre p).1, (centre p).2)) as Hpair by reflexivity.
  rewrite Hpair. cbv beta iota. clear Hpair.
  destruct (sqrt_lt (distStart2 start (centre p).1 (centre p).2) c) eqn:E1.
  { apply near_start_iff in E1. rewrite decide_True; [done | rewrite E1; by left]. }
  destruct (sqrt_lt (distGoal2 goal (centre p).1 (centre p).2) c) eqn:E2.
  { apply near_goal_iff in E2. rewrite decide_True; [done | rewrite E2; right; by left]. }
  cbn [orb].
  destruct (existsb (near_coin (centre p).1 (centre p).2 (c * 0.8)) coins) eqn:E3.
  { apply (near_coin_iff _ _ _ Hon) in E3. rewrite decide_True; [done | by do 2 right]. }
  rewrite decide_False; [done |].
  intros [-> | [-> | Hin]%elem_of_cons]%elem_of_cons.
  - assert (sqrt_lt (distStart2 start (centre start_site).1 (centre start_site).2) c = true)
      by by apply near_start_iff.
    congruence.
  - assert (sqrt_lt (distGoal2 goal (centre goal_site).1 (centre goal_site).2) c = true)
      by by apply near_goal_iff.
    congruence.
  - apply (near_coin_iff _ _ _ Hon) in Hin. congruence.
Qed.

Section Fill.
Variable numCoins : nat.
(** Among the cells of any 22 attempts in a row there is one outside any
    given [numCoins + 1] cells. *)
Hypothesis covered :
  forall s (E : list Site), (0 <= s)%Z -> (length E <= numCoins + 1)%nat ->
    exists p, p ∈ site_stream 22 s /\ p ∉ E.

Abbreviation fill := (fill_coins cols rows cellSize offsetX offsetY start goal).

Lemma fill_coins_next (n : nat) : forall s sites coins,
  (0 <= s)%Z -> coins_on sites coins -> (length coins < numCoins)%nat ->
  (exists p, p ∈ site_stream n s /\ p ∉ start_site :: goal_site :: sites) ->
  exists (k : nat) s' p,
    (k < n)%nat /\ (0 <= s')%Z /\ coins_on (sites ++ [p]) (coins ++ [coin_at p]) /\
    forall fuel, fill (S k + fuel) numCoins coins s = fill fuel numCoins (coins ++ [coin_at p]) s'.
Proof.
  induction n as [| n IH]; intros s sites coins Hs Hon Hlen (p & Hp & Hout).
  { by apply elem_of_nil in Hp. }
  cbn [site_stream] in Hp.
  assert (0 <= lcg (lcg s))%Z as Hs2.
  { pose proof (lcg_range s Hs). pose proof (lcg_range (lcg s) ltac:(lia)). lia. }
  destruct (decide (next_site s ∈ start_site :: goal_site :: sites)) as [Hin | Hnin].
  - destruct (IH (lcg (lcg s)) sites coins Hs2 Hon Hlen) as (k & s' & q & Hk & Hs' & Hon' & Hrun).
    { exists p. split; [| done]. apply elem_of_cons in Hp as [-> | Hp]; [done | exact Hp]. }
    exists (S k), s', q. split; [lia |]. split; [done |]. split; [done |].
    intros fuel. cbn [Nat.add]. rewrite (fill_coins_attempt _ _ sites) by done.
    cbv zeta. rewrite decide_True by done. apply Hrun.
  - exists 0%nat, (lcg (lcg s)), (next_site s). split; [lia |]. split; [done |]. split.
    + apply coins_on_snoc; [done | | |]; intros H; apply Hnin.
      * by do 2 right.
      * rewrite H. by left.
      * rewrite H. right. by left.
    + intros fuel. cbn [Nat.add]. rewrite (fill_coins_attempt _ _ sites) by done.
      cbv zeta. by rewrite decide_False.
Qed.

Lemma returns_fill_coins (m : nat) : forall fuel s sites coins,
  (0 <= s)%Z -> coins_on sites coins -> (length coins + m = numCoins)%nat ->
  (22 * m <= fuel)%nat ->
  returns (fill fuel numCoins coins) s
    (fun coins' => exists sites', coins_on sites' coins' /\ length coins' = numCoins).
Proof.
  induction m as [| m IH]; intros fuel s sites coins Hs Hon Hlen Hfuel.
  - exists coins, s. split; [| split; [done |]].
    + assert ((length coins <? numCoins)%nat = false) as E by (apply Nat.ltb_ge; lia).
      destruct fuel; [cbn [fill_coins] | rewrite fill_coins_unfold]; by rewrite E.
    + exists sites. split; [done | lia].
  - destruct (covered s (start_site :: goal_site :: sites) Hs) as (p & Hp & Hout).
    { cbn [length]. rewrite <- (coins_on_length _ _ Hon). lia. }
    destruct (fill_coins_next 22 s sites coins Hs Hon ltac:(lia))
      as (k & s' & q & Hk & Hs' & Hon' & Hrun); [by exists p |].
    pose proof (Hrun (fuel - S k)%nat) as Hrun'.
    replace (S k + (fuel - S k))%nat with fuel in Hrun' by lia.
    unfold returns. rewrite Hrun'.
    apply (IH _ _ (sites ++ [q])); [done | done | | lia].
    rewrite length_app. cbn. lia.
Qed.

Lemma returns_generateCoins levelNum maze fuel s :
  (0 <= s)%Z -> wf_grid (Z.to_nat rows) (Z.to_nat cols) maze ->
  numCoins_of levelNum = numCoins -> (22 * numCoins <= fuel)%nat ->
  returns (generateCoins levelNum maze cols rows cellSize offsetX offsetY start goal fuel) s
    (fun coins => exists sites, coins_on sites coins /\ length coins = numCoins).
Proof.
  intros Hs Hwf HN Hfuel. unfold generateCoins. rewrite HN.
  eapply returns_bind; [by apply returns_dead_ends |].
  intros deadEnds s1 Hs1 [Hnd _].
  eapply returns_bind; [by apply returns_shuffle |].
  intros shuffled s2 Hs2 (_ & _ & Hnd2).
  destruct (dead_end_coins_spec numCoins shuffled (Hnd2 Hnd)) as (sites & Hon & Hlen).
  apply (returns_fill_coins (numCoins - length sites) _ _ sites); [done | done | |].
  - rewrite (coins_on_length _ _ Hon). lia.
  - nia.
Qed.
End Fill.

(** What the cells give for the stored coins *)
Lemma coins_on_far sites coins :
  coins_on sites coins ->
  Forall (fun coin => far_from start (c - (1 # 2)) (coin_pos coin)) coins.
Proof.
  intros [-> _ Hs _]. apply Forall_forall. intros coin Hin.
  apply list_elem_of_fmap in Hin as (p & -> & Hp).
  apply other_cell_far. by intros ->.
Qed.

Lemma coins_on_apart sites coins :
  coins_on sites coins -> pairwise_apart coin_pos c coins.
Proof.
  intros [-> Hnd _ _] i j a b Hij Ha Hb.
  apply list_lookup_fmap_Some in Ha as (p & -> & Hp).
  apply list_lookup_fmap_Some in Hb as (q & -> & Hq).
  apply other_cells_apart. intros ->.
  apply Hij. by eapply NoDup_lookup.
Qed.


(** ** [generateExtraLives] *)

Lemma returns_generateExtraLives levelNum maze coins holes s :
  (0 <= s)%Z -> wf_grid (Z.to_nat rows) (Z.to_nat cols) maze ->
  returns (generateExtraLives levelNum maze cols rows cellSize offsetX offsetY start goal
             coins holes) s
    (fun lives => (length lives <= 1)%nat /\
                  Forall (fun life => (exists p : Site, coin_pos life = rounded p) /\
                                      far_from start (c * 1.5) (coin_pos life)) lives).
Proof.
  pose proof c_large as Hc.
  intros Hs Hwf. unfold generateExtraLives.
  eapply returns_bind; [by apply returns_rng |].
  intros r s1 Hs1 _.
  destruct (Qltb (chanceForLife levelNum) r).
  { apply returns_ret; [done |]. split; [cbn; lia | constructor]. }
  set (K := fun (_ : nat) (acc : list Point) =>
              Forall (fun pt => exists p : Site,
                        (pt_x pt, pt_y pt) = centre p /\
                        sqrt_lt (distStart2 start (centre p).1 (centre p).2) (c * 2) = false)
                     acc).
  eapply returns_bind.
  { apply (returns_for_range _ _ K); [done | constructor |].
    intros r0 acc s2 Hr0 Hs2 Hacc.
    apply (returns_for_range _ _ (fun _ => K (S r0))); [done | exact Hacc |].
    intros k acc1 s3 Hk Hs3 Hacc1.
    destruct (cell_at_in_grid (Z.to_nat rows) (Z.to_nat cols) maze {| row := r0; col := k |})
      as [cl Hcl]; [done | by split |].
    cbn in Hcl. rewrite Hcl. cbn [defined].
    eapply (returns_bind _ _ _ (fun _ => True)); [by apply returns_ret |].
    intros cl' s4 Hs4 _.
    destruct (3 <=? wallCount cl')%nat; [| by apply returns_ret].
    cbv zeta.
    destruct (sqrt_lt (distStart2 start _ _) (inject_Z cellSize * 2)
              || sqrt_lt (distGoal2 goal _ _) (inject_Z cellSize * 2)) eqn:E1;
      [by apply returns_ret |].
    destruct (existsb _ coins); [by apply returns_ret |].
    destruct (existsb _ holes); [by apply returns_ret |].
    apply returns_ret; [done |]. apply Forall_app. split; [exact Hacc1 |].
    constructor; [| constructor].
    exists (Z.of_nat k, Z.of_nat r0). split; [reflexivity |].
    by apply orb_false_iff in E1 as [E1 _]. }
  intros deadEnds s2 Hs2 Hdead. unfold K in Hdead.
  destruct (0 <? length deadEnds)%nat eqn:Elen;
    [| apply returns_ret; [done |]; split; [cbn; lia | constructor]].
  apply Nat.ltb_lt in Elen.
  eapply returns_bind; [apply returns_rand_below; [done | lia] |].
  intros i s3 Hs3 Hi. cbn beta in Hi.
  destruct (Z.ltb_spec i 0) as [| _]; [lia |].
  destruct (lookup_lt_is_Some_2 deadEnds (Z.to_nat i)) as [spot Hspot]; [lia |].
  rewrite Hspot. cbn [defined].
  rewrite Forall_forall in Hdead.
  destruct (Hdead spot) as (p & Hp & Hfar); [by eapply list_elem_of_lookup_2 |].
  eapply (returns_bind _ _ _ (fun a => a = spot)).
  { by apply returns_ret. }
  intros spot' s5 Hs5 ->.
  apply returns_ret; [done |]. split; [cbn; lia |].
  constructor; [| constructor].
  assert (coin_pos {| coin_x := Math_round (pt_x spot); coin_y := Math_round (pt_y spot) |}
          = rounded p) as Hpos.
  { unfold coin_pos, rounded. cbn [coin_x coin_y]. by inversion Hp. }
  split; [by exists p |]. rewrite Hpos. eapply checked_far; [| exact Hfar]. lra.
Qed.

(** ** [mazeToWalls] *)

Lemma returns_mazeToWalls grid canvasWidth canvasHeight s :
  (0 <= s)%Z -> wf_grid (Z.to_nat rows) (Z.to_nat cols) grid ->
  returns (mazeToWalls grid cols rows cellSize canvasWidth canvasHeight) s (fun _ => True).
Proof.
  intros Hs Hwf. unfold mazeToWalls. cbv zeta.
  assert (forall r k, (r < Z.to_nat rows)%nat -> (k < Z.to_nat cols)%nat ->
            is_Some (cell_at grid r k)) as Hcell.
  { intros r k Hr Hk.
    apply (cell_at_in_grid (Z.to_nat rows) (Z.to_nat cols) grid {| row := r; col := k |});
      [done | by split]. }
  eapply (returns_bind _ _ _ (fun _ => True)).
  { apply (returns_for_range _ _ (fun _ _ => True)); [done | done |].
    intros r acc s1 Hr Hs1 _.
    apply (returns_for_range _ _ (fun _ _ => True)); [done | done |].
    intros k acc1 s2 Hk Hs2 _.
    destruct (Hcell r k Hr Hk) as [cl ->]. cbn [defined].
    eapply (returns_bind _ _ _ (fun _ => True)); [by apply returns_ret |].
    intros cl' s3 Hs3 _.
    destruct ((w_top (walls cl') || w_left (walls cl')) && (0 <? r)%nat && (0 <? k)%nat) eqn:E;
      [| by apply returns_ret].
    apply andb_prop in E as [E Ek]. apply andb_prop in E as [_ Er].
    apply Nat.ltb_lt in Ek, Er.
    destruct (Hcell (r - 1)%nat k ltac:(lia) Hk) as [tc ->].
    destruct (Hcell r (k - 1)%nat Hr ltac:(lia)) as [lc ->]. cbn [defined].
    eapply (returns_bind _ _ _ (fun _ => True)); [by apply returns_ret |].
    intros tc' s4 Hs4 _.
    eapply (returns_bind _ _ _ (fun _ => True)); [by apply returns_ret |].
    intros lc' s5 Hs5 _.
    destruct (_ || _); by apply returns_ret. }
  intros inner s1 Hs1 _.
  eapply (returns_bind _ _ _ (fun _ => True)).
  { apply (returns_for_range _ _ (fun _ _ => True)); [done | done |].
    intros r acc s2 Hr Hs2 _.
    destruct (Z.ltb_spec cols 1) as [| _]; [lia |].
    destruct (Hcell r (Z.to_nat (cols - 1)) Hr ltac:(lia)) as [cl ->]. cbn [defined].
    eapply (returns_bind _ _ _ (fun _ => True)); [by apply returns_ret |].
    intros cl' s3 Hs3 _. destruct (w_right (walls cl')); by apply returns_ret. }
  intros with_right s2 Hs2 _.
  apply (returns_for_range _ _ (fun _ _ => True)); [done | done |].
  intros k acc s3 Hk Hs3 _.
  destruct (Z.ltb_spec rows 1) as [| _]; [lia |].
  destruct (Hcell (Z.to_nat (rows - 1)) k ltac:(lia) Hk) as [cl ->]. cbn [defined].
  eapply (returns_bind _ _ _ (fun _ => True)); [by apply returns_ret |].
  intros cl' s4 Hs4 _. destruct (w_bottom (walls cl')); by apply returns_ret.
Qed.

End Sites.

(** ** [generateSpeedZones] and [generateMovingWalls], in full *)

Local Open Scope Q_scope.

Definition zone_pos (z : SpeedZone) : Q * Q := (inject_Z (zone_x z), inject_Z (zone_y z)).

(** [on_corner cols rows cellSize offsetX offsetY z]: the zone is a square of
    one cell size on the top-left corner of a cell that is not in the last
    column or row. *)
Definition on_corner (cols rows cellSize : Z) (offsetX offsetY : Q) (z : SpeedZone) : Prop :=
  exists c r : Z,
    (0 <= c < cols - 1)%Z /\ (0 <= r < rows - 1)%Z /\
    zone_x z = Math_round (offsetX + inject_Z c * inject_Z cellSize) /\
    zone_y z = Math_round (offsetY + inject_Z r * inject_Z cellSize) /\
    zone_width z = cellSize /\ zone_height z = cellSize.

Section Zones.
Variables cols rows cellSize : Z.
Variables offsetX offsetY : Q.
Hypothesis Hcs : (50 <= cellSize)%Z.
Hypothesis Hcols : (2 <= cols)%Z.
Hypothesis Hrows : (2 <= rows)%Z.

(** The corner of a cell is the centre of a cell of the grid moved up and
    left by half a cell. *)
Lemma corner_is_centre off k :
  off + inject_Z k * inject_Z cellSize
  == cell_centre (off - inject_Z cellSize / 2) k cellSize.
Proof. unfold cell_centre. field. Qed.

Lemma corner_rounded c r :
  (inject_Z (Math_round (offsetX + inject_Z c * inject_Z cellSize)),
   inject_Z (Math_round (offsetY + inject_Z r * inject_Z cellSize)))
  = rounded cellSize (offsetX - inject_Z cellSize / 2) (offsetY - inject_Z cellSize / 2) (c, r).
Proof.
  unfold rounded. cbn [fst snd]. unfold Math_round.
  f_equal; f_equal; apply Qfloor_comp; by rewrite corner_is_centre.
Qed.

Lemma zone_on_site z :
  on_corner cols rows cellSize offsetX offsetY z ->
  exists p : Site,
    zone_pos z = rounded cellSize (offsetX - inject_Z cellSize / 2)
                   (offsetY - inject_Z cellSize / 2) p.
Proof.
  intros (c & r & _ & _ & Hx & Hy & _). exists (c, r).
  unfold zone_pos. rewrite Hx, Hy. apply corner_rounded.
Qed.

Lemma returns_zone_attempts_apart n : forall zones s,
  (0 <= s)%Z -> Forall (on_corner cols rows cellSize offsetX offsetY) zones ->
  returns (zone_attempts cols rows cellSize offsetX offsetY n zones) s
    (fun zs => zs = zones \/
               exists z, zs = zones ++ [z] /\
                 on_corner cols rows cellSize offsetX offsetY z /\
                 forall o, o ∈ zones ->
                   apart (inject_Z cellSize * 2) (zone_pos z) (zone_pos o)).
Proof.
  induction n as [| n IH]; intros zones s Hs Hzones.
  - apply returns_ret; auto.
  - cbn [zone_attempts].
    eapply returns_bind; [apply returns_rand_below; [done | lia] |].
    intros c s1 Hs1 Hc. cbn beta in Hc.
    eapply returns_bind; [apply returns_rand_below; [done | lia] |].
    intros r s2 Hs2 Hr. cbn beta in Hr.
    destruct (existsb _ zones) eqn:E; [by apply IH |].
    eapply returns_bind; [by apply returns_rng |].
    intros v s3 Hs3 _. apply returns_ret; [done |]. right. eexists. split; [reflexivity |].
    assert (on_corner cols rows cellSize offsetX offsetY
              {| zone_x := Math_round (offsetX + inject_Z c * inject_Z cellSize);
                 zone_y := Math_round (offsetY + inject_Z r * inject_Z cellSize);
                 zone_width := cellSize; zone_height := cellSize;
                 zone_type := if Qltb 0.5 v then "slow" else "fast";
                 zone_multiplier := if Qltb 0.5 v then 0.4 else 2 |}) as Hnew.
    { exists c, r. repeat split; try done; lia. }
    split; [exact Hnew |].
    intros o Ho. rewrite Forall_forall in Hzones.
    destruct (zone_on_site o (Hzones o Ho)) as [q Hq].
    assert (50 <= inject_Z cellSize) as Hc50
      by (change 50 with (inject_Z 50); by rewrite <- Zle_Qle).
    rewrite Hq. unfold zone_pos at 1. cbn [zone_x zone_y]. rewrite corner_rounded.
    apply checked_apart; [done | lra | lra | right; lra |].
    rewrite <- Hq.
    pose proof (proj1 (existsb_false _ _) E o Ho) as Hnear.
    unfold near_zone in Hnear. rewrite <- Hnear. unfold zone_pos, centre. cbn [fst snd].
    apply sqrt_lt_comp. unfold dist2, sqr, cell_centre. field.
Qed.

Lemma returns_generateSpeedZones_apart levelNum s :
  (0 <= s)%Z ->
  returns (generateSpeedZones levelNum cols rows cellSize offsetX offsetY) s
    (fun zs => (length zs <= Z.to_nat (numZones levelNum))%nat /\
               Forall (on_corner cols rows cellSize offsetX offsetY) zs /\
               pairwise_apart zone_pos (inject_Z cellSize * 2) zs).
Proof.
  intros Hs. unfold generateSpeedZones.
  destruct (levelNum <? 16)%Z.
  { apply returns_ret; [done |]. split; [cbn; lia |]. split; [done |].
    apply pairwise_apart_nil. }
  eapply returns_weaken.
  - apply (returns_grow _ _
             (fun l z => on_corner cols rows cellSize offsetX offsetY z /\
                         forall o, o ∈ l ->
                           apart (inject_Z cellSize * 2) (zone_pos z) (zone_pos o))
             (fun l => Forall (on_corner cols rows cellSize offsetX offsetY) l /\
                       pairwise_apart zone_pos (inject_Z cellSize * 2) l)).
    + done.
    + split; [done | apply pairwise_apart_nil].
    + intros l s1 Hs1 [Hl _]. by apply returns_zone_attempts_apart.
    + intros l z [Hl Hp] [Hz Ha]. split.
      * apply Forall_app. split; [done | by constructor].
      * by apply pairwise_apart_snoc.
  - by intros zs (Hlen & Hall & Hp).
Qed.
End Zones.

(** [copy_of_wall walls mw]: the moving wall starts as a copy of a wall of
    the level that is more than 30 long, moves across its length, and has
    a range from 30 to 59 and a speed from 20 to 49. *)
Definition copy_of_wall (walls : list Rect) (mw : MovingWall) : Prop :=
  exists w,
    w ∈ walls /\
    Qltb 30 (rect_width w) || Qltb 30 (rect_height w) = true /\
    originalX mw = rect_x w /\ originalY mw = rect_y w /\
    mw_width mw = rect_width w /\ mw_height mw = rect_height w /\
    mw_direction mw
    = (if Qltb (rect_height w) (rect_width w) then "vertical" else "horizontal")%string /\
    (30 <= mw_range mw < 60)%Z /\ (20 <= mw_speed mw < 50)%Z.

Lemma returns_generateMovingWalls_copies levelNum walls s :
  (0 <= s)%Z ->
  returns (generateMovingWalls levelNum walls) s
    (fun ws => (length ws <= Z.to_nat (numMoving levelNum))%nat /\
               Forall (copy_of_wall walls) ws).
Proof.
  intros Hs. unfold generateMovingWalls.
  destruct (levelNum <? 21)%Z; [apply returns_ret; [done | split; [cbn; lia | done]] |].
  cbv zeta.
  destruct (length _ =? 0)%nat; [apply returns_ret; [done | split; [cbn; lia | done]] |].
  eapply returns_bind; [by apply returns_shuffle |].
  intros shuffled s1 Hs1 (_ & Hin & _).
  eapply returns_weaken.
  - apply (returns_for_each _ _
             (fun k acc => length acc = k /\ Forall (copy_of_wall walls) acc) 0%nat);
      [done | done |].
    intros i wall acc s2 Hwall Hs2 [Hacc Hall].
    eapply returns_bind; [apply returns_rand_below; [done | lia] |].
    intros a s3 Hs3 Ha. cbn beta in Ha.
    eapply returns_bind; [apply returns_rand_below; [done | lia] |].
    intros b s4 Hs4 Hb. cbn beta in Hb.
    eapply returns_bind; [by apply returns_rng |].
    intros p s5 Hs5 _.
    apply returns_ret; [done |]. split; [rewrite length_app; cbn in *; lia |].
    apply Forall_app. split; [done |]. constructor; [| done].
    apply lookup_take_Some in Hwall as [Hwall _].
    apply list_elem_of_lookup_2, Hin in Hwall.
    apply list_elem_of_In, filter_In in Hwall as [Hw%list_elem_of_In Hlong].
    exists wall. cbn. repeat split; try done; lia.
  - intros ws [Hws Hall]. cbn in Hws. split; [| done]. rewrite Hws, length_take. lia.
Qed.

Local Open Scope Z_scope.

From Stdlib Require Import Uint63.

(** * The stream reaches enough cells *)

Local Open Scope Z_scope.

(** The steps of the stream on machine integers, to try every seed. *)
Definition lcg63 (s : int) : int :=
  PrimInt63.mod (PrimInt63.add (PrimInt63.mul s 9301) 49297) 233280.

Definition draw63 (n s1 : int) : int := PrimInt63.div (PrimInt63.mul s1 n) 233280.

Definition same_site (p q : int * int) : bool :=
  PrimInt63.eqb p.1 q.1 && PrimInt63.eqb p.2 q.2.

(** Whether the next [n] attempts reach [need] cells that are different and
    not in [acc]. *)
Fixpoint reach63 (n need : nat) (cols rows s : int) (acc : list (int * int)) {struct n}
  : bool :=
  match need, n with
  | O, _ => true
  | S _, O => false
  | S need', S n' =>
      let s1 := lcg63 s in
      let s2 := lcg63 s1 in
      let p := (draw63 cols s1, draw63 rows s2) in
      if existsb (same_site p) acc
      then reach63 n' need cols rows s2 acc
      else reach63 n' need' cols rows s2 (p :: acc)
  end.

Fixpoint all_from (n : nat) (s : int) (P : int -> bool) : bool :=
  match n with
  | O => true
  | S n' => if P s then all_from n' (PrimInt63.add s 1) P else false
  end.

(** The number of seeds *)
Definition seeds : nat := Z.to_nat 233280.

Lemma seeds_value : Z.of_nat seeds = 233280.
Proof. vm_compute. reflexivity. Qed.

(** [covered_grid cols rows K]: from every seed, the next 22 attempts on a
    grid of [cols] by [rows] cells reach [K] different cells. *)
Definition covered_grid (cols rows : Z) (K : nat) : Prop :=
  all_from seeds 0%uint63
    (fun s => reach63 22 K (Uint63.of_Z cols) (Uint63.of_Z rows) s []) = true.

Lemma covered_3_5 : covered_grid 3 5 6.
Proof. vm_compute. reflexivity. Qed.
Lemma covered_4_6 : covered_grid 4 6 8.
Proof. vm_compute. reflexivity. Qed.
Lemma covered_5_7 : covered_grid 5 7 9.
Proof. vm_compute. reflexivity. Qed.
Lemma covered_5_8 : covered_grid 5 8 10.
Proof. vm_compute. reflexivity. Qed.
Lemma covered_6_8 : covered_grid 6 8 10.
Proof. vm_compute. reflexivity. Qed.
Lemma covered_6_9 : covered_grid 6 9 11.
Proof. vm_compute. reflexivity. Qed.
Lemma covered_7_10 : covered_grid 7 10 12.
Proof. vm_compute. reflexivity. Qed.
Lemma covered_8_11 : covered_grid 8 11 12.
Proof. vm_compute. reflexivity. Qed.

Lemma wB_value : wB = 9223372036854775808.
Proof. reflexivity. Qed.

Lemma lcg63_spec (s : int) :
  0 <= to_Z s < 233280 -> to_Z (lcg63 s) = lcg (to_Z s).
Proof.
  intros Hs. unfold lcg63, lcg.
  rewrite Z.rem_mod_nonneg by lia.
  rewrite Uint63.mod_spec, Uint63.add_spec, Uint63.mul_spec, wB_value.
  change (to_Z 9301) with 9301. change (to_Z 49297) with 49297.
  change (to_Z 233280) with 233280.
  rewrite (Z.mod_small (to_Z s * 9301)) by lia.
  rewrite (Z.mod_small (to_Z s * 9301 + 49297)) by lia. done.
Qed.

Lemma draw63_spec (n s1 : int) :
  0 <= to_Z s1 < 233280 -> 0 <= to_Z n <= 1000 ->
  to_Z (draw63 n s1) = to_Z s1 * to_Z n / 233280.
Proof.
  intros Hs Hn. unfold draw63.
  rewrite Uint63.div_spec, Uint63.mul_spec, wB_value.
  change (to_Z 233280) with 233280.
  rewrite Z.mod_small by nia. done.
Qed.

Definition to_site (p : int * int) : Z * Z := (to_Z p.1, to_Z p.2).

Lemma to_site_inj p q : to_site p = to_site q -> p = q.
Proof.
  destruct p, q. unfold to_site. cbn. intros [= H1 H2].
  f_equal; by apply Uint63.to_Z_inj.
Qed.

Lemma same_site_spec p acc : existsb (same_site p) acc = true <-> p ∈ acc.
Proof.
  rewrite existsb_exists. split.
  - intros (q & Hq & Hsame). apply andb_prop in Hsame as [H1 H2].
    apply Uint63.eqb_spec in H1, H2. destruct p, q; cbn in *; subst. by apply list_elem_of_In.
  - intros Hp. exists p. split; [by apply list_elem_of_In |].
    unfold same_site. apply andb_true_intro. split; by apply Uint63.eqb_spec.
Qed.

Lemma lcg_mod s : 0 <= s -> lcg (s mod 233280) = lcg s.
Proof.
  intros Hs. unfold lcg.
  assert (0 <= s mod 233280 < 233280) by (apply Z.mod_pos_bound; lia).
  rewrite !Z.rem_mod_nonneg by lia.
  rewrite <- (Z.add_mod_idemp_l (s * 9301)) by lia.
  rewrite <- (Z.mul_mod_idemp_l s) by lia.
  rewrite Z.add_mod_idemp_l by lia. done.
Qed.

Section Reach.
Variables cols rows : int.
Hypothesis Hcols : 0 <= to_Z cols <= 1000.
Hypothesis Hrows : 0 <= to_Z rows <= 1000.

Abbreviation stream := (site_stream (to_Z cols) (to_Z rows)).

Lemma reach63_spec (n : nat) : forall need s acc,
  0 <= to_Z s < 233280 ->
  reach63 n need cols rows s acc = true ->
  NoDup acc ->
  exists new : list (int * int),
    length new = need /\ NoDup (new ++ acc) /\
    forall p, p ∈ new -> to_site p ∈ stream n (to_Z s).
Proof.
  induction n as [| n IH]; intros need s acc Hs Hreach Hnd.
  - destruct need; [| done]. exists []. split; [done |]. split; [done |].
    intros p Hp. by apply elem_of_nil in Hp.
  - destruct need as [| need].
    { exists []. split; [done |]. split; [done |]. intros p Hp. by apply elem_of_nil in Hp. }
    cbn [reach63] in Hreach. cbv zeta in Hreach.
    pose proof (lcg63_spec s Hs) as E1.
    pose proof (lcg_range (to_Z s) ltac:(lia)) as R1. unfold modulus in R1.
    rewrite <- E1 in R1.
    pose proof (lcg63_spec (lcg63 s) R1) as E2.
    pose proof (lcg_range (to_Z (lcg63 s)) ltac:(lia)) as R2. unfold modulus in R2.
    rewrite <- E2 in R2.
    set (p := (draw63 cols (lcg63 s), draw63 rows (lcg63 (lcg63 s)))) in *.
    assert (to_site p = next_site (to_Z cols) (to_Z rows) (to_Z s)) as Hp.
    { unfold to_site, next_site, draw, p. cbn [fst snd].
      rewrite !draw63_spec by done. by rewrite E2, E1. }
    assert (forall k q, to_site q ∈ stream k (to_Z (lcg63 (lcg63 s))) ->
                        to_site q ∈ stream (S k) (to_Z s)) as Hnext.
    { intros k q Hq. cbn [site_stream]. right. by rewrite <- E1, <- E2. }
    destruct (existsb (same_site p) acc) eqn:Ein.
    + destruct (IH (S need) _ acc R2 Hreach Hnd) as (new & Hlen & Hnd' & Hin).
      exists new. split; [done |]. split; [done |]. intros q Hq. by apply Hnext, Hin.
    + assert (p ∉ acc) as Hp_acc.
      { intros H. apply same_site_spec in H. congruence. }
      destruct (IH need _ (p :: acc) R2 Hreach) as (new & Hlen & Hnd' & Hin).
      { by constructor. }
      exists (new ++ [p]). split; [rewrite length_app; cbn; lia |].
      split; [by rewrite <- app_assoc |].
      intros q [Hq | ->%list_elem_of_singleton]%elem_of_app.
      * by apply Hnext, Hin.
      * rewrite Hp. cbn [site_stream]. by left.
Qed.
End Reach.

Lemma all_from_spec (P : int -> bool) (n : nat) : forall s,
  all_from n s P = true -> to_Z s + Z.of_nat n <= 1000000 ->
  forall z, to_Z s <= z < to_Z s + Z.of_nat n -> P (of_Z z) = true.
Proof.
  induction n as [| n IH]; intros s Hall Hbound z Hz; [lia |].
  cbn [all_from] in Hall. destruct (P s) eqn:HP; [| done].
  destruct (Z.eq_dec z (to_Z s)) as [-> | Hne]; [by rewrite Uint63.of_to_Z |].
  pose proof (Uint63.to_Z_bounded s).
  assert (to_Z (PrimInt63.add s 1) = to_Z s + 1) as E.
  { rewrite Uint63.add_spec, wB_value. change (to_Z 1) with 1. rewrite Z.mod_small; lia. }
  apply (IH _ Hall); lia.
Qed.

Lemma site_stream_mod cols rows n s :
  0 <= s -> site_stream cols rows n (s mod 233280) = site_stream cols rows n s.
Proof.
  intros Hs. destruct n as [| n]; [done |]. cbn [site_stream].
  unfold next_site, draw. by rewrite !lcg_mod.
Qed.

Lemma to_Z_of_Z z : 0 <= z <= 1000000 -> to_Z (of_Z z) = z.
Proof. intros Hz. rewrite Uint63.of_Z_spec, wB_value. apply Z.mod_small. lia. Qed.

Lemma grid_reached cols rows K s :
  covered_grid cols rows K -> 0 <= cols <= 1000 -> 0 <= rows <= 1000 -> 0 <= s ->
  exists new : list (Z * Z),
    length new = K /\ NoDup new /\ forall p, p ∈ new -> p ∈ site_stream cols rows 22 s.
Proof.
  intros Hall Hc Hr Hs. unfold covered_grid in Hall.
  assert (0 <= s mod 233280 < 233280) as Hm by (apply Z.mod_pos_bound; lia).
  pose proof seeds_value as Hseeds.
  pose proof (all_from_spec _ seeds 0%uint63 Hall) as Hcov.
  change (to_Z 0) with 0 in Hcov. rewrite Hseeds in Hcov.
  specialize (Hcov ltac:(lia) (s mod 233280) ltac:(lia)). cbv beta in Hcov.
  pose proof (to_Z_of_Z cols ltac:(lia)) as Ec.
  pose proof (to_Z_of_Z rows ltac:(lia)) as Er.
  pose proof (to_Z_of_Z (s mod 233280) ltac:(lia)) as Es.
  destruct (reach63_spec (of_Z cols) (of_Z rows)) with (n := 22%nat) (need := K)
    (s := of_Z (s mod 233280)) (acc := @nil (int * int))
    as (new & Hlen & Hnd & Hstream).
  - rewrite Ec. lia.
  - rewrite Er. lia.
  - rewrite Es. lia.
  - exact Hcov.
  - constructor.
  - rewrite Ec, Er, Es, site_stream_mod in Hstream by done.
    rewrite app_nil_r in Hnd.
    exists (map to_site new). split; [by rewrite length_map |]. split.
    + apply NoDup_fmap_2; [intros p q; apply to_site_inj | done].
    + intros p Hp. apply list_elem_of_fmap in Hp as (q & -> & Hq). by apply Hstream.
Qed.

(** Among the cells of any 22 attempts in a row there is then one that is
    not in a given list of fewer than [K] cells. *)
Lemma grid_covered cols rows K s (E : list (Z * Z)) :
  covered_grid cols rows K -> 0 <= cols <= 1000 -> 0 <= rows <= 1000 ->
  0 <= s -> (length E < K)%nat ->
  exists p, p ∈ site_stream cols rows 22 s /\ p ∉ E.
Proof.
  intros Hcov Hc Hr Hs HE.
  destruct (grid_reached _ _ _ _ Hcov Hc Hr Hs) as (new & Hlen & Hnd & Hstream).
  destruct (decide (Forall (fun p => p ∈ E) new)) as [Hall' | Hex].
  - exfalso. rewrite Forall_forall in Hall'.
    pose proof (submseteq_length _ _ (NoDup_submseteq _ _ Hnd Hall')) as Hle. lia.
  - apply not_Forall_Exists in Hex; [| intros x; apply _].
    apply Exists_exists in Hex as (p & Hp & Hout).
    exists p. split; [by apply Hstream | done].
Qed.

(** * [generateLevel] returns, and where it puts things *)

Lemma numCoins_bound levelNum (hi q : Z) :
  1 <= levelNum <= hi -> hi < 12 * (q + 1) -> 0 <= q <= 7 ->
  (numCoins_of levelNum + 2 <= Z.to_nat (q + 5))%nat.
Proof.
  intros Hn Hhi Hq. unfold numCoins_of.
  assert (0 <= levelNum / 12) by (apply Z.div_pos; lia).
  assert (levelNum / 12 < q + 1) by (apply Z.div_lt_upper_bound; lia).
  lia.
Qed.

(** Every level's grid is one that the stream covers well enough for the
    number of coins of the level. *)
Lemma level_covered levelNum :
  1 <= levelNum ->
  exists K,
    covered_grid (cols_of (getDifficulty levelNum)) (rows_of (getDifficulty levelNum)) K /\
    (numCoins_of levelNum + 2 <= K)%nat.
Proof.
  intros Hn. unfold getDifficulty.
  destruct (Z.leb_spec levelNum 5).
  { exists 6%nat. split; [exact covered_3_5 |]. apply (numCoins_bound _ 5 1); lia. }
  destruct (Z.leb_spec levelNum 10).
  { exists 6%nat. split; [exact covered_3_5 |]. apply (numCoins_bound _ 10 1); lia. }
  destruct (Z.leb_spec levelNum 20).
  { exists 6%nat. split; [exact covered_3_5 |]. apply (numCoins_bound _ 20 1); lia. }
  destruct (Z.leb_spec levelNum 30).
  { exists 8%nat. split; [exact covered_4_6 |]. apply (numCoins_bound _ 30 3); lia. }
  destruct (Z.leb_spec levelNum 40).
  { exists 8%nat. split; [exact covered_4_6 |]. apply (numCoins_bound _ 40 3); lia. }
  destruct (Z.leb_spec levelNum 50).
  { exists 9%nat. split; [exact covered_5_7 |]. apply (numCoins_bound _ 50 4); lia. }
  destruct (Z.leb_spec levelNum 60).
  { exists 10%nat. split; [exact covered_5_8 |]. apply (numCoins_bound _ 60 5); lia. }
  destruct (Z.leb_spec levelNum 70).
  { exists 10%nat. split; [exact covered_6_8 |]. apply (numCoins_bound _ 70 5); lia. }
  destruct (Z.leb_spec levelNum 80).
  { exists 11%nat. split; [exact covered_6_9 |]. apply (numCoins_bound _ 80 6); lia. }
  destruct (Z.leb_spec levelNum 90).
  { exists 12%nat. split; [exact covered_7_10 |]. apply (numCoins_bound _ 90 7); lia. }
  exists 12%nat. split; [exact covered_8_11 |]. unfold numCoins_of. lia.
Qed.

Lemma cellSize_large d : 50 <= cellSize_of d.
Proof. unfold cellSize_of. lia. Qed.

Section Level.
Variable levelNum : Z.

Definition level_cols : Z := cols_of (getDifficulty levelNum).
Definition level_rows : Z := rows_of (getDifficulty levelNum).
Definition level_cellSize : Z := cellSize_of (getDifficulty levelNum).
Definition level_offsetX : Q :=
  ((inject_Z (width_of (getDifficulty levelNum))
    - inject_Z level_cols * inject_Z level_cellSize) / 2)%Q.
Definition level_offsetY : Q :=
  ((inject_Z (height_of (getDifficulty levelNum))
    - inject_Z level_rows * inject_Z level_cellSize) / 2)%Q.
Definition level_start : Point :=
  {| pt_x := cell_centre level_offsetX 0 level_cellSize;
     pt_y := cell_centre level_offsetY (level_rows - 1) level_cellSize |}.

Definition level_goal : Goal :=
  {| goal_x := cell_centre level_offsetX (level_cols - 1) level_cellSize;
     goal_y := cell_centre level_offsetY 0 level_cellSize;
     goal_radius := Z.max 14 (22 - levelNum / 25) |}.

(** What [generateLevel] returns: the numbers of entries, and where they
    are. *)
Record well_generated (m : MazeDefinition) : Prop := {
  wg_start : start m = level_start;
  wg_goal : goal m = level_goal;
  wg_holes_count : (length (holes_of m) <= Z.to_nat (holes (getDifficulty levelNum)))%nat;
  wg_holes : holes_placed level_cellSize level_start level_goal (holes_of m);
  wg_coins_count : length (coins m) = numCoins_of levelNum;
  wg_coins :
    exists sites,
      coins_on level_cols level_rows level_cellSize level_offsetX level_offsetY
        sites (coins m);
  wg_lives_count : (length (extraLives m) <= 1)%nat;
  wg_lives :
    Forall (fun life => far_from level_start (inject_Z level_cellSize * 1.5) (coin_pos life))
      (extraLives m);
  wg_powerups_count : (length (powerups m) <= Z.to_nat (numPowerups levelNum))%nat;
  wg_powerups :
    placed level_cellSize level_offsetX level_offsetY level_start powerup_pos
      (inject_Z level_cellSize * 1.5) (powerups m);
  wg_pads_count : (length (bouncePads m) <= Z.to_nat (numPads levelNum))%nat;
  wg_pads :
    placed level_cellSize level_offsetX level_offsetY level_start pad_pos
      (inject_Z level_cellSize * 2) (bouncePads m);
  wg_zones_count : (length (speedZones m) <= Z.to_nat (numZones levelNum))%nat;
  wg_moving_count : (length (movingWalls m) <= Z.to_nat (numMoving levelNum))%nat;
  wg_powerups_early : levelNum < 6 -> powerups m = [];
  wg_pads_early : levelNum < 11 -> bouncePads m = [];
  wg_zones_early : levelNum < 16 -> speedZones m = [];
  wg_moving_early : levelNum < 21 -> movingWalls m = [];
  wg_size :
    width m = width_of (getDifficulty levelNum) /\
    height m = height_of (getDifficulty levelNum);
  wg_ballRadius : ballRadius m = Z.max 6 (12 - levelNum / 20);
  wg_zones :
    Forall (on_corner level_cols level_rows level_cellSize level_offsetX level_offsetY)
      (speedZones m) /\
    pairwise_apart zone_pos (inject_Z level_cellSize * 2) (speedZones m);
  wg_moving : Forall (copy_of_wall (walls_of m)) (movingWalls m) }.

Hypothesis Hlevel : 1 <= levelNum.

Lemma generateLevel_total fuel s :
  (220 <= fuel)%nat ->
  exists m s', generateLevel fuel levelNum s = Done m s' /\ well_generated m.
Proof.
  intros Hfuel.
  pose proof (grid_size levelNum) as [Hc Hr].
  pose proof (cellSize_large (getDifficulty levelNum)) as Hcs.
  destruct (level_covered levelNum Hlevel) as (K & Hcov & HK).
  unfold generateLevel.
  erewrite bind_run by reflexivity. cbv zeta.
  fold level_cols level_rows level_cellSize.
  fold level_offsetX level_offsetY. fold level_start.
  unfold level_cols, level_rows in Hc, Hr, Hcov. fold level_cols in Hc, Hcov.
  fold level_rows in Hr, Hcov. fold level_cellSize in Hcs.
  fold level_goal. set (goal0 := level_goal).
  destruct (generateMazeGrid_spec fuel level_cols level_rows (levelNum * 7919))
    as (g1 & t1 & maze & s1 & _ & _ & Hmaze & Hs1 & Hwf & _); try lia.
  { nia. }
  erewrite bind_run by exact Hmaze.
  destruct (returns_mazeToWalls level_cols level_rows level_cellSize ltac:(lia) ltac:(lia)
              maze (width_of (getDifficulty levelNum)) (height_of (getDifficulty levelNum))
              s1 Hs1 Hwf) as (walls & s2 & Hwalls & Hs2 & _).
  erewrite bind_run by exact Hwalls.
  destruct (returns_generateHoles level_cols level_rows level_cellSize level_offsetX
              level_offsetY level_start goal0 ltac:(lia) ltac:(lia)
              (getDifficulty levelNum) s2 Hs2) as (holes0 & s3 & Hholes & Hs3 & Hhc & Hhp).
  erewrite bind_run by exact Hholes.
  destruct (returns_generateCoins level_cols level_rows level_cellSize level_offsetX
              level_offsetY level_start goal0 Hcs eq_refl (conj eq_refl eq_refl)
              (numCoins_of levelNum)) with (levelNum := levelNum) (maze := maze)
              (fuel := fuel) (s := s3)
    as (coins0 & s4 & Hcoins & Hs4 & sites & Hon & Hcc); try done.
  { intros t E Ht HE. unfold Site in *. apply (grid_covered _ _ K); try done; lia. }
  { unfold numCoins_of. lia. }
  erewrite bind_run by exact Hcoins.
  destruct (returns_generateExtraLives level_cols level_rows level_cellSize level_offsetX
              level_offsetY level_start goal0 Hcs eq_refl levelNum maze coins0 holes0 s4 Hs4 Hwf)
    as (lives & s5 & Hlives & Hs5 & Hlc & Hlp).
  erewrite bind_run by exact Hlives.
  destruct (returns_generatePowerups level_cols level_rows level_cellSize level_offsetX
              level_offsetY level_start goal0 Hcs ltac:(lia) ltac:(lia) eq_refl
              levelNum holes0 s5 Hs5) as (pus & s6 & Hpus & Hs6 & Hpc & Hpp).
  erewrite bind_run by exact Hpus.
  destruct (returns_generateBouncePads level_cols level_rows level_cellSize level_offsetX
              level_offsetY level_start goal0 Hcs ltac:(lia) ltac:(lia) eq_refl
              levelNum holes0 s6 Hs6) as (pads & s7 & Hpads & Hs7 & Hbc & Hbp).
  erewrite bind_run by exact Hpads.
  destruct (returns_generateSpeedZones_apart level_cols level_rows level_cellSize level_offsetX
              level_offsetY Hcs ltac:(lia) ltac:(lia) levelNum s7 Hs7)
    as (zones & s8 & Hzones & Hs8 & Hzc & Hzp).
  erewrite bind_run by exact Hzones.
  destruct (returns_generateMovingWalls_copies levelNum walls s8 Hs8)
    as (mws & s9 & Hmws & Hs9 & Hmc & Hmw).
  erewrite bind_run by exact Hmws.
  assert (levelNum < 6 -> pus = []) as Hpe.
  { intros H6. unfold generatePowerups in Hpus.
    destruct (Z.ltb_spec levelNum 6); [| lia]. by inversion Hpus. }
  assert (levelNum < 11 -> pads = []) as Hbe.
  { intros H11. unfold generateBouncePads in Hpads.
    destruct (Z.ltb_spec levelNum 11); [| lia]. by inversion Hpads. }
  assert (levelNum < 16 -> zones = []) as Hze.
  { intros H16. unfold generateSpeedZones in Hzones.
    destruct (Z.ltb_spec levelNum 16); [| lia]. by inversion Hzones. }
  assert (levelNum < 21 -> mws = []) as Hme.
  { intros H21. unfold generateMovingWalls in Hmws.
    destruct (Z.ltb_spec levelNum 21); [| lia]. by inversion Hmws. }
  eexists _, _. split; [reflexivity |].
  split;
    cbn [start goal holes_of coins extraLives powerups bouncePads speedZones movingWalls
         width height ballRadius walls_of];
    try done.
  - by exists sites.
  - eapply Forall_impl; [exact Hlp |]. by intros life [_ H].
Qed.

(** Any returning call returned what the call with enough rounds returns. *)
Lemma generateLevel_well fuel s m s' :
  generateLevel fuel levelNum s = Done m s' -> well_generated m.
Proof.
  intros Hgen.
  destruct (generateLevel_total (Nat.max fuel 220) s ltac:(lia)) as (m0 & s0 & Hgen0 & Hwell).
  pose proof (generateLevel_mono fuel (Nat.max fuel 220) levelNum s ltac:(lia)) as Hle.
  pose proof (le_out_Done _ _ _ _ Hle Hgen) as E. rewrite Hgen0 in E.
  by inversion E; subst.
Qed.

End Level.

(** * The random stream *)

(** X11.  From a seed that is not negative, and the seed of a level from 1
    on is none, [rng()] returns a number from 0 up to, but not including,
    1 and leaves a seed from 0 to 233279; so [Math.floor(rng() * n)] is an
    index from 0 to [n - 1], for every length [n] above zero. *)
Theorem rng_stays_in_range (s : Z) :
  0 <= s ->
  exists x s',
    rng s = Done x s' /\
    (0 <= x < 1)%Q /\
    0 <= s' < 233280 /\
    forall n, 0 < n -> exists i, rand_below n s = Done i s' /\ 0 <= i < n.
Proof.
  intros Hs. pose proof (lcg_range s Hs) as Hr. unfold modulus in Hr.
  exists (lcg s # 233280)%Q, (lcg s). split; [reflexivity |].
  split; [| split; [done |]].
  - unfold Qle, Qlt. cbn. lia.
  - intros n Hn. by apply rand_below_spec.
Qed.

Lemma rng_stays_in_range_witness :
  exists x s',
    rng (1 * 7919) = Done x s' /\
    (0 <= x < 1)%Q /\
    0 <= s' < 233280 /\
    forall n, 0 < n -> exists i, rand_below n (1 * 7919) = Done i s' /\ 0 <= i < n.
Proof. apply (rng_stays_in_range (1 * 7919)). lia. Defined.

(** * What the generator guarantees for every level *)

(** X1.  For every level number from 1 on, [generateLevel] returns, as soon as
    its two unbounded loops are given 220 rounds each: no array is read out
    of range, and the loop that tops the coins up, which has no attempt
    budget, stops because any 22 attempts in a row reach enough different
    cells.  The level has exactly [min(3 + floor(levelNum / 12), 10)] coins,
    and no more holes, extra lives, powerups, bounce pads, speed zones and
    moving walls than the numbers asked for. *)
Theorem generateLevel_returns (levelNum : Z) (fuel : nat) (s : Z) :
  1 <= levelNum -> (220 <= fuel)%nat ->
  exists m s',
    generateLevel fuel levelNum s = Done m s' /\
    length (coins m) = numCoins_of levelNum /\
    (length (holes_of m) <= Z.to_nat (holes (getDifficulty levelNum)))%nat /\
    (length (extraLives m) <= 1)%nat /\
    (length (powerups m) <= Z.to_nat (numPowerups levelNum))%nat /\
    (length (bouncePads m) <= Z.to_nat (numPads levelNum))%nat /\
    (length (speedZones m) <= Z.to_nat (numZones levelNum))%nat /\
    (length (movingWalls m) <= Z.to_nat (numMoving levelNum))%nat.
Proof.
  intros Hn Hfuel.
  destruct (generateLevel_total levelNum Hn fuel s Hfuel) as (m & s' & Hgen & Hwell).
  exists m, s'. split; [exact Hgen |].
  destruct Hwell. auto 10.
Qed.

Lemma generateLevel_returns_witness :
  exists m s',
    generateLevel 220 1 0 = Done m s' /\
    length (coins m) = numCoins_of 1 /\
    (length (holes_of m) <= Z.to_nat (holes (getDifficulty 1)))%nat /\
    (length (extraLives m) <= 1)%nat /\
    (length (powerups m) <= Z.to_nat (numPowerups 1))%nat /\
    (length (bouncePads m) <= Z.to_nat (numPads 1))%nat /\
    (length (speedZones m) <= Z.to_nat (numZones 1))%nat /\
    (length (movingWalls m) <= Z.to_nat (numMoving 1))%nat.
Proof. apply (generateLevel_returns 1 220 0); lia. Defined.

(** X2.  The holes of a generated level: none is within 1.5 cell sizes of the
    start or of the goal, and no two are within one cell size of each
    other. *)
Theorem holes_kept_clear (levelNum : Z) (fuel : nat) (s : Z) (m : MazeDefinition) (s' : Z) :
  1 <= levelNum -> generateLevel fuel levelNum s = Done m s' ->
  Forall (fun h =>
            far_from (start m) (inject_Z (level_cellSize levelNum) * 1.5) (hole_pos h) /\
            sqrt_lt (distGoal2 (goal m) (hole_x h) (hole_y h))
                    (inject_Z (level_cellSize levelNum) * 1.5) = false) (holes_of m) /\
  pairwise_apart hole_pos (inject_Z (level_cellSize levelNum)) (holes_of m).
Proof.
  intros Hn Hgen.
  destruct (generateLevel_well levelNum Hn fuel s m s' Hgen)
    as [Hstart Hgoal Hholes_count Hholes Hcoins_count Hcoins Hlives_count Hlives
      Hpowerups_count Hpowerups Hpads_count Hpads Hzones_count Hmoving_count
      Hpowerups_early Hpads_early Hzones_early Hmoving_early Hsize HballRadius
      Hzones Hmoving].
  rewrite Hstart, Hgoal. exact Hholes.
Qed.

Lemma holes_kept_clear_witness :
  exists m s',
    generateLevel 220 25 0 = Done m s' /\
    Forall (fun h =>
              far_from (start m) (inject_Z (level_cellSize 25) * 1.5) (hole_pos h) /\
              sqrt_lt (distGoal2 (goal m) (hole_x h) (hole_y h))
                      (inject_Z (level_cellSize 25) * 1.5) = false) (holes_of m) /\
    pairwise_apart hole_pos (inject_Z (level_cellSize 25)) (holes_of m).
Proof.
  eexists _, _. split; [vm_compute; reflexivity |].
  eapply (holes_kept_clear 25 220 0); [lia | vm_compute; reflexivity].
Defined.

(** X3.  The coins of a generated level lie in different cells, none of them the
    start's or the goal's: each coin is the rounded centre of its cell, any
    two coins are at least one cell size apart, and every coin is at least
    one cell size less a half from the start. *)
Theorem coins_in_separate_cells (levelNum : Z) (fuel : nat) (s : Z) (m : MazeDefinition)
    (s' : Z) :
  1 <= levelNum -> generateLevel fuel levelNum s = Done m s' ->
  (exists sites : list (Z * Z),
     NoDup sites /\
     ((0, level_rows levelNum - 1) ∉ sites) /\ ((level_cols levelNum - 1, 0) ∉ sites) /\
     coins m = map (coin_at (level_cellSize levelNum) (level_offsetX levelNum)
                      (level_offsetY levelNum)) sites) /\
  pairwise_apart coin_pos (inject_Z (level_cellSize levelNum)) (coins m) /\
  Forall (fun coin => far_from (start m) (inject_Z (level_cellSize levelNum) - (1 # 2))
                        (coin_pos coin)) (coins m).
Proof.
  intros Hn Hgen.
  destruct (generateLevel_well levelNum Hn fuel s m s' Hgen)
    as [Hstart Hgoal Hholes_count Hholes Hcoins_count Hcoins Hlives_count Hlives
      Hpowerups_count Hpowerups Hpads_count Hpads Hzones_count Hmoving_count
      Hpowerups_early Hpads_early Hzones_early Hmoving_early Hsize HballRadius
      Hzones Hmoving].
  destruct Hcoins as [sites Hon].
  pose proof (cellSize_large (getDifficulty levelNum)) as Hcs.
  split; [| split].
  - exists sites. destruct Hon. auto.
  - by eapply coins_on_apart.
  - rewrite Hstart. by eapply coins_on_far.
Qed.

Lemma coins_in_separate_cells_witness :
  exists m s',
    generateLevel 220 2 0 = Done m s' /\
    (exists sites : list (Z * Z),
       NoDup sites /\
       ((0, level_rows 2 - 1) ∉ sites) /\ ((level_cols 2 - 1, 0) ∉ sites) /\
       coins m = map (coin_at (level_cellSize 2) (level_offsetX 2) (level_offsetY 2)) sites) /\
    pairwise_apart coin_pos (inject_Z (level_cellSize 2)) (coins m) /\
    Forall (fun coin => far_from (start m) (inject_Z (level_cellSize 2) - (1 # 2))
                          (coin_pos coin)) (coins m).
Proof.
  eexists _, _. split; [vm_compute; reflexivity |].
  eapply (coins_in_separate_cells 2 220 0); [lia | vm_compute; reflexivity].
Defined.

(** X4.  The powerups of a generated level: at most three; each one at least
    1.5 cell sizes from the start, and any two at least 1.5 cell sizes
    apart. *)
Theorem powerups_kept_apart (levelNum : Z) (fuel : nat) (s : Z) (m : MazeDefinition)
    (s' : Z) :
  1 <= levelNum -> generateLevel fuel levelNum s = Done m s' ->
  (length (powerups m) <= 3)%nat /\
  Forall (fun p => far_from (start m) (inject_Z (level_cellSize levelNum) * 1.5)
                     (powerup_pos p)) (powerups m) /\
  pairwise_apart powerup_pos (inject_Z (level_cellSize levelNum) * 1.5) (powerups m).
Proof.
  intros Hn Hgen.
  destruct (generateLevel_well levelNum Hn fuel s m s' Hgen)
    as [Hstart Hgoal Hholes_count Hholes Hcoins_count Hcoins Hlives_count Hlives
      Hpowerups_count Hpowerups Hpads_count Hpads Hzones_count Hmoving_count
      Hpowerups_early Hpads_early Hzones_early Hmoving_early Hsize HballRadius
      Hzones Hmoving].
  destruct Hpowerups as (_ & Hfar & Hpair). rewrite Hstart.
  assert (numPowerups levelNum <= 3) as H3 by (unfold numPowerups; lia).
  split; [lia | done].
Qed.

Lemma powerups_kept_apart_witness :
  exists m s',
    generateLevel 220 40 0 = Done m s' /\
    (length (powerups m) <= 3)%nat /\
    Forall (fun p => far_from (start m) (inject_Z (level_cellSize 40) * 1.5)
                       (powerup_pos p)) (powerups m) /\
    pairwise_apart powerup_pos (inject_Z (level_cellSize 40) * 1.5) (powerups m).
Proof.
  eexists _, _. split; [vm_compute; reflexivity |].
  eapply (powerups_kept_apart 40 220 0); [lia | vm_compute; reflexivity].
Defined.

(** X5.  The bounce pads of a generated level: at most four; each one at least
    1.5 cell sizes from the start, and any two at least two cell sizes
    apart. *)
Theorem bouncePads_kept_apart (levelNum : Z) (fuel : nat) (s : Z) (m : MazeDefinition)
    (s' : Z) :
  1 <= levelNum -> generateLevel fuel levelNum s = Done m s' ->
  (length (bouncePads m) <= 4)%nat /\
  Forall (fun p => far_from (start m) (inject_Z (level_cellSize levelNum) * 1.5)
                     (pad_pos p)) (bouncePads m) /\
  pairwise_apart pad_pos (inject_Z (level_cellSize levelNum) * 2) (bouncePads m).
Proof.
  intros Hn Hgen.
  destruct (generateLevel_well levelNum Hn fuel s m s' Hgen)
    as [Hstart Hgoal Hholes_count Hholes Hcoins_count Hcoins Hlives_count Hlives
      Hpowerups_count Hpowerups Hpads_count Hpads Hzones_count Hmoving_count
      Hpowerups_early Hpads_early Hzones_early Hmoving_early Hsize HballRadius
      Hzones Hmoving].
  destruct Hpads as (_ & Hfar & Hpair). rewrite Hstart.
  assert (numPads levelNum <= 4) as H4 by (unfold numPads; lia).
  split; [lia | done].
Qed.

Lemma bouncePads_kept_apart_witness :
  exists m s',
    generateLevel 220 60 0 = Done m s' /\
    (length (bouncePads m) <= 4)%nat /\
    Forall (fun p => far_from (start m) (inject_Z (level_cellSize 60) * 1.5)
                       (pad_pos p)) (bouncePads m) /\
    pairwise_apart pad_pos (inject_Z (level_cellSize 60) * 2) (bouncePads m).
Proof.
  eexists _, _. split; [vm_compute; reflexivity |].
  eapply (bouncePads_kept_apart 60 220 0); [lia | vm_compute; reflexivity].
Defined.

(** X6.  A generated level has at most one extra life, and it lies at least 1.5
    cell sizes from the start. *)
Theorem extraLife_kept_clear (levelNum : Z) (fuel : nat) (s : Z) (m : MazeDefinition)
    (s' : Z) :
  1 <= levelNum -> generateLevel fuel levelNum s = Done m s' ->
  (length (extraLives m) <= 1)%nat /\
  Forall (fun life => far_from (start m) (inject_Z (level_cellSize levelNum) * 1.5)
                        (coin_pos life)) (extraLives m).
Proof.
  intros Hn Hgen.
  destruct (generateLevel_well levelNum Hn fuel s m s' Hgen)
    as [Hstart Hgoal Hholes_count Hholes Hcoins_count Hcoins Hlives_count Hlives
      Hpowerups_count Hpowerups Hpads_count Hpads Hzones_count Hmoving_count
      Hpowerups_early Hpads_early Hzones_early Hmoving_early Hsize HballRadius
      Hzones Hmoving].
  rewrite Hstart. done.
Qed.

Lemma extraLife_kept_clear_witness :
  exists m s',
    generateLevel 220 84 0 = Done m s' /\
    extraLives m = [{| coin_x := 69; coin_y := 66 |}] /\
    (length (extraLives m) <= 1)%nat /\
    Forall (fun life => far_from (start m) (inject_Z (level_cellSize 84) * 1.5)
                          (coin_pos life)) (extraLives m).
Proof.
  eexists _, _. split; [vm_compute; reflexivity |].
  split; [vm_compute; reflexivity |].
  eapply (extraLife_kept_clear 84 220 0); [lia | vm_compute; reflexivity].
Defined.

(** X9.  The later features come in by level: a generated level has no powerup
    before level 6, no bounce pad before level 11, no speed zone before
    level 16 and no moving wall before level 21. *)
Theorem features_come_by_level (levelNum : Z) (fuel : nat) (s : Z) (m : MazeDefinition)
    (s' : Z) :
  1 <= levelNum -> generateLevel fuel levelNum s = Done m s' ->
  (levelNum < 6 -> powerups m = []) /\
  (levelNum < 11 -> bouncePads m = []) /\
  (levelNum < 16 -> speedZones m = []) /\
  (levelNum < 21 -> movingWalls m = []).
Proof.
  intros Hn Hgen.
  destruct (generateLevel_well levelNum Hn fuel s m s' Hgen)
    as [Hstart Hgoal Hholes_count Hholes Hcoins_count Hcoins Hlives_count Hlives
      Hpowerups_count Hpowerups Hpads_count Hpads Hzones_count Hmoving_count
      Hpowerups_early Hpads_early Hzones_early Hmoving_early Hsize HballRadius
      Hzones Hmoving]. auto.
Qed.

Lemma features_come_by_level_witness :
  exists m s',
    generateLevel 220 5 0 = Done m s' /\
    (5 < 6 -> powerups m = []) /\
    (5 < 11 -> bouncePads m = []) /\
    (5 < 16 -> speedZones m = []) /\
    (5 < 21 -> movingWalls m = []).
Proof.
  eexists _, _. split; [vm_compute; reflexivity |].
  eapply (features_come_by_level 5 220 0); [lia | vm_compute; reflexivity].
Defined.

(** X7.  The speed zones of a generated level: at most three; each one is a
    square of one cell size on the top-left corner of a cell that is not in
    the last column or row, and any two are at least two cell sizes apart,
    so that no two zones overlap. *)
Theorem speedZones_kept_apart (levelNum : Z) (fuel : nat) (s : Z) (m : MazeDefinition)
    (s' : Z) :
  1 <= levelNum -> generateLevel fuel levelNum s = Done m s' ->
  (length (speedZones m) <= 3)%nat /\
  Forall (on_corner (level_cols levelNum) (level_rows levelNum) (level_cellSize levelNum)
            (level_offsetX levelNum) (level_offsetY levelNum)) (speedZones m) /\
  pairwise_apart zone_pos (inject_Z (level_cellSize levelNum) * 2) (speedZones m).
Proof.
  intros Hn Hgen.
  destruct (generateLevel_well levelNum Hn fuel s m s' Hgen)
    as [Hstart Hgoal Hholes_count Hholes Hcoins_count Hcoins Hlives_count Hlives
      Hpowerups_count Hpowerups Hpads_count Hpads Hzones_count Hmoving_count
      Hpowerups_early Hpads_early Hzones_early Hmoving_early Hsize HballRadius
      Hzones Hmoving].
  assert (numZones levelNum <= 3) as H3 by (unfold numZones; lia).
  split; [lia | exact Hzones].
Qed.

Lemma speedZones_kept_apart_witness :
  exists m s',
    generateLevel 220 70 0 = Done m s' /\
    (length (speedZones m) <= 3)%nat /\
    Forall (on_corner (level_cols 70) (level_rows 70) (level_cellSize 70)
              (level_offsetX 70) (level_offsetY 70)) (speedZones m) /\
    pairwise_apart zone_pos (inject_Z (level_cellSize 70) * 2) (speedZones m).
Proof.
  eexists _, _. split; [vm_compute; reflexivity |].
  eapply (speedZones_kept_apart 70 220 0); [lia | vm_compute; reflexivity].
Defined.

(** X8.  The moving walls of a generated level: at most three, and each one
    starts as a copy of a wall of the level that is more than 30 long; the
    wall itself stays in the level's wall list.  A wall wider than high
    moves up and down, any other one left and right; the range is from 30
    to 59 and the speed from 20 to 49. *)
Theorem movingWalls_copy_walls (levelNum : Z) (fuel : nat) (s : Z) (m : MazeDefinition)
    (s' : Z) :
  1 <= levelNum -> generateLevel fuel levelNum s = Done m s' ->
  (length (movingWalls m) <= 3)%nat /\
  Forall (copy_of_wall (walls_of m)) (movingWalls m).
Proof.
  intros Hn Hgen.
  destruct (generateLevel_well levelNum Hn fuel s m s' Hgen)
    as [Hstart Hgoal Hholes_count Hholes Hcoins_count Hcoins Hlives_count Hlives
      Hpowerups_count Hpowerups Hpads_count Hpads Hzones_count Hmoving_count
      Hpowerups_early Hpads_early Hzones_early Hmoving_early Hsize HballRadius
      Hzones Hmoving].
  assert (numMoving levelNum <= 3) as H3 by (unfold numMoving; lia).
  split; [lia | exact Hmoving].
Qed.

Lemma movingWalls_copy_walls_witness :
  exists m s',
    generateLevel 220 70 0 = Done m s' /\
    (length (movingWalls m) <= 3)%nat /\
    Forall (copy_of_wall (walls_of m)) (movingWalls m).
Proof.
  eexists _, _. split; [vm_compute; reflexivity |].
  eapply (movingWalls_copy_walls 70 220 0); [lia | vm_compute; reflexivity].
Defined.

(** X10.  Every generated level fits its canvas: the grid of cells keeps a
    margin of 30 or more on every side, so start and goal, the centres of
    the bottom-left and the top-right cell, lie further than 30 and half a
    cell from every edge of the canvas; a cell is 50 to 68 wide, and the
    ball with a wall's thickness of 8 is narrower than a cell. *)
Theorem level_fits_canvas (levelNum : Z) (fuel : nat) (s : Z) (m : MazeDefinition)
    (s' : Z) :
  1 <= levelNum -> generateLevel fuel levelNum s = Done m s' ->
  let cs := inject_Z (level_cellSize levelNum) in
  let w := inject_Z (width m) in
  let h := inject_Z (height m) in
  (50 <= cs <= 68 /\
   30 + cs / 2 <= pt_x (start m) <= w - 30 - cs / 2 /\
   30 + cs / 2 <= pt_y (start m) <= h - 30 - cs / 2 /\
   30 + cs / 2 <= goal_x (goal m) <= w - 30 - cs / 2 /\
   30 + cs / 2 <= goal_y (goal m) <= h - 30 - cs / 2 /\
   pt_x (start m) < goal_x (goal m) /\ goal_y (goal m) < pt_y (start m) /\
   2 * inject_Z (ballRadius m) + 8 < cs)%Q.
Proof.
  intros Hn Hgen.
  destruct (generateLevel_well levelNum Hn fuel s m s' Hgen)
    as [Hstart Hgoal Hholes_count Hholes Hcoins_count Hcoins Hlives_count Hlives
      Hpowerups_count Hpowerups Hpads_count Hpads Hzones_count Hmoving_count
      Hpowerups_early Hpads_early Hzones_early Hmoving_early Hsize HballRadius
      Hzones Hmoving].
  destruct Hsize as [-> ->]. rewrite Hstart, Hgoal, HballRadius. cbv zeta.
  assert (6 <= Z.max 6 (12 - levelNum / 20) <= 12) as Hball.
  { assert (0 <= levelNum / 20) by (apply Z.div_pos; lia). lia. }
  assert (inject_Z 6 <= inject_Z (Z.max 6 (12 - levelNum / 20)) <= inject_Z 12)%Q as [Hb1 Hb2]
    by (split; rewrite <- Zle_Qle; lia).
  revert Hb1 Hb2. generalize (inject_Z (Z.max 6 (12 - levelNum / 20))). intros b Hb1 Hb2.
  unfold level_start, level_goal, level_offsetX, level_offsetY, level_cols, level_rows,
    level_cellSize, cell_centre, getDifficulty.
  cbn [pt_x pt_y goal_x goal_y].
  repeat case_match.
  all: match goal with |- context [cellSize_of ?d] =>
         let v := eval vm_compute in (cellSize_of d) in change (cellSize_of d) with v;
         let v := eval vm_compute in (cols_of d) in change (cols_of d) with v;
         let v := eval vm_compute in (rows_of d) in change (rows_of d) with v;
         let v := eval vm_compute in (width_of d) in change (width_of d) with v;
         let v := eval vm_compute in (height_of d) in change (height_of d) with v
       end.
  all: change (inject_Z 6) with 6%Q in Hb1; change (inject_Z 12) with 12%Q in Hb2.
  all: repeat match goal with |- context [inject_Z ?z] =>
         let v := eval vm_compute in (inject_Z z) in change (inject_Z z) with v end.
  all: repeat split; first [lra | by vm_compute].
Qed.

Lemma level_fits_canvas_witness :
  exists m s',
    generateLevel 220 50 0 = Done m s' /\
    let cs := inject_Z (level_cellSize 50) in
    let w := inject_Z (width m) in
    let h := inject_Z (height m) in
    (50 <= cs <= 68 /\
     30 + cs / 2 <= pt_x (start m) <= w - 30 - cs / 2 /\
     30 + cs / 2 <= pt_y (start m) <= h - 30 - cs / 2 /\
     30 + cs / 2 <= goal_x (goal m) <= w - 30 - cs / 2 /\
     30 + cs / 2 <= goal_y (goal m) <= h - 30 - cs / 2 /\
     pt_x (start m) < goal_x (goal m) /\ goal_y (goal m) < pt_y (start m) /\
     2 * inject_Z (ballRadius m) + 8 < cs)%Q.
Proof.
  eexists _, _. split; [vm_compute; reflexivity |].
  eapply (level_fits_canvas 50 220 0); [lia | vm_compute; reflexivity].
Defined.

(** * More on the maze *)

(** ** The shuffle *)

Lemma shuffle_from_permutes {A} (i : nat) : forall (l : list A) s,
  0 <= s -> (i < length l \/ i = 0)%nat ->
  returns (shuffle_from i l) s (fun l' => l' ≡ₚ l).
Proof.
  induction i as [| i IH]; intros l s Hs Hi.
  - by apply returns_ret.
  - cbn [shuffle_from].
    eapply returns_bind; [apply returns_rand_below; [done | lia] |].
    intros j s1 Hs1 Hj. cbn beta in Hj.
    destruct (lookup_lt_is_Some_2 l (S i) ltac:(lia)) as [ai Hai].
    destruct (lookup_lt_is_Some_2 l (Z.to_nat j) ltac:(lia)) as [aj Haj].
    apply (returns_bind _ _ _ (fun l' => l' ≡ₚ l)).
    { exists (<[Z.to_nat j := ai]> (<[S i := aj]> l)), s1.
      split; [unfold swap, bind, defined, ret; by rewrite Hai, Haj |].
      split; [done |]. by apply Permutation_insert_swap. }
    intros l1 s2 Hs2 Hl1.
    eapply returns_weaken.
    + apply IH; [done |]. rewrite (Permutation_length Hl1). lia.
    + intros l2 Hl2. by rewrite Hl2.
Qed.

(** X12.  [shuffle] returns, on every array and from every seed that is not
    negative, and what it returns is a rearrangement of the array: every
    element as often as before. *)
Theorem shuffle_permutes {A : Type} (l : list A) (s : Z) :
  0 <= s ->
  exists l' s', shuffle l s = Done l' s' /\ l' ≡ₚ l.
Proof.
  intros Hs.
  destruct (shuffle_from_permutes (length l - 1) l s Hs ltac:(lia)) as (l' & s' & H & _ & Hp).
  by exists l', s'.
Qed.

Lemma shuffle_permutes_witness :
  exists l' s', shuffle [1; 2; 3; 4; 5] 42 = Done l' s' /\ l' ≡ₚ [1; 2; 3; 4; 5].
Proof. apply (shuffle_permutes [1; 2; 3; 4; 5] 42). lia. Defined.

(** ** The neighbours of a cell *)

(** X13.  On a cell of the grid [getUnvisitedNeighbors] returns, without
    drawing a random number, exactly the cells of the grid that are next to
    the cell, above, right, below or left, and not yet visited, each
    once. *)
Theorem getUnvisitedNeighbors_exact (rows cols : nat) (g : Grid) (r c : nat) (s : Z) :
  wf_grid rows cols g -> in_grid rows cols {| row := r; col := c |} ->
  exists l,
    getUnvisitedNeighbors g r c rows cols s = Done l s /\
    NoDup l /\
    forall q, q ∈ l <->
      in_grid rows cols q /\ adjacent {| row := r; col := c |} q /\ visited_of g q = false.
Proof.
  intros Hwf Hin. exists (neighbors_of rows cols g r c).
  split; [by apply getUnvisitedNeighbors_spec |].
  assert (forall r' c' q, q ∈ unvisited g r' c' <->
            q = {| row := r'; col := c' |} /\ visited_of g q = false) as Hun.
  { intros r' c' q. unfold unvisited. destruct (visited_of g _) eqn:E.
    - rewrite elem_of_nil. split; [done |]. intros [-> H]. congruence.
    - rewrite list_elem_of_singleton. split; [by intros -> |]. by intros [-> _]. }
  assert (forall r' c', NoDup (unvisited g r' c')) as Hnd.
  { intros r' c'. unfold unvisited. destruct (visited_of g _);
      [apply NoDup_nil_2 | apply NoDup_singleton]. }
  split.
  - unfold neighbors_of.
    repeat match goal with
           | |- NoDup (_ ++ _) => apply NoDup_app; split; [| split]
           | |- NoDup (if ?b then _ else _) => destruct b; [apply Hnd | apply NoDup_nil_2]
           | |- NoDup (unvisited _ _ _) => apply Hnd
           end.
    all: intros q Hq1 Hq2; rewrite ?elem_of_app in Hq2.
    all: repeat match goal with
                | H : _ ∈ (if ?b then _ else _) |- _ =>
                    destruct b eqn:?; [apply Hun in H as [? _] | by apply elem_of_nil in H]
                | H : _ \/ _ |- _ => destruct H
                end;
         repeat match goal with H : (_ <? _)%nat = true |- _ => apply Nat.ltb_lt in H end;
         simplify_eq; lia.
  - intros q. split; [by apply elem_of_neighbors_of |].
    intros ([Hqr Hqc] & Hadj & Hv). destruct Hin as [Hr Hc]. cbn in Hr, Hc.
    destruct q as [qr qc]. cbn in Hqr, Hqc. unfold adjacent in Hadj. cbn in Hadj.
    unfold neighbors_of. rewrite !elem_of_app.
    destruct Hadj as [[H1 H2] | [[H1 H2] | [[H1 H2] | [H1 H2]]]].
    + left. destruct (Nat.ltb_spec 0 r); [| lia].
      apply Hun. split; [f_equal; lia | done].
    + do 2 right; left. destruct (Nat.ltb_spec r (rows - 1)); [| lia].
      apply Hun. split; [f_equal; lia | done].
    + right; left. destruct (Nat.ltb_spec c (cols - 1)); [| lia].
      apply Hun. split; [f_equal; lia | done].
    + do 3 right. destruct (Nat.ltb_spec 0 c); [| lia].
      apply Hun. split; [f_equal; lia | done].
Qed.

Lemma getUnvisitedNeighbors_exact_witness :
  exists l,
    getUnvisitedNeighbors (carve_start 1) 4 0 5 3 0 = Done l 0 /\
    NoDup l /\
    forall q, q ∈ l <->
      in_grid 5 3 q /\ adjacent {| row := 4; col := 0 |} q /\
      visited_of (carve_start 1) q = false.
Proof.
  apply (getUnvisitedNeighbors_exact 5 3 (carve_start 1) 4 0 0).
  - split; [reflexivity | repeat constructor].
  - split; cbn; lia.
Defined.

(** ** The two sides of a wall *)

(** [walls_agree g]: the wall between two cells of the grid stands on both
    of its sides or on neither. *)
Definition walls_agree (g : Grid) : Prop :=
  (forall r c cl cr, cell_at g r c = Some cl -> cell_at g r (S c) = Some cr ->
     w_right (walls cl) = w_left (walls cr)) /\
  (forall r c cu cd, cell_at g r c = Some cu -> cell_at g (S r) c = Some cd ->
     w_bottom (walls cu) = w_top (walls cd)).

(** [border_closed rows cols g]: every wall on the outside of the grid
    stands. *)
Definition border_closed (rows cols : nat) (g : Grid) : Prop :=
  forall r c cl, cell_at g r c = Some cl ->
    (r = 0%nat -> w_top (walls cl) = true) /\
    (S r = rows -> w_bottom (walls cl) = true) /\
    (c = 0%nat -> w_left (walls cl) = true) /\
    (S c = cols -> w_right (walls cl) = true).

Definition tidy (rows cols : nat) (g : Grid) : Prop :=
  wf_grid rows cols g /\ walls_agree g /\ border_closed rows cols g.

Lemma cell_at_alter_Some f g r c r' c' cl' :
  cell_at (alter (alter f c) r g) r' c' = Some cl' ->
  exists cl, cell_at g r' c' = Some cl /\
             cl' = if decide (r = r' /\ c = c') then f cl else cl.
Proof.
  rewrite cell_at_alter. destruct (decide _); [| eauto].
  destruct (cell_at g r' c') as [cl |]; [| done]. intros [= <-]. eauto.
Qed.

Lemma update_cell_inv f g r c s g' s' :
  update_cell f g r c s = Done g' s' ->
  s' = s /\ g' = alter (alter f c) r g /\ is_Some (cell_at g r c).
Proof.
  unfold update_cell. destruct (cell_at g r c) as [cl |]; [| done].
  intros [= <- <-]. eauto.
Qed.

Section Tidy.
Variables rows cols : nat.

Ltac tidy_cells :=
  repeat match goal with
         | H : cell_at (alter (alter _ _) _ _) _ _ = Some _ |- _ =>
             apply cell_at_alter_Some in H as (? & H & ->)
         end.

Ltac tidy_cases :=
  repeat match goal with
         | |- context [decide ?P] => destruct (decide P) as [[? ?] | ?]
         end.

(** Marking a cell visited moves no wall. *)
Lemma set_visited_tidy g r c :
  tidy rows cols g -> tidy rows cols (alter (alter set_visited c) r g).
Proof.
  intros (Hwf & [Hh Hv] & Hb). split; [by apply wf_grid_alter |]. split; [split |].
  - intros r' c' cl cr H1 H2. tidy_cells. specialize (Hh _ _ _ _ H1 H2). by tidy_cases.
  - intros r' c' cl cr H1 H2. tidy_cells. specialize (Hv _ _ _ _ H1 H2). by tidy_cases.
  - intros r' c' cl H1. tidy_cells. specialize (Hb _ _ _ H1). by tidy_cases.
Qed.

(** Opening the wall between a cell and the cell right of it, from either
    side first. *)
Lemma open_right_tidy g r c :
  tidy rows cols g -> is_Some (cell_at g r c) -> is_Some (cell_at g r (S c)) ->
  tidy rows cols (alter (alter clear_left (S c)) r (alter (alter clear_right c) r g)) /\
  tidy rows cols (alter (alter clear_right c) r (alter (alter clear_left (S c)) r g)).
Proof.
  intros (Hwf & [Hh Hv] & Hb) [cl0 Hcl0] [cr0 Hcr0].
  pose proof (cell_at_Some_in_grid _ _ _ _ _ _ Hwf Hcr0) as [_ Hin]. cbn in Hin.
  split.
  all: split; [by do 2 apply wf_grid_alter |]; split; [split |].
  all: try (intros r' c' cl cr H1 H2; tidy_cells;
            try specialize (Hh _ _ _ _ H1 H2); try specialize (Hv _ _ _ _ H1 H2);
            tidy_cases; simplify_eq; cbn; try done; try lia).
  all: intros r' c' cl H1; tidy_cells; specialize (Hb _ _ _ H1);
       tidy_cases; simplify_eq; cbn; repeat split; intros; try lia; by apply Hb.
Qed.

(** Opening the wall between a cell and the cell below it. *)
Lemma open_below_tidy g r c :
  tidy rows cols g -> is_Some (cell_at g r c) -> is_Some (cell_at g (S r) c) ->
  tidy rows cols (alter (alter clear_top c) (S r) (alter (alter clear_bottom c) r g)) /\
  tidy rows cols (alter (alter clear_bottom c) r (alter (alter clear_top c) (S r) g)).
Proof.
  intros (Hwf & [Hh Hv] & Hb) [cl0 Hcl0] [cr0 Hcr0].
  pose proof (cell_at_Some_in_grid _ _ _ _ _ _ Hwf Hcr0) as [Hin _]. cbn in Hin.
  split.
  all: split; [by do 2 apply wf_grid_alter |]; split; [split |].
  all: try (intros r' c' cl cr H1 H2; tidy_cells;
            try specialize (Hh _ _ _ _ H1 H2); try specialize (Hv _ _ _ _ H1 H2);
            tidy_cases; simplify_eq; cbn; try done; try lia).
  all: intros r' c' cl H1; tidy_cells; specialize (Hb _ _ _ H1);
       tidy_cases; simplify_eq; cbn; repeat split; intros; try lia; by apply Hb.
Qed.

Lemma is_Some_cell_at_alter f g r c r' c' :
  is_Some (cell_at (alter (alter f c) r g) r' c') -> is_Some (cell_at g r' c').
Proof. intros [cl H]. apply cell_at_alter_Some in H as (cl0 & H & _). eauto. Qed.

Lemma open_pair_inv f1 f2 g r1 c1 r2 c2 s g' s' :
  (let* g1 := update_cell f1 g r1 c1 in update_cell f2 g1 r2 c2) s = Done g' s' ->
  g' = alter (alter f2 c2) r2 (alter (alter f1 c1) r1 g) /\
  is_Some (cell_at g r1 c1) /\ is_Some (cell_at g r2 c2).
Proof.
  intros H. apply bind_Done in H as (g1 & s1 & H1 & H2).
  apply update_cell_inv in H1 as (-> & -> & Hc1).
  apply update_cell_inv in H2 as (-> & -> & Hc2).
  split; [done |]. split; [done |]. by eapply is_Some_cell_at_alter.
Qed.

Lemma removeWallBetween_tidy g p q s g' s' :
  tidy rows cols g -> adjacent p q ->
  removeWallBetween g p q s = Done g' s' -> tidy rows cols g'.
Proof.
  intros Ht Hadj. unfold removeWallBetween. destruct p as [pr pc], q as [qr qc].
  unfold adjacent in Hadj. cbn [row col] in *.
  destruct (Z.eqb_spec (Z.of_nat qr - Z.of_nat pr) (-1)).
  { assert (pr = S qr /\ pc = qc) as [-> ->] by lia.
    intros (-> & H1 & H2)%open_pair_inv. by apply open_below_tidy. }
  destruct (Z.eqb_spec (Z.of_nat qr - Z.of_nat pr) 1).
  { assert (qr = S pr /\ pc = qc) as [-> ->] by lia.
    intros (-> & H1 & H2)%open_pair_inv. by apply open_below_tidy. }
  destruct (Z.eqb_spec (Z.of_nat qc - Z.of_nat pc) 1).
  { assert (qc = S pc /\ pr = qr) as [-> ->] by lia.
    intros (-> & H1 & H2)%open_pair_inv. by apply open_right_tidy. }
  destruct (Z.eqb_spec (Z.of_nat qc - Z.of_nat pc) (-1)).
  { assert (pc = S qc /\ pr = qr) as [-> ->] by lia.
    intros (-> & H1 & H2)%open_pair_inv. by apply open_right_tidy. }
  by intros [= <- <-].
Qed.

Lemma carve_tidy fuel : forall g stack s g' s',
  tidy rows cols g -> Forall (in_grid rows cols) stack ->
  carve fuel rows cols g stack s = Done g' s' -> tidy rows cols g'.
Proof.
  induction fuel as [| fuel IH]; intros g stack s g' s' Ht Hstack Hrun.
  - destruct stack; cbn in Hrun; [| done]. by inversion Hrun; subst.
  - destruct stack as [| current rest]; cbn [carve] in Hrun; [by inversion Hrun; subst |].
    apply Forall_cons in Hstack as [Hcur Hrest].
    assert (in_grid rows cols {| row := row current; col := col current |}) as Hcur'
      by by destruct current.
    erewrite bind_run in Hrun
      by (apply getUnvisitedNeighbors_spec; [apply Ht | exact Hcur']).
    destruct (neighbors_of rows cols g (row current) (col current)) as [| n ns] eqn:Hn;
      [by eapply IH |].
    apply bind_Done in Hrun as (i & s1 & _ & Hrun).
    apply bind_Done in Hrun as (next & s2 & Hnext & Hrun).
    apply bind_Done in Hrun as (g1 & s3 & Hopen & Hrun).
    apply bind_Done in Hrun as (g2 & s4 & Hvis & Hrun).
    assert (next ∈ neighbors_of rows cols g (row current) (col current)) as Hin.
    { rewrite Hn. destruct (i <? 0); [done |].
      destruct ((n :: ns) !! Z.to_nat i) as [x |] eqn:Hx; [| done].
      inversion Hnext; subst x. by eapply list_elem_of_lookup_2. }
    apply elem_of_neighbors_of in Hin as (Hnin & Hadj & _); [| done].
    assert (adjacent current next) as Hadj' by by destruct current.
    pose proof (removeWallBetween_tidy _ _ _ _ _ _ Ht Hadj' Hopen) as Ht1.
    apply update_cell_inv in Hvis as (-> & -> & _).
    eapply IH; [| | exact Hrun].
    + by apply set_visited_tidy.
    + constructor; [done |]. by constructor.
Qed.

Lemma extra_passage_tidy g s g' s' :
  tidy rows cols g -> extra_passage rows cols g s = Done g' s' -> tidy rows cols g'.
Proof.
  intros Ht Hrun. unfold extra_passage in Hrun.
  apply bind_Done in Hrun as (r & s1 & _ & Hrun).
  apply bind_Done in Hrun as (c & s2 & _ & Hrun).
  apply bind_Done in Hrun as (dir & s3 & _ & Hrun). cbv zeta in Hrun.
  destruct ((dir =? 0) && (0 <? Z.to_nat r)%nat) eqn:E0.
  { apply andb_true_iff in E0 as [_ E0%Nat.ltb_lt].
    apply open_pair_inv in Hrun as (-> & H1 & H2).
    destruct (Z.to_nat r) as [| r']; [lia |].
    replace (S r' - 1)%nat with r' in * by lia. by apply open_below_tidy. }
  destruct ((dir =? 1) && (Z.to_nat c <? cols - 1)%nat) eqn:E1.
  { apply open_pair_inv in Hrun as (-> & H1 & H2).
    replace (Z.to_nat c + 1)%nat with (S (Z.to_nat c)) in * by lia.
    by apply open_right_tidy. }
  destruct ((dir =? 2) && (Z.to_nat r <? rows - 1)%nat) eqn:E2.
  { apply open_pair_inv in Hrun as (-> & H1 & H2).
    replace (Z.to_nat r + 1)%nat with (S (Z.to_nat r)) in * by lia.
    by apply open_below_tidy. }
  destruct ((dir =? 3) && (0 <? Z.to_nat c)%nat) eqn:E3.
  { apply andb_true_iff in E3 as [_ E3%Nat.ltb_lt].
    apply open_pair_inv in Hrun as (-> & H1 & H2).
    destruct (Z.to_nat c) as [| c']; [lia |].
    replace (S c' - 1)%nat with c' in * by lia. by apply open_right_tidy. }
  by inversion Hrun; subst.
Qed.

Lemma extra_passages_tidy n : forall g s g' s',
  tidy rows cols g -> extra_passages n rows cols g s = Done g' s' -> tidy rows cols g'.
Proof.
  induction n as [| n IH]; intros g s g' s' Ht Hrun; cbn in Hrun.
  - by inversion Hrun; subst.
  - apply bind_Done in Hrun as (g1 & s1 & H1 & Hrun).
    eapply IH; [| exact Hrun]. by eapply extra_passage_tidy.
Qed.

Lemma fresh_tidy : tidy rows cols (replicate rows (replicate cols fresh_cell)).
Proof.
  split; [apply wf_grid_replicate |]. split; [split |].
  - intros r c cl cr H1 H2. rewrite cell_at_replicate in H1, H2.
    repeat case_decide; by simplify_eq.
  - intros r c cl cr H1 H2. rewrite cell_at_replicate in H1, H2.
    repeat case_decide; by simplify_eq.
  - intros r c cl H1. rewrite cell_at_replicate in H1. case_decide; by simplify_eq.
Qed.
End Tidy.

Lemma generateMazeGrid_tidy fuel cols rows s g s' :
  generateMazeGrid fuel cols rows s = Done g s' ->
  tidy (Z.to_nat rows) (Z.to_nat cols) g.
Proof.
  unfold generateMazeGrid. destruct (rows <? 1); [done |]. intros Hrun.
  apply bind_Done in Hrun as (g0 & s0 & H0 & Hrun).
  apply bind_Done in Hrun as (g1 & s1 & H1 & Hrun).
  apply update_cell_inv in H0 as (-> & -> & Hstart).
  apply (extra_passages_tidy _ _ _ _ _ _ _) in Hrun; [done |].
  eapply carve_tidy; [| | exact H1].
  - apply set_visited_tidy, fresh_tidy.
  - constructor; [| constructor].
    rewrite cell_at_replicate in Hstart. case_decide; [| by destruct Hstart as [? ?]].
    split; cbn; lia.
Qed.



(** ** The carve opens one wall for each cell but the first *)

(** The number of sides of a cell without a wall. *)
Definition open_sides (cl : Cell) : nat :=
  ((if w_top (walls cl) then 0 else 1) + (if w_right (walls cl) then 0 else 1) +
   (if w_bottom (walls cl) then 0 else 1) + (if w_left (walls cl) then 0 else 1))%nat.

(** The open sides of a grid: a wall that is open on both of its sides
    counts twice. *)
Definition count_open (g : Grid) : nat := sum_list_with (sum_list_with open_sides) g.

Lemma sum_grid_alter (w : Cell -> nat) h g r c cl :
  cell_at g r c = Some cl ->
  (sum_list_with (sum_list_with w) (alter (alter h c) r g) + w cl
   = sum_list_with (sum_list_with w) g + w (h cl))%nat.
Proof.
  unfold cell_at. intros H.
  destruct (g !! r) as [line |] eqn:Hline; [| done].
  pose proof (sum_list_with_alter (sum_list_with w) (alter h c) g r line Hline).
  pose proof (sum_list_with_alter w h line c cl H).
  lia.
Qed.

Lemma sum_list_with_zero {A} (f : A -> nat) l :
  (forall i x, l !! i = Some x -> f x = 0%nat) -> sum_list_with f l = 0%nat.
Proof.
  induction l as [| y l IH]; intros H; [done |].
  cbn. rewrite (H 0%nat y eq_refl), IH; [done |].
  intros i x Hx. apply (H (S i) x Hx).
Qed.

Lemma count_unvisited_zero rows cols g :
  wf_grid rows cols g ->
  (forall p, in_grid rows cols p -> visited_of g p = true) ->
  count_unvisited g = 0%nat.
Proof.
  intros Hwf Hall. unfold count_unvisited.
  apply sum_list_with_zero. intros r line Hline.
  apply sum_list_with_zero. intros c cl Hcl.
  assert (cell_at g r c = Some cl) as Hcell by (unfold cell_at; by rewrite Hline).
  pose proof (cell_at_Some_in_grid _ _ _ _ _ _ Hwf Hcell) as Hin.
  specialize (Hall _ Hin). unfold visited_of in Hall. cbn in Hall. rewrite Hcell in Hall.
  unfold unvisited_weight. by rewrite Hall.
Qed.

Definition all_walls (cl : Cell) : Prop :=
  w_top (walls cl) = true /\ w_right (walls cl) = true /\
  w_bottom (walls cl) = true /\ w_left (walls cl) = true.

Section Perfect.
Variables rows cols : nat.

(** What the carve keeps: walls agree, a cell not yet visited has its four
    walls, and two sides are open for each visited cell but the first. *)
Definition carved (g : Grid) : Prop :=
  tidy rows cols g /\
  (forall r c cl, cell_at g r c = Some cl -> visited cl = false -> all_walls cl) /\
  (count_open g + 2 * count_unvisited g + 2 = 2 * (rows * cols))%nat.

(** The two assignments of [removeWallBetween], on a visited cell and a
    neighbour with its four walls: each opens one more side. *)
Lemma removeWallBetween_opens g p q cp cq s g' s' :
  tidy rows cols g -> adjacent p q ->
  cell_at g (row p) (col p) = Some cp -> cell_at g (row q) (col q) = Some cq ->
  all_walls cq ->
  removeWallBetween g p q s = Done g' s' ->
  exists f1 f2,
    g' = alter (alter f2 (col q)) (row q) (alter (alter f1 (col p)) (row p) g) /\
    (forall cl, visited (f1 cl) = visited cl) /\ (forall cl, visited (f2 cl) = visited cl) /\
    open_sides (f1 cp) = S (open_sides cp) /\ open_sides (f2 cq) = S (open_sides cq).
Proof.
  intros (Hwf & [Hh Hv] & Hb) Hadj Hcp Hcq (Ht & Hr & Hbo & Hl).
  unfold removeWallBetween. destruct p as [pr pc], q as [qr qc].
  unfold adjacent in Hadj. cbn [row col] in *.
  destruct (Z.eqb_spec (Z.of_nat qr - Z.of_nat pr) (-1)).
  { assert (pr = S qr /\ pc = qc) as [-> ->] by lia.
    intros (-> & _ & _)%open_pair_inv. exists clear_top, clear_bottom.
    pose proof (Hv _ _ _ _ Hcq Hcp) as E. rewrite Hbo in E.
    repeat split; try done; unfold open_sides; cbn; rewrite <- ?E, ?Hbo; lia. }
  destruct (Z.eqb_spec (Z.of_nat qr - Z.of_nat pr) 1).
  { assert (qr = S pr /\ pc = qc) as [-> ->] by lia.
    intros (-> & _ & _)%open_pair_inv. exists clear_bottom, clear_top.
    pose proof (Hv _ _ _ _ Hcp Hcq) as E. rewrite Ht in E.
    repeat split; try done; unfold open_sides; cbn; rewrite ?E, ?Ht; lia. }
  destruct (Z.eqb_spec (Z.of_nat qc - Z.of_nat pc) 1).
  { assert (qc = S pc /\ pr = qr) as [-> ->] by lia.
    intros (-> & _ & _)%open_pair_inv. exists clear_right, clear_left.
    pose proof (Hh _ _ _ _ Hcp Hcq) as E. rewrite Hl in E.
    repeat split; try done; unfold open_sides; cbn; rewrite ?E, ?Hl; lia. }
  destruct (Z.eqb_spec (Z.of_nat qc - Z.of_nat pc) (-1)).
  { assert (pc = S qc /\ pr = qr) as [-> ->] by lia.
    intros (-> & _ & _)%open_pair_inv. exists clear_left, clear_right.
    pose proof (Hh _ _ _ _ Hcq Hcp) as E. rewrite Hr in E.
    repeat split; try done; unfold open_sides; cbn; rewrite <- ?E, ?Hr; lia. }
  lia.
Qed.

Lemma carve_carved fuel : forall g stack s g' s',
  carved g ->
  Forall (fun p => in_grid rows cols p /\ visited_of g p = true) stack ->
  carve fuel rows cols g stack s = Done g' s' -> carved g'.
Proof.
  induction fuel as [| fuel IH]; intros g stack s g' s' Hc Hstack Hrun.
  - destruct stack; cbn in Hrun; [| done]. by inversion Hrun; subst.
  - destruct stack as [| current rest]; cbn [carve] in Hrun; [by inversion Hrun; subst |].
    apply Forall_cons in Hstack as [[Hcur Hcurv] Hrest].
    destruct Hc as (Ht & Hfresh & Hcount).
    assert (in_grid rows cols {| row := row current; col := col current |}) as Hcur'
      by by destruct current.
    erewrite bind_run in Hrun
      by (apply getUnvisitedNeighbors_spec; [apply Ht | exact Hcur']).
    destruct (neighbors_of rows cols g (row current) (col current)) as [| n ns] eqn:Hn.
    { eapply IH; [| exact Hrest | exact Hrun]. done. }
    apply bind_Done in Hrun as (i & s1 & _ & Hrun).
    apply bind_Done in Hrun as (next & s2 & Hnext & Hrun).
    apply bind_Done in Hrun as (g1 & s3 & Hopen & Hrun).
    apply bind_Done in Hrun as (g2 & s4 & Hvis & Hrun).
    assert (next ∈ neighbors_of rows cols g (row current) (col current)) as Hin.
    { rewrite Hn. destruct (i <? 0); [done |].
      destruct ((n :: ns) !! Z.to_nat i) as [x |] eqn:Hx; [| done].
      inversion Hnext; subst x. by eapply list_elem_of_lookup_2. }
    apply elem_of_neighbors_of in Hin as (Hnin & Hadj & Hnv); [| done].
    assert (adjacent current next) as Hadj' by by destruct current.
    pose proof (adjacent_ne _ _ Hadj') as Hne.
    destruct (cell_at_in_grid _ _ _ _ (proj1 Ht) Hcur) as [cp Hcp].
    destruct (cell_at_in_grid _ _ _ _ (proj1 Ht) Hnin) as [cq Hcq].
    assert (visited cp = true) as Hcpv by (unfold visited_of in Hcurv; by rewrite Hcp in Hcurv).
    assert (visited cq = false) as Hcqv by (unfold visited_of in Hnv; by rewrite Hcq in Hnv).
    pose proof (removeWallBetween_tidy _ _ _ _ _ _ _ _ Ht Hadj' Hopen) as Ht1.
    destruct (removeWallBetween_opens _ _ _ _ _ _ _ _ Ht Hadj' Hcp Hcq
                (Hfresh _ _ _ Hcq Hcqv) Hopen) as (f1 & f2 & -> & Hf1 & Hf2 & Ho1 & Ho2).
    apply update_cell_inv in Hvis as (-> & -> & _).
    set (ga := alter (alter f1 (col current)) (row current) g) in *.
    set (gb := alter (alter f2 (col next)) (row next) ga) in *.
    assert (cell_at ga (row next) (col next) = Some cq) as Hcqa.
    { unfold ga. rewrite cell_at_alter, decide_False; [done |].
      intros [Hr Hcc]. apply Hne. destruct current, next; cbn in *; congruence. }
    assert (cell_at gb (row next) (col next) = Some (f2 cq)) as Hcqb.
    { unfold gb. rewrite cell_at_alter, decide_True by done. by rewrite Hcqa. }
    eapply IH; [| | exact Hrun].
    + split; [by apply set_visited_tidy |]. split.
      * intros r c cl Hcl Hclv.
        apply cell_at_alter_Some in Hcl as (cl2 & Hcl & ->).
        destruct (decide (row next = r /\ col next = c)) as [_ | Hn2]; [done |].
        unfold gb in Hcl. apply cell_at_alter_Some in Hcl as (cl1 & Hcl & ->).
        rewrite decide_False in Hclv |- * by done.
        unfold ga in Hcl. apply cell_at_alter_Some in Hcl as (cl0 & Hcl & ->).
        destruct (decide (row current = r /\ col current = c)) as [[<- <-] | Hn1].
        -- rewrite Hf1 in Hclv. congruence.
        -- by eapply Hfresh.
      * pose proof (sum_grid_alter open_sides f1 g _ _ _ Hcp) as E1. fold ga in E1.
        pose proof (sum_grid_alter open_sides f2 ga _ _ _ Hcqa) as E2. fold gb in E2.
        pose proof (sum_grid_alter open_sides set_visited gb _ _ _ Hcqb) as E3.
        pose proof (count_unvisited_alter f1 g _ _ _ Hcp) as U1. fold ga in U1.
        pose proof (count_unvisited_alter f2 ga _ _ _ Hcqa) as U2. fold gb in U2.
        pose proof (count_unvisited_alter set_visited gb _ _ _ Hcqb) as U3.
        unfold count_open. unfold unvisited_weight in U1, U2, U3.
        rewrite Hf1 in U1. rewrite Hf2 in U2, U3. rewrite Hcqv in U2, U3.
        change (open_sides (set_visited (f2 cq))) with (open_sides (f2 cq)) in E3.
        cbn [visited set_visited] in U3. unfold count_open in Hcount. lia.
    + assert (forall p, visited_of g p = true ->
                visited_of (alter (alter set_visited (col next)) (row next) gb) p = true)
        as Hkeep.
      { intros p Hp. rewrite visited_of_set_visited by eauto.
        destruct (decide (next = p)); [done |].
        unfold gb, ga. by rewrite !visited_of_alter. }
      constructor; [| constructor].
      * split; [done |]. rewrite visited_of_set_visited by eauto. by rewrite decide_True.
      * split; [done | by apply Hkeep].
      * eapply Forall_impl; [exact Hrest |]. intros p [Hp Hpv]. split; [done | by apply Hkeep].
Qed.
End Perfect.

Lemma carve_start_carved rows cols :
  (0 < rows)%nat -> (0 < cols)%nat ->
  carved rows cols (alter (alter set_visited 0%nat) (rows - 1)%nat
                      (replicate rows (replicate cols fresh_cell))).
Proof.
  intros Hrows Hcols.
  destruct (carving_initial rows cols Hrows Hcols) as [_ Hcount].
  split; [apply set_visited_tidy, fresh_tidy |]. split.
  - intros r c cl Hcl _. apply cell_at_alter_Some in Hcl as (cl0 & Hcl & ->).
    rewrite cell_at_replicate in Hcl. case_decide; [| done]. inversion Hcl; subst cl0.
    by case_decide.
  - assert (count_open (alter (alter set_visited 0%nat) (rows - 1)%nat
                          (replicate rows (replicate cols fresh_cell))) = 0%nat) as ->; [| lia].
    pose proof (sum_grid_alter open_sides set_visited
                  (replicate rows (replicate cols fresh_cell)) (rows - 1) 0 fresh_cell) as E.
    rewrite cell_at_replicate, decide_True in E by lia. specialize (E eq_refl).
    unfold count_open. rewrite !sum_list_with_replicate in E. cbn in E. lia.
Qed.

(** X15.  The carve makes a perfect maze.  For every level from 1 on, the
    grid the recursive-backtracking loop leaves, before the extra passages
    are opened, has its walls standing on both sides or on neither, and
    [2 * (rows * cols - 1)] open sides: one passage for each cell but the
    first, the number of edges of a spanning tree.  With every cell joined
    to the start, there is then one way and no more between any two cells,
    and only the extra passages add loops. *)
Theorem carve_opens_a_tree (levelNum : Z) (fuel : nat) :
  1 <= levelNum ->
  (2 * maze_rows levelNum * maze_cols levelNum <= fuel)%nat ->
  exists g1 s1,
    carve fuel (maze_rows levelNum) (maze_cols levelNum) (carve_start levelNum)
      [start_cell (maze_rows levelNum)] (levelNum * 7919) = Done g1 s1 /\
    walls_agree g1 /\
    border_closed (maze_rows levelNum) (maze_cols levelNum) g1 /\
    count_unvisited g1 = 0%nat /\
    count_open g1 = (2 * (maze_rows levelNum * maze_cols levelNum - 1))%nat.
Proof.
  intros Hn Hfuel. pose proof (grid_size levelNum) as [Hc Hr].
  destruct (generateMazeGrid_spec fuel (cols_of (getDifficulty levelNum))
              (rows_of (getDifficulty levelNum)) (levelNum * 7919))
    as (g1 & s1 & g & s' & Hrun1 & Hall & _); try lia; [exact Hfuel |].
  exists g1, s1. split; [exact Hrun1 |].
  assert (0 < maze_rows levelNum)%nat as Hrows by (unfold maze_rows; lia).
  assert (0 < maze_cols levelNum)%nat as Hcols by (unfold maze_cols; lia).
  assert (Forall (fun p => in_grid (maze_rows levelNum) (maze_cols levelNum) p /\
                           visited_of (carve_start levelNum) p = true)
            [start_cell (maze_rows levelNum)]) as Hstack.
  { constructor; [| constructor].
    destruct (carving_initial _ _ Hrows Hcols) as [[_ [Hin Hv] _ _ _] _]. by split. }
  destruct (carve_carved (maze_rows levelNum) (maze_cols levelNum) fuel _ _ _ _ _
              (carve_start_carved _ _ Hrows Hcols) Hstack Hrun1)
    as ((Hwf & Hagree & Hborder) & _ & Hcount).
  assert (count_unvisited g1 = 0%nat) as Hzero.
  { apply (count_unvisited_zero (maze_rows levelNum) (maze_cols levelNum)); [done |].
    intros p Hp. by apply Hall. }
  split; [done |]. split; [done |]. split; [done |]. lia.
Qed.

Lemma carve_opens_a_tree_witness :
  exists g1 s1,
    carve 30 (maze_rows 1) (maze_cols 1) (carve_start 1) [start_cell (maze_rows 1)] (1 * 7919)
      = Done g1 s1 /\
    walls_agree g1 /\
    border_closed (maze_rows 1) (maze_cols 1) g1 /\
    count_unvisited g1 = 0%nat /\
    count_open g1 = (2 * (maze_rows 1 * maze_cols 1 - 1))%nat.
Proof. apply (carve_opens_a_tree 1 30); [lia | vm_compute; lia]. Defined.

(** ** The rectangles of the maze *)

Lemma for_each_collect {A B} (l : list A) (f : A -> list B)
    (body : A -> list B -> Gen (list B)) :
  (forall a acc s, a ∈ l -> body a acc s = Done (acc ++ f a) s) ->
  forall acc s, for_each l body acc s = Done (acc ++ flat_map f l) s.
Proof.
  induction l as [| a l IH]; intros Hbody acc s.
  - cbn. by rewrite app_nil_r.
  - cbn [for_each flat_map]. erewrite bind_run by (apply Hbody; by left).
    rewrite IH by (intros; apply Hbody; by right). by rewrite app_assoc.
Qed.

Section Walls.
Variable grid : Grid.
Variables cols rows cellSize canvasWidth canvasHeight : Z.

Definition wall_offsetX : Q :=
  ((inject_Z canvasWidth - inject_Z cols * inject_Z cellSize) / 2)%Q.
Definition wall_offsetY : Q :=
  ((inject_Z canvasHeight - inject_Z rows * inject_Z cellSize) / 2)%Q.

(** The rectangle on the top side of the cell in row [r] and column [c], *)
Definition top_wall (r c : nat) : Rect :=
  {| rect_x := (wall_offsetX + inject_Z (Z.of_nat c) * inject_Z cellSize)%Q;
     rect_y := (wall_offsetY + inject_Z (Z.of_nat r) * inject_Z cellSize - W / 2)%Q;
     rect_width := inject_Z cellSize; rect_height := W |}.

(** the one on its left side, *)
Definition left_wall (r c : nat) : Rect :=
  {| rect_x := (wall_offsetX + inject_Z (Z.of_nat c) * inject_Z cellSize - W / 2)%Q;
     rect_y := (wall_offsetY + inject_Z (Z.of_nat r) * inject_Z cellSize)%Q;
     rect_width := W; rect_height := inject_Z cellSize |}.

(** the post on its top-left corner, *)
Definition corner_post (r c : nat) : Rect :=
  {| rect_x := (wall_offsetX + inject_Z (Z.of_nat c) * inject_Z cellSize - W / 2)%Q;
     rect_y := (wall_offsetY + inject_Z (Z.of_nat r) * inject_Z cellSize - W / 2)%Q;
     rect_width := W; rect_height := W |}.

(** the one on the right edge of row [r] and the one on the bottom edge of
    column [c]. *)
Definition right_edge (r : nat) : Rect :=
  {| rect_x := (wall_offsetX + inject_Z cols * inject_Z cellSize - W / 2)%Q;
     rect_y := (wall_offsetY + inject_Z (Z.of_nat r) * inject_Z cellSize)%Q;
     rect_width := W; rect_height := inject_Z cellSize |}.

Definition bottom_edge (c : nat) : Rect :=
  {| rect_x := (wall_offsetX + inject_Z (Z.of_nat c) * inject_Z cellSize)%Q;
     rect_y := (wall_offsetY + inject_Z rows * inject_Z cellSize - W / 2)%Q;
     rect_width := inject_Z cellSize; rect_height := W |}.

Definition canvas_boundary : list Rect :=
  [ {| rect_x := 0; rect_y := 0; rect_width := inject_Z canvasWidth; rect_height := W |};
    {| rect_x := 0; rect_y := (inject_Z canvasHeight - W)%Q;
       rect_width := inject_Z canvasWidth; rect_height := W |};
    {| rect_x := 0; rect_y := 0; rect_width := W; rect_height := inject_Z canvasHeight |};
    {| rect_x := (inject_Z canvasWidth - W)%Q; rect_y := 0;
       rect_width := W; rect_height := inject_Z canvasHeight |} ].

(** What the double loop pushes for one cell. *)
Definition cell_walls (r c : nat) : list Rect :=
  match cell_at grid r c with
  | Some cl =>
      (if w_top (walls cl) && (0 <? r)%nat then [top_wall r c] else []) ++
      (if w_left (walls cl) && (0 <? c)%nat then [left_wall r c] else []) ++
      (if (w_top (walls cl) || w_left (walls cl)) && (0 <? r)%nat && (0 <? c)%nat
       then [corner_post r c] else [])
  | None => []
  end.

Definition right_walls (r : nat) : list Rect :=
  match cell_at grid r (Z.to_nat (cols - 1)) with
  | Some cl => if w_right (walls cl) then [right_edge r] else []
  | None => []
  end.

Definition bottom_walls (c : nat) : list Rect :=
  match cell_at grid (Z.to_nat (rows - 1)) c with
  | Some cl => if w_bottom (walls cl) then [bottom_edge c] else []
  | None => []
  end.

Definition maze_rects : list Rect :=
  ((canvas_boundary
    ++ flat_map (fun r => flat_map (cell_walls r) (seq 0 (Z.to_nat cols)))
         (seq 0 (Z.to_nat rows)))
   ++ flat_map right_walls (seq 0 (Z.to_nat rows)))
  ++ flat_map bottom_walls (seq 0 (Z.to_nat cols)).

Hypothesis Hwf : wf_grid (Z.to_nat rows) (Z.to_nat cols) grid.
Hypothesis Hcols : 1 <= cols.
Hypothesis Hrows : 1 <= rows.

Lemma wall_cell r c :
  (r < Z.to_nat rows)%nat -> (c < Z.to_nat cols)%nat -> is_Some (cell_at grid r c).
Proof.
  intros Hr Hc.
  apply (cell_at_in_grid (Z.to_nat rows) (Z.to_nat cols) grid {| row := r; col := c |});
    [done | by split].
Qed.

(** On a grid of [rows] rows of [cols] cells [mazeToWalls] returns, without
    drawing a random number: the boundary, the rectangles of the cells row
    by row, those of the right edge and those of the bottom edge. *)
Lemma mazeToWalls_rects s :
  mazeToWalls grid cols rows cellSize canvasWidth canvasHeight s = Done maze_rects s.
Proof.
  unfold mazeToWalls. cbv zeta. unfold for_range.
  erewrite bind_run; cycle 1.
  { apply (for_each_collect _
             (fun r => flat_map (cell_walls r) (seq 0 (Z.to_nat cols)))).
    intros r acc s1 Hr%elem_of_seq.
    apply (for_each_collect _ (cell_walls r)).
    intros c acc1 s2 Hc%elem_of_seq. unfold cell_walls.
    destruct (wall_cell r c ltac:(lia) ltac:(lia)) as [cl Hcl]. rewrite Hcl. cbn [defined].
    erewrite bind_run by reflexivity.
    destruct ((w_top (walls cl) || w_left (walls cl)) && (0 <? r)%nat && (0 <? c)%nat) eqn:E.
    - apply andb_prop in E as [E Ec]. apply andb_prop in E as [E Er].
      apply Nat.ltb_lt in Ec, Er.
      destruct (wall_cell (r - 1) c ltac:(lia) ltac:(lia)) as [tc Htc].
      destruct (wall_cell r (c - 1) ltac:(lia) ltac:(lia)) as [lc Hlc].
      rewrite Htc, Hlc. cbn [defined].
      erewrite bind_run by reflexivity. erewrite bind_run by reflexivity.
      rewrite E. cbn [orb]. unfold ret.
      destruct (w_top (walls cl) && (0 <? r)%nat), (w_left (walls cl) && (0 <? c)%nat);
        by rewrite <- ?app_assoc.
    - unfold ret.
      destruct (w_top (walls cl) && (0 <? r)%nat), (w_left (walls cl) && (0 <? c)%nat);
        by rewrite <- ?app_assoc, ?app_nil_r. }
  erewrite bind_run; cycle 1.
  { apply (for_each_collect _ right_walls).
    intros r acc s1 Hr%elem_of_seq. unfold right_walls.
    destruct (Z.ltb_spec cols 1); [lia |].
    destruct (wall_cell r (Z.to_nat (cols - 1)) ltac:(lia) ltac:(lia)) as [cl Hcl].
    rewrite Hcl. cbn [defined]. erewrite bind_run by reflexivity.
    unfold ret. destruct (w_right (walls cl)); by rewrite ?app_nil_r. }
  apply (for_each_collect _ bottom_walls).
  intros c acc s1 Hc%elem_of_seq. unfold bottom_walls.
  destruct (Z.ltb_spec rows 1); [lia |].
  destruct (wall_cell (Z.to_nat (rows - 1)) c ltac:(lia) ltac:(lia)) as [cl Hcl].
  rewrite Hcl. cbn [defined]. erewrite bind_run by reflexivity.
  unfold ret. destruct (w_bottom (walls cl)); by rewrite ?app_nil_r.
Qed.
End Walls.

Section Drawn.
Variable grid : Grid.
Variables cols rows cellSize canvasWidth canvasHeight : Z.
Hypothesis Hwf : wf_grid (Z.to_nat rows) (Z.to_nat cols) grid.
Hypothesis Hcols : 1 <= cols.
Hypothesis Hrows : 1 <= rows.
Hypothesis Hcell : 8 < cellSize.
Hypothesis Hwidth : cellSize < canvasWidth.
Hypothesis Hheight : cellSize < canvasHeight.

Abbreviation top_wall' := (top_wall cols rows cellSize canvasWidth canvasHeight).
Abbreviation left_wall' := (left_wall cols rows cellSize canvasWidth canvasHeight).
Abbreviation rects := (maze_rects grid cols rows cellSize canvasWidth canvasHeight).

Lemma elem_of_flat_map {A B} (f : A -> list B) (l : list A) (y : B) :
  y ∈ flat_map f l <-> exists x, x ∈ l /\ y ∈ f x.
Proof.
  rewrite list_elem_of_In, in_flat_map. setoid_rewrite list_elem_of_In. done.
Qed.

(** Two multiples of the cell size that are equal are the same multiple. *)
Lemma cell_multiple a b (x y : Q) :
  (x + inject_Z a * inject_Z cellSize - y == x + inject_Z b * inject_Z cellSize - y)%Q ->
  a = b.
Proof.
  intros H.
  assert (inject_Z a * inject_Z cellSize == inject_Z b * inject_Z cellSize)%Q as H' by lra.
  assert (~ inject_Z cellSize == 0)%Q as Hnz.
  { intros H0. unfold Qeq in H0. cbn in H0. lia. }
  apply (proj1 (Qmult_inj_r _ _ _ Hnz)) in H'. by apply (proj1 (inject_Z_injective a b)).
Qed.

Lemma Qeq_of_eq (x y : Q) : x = y -> (x == y)%Q.
Proof. by intros ->. Qed.

Ltac other_size H :=
  first
    [ let E := fresh "E" in
      pose proof (f_equal (fun x => Qnum (rect_height x)) H) as E; cbn in E; lia
    | let E := fresh "E" in
      pose proof (f_equal (fun x => Qnum (rect_width x)) H) as E; cbn in E; lia ].

(** The rectangle on the left side of a cell is pushed for this cell and
    for no other reason. *)
Lemma left_wall_drawn r c :
  (r < Z.to_nat rows)%nat -> (c < Z.to_nat cols)%nat ->
  left_wall' r c ∈ rects <->
  exists cl, cell_at grid r c = Some cl /\ w_left (walls cl) = true /\ (0 < c)%nat.
Proof.
  intros Hr Hc. unfold maze_rects. rewrite !elem_of_app. split.
  - intros [[[H | H] | H] | H].
    + unfold canvas_boundary in H.
      repeat (apply elem_of_cons in H as [H | H]; [other_size H |]).
      by apply elem_of_nil in H.
    + apply elem_of_flat_map in H as (r' & Hr' & H).
      apply elem_of_flat_map in H as (c' & Hc' & H).
      unfold cell_walls in H. destruct (cell_at grid r' c') as [cl |] eqn:Hcl;
        [| by apply elem_of_nil in H].
      rewrite !elem_of_app in H. destruct H as [H | [H | H]].
      * destruct (_ && _); [| by apply elem_of_nil in H].
        apply list_elem_of_singleton in H. other_size H.
      * destruct (w_left (walls cl) && (0 <? c')%nat) eqn:E; [| by apply elem_of_nil in H].
        apply list_elem_of_singleton in H.
        pose proof (Qeq_of_eq _ _ (f_equal rect_x H)) as Ex. cbn in Ex.
        pose proof (Qeq_of_eq _ _ (f_equal rect_y H)) as Ey. cbn in Ey.
        apply cell_multiple in Ex.
        assert (Z.of_nat r = Z.of_nat r') as Er.
        { apply (cell_multiple _ _ (wall_offsetY rows cellSize canvasHeight) 0). lra. }
        assert (r' = r) as -> by lia. assert (c' = c) as -> by lia.
        apply andb_prop in E as [E1 E2%Nat.ltb_lt]. eauto.
      * destruct (_ && _ && _); [| by apply elem_of_nil in H].
        apply list_elem_of_singleton in H. other_size H.
    + apply elem_of_flat_map in H as (r' & Hr' & H). unfold right_walls in H.
      destruct (cell_at grid r' _) as [cl |]; [| by apply elem_of_nil in H].
      destruct (w_right (walls cl)); [| by apply elem_of_nil in H].
      apply list_elem_of_singleton in H.
      pose proof (Qeq_of_eq _ _ (f_equal rect_x H)) as Ex. cbn in Ex.
      apply cell_multiple in Ex. lia.
    + apply elem_of_flat_map in H as (c' & Hc' & H). unfold bottom_walls in H.
      destruct (cell_at grid _ c') as [cl |]; [| by apply elem_of_nil in H].
      destruct (w_bottom (walls cl)); [| by apply elem_of_nil in H].
      apply list_elem_of_singleton in H. other_size H.
  - intros (cl & Hcl & Hl & H0). left; left; right.
    apply elem_of_flat_map. exists r. split; [apply elem_of_seq; lia |].
    apply elem_of_flat_map. exists c. split; [apply elem_of_seq; lia |].
    unfold cell_walls. rewrite Hcl, Hl. apply Nat.ltb_lt in H0. rewrite H0. cbn [andb].
    rewrite !elem_of_app. right; left. by left.
Qed.

(** So is the rectangle on its top side. *)
Lemma top_wall_drawn r c :
  (r < Z.to_nat rows)%nat -> (c < Z.to_nat cols)%nat ->
  top_wall' r c ∈ rects <->
  exists cl, cell_at grid r c = Some cl /\ w_top (walls cl) = true /\ (0 < r)%nat.
Proof.
  intros Hr Hc. unfold maze_rects. rewrite !elem_of_app. split.
  - intros [[[H | H] | H] | H].
    + unfold canvas_boundary in H.
      repeat (apply elem_of_cons in H as [H | H]; [other_size H |]).
      by apply elem_of_nil in H.
    + apply elem_of_flat_map in H as (r' & Hr' & H).
      apply elem_of_flat_map in H as (c' & Hc' & H).
      unfold cell_walls in H. destruct (cell_at grid r' c') as [cl |] eqn:Hcl;
        [| by apply elem_of_nil in H].
      rewrite !elem_of_app in H. destruct H as [H | [H | H]].
      * destruct (w_top (walls cl) && (0 <? r')%nat) eqn:E; [| by apply elem_of_nil in H].
        apply list_elem_of_singleton in H.
        pose proof (Qeq_of_eq _ _ (f_equal rect_x H)) as Ex. cbn in Ex.
        pose proof (Qeq_of_eq _ _ (f_equal rect_y H)) as Ey. cbn in Ey.
        apply cell_multiple in Ey.
        assert (Z.of_nat c = Z.of_nat c') as Ec.
        { apply (cell_multiple _ _ (wall_offsetX cols cellSize canvasWidth) 0). lra. }
        assert (r' = r) as -> by lia. assert (c' = c) as -> by lia.
        apply andb_prop in E as [E1 E2%Nat.ltb_lt]. eauto.
      * destruct (_ && _); [| by apply elem_of_nil in H].
        apply list_elem_of_singleton in H. other_size H.
      * destruct (_ && _ && _); [| by apply elem_of_nil in H].
        apply list_elem_of_singleton in H. other_size H.
    + apply elem_of_flat_map in H as (r' & Hr' & H). unfold right_walls in H.
      destruct (cell_at grid r' _) as [cl |]; [| by apply elem_of_nil in H].
      destruct (w_right (walls cl)); [| by apply elem_of_nil in H].
      apply list_elem_of_singleton in H. other_size H.
    + apply elem_of_flat_map in H as (c' & Hc' & H). unfold bottom_walls in H.
      destruct (cell_at grid _ c') as [cl |]; [| by apply elem_of_nil in H].
      destruct (w_bottom (walls cl)); [| by apply elem_of_nil in H].
      apply list_elem_of_singleton in H.
      pose proof (Qeq_of_eq _ _ (f_equal rect_y H)) as Ey. cbn in Ey.
      apply cell_multiple in Ey. lia.
  - intros (cl & Hcl & Hl & H0). left; left; right.
    apply elem_of_flat_map. exists r. split; [apply elem_of_seq; lia |].
    apply elem_of_flat_map. exists c. split; [apply elem_of_seq; lia |].
    unfold cell_walls. rewrite Hcl, Hl. apply Nat.ltb_lt in H0. rewrite H0. cbn [andb].
    rewrite !elem_of_app. left. by left.
Qed.

Hypothesis Hagree : walls_agree grid.

(** Between two cells side by side, and between two cells one above the
    other: a passage, or the rectangle. *)
Lemma left_wall_or_passage r c :
  (r < Z.to_nat rows)%nat -> (c < Z.to_nat cols)%nat -> (0 < c)%nat ->
  left_wall' r c ∈ rects <->
  ~ passage grid {| row := r; col := c - 1 |} {| row := r; col := c |}.
Proof.
  intros Hr Hc H0. rewrite left_wall_drawn by done.
  destruct (wall_cell grid cols rows Hwf r c Hr Hc) as [cl Hcl].
  destruct (wall_cell grid cols rows Hwf r (c - 1) Hr ltac:(lia)) as [cp Hcp].
  destruct Hagree as [Hh _].
  assert (w_right (walls cp) = w_left (walls cl)) as E.
  { apply (Hh r (c - 1)%nat); [done |]. by replace (S (c - 1)) with c by lia. }
  split.
  - intros (cl' & Hcl' & Hl & _) (cp0 & cq0 & H1 & H2 & Hcase). cbn [row col] in *.
    assert (cq0 = cl) as -> by congruence. assert (cl' = cl) as -> by congruence.
    destruct Hcase as [(? & _) | [(? & _) | [(_ & _ & _ & ?) | (? & _)]]];
      try lia; congruence.
  - intros Hno. exists cl. split; [done |]. split; [| done].
    destruct (w_left (walls cl)) eqn:Hl; [done |]. exfalso. apply Hno.
    exists cp, cl. cbn [row col]. split; [done |]. split; [done |].
    do 2 right; left. repeat split; [lia | congruence | done].
Qed.

Lemma top_wall_or_passage r c :
  (r < Z.to_nat rows)%nat -> (c < Z.to_nat cols)%nat -> (0 < r)%nat ->
  top_wall' r c ∈ rects <->
  ~ passage grid {| row := r - 1; col := c |} {| row := r; col := c |}.
Proof.
  intros Hr Hc H0. rewrite top_wall_drawn by done.
  destruct (wall_cell grid cols rows Hwf r c Hr Hc) as [cl Hcl].
  destruct (wall_cell grid cols rows Hwf (r - 1) c ltac:(lia) Hc) as [cp Hcp].
  destruct Hagree as [_ Hv].
  assert (w_bottom (walls cp) = w_top (walls cl)) as E.
  { apply (Hv (r - 1)%nat c); [done |]. by replace (S (r - 1)) with r by lia. }
  split.
  - intros (cl' & Hcl' & Hl & _) (cp0 & cq0 & H1 & H2 & Hcase). cbn [row col] in *.
    assert (cq0 = cl) as -> by congruence. assert (cl' = cl) as -> by congruence.
    destruct Hcase as [(? & _) | [(_ & _ & _ & ?) | [(? & _) | (? & _)]]];
      try lia; congruence.
  - intros Hno. exists cl. split; [done |]. split; [| done].
    destruct (w_top (walls cl)) eqn:Hl; [done |]. exfalso. apply Hno.
    exists cp, cl. cbn [row col]. split; [done |]. split; [done |].
    right; left. repeat split; [lia | congruence | done].
Qed.
End Drawn.

Lemma level_sizes levelNum :
  8 < cellSize_of (getDifficulty levelNum) /\
  cellSize_of (getDifficulty levelNum) < width_of (getDifficulty levelNum) /\
  cellSize_of (getDifficulty levelNum) < height_of (getDifficulty levelNum).
Proof. unfold getDifficulty. repeat case_match; by vm_compute. Qed.

(** X16.  The walls drawn are the walls of the maze.  For every level from 1
    on, [mazeToWalls] returns on the generated grid, and in the list it
    returns the rectangle between two cells side by side, and the one
    between two cells one above the other, is there if and only if no
    passage joins the two cells. *)
Theorem walls_drawn_where_walls_stand (levelNum : Z) (fuel : nat) :
  1 <= levelNum ->
  (2 * maze_rows levelNum * maze_cols levelNum <= fuel)%nat ->
  let d := getDifficulty levelNum in
  exists g s' rects,
    generateMazeGrid fuel (cols_of d) (rows_of d) (levelNum * 7919) = Done g s' /\
    mazeToWalls g (cols_of d) (rows_of d) (cellSize_of d) (width_of d) (height_of d) s'
      = Done rects s' /\
    forall r c, (r < maze_rows levelNum)%nat -> (c < maze_cols levelNum)%nat ->
      ((0 < c)%nat ->
       left_wall (cols_of d) (rows_of d) (cellSize_of d) (width_of d) (height_of d) r c
         ∈ rects <->
       ~ passage g {| row := r; col := c - 1 |} {| row := r; col := c |}) /\
      ((0 < r)%nat ->
       top_wall (cols_of d) (rows_of d) (cellSize_of d) (width_of d) (height_of d) r c
         ∈ rects <->
       ~ passage g {| row := r - 1; col := c |} {| row := r; col := c |}).
Proof.
  intros Hn Hfuel d. pose proof (grid_size levelNum) as [Hc Hr]. fold d in Hc, Hr.
  destruct (level_sizes levelNum) as (Hcs & Hw & Hh). fold d in Hcs, Hw, Hh.
  destruct (generateMazeGrid_spec fuel (cols_of d) (rows_of d) (levelNum * 7919))
    as (g1 & s1 & g & s' & _ & _ & Hrun & _); try lia; [exact Hfuel |].
  destruct (generateMazeGrid_tidy _ _ _ _ _ _ Hrun) as (Hwf & Hagree & _).
  exists g, s', (maze_rects g (cols_of d) (rows_of d) (cellSize_of d) (width_of d) (height_of d)).
  split; [exact Hrun |].
  split; [apply mazeToWalls_rects; [done | lia | lia] |].
  intros r c Hrow Hcol. split; intros H0.
  - apply left_wall_or_passage; try done; lia.
  - apply top_wall_or_passage; try done; lia.
Qed.

Lemma walls_drawn_where_walls_stand_witness :
  let d := getDifficulty 1 in
  exists g s' rects,
    generateMazeGrid 30 (cols_of d) (rows_of d) (1 * 7919) = Done g s' /\
    mazeToWalls g (cols_of d) (rows_of d) (cellSize_of d) (width_of d) (height_of d) s'
      = Done rects s' /\
    forall r c, (r < maze_rows 1)%nat -> (c < maze_cols 1)%nat ->
      ((0 < c)%nat ->
       left_wall (cols_of d) (rows_of d) (cellSize_of d) (width_of d) (height_of d) r c
         ∈ rects <->
       ~ passage g {| row := r; col := c - 1 |} {| row := r; col := c |}) /\
      ((0 < r)%nat ->
       top_wall (cols_of d) (rows_of d) (cellSize_of d) (width_of d) (height_of d) r c
         ∈ rects <->
       ~ passage g {| row := r - 1; col := c |} {| row := r; col := c |}).
Proof. apply (walls_drawn_where_walls_stand 1 30); [lia | vm_compute; lia]. Defined.

(** * More on the engine *)

Section Steps.
Variable Math_pow : Q -> Q -> Q.
Variable Math_sqrt : Q -> Q.
Variable Math_sin : Q -> Q.

(** ** What the steps of a frame keep *)

Lemma activatePowerup_timeScale_kept now type e :
  timeScale (activatePowerup now type e) = timeScale e.
Proof. unfold activatePowerup, setTimeout, clearTimeout. by case_match. Qed.

(** A step keeps what the setters it uses keep. *)
Section Kept.
Context {T : Type} (F : Engine -> T).
Hypothesis Hevents : forall ev e, F (emit ev e) = F e.

Lemma integrate_kept dt inp e :
  (forall b e, F (set_ball b e) = F e) ->
  F (integrate Math_pow Math_sqrt dt inp e).1.1 = F e.
Proof. intros Hb. unfold integrate. cbv zeta. cbn [fst]. apply Hb. Qed.

Lemma bounce_kept collision newX newY inp :
  (forall b e, F (set_ball b e) = F e) ->
  keeps F (bounce collision newX newY inp).
Proof.
  intros Hb e. unfold bounce.
  destruct (col_x collision), (col_y collision); by rewrite ?Hevents, ?Hb, ?Hevents, ?Hb.
Qed.

Lemma checkExtraLifeCollision_kept :
  (forall v e, F (set_levelExtraLives v e) = F e) ->
  keeps F (checkExtraLifeCollision Math_sqrt).
Proof.
  intros Hl e. unfold checkExtraLifeCollision.
  match goal with |- context [fold_right ?f ?a ?l] =>
    pose proof (fold_right_keeps (fun e' => F e' = F e) f l a) as H;
    destruct (fold_right f a l) as [kept e'] end.
  rewrite Hl. apply H; [| done].
  intros life [k e1] He1. cbn [snd] in *. case_match; cbn [snd]; by rewrite ?Hevents.
Qed.

Lemma checkPowerupCollision_kept inp :
  (forall v e, F (set_levelPowerups v e) = F e) ->
  (forall now type e, F (activatePowerup now type e) = F e) ->
  keeps F (checkPowerupCollision Math_sqrt inp).
Proof.
  intros Hl Ha e. unfold checkPowerupCollision.
  match goal with |- context [fold_right ?f ?a ?l] =>
    pose proof (fold_right_keeps (fun e' => F e' = F e) f l a) as H;
    destruct (fold_right f a l) as [seen e'] end.
  rewrite Hl. apply H; [| done].
  intros p [k e1] He1. cbn [snd] in He1.
  destruct (rp_collected p); [done |]. destruct (Qltb _ _); [| done].
  cbn [snd]. by rewrite Hevents, Ha.
Qed.

Lemma checkBouncePadCollision_kept :
  (forall b e, F (set_ball b e) = F e) ->
  keeps F checkBouncePadCollision.
Proof.
  intros Hb e. unfold checkBouncePadCollision.
  apply (fold_left_keeps (fun e' => F e' = F e)); [| done].
  intros e1 pad He1. case_match; [| done]. by rewrite Hevents, Hb.
Qed.

Lemma applySpeedZoneEffects_kept :
  (forall b e, F (set_ball b e) = F e) ->
  keeps F applySpeedZoneEffects.
Proof.
  intros Hb e. unfold applySpeedZoneEffects.
  apply (fold_left_keeps (fun e' => F e' = F e)); [| done].
  intros e1 zone He1. repeat case_match; by rewrite ?Hb.
Qed.

Lemma checkCoinCollision_kept inp :
  (forall v e, F (set_levelCoins v e) = F e) ->
  (forall v e, F (set_coinsCollectedThisLevel v e) = F e) ->
  keeps F (checkCoinCollision Math_sqrt inp).
Proof.
  intros Hl Hc e. unfold checkCoinCollision.
  match goal with |- context [fold_right ?f ?a ?l] =>
    pose proof (fold_right_keeps (fun e' => F e' = F e) f l a) as H;
    destruct (fold_right f a l) as [kept e'] end.
  rewrite Hl. apply H; [| done].
  intros coin [k e1] He1. cbn [snd] in *.
  destruct (Qltb _ (ball_radius (ball e) + coinRadius e1)); cbn [snd]; [| done].
  by rewrite Hevents, Hc.
Qed.

Lemma updateActivePowerups_kept :
  (forall v e, F (set_timeScale v e) = F e) ->
  (forall v e, F (set_levelCoins v e) = F e) ->
  (forall b e, F (set_ball b e) = F e) ->
  keeps F (updateActivePowerups Math_sqrt).
Proof.
  intros Ht Hl Hb e.
  unfold updateActivePowerups, powerup_shrink, powerup_magnet, powerup_timeScale.
  repeat match goal with |- context [if ?b then _ else _] => destruct b end;
    by rewrite ?Hb, ?Hl, ?Ht.
Qed.
End Kept.

(** The frame that goes through: no hole, no goal. *)
Definition frame_steps (inp : FrameInput) (e : Engine) : Engine :=
  updateActivePowerups Math_sqrt
    (updateMovingWalls Math_sin inp
       (applySpeedZoneEffects
          (checkBouncePadCollision
             (checkPowerupCollision Math_sqrt inp
                (checkExtraLifeCollision Math_sqrt
                   (checkCoinCollision Math_sqrt inp e)))))).

Lemma frame_steps_kept {T} (F : Engine -> T) inp :
  (forall ev e, F (emit ev e) = F e) ->
  (forall b e, F (set_ball b e) = F e) ->
  (forall v e, F (set_levelCoins v e) = F e) ->
  (forall v e, F (set_coinsCollectedThisLevel v e) = F e) ->
  (forall v e, F (set_levelExtraLives v e) = F e) ->
  (forall v e, F (set_levelPowerups v e) = F e) ->
  (forall now type e, F (activatePowerup now type e) = F e) ->
  (forall v e, F (set_levelMovingWalls v e) = F e) ->
  (forall v e, F (set_timeScale v e) = F e) ->
  keeps F (frame_steps inp).
Proof.
  intros He Hb Hc Hn Hl Hp Ha Hw Ht e. unfold frame_steps.
  rewrite updateActivePowerups_kept by done. unfold updateMovingWalls. rewrite Hw.
  rewrite applySpeedZoneEffects_kept, checkBouncePadCollision_kept,
    checkPowerupCollision_kept, checkExtraLifeCollision_kept by done.
  by apply checkCoinCollision_kept.
Qed.

(** [ball_step e eb]: [eb] is [e] after steps that assign the ball and
    report wall hits, and nothing else. *)
Definition ball_step (e eb : Engine) : Prop :=
  forall (T : Type) (F : Engine -> T),
    (forall ev e, F (emit ev e) = F e) -> (forall b e, F (set_ball b e) = F e) ->
    F eb = F e.

(** The four ways [update] ends. *)
Lemma update_cases dt inp e :
  exists eb, ball_step e eb /\
    (update Math_pow Math_sqrt Math_sin dt inp e = Thrown eb \/
     update Math_pow Math_sqrt Math_sin dt inp e = Normal tt (handleLose eb) \/
     update Math_pow Math_sqrt Math_sin dt inp e = Normal tt (handleWin eb) \/
     update Math_pow Math_sqrt Math_sin dt inp e = Normal tt (frame_steps inp eb)).
Proof.
  unfold update.
  assert (ball_step e (integrate Math_pow Math_sqrt dt inp e).1.1) as Hi.
  { intros T F He Hb. by apply integrate_kept. }
  destruct (integrate Math_pow Math_sqrt dt inp e) as [[e1 newX] newY]. cbn [fst] in Hi.
  destruct (checkWallCollisions _ _ _ _) as [collision |]; [| eauto].
  assert (ball_step e (bounce collision newX newY inp e1)) as Hb.
  { intros T F He Hb. rewrite bounce_kept by done. by apply Hi. }
  destruct (checkHoleCollision _ _) as [[] |]; [eauto | | eauto].
  destruct (checkGoalCollision _ _) as [[] |]; [eauto 6 | | eauto].
  exists (bounce collision newX newY inp e1). split; [done |]. do 3 right. cbv zeta. unfold frame_steps. reflexivity.
Qed.

(** ** What a frame makes of the time scale *)

Lemma isPowerupActive_updateActivePowerups type e :
  isPowerupActive type (updateActivePowerups Math_sqrt e) = isPowerupActive type e.
Proof.
  unfold isPowerupActive.
  by rewrite (updateActivePowerups_kept activePowerups).
Qed.

Lemma timeScale_updateActivePowerups e :
  timeScale (updateActivePowerups Math_sqrt e) =
    if isPowerupActive "slow_motion" e then 0.4%Q
    else if isPowerupActive "speed_boost" e then timeScale e else 1%Q.
Proof.
  unfold updateActivePowerups, powerup_shrink, powerup_magnet.
  repeat match goal with |- context [if isPowerupActive "shrink" ?x then _ else _] =>
    destruct (isPowerupActive "shrink" x) end.
  all: cbn [timeScale set_ball].
  all: repeat match goal with |- context [if isPowerupActive "magnet" ?x then _ else _] =>
    destruct (isPowerupActive "magnet" x) end.
  all: cbn [timeScale set_levelCoins]; unfold powerup_timeScale.
  all: destruct (isPowerupActive "slow_motion" e); [done |].
  all: by destruct (isPowerupActive "speed_boost" e).
Qed.

Lemma handleLose_stops e : isRunning (handleLose e) = false.
Proof. reflexivity. Qed.

Lemma handleWin_stops e : isRunning (handleWin e) = false.
Proof. reflexivity. Qed.

(** The frame of a running game that ends neither in a hole nor at the goal
    is [frame_steps] of the engine after the ball's move. *)
Lemma update_through dt inp e e' :
  update Math_pow Math_sqrt Math_sin dt inp e = Normal tt e' ->
  isRunning e' = true ->
  exists eb, ball_step e eb /\ e' = frame_steps inp eb.
Proof.
  intros Hup Hrun'.
  destruct (update_cases dt inp e) as (eb & Hb & [H | [H | [H | H]]]);
    rewrite H in Hup; inversion Hup; subst e'.
  - by rewrite handleLose_stops in Hrun'.
  - by rewrite handleWin_stops in Hrun'.
  - by exists eb.
Qed.

(** X19.  A frame that ends neither in a hole nor at the goal leaves the time
    scale at 0.4 when a slow-motion powerup is active, as the frame found it
    when a speed boost is active, and at 1 otherwise.  So the 0.4 that
    [activateTimeWarp] sets is put back to 1 by the first such frame, while
    [timeWarpActive] stays set. *)
Theorem frame_sets_timeScale (dt : Q) (inp : FrameInput) (e e' : Engine) :
  update Math_pow Math_sqrt Math_sin dt inp e = Normal tt e' ->
  isRunning e' = true ->
  timeScale e' = (if isPowerupActive "slow_motion" e' then 0.4
                  else if isPowerupActive "speed_boost" e' then timeScale e else 1)%Q /\
  timeWarpActive e' = timeWarpActive e /\
  timeWarpUsed e' = timeWarpUsed e.
Proof.
  intros Hup Hrun'.
  destruct (update_through dt inp e e' Hup Hrun') as (eb & Hb & ->).
  split; [| split].
  - unfold frame_steps. rewrite !isPowerupActive_updateActivePowerups.
    rewrite timeScale_updateActivePowerups.
    unfold updateMovingWalls.
    change (isPowerupActive ?t (set_levelMovingWalls ?v ?x)) with (isPowerupActive t x).
    cbn [timeScale set_levelMovingWalls].
    rewrite (applySpeedZoneEffects_kept timeScale),
      (checkBouncePadCollision_kept timeScale), (checkPowerupCollision_kept timeScale),
      (checkExtraLifeCollision_kept timeScale), (checkCoinCollision_kept timeScale),
      (Hb _ timeScale) by first [done | by intros; apply activatePowerup_timeScale_kept].
    reflexivity.
  - rewrite (frame_steps_kept timeWarpActive); [by apply Hb | try done ..].
    intros. unfold activatePowerup, setTimeout, clearTimeout. by case_match.
  - rewrite (frame_steps_kept timeWarpUsed); [by apply Hb | try done ..].
    intros. unfold activatePowerup, setTimeout, clearTimeout. by case_match.
Qed.

(** ** The coins *)

(** The coins collected so far and the coins still on the level. *)
Definition coin_count (e : Engine) : Z * nat :=
  (coinsCollectedThisLevel e, length (levelCoins e)).

Definition coin_total (e : Engine) : Z :=
  (coinsCollectedThisLevel e + Z.of_nat (length (levelCoins e)))%Z.

Lemma checkCoinCollision_total inp e :
  coin_total (checkCoinCollision Math_sqrt inp e) = coin_total e /\
  (coinsCollectedThisLevel e <= coinsCollectedThisLevel (checkCoinCollision Math_sqrt inp e))%Z.
Proof.
  unfold checkCoinCollision, coin_total.
  match goal with |- context [fold_right ?f ?a ?l] =>
    assert (forall l0,
      (coinsCollectedThisLevel (fold_right f a l0).2
       + Z.of_nat (length (fold_right f a l0).1)
       = coinsCollectedThisLevel e + Z.of_nat (length l0))%Z /\
      (coinsCollectedThisLevel e <= coinsCollectedThisLevel (fold_right f a l0).2)%Z) as H
  end.
  { induction l0 as [| coin l0 [IH1 IH2]]; [cbn; lia |].
    cbn [fold_right]. destruct (fold_right _ _ l0) as [kept e1]. cbn [fst snd] in *.
    destruct (Qltb _ (ball_radius (ball e) + coinRadius e1)); cbn; lia. }
  specialize (H (levelCoins e)).
  destruct (fold_right _ _ (levelCoins e)) as [kept e1]. exact H.
Qed.

Lemma activatePowerup_coin_count now type e :
  coin_count (activatePowerup now type e) = coin_count e.
Proof. unfold activatePowerup, setTimeout, clearTimeout. by case_match. Qed.

Lemma updateActivePowerups_coin_count e :
  coin_count (updateActivePowerups Math_sqrt e) = coin_count e.
Proof.
  unfold updateActivePowerups, powerup_shrink, powerup_magnet, powerup_timeScale, coin_count.
  repeat match goal with |- context [if ?b then _ else _] => destruct b end;
    cbn; by rewrite ?length_map.
Qed.

Lemma coin_count_total e e' : coin_count e' = coin_count e -> coin_total e' = coin_total e.
Proof. unfold coin_count, coin_total. by intros [= -> ->]. Qed.

Lemma coin_count_collected e e' :
  coin_count e' = coin_count e -> coinsCollectedThisLevel e' = coinsCollectedThisLevel e.
Proof. unfold coin_count. by intros [= -> _]. Qed.

Lemma frame_steps_total inp e :
  coin_total (frame_steps inp e) = coin_total e /\
  (coinsCollectedThisLevel e <= coinsCollectedThisLevel (frame_steps inp e))%Z.
Proof.
  assert (coin_count (frame_steps inp e) = coin_count (checkCoinCollision Math_sqrt inp e)) as H.
  { unfold frame_steps. rewrite updateActivePowerups_coin_count.
    unfold updateMovingWalls.
    change (coin_count (set_levelMovingWalls ?v ?x)) with (coin_count x).
    rewrite (applySpeedZoneEffects_kept coin_count),
      (checkBouncePadCollision_kept coin_count), (checkPowerupCollision_kept coin_count),
      (checkExtraLifeCollision_kept coin_count)
      by first [done | by intros; apply activatePowerup_coin_count].
    reflexivity. }
  rewrite (coin_count_total _ _ H), (coin_count_collected _ _ H).
  apply checkCoinCollision_total.
Qed.

(** Whatever way a frame ends, what it adds to the counter of collected
    coins it takes off the level. *)
Lemma update_total dt inp e :
  coin_total (engine_of (update Math_pow Math_sqrt Math_sin dt inp e)) = coin_total e /\
  (coinsCollectedThisLevel e
   <= coinsCollectedThisLevel (engine_of (update Math_pow Math_sqrt Math_sin dt inp e)))%Z.
Proof.
  destruct (update_cases dt inp e) as (eb & Hb & [H | [H | [H | H]]]);
    rewrite H; cbn [engine_of].
  - rewrite (coin_count_total e eb), (coin_count_collected e eb) by by apply Hb. lia.
  - change (coin_total (handleLose eb)) with (coin_total eb).
    change (coinsCollectedThisLevel (handleLose eb)) with (coinsCollectedThisLevel eb).
    rewrite (coin_count_total e eb), (coin_count_collected e eb) by by apply Hb. lia.
  - change (coin_total (handleWin eb)) with (coin_total eb).
    change (coinsCollectedThisLevel (handleWin eb)) with (coinsCollectedThisLevel eb).
    rewrite (coin_count_total e eb), (coin_count_collected e eb) by by apply Hb. lia.
  - destruct (frame_steps_total inp eb) as [H1 H2].
    rewrite H1. rewrite (coin_count_total e eb) by by apply Hb.
    rewrite (coin_count_collected e eb) in H2 by by apply Hb. done.
Qed.

(** What a successful [loadLevel] establishes and every later call keeps:
    the level has a start, the counter is not negative, and counter and
    coins on the level add up to the coins of the level. *)
Definition coins_accounted (level : LevelObject) (e : Engine) : Prop :=
  currentLevel e = Some level /\ is_Some (o_start level) /\
  (0 <= coinsCollectedThisLevel e)%Z /\
  coin_total e = Z.of_nat (length (default [] (o_coins level))).

Lemma loadLevel_accounted getLevel index e e' :
  loadLevel getLevel index e = Normal true e' ->
  exists level, getLevel index = Some level /\ coins_accounted level e'.
Proof.
  unfold loadLevel. cbn. destruct (getLevel index) as [level |]; [| discriminate].
  unfold resetBall. cbn. destruct (o_start level) eqn:Hst; [| discriminate].
  intros [= <-]. exists level. split; [done |].
  unfold coins_accounted, coin_total. cbn. rewrite length_map. split; [done |].
  split; [by rewrite Hst |]. split; [lia | lia].
Qed.

Lemma resetBall_accounted level e :
  coins_accounted level e -> coins_accounted level (engine_of (resetBall e)).
Proof.
  intros (Hl & [st Hst] & H0 & Ht). unfold resetBall. rewrite Hl, Hst. cbn [engine_of].
  unfold coins_accounted, coin_total. cbn. rewrite length_map. split; [done |].
  split; [by rewrite Hst |]. split; [lia | lia].
Qed.

Lemma accounted_kept level e e' :
  currentLevel e' = currentLevel e -> coin_count e' = coin_count e ->
  coins_accounted level e -> coins_accounted level e'.
Proof.
  intros Hl Hc (Hlev & Hst & H0 & Ht). unfold coins_accounted.
  rewrite Hl, (coin_count_total _ _ Hc), (coin_count_collected _ _ Hc). done.
Qed.

Lemma run_call_accounted level e c :
  coins_accounted level e ->
  coins_accounted level (run_call Math_pow Math_sqrt Math_sin e c).
Proof.
  intros Hacc. destruct c as [t | | t | | t | | slowMotion t | ts inp | t | t]; cbn [run_call].
  - apply (accounted_kept level e); [| | done]; unfold start_game; by destruct (isRunning e).
  - apply (accounted_kept level e); [| | done]; unfold pause; by destruct (_ || _).
  - apply (accounted_kept level e); [| | done]; unfold resume; by destruct (_ || _).
  - by apply (accounted_kept level e).
  - unfold restart.
    assert (coins_accounted level (stop e)) as Hs by by apply (accounted_kept level e).
    pose proof (resetBall_accounted level (stop e) Hs) as Hr.
    destruct (resetBall (stop e)) as [[] e1 | e1]; cbn [engine_of] in *; [| done].
    apply (accounted_kept level e1); [| | done]; unfold start_game; by destruct (isRunning e1).
  - by apply resetBall_accounted.
  - apply (accounted_kept level e); [| | done]; unfold activateTimeWarp;
      by destruct (negb slowMotion), (timeWarpUsed e), (timeWarpActive e).
  - unfold animation_frame. destruct (frameRequested e); [| done].
    unfold gameLoop. cbn [isRunning isPaused set_frameRequested].
    destruct (_ || _); [by apply (accounted_kept level e) |].
    match goal with |- context [update _ _ _ ?d ?i ?x] =>
      pose proof (update_total d i x) as [Ht Hc];
      pose proof (f_equal (fun p => p.2) (update_keeps_fixed Math_pow Math_sqrt Math_sin d i x))
        as Hl;
      destruct (update Math_pow Math_sqrt Math_sin d i x) as [[] e1 | e1]
    end; cbn [engine_of] in *; cbn in Hl.
    all: destruct Hacc as (Hlev & Hst & H0 & Htot).
    all: split; [cbn; congruence |]; split; [done |].
    all: change (coin_total (set_frameRequested true e1)) with (coin_total e1).
    all: cbn [coinsCollectedThisLevel set_frameRequested].
    all: cbn [coinsCollectedThisLevel set_frameRequested set_lastFrameTime] in Hc.
    all: split; [lia |]; rewrite Ht; exact Htot.
  - apply (accounted_kept level e); [| | done].
    + unfold run_timeouts.
      apply (fold_left_keeps (fun e' => currentLevel e' = currentLevel e)); [| done].
      intros e1 tm He1. destruct (t_action tm) as [type |]; cbn; [| done].
      by destruct (activePowerups e1 !! type).
    + unfold run_timeouts.
      apply (fold_left_keeps (fun e' => coin_count e' = coin_count e)); [| done].
      intros e1 tm He1. destruct (t_action tm) as [type |]; cbn; [| done].
      by destruct (activePowerups e1 !! type).
  - apply (accounted_kept level e); [| | done]; unfold timer_tick; by destruct (timerInterval e).
Qed.

(** X20.  From a level that [loadLevel] has loaded, and after any calls of
    the engine (frames, pauses, restarts, timers): the number of coins
    collected plus the number of coins still on the level is the number of
    coins of the level.  No coin is counted twice, and the counter never
    exceeds the coins the level has. *)
Theorem coins_add_up (getLevel : Z -> option LevelObject) (index : Z) (e0 e1 : Engine)
    (calls : list Call) :
  loadLevel getLevel index e0 = Normal true e1 ->
  exists level,
    getLevel index = Some level /\
    let e := fold_left (run_call Math_pow Math_sqrt Math_sin) calls e1 in
    currentLevel e = Some level /\
    (coinsCollectedThisLevel e + Z.of_nat (length (levelCoins e))
     = Z.of_nat (length (default [] (o_coins level))))%Z /\
    (0 <= coinsCollectedThisLevel e <= Z.of_nat (length (default [] (o_coins level))))%Z.
Proof.
  intros Hload.
  destruct (loadLevel_accounted _ _ _ _ Hload) as (level & Hget & Hacc).
  exists level. split; [done |]. cbv zeta.
  assert (coins_accounted level (fold_left (run_call Math_pow Math_sqrt Math_sin) calls e1))
    as (Hl & _ & H0 & Ht).
  { apply (fold_left_keeps (coins_accounted level)); [| done].
    intros e c. apply run_call_accounted. }
  unfold coin_total in Ht. split; [done |]. split; [done | lia].
Qed.

(** ** The frame that ends the attempt *)

Lemma calculateStars_range e time : (1 <= calculateStars e time <= 3)%Z.
Proof.
  unfold calculateStars. destruct (currentLevel e) as [level |]; [| lia].
  destruct (o_starTimes level) as [[| t0 [| t1 [| t2 l]]] |]; try lia.
  repeat case_match; lia.
Qed.

Lemma activatePowerup_isRunning now type e :
  isRunning (activatePowerup now type e) = isRunning e.
Proof. unfold activatePowerup, setTimeout, clearTimeout. by case_match. Qed.

(** X21.  The frame in which the ball falls into a hole or reaches the goal
    ends the attempt for good: its last report is the fall, or the win with
    the elapsed time as the frame found it and one to three stars; the
    interval timer is stopped, and after it frames, timer ticks,
    [pause()] and [resume()] change nothing. *)
Theorem attempt_ends_for_good (dt : Q) (inp : FrameInput) (e e' : Engine) :
  update Math_pow Math_sqrt Math_sin dt inp e = Normal tt e' ->
  isRunning e = true -> isRunning e' = false ->
  (last (events e') = Some onFellInHole \/
   exists stars, last (events e') = Some (onWin (elapsedTime e) stars) /\ (1 <= stars <= 3)%Z) /\
  timerInterval e' = false /\
  (forall timestamp inp',
      gameLoop Math_pow Math_sqrt Math_sin timestamp inp' e' = Normal tt e') /\
  (forall t, timer_tick t e' = e') /\
  pause e' = e' /\
  (forall t, resume t e' = e').
Proof.
  intros Hup Hrun Hrun'.
  assert (timerInterval e' = false /\
          (last (events e') = Some onFellInHole \/
           exists stars, last (events e') = Some (onWin (elapsedTime e) stars) /\
                         (1 <= stars <= 3)%Z)) as [Htimer Hlast].
  { destruct (update_cases dt inp e) as (eb & Hb & [H | [H | [H | H]]]);
      rewrite H in Hup; inversion Hup; subst e'.
    - split; [done |]. left. unfold handleLose, emit. cbn [events set_events].
      apply last_snoc.
    - split; [done |]. right. exists (calculateStars (stop eb) (elapsedTime (stop eb))).
      split; [| apply calculateStars_range].
      unfold handleWin, emit. cbn [events set_events]. rewrite last_snoc.
      change (elapsedTime (stop eb)) with (elapsedTime eb).
      by rewrite (Hb _ elapsedTime).
    - rewrite (frame_steps_kept isRunning) in Hrun'; try done.
      + rewrite (Hb _ isRunning) in Hrun' by done. congruence.
      + intros. apply activatePowerup_isRunning. }
  split; [done |]. split; [done |].
  split; [intros timestamp inp'; unfold gameLoop; by rewrite Hrun' |].
  split; [intros t0; unfold timer_tick; by rewrite Htimer |].
  split; [unfold pause; by rewrite Hrun' | intros t0; unfold resume; by rewrite Hrun'].
Qed.

(** ** The clock *)

(** The calls that start the clock again. *)
Definition starts_clock (c : Call) : bool :=
  match c with
  | call_start _ | call_restart _ => true
  | _ => false
  end.

Lemma activatePowerup_startTime now type e :
  startTime (activatePowerup now type e) = startTime e.
Proof. unfold activatePowerup, setTimeout, clearTimeout. by case_match. Qed.

Lemma update_startTime dt inp e :
  startTime (engine_of (update Math_pow Math_sqrt Math_sin dt inp e)) = startTime e.
Proof.
  destruct (update_cases dt inp e) as (eb & Hb & [H | [H | [H | H]]]);
    rewrite H; cbn [engine_of].
  - by apply Hb.
  - change (startTime (handleLose eb)) with (startTime eb). by apply Hb.
  - change (startTime (handleWin eb)) with (startTime eb). by apply Hb.
  - rewrite (frame_steps_kept startTime); try done; [by apply Hb |].
    intros. apply activatePowerup_startTime.
Qed.

Lemma run_call_startTime e c :
  starts_clock c = false ->
  startTime (run_call Math_pow Math_sqrt Math_sin e c) = startTime e.
Proof.
  destruct c as [t | | t | | t | | slowMotion t | ts inp | t | t]; cbn [run_call starts_clock];
    try discriminate; intros _.
  - unfold pause. by destruct (_ || _).
  - unfold resume. by destruct (_ || _).
  - done.
  - unfold resetBall. destruct (currentLevel e) as [level |]; [| done].
    by destruct (o_start level).
  - unfold activateTimeWarp. by destruct (negb slowMotion), (timeWarpUsed e), (timeWarpActive e).
  - unfold animation_frame. destruct (frameRequested e); [| done].
    unfold gameLoop. cbn [isRunning isPaused set_frameRequested].
    destruct (_ || _); [done |].
    match goal with |- context [update _ _ _ ?d ?i ?x] =>
      pose proof (update_startTime d i x) as Hs;
      destruct (update Math_pow Math_sqrt Math_sin d i x) as [[] e1 | e1]
    end; cbn [engine_of] in *; exact Hs.
  - unfold run_timeouts.
    apply (fold_left_keeps (fun e' => startTime e' = startTime e)); [| done].
    intros e1 tm He1. destruct (t_action tm) as [type |]; cbn; [| done].
    by destruct (activePowerups e1 !! type).
  - unfold timer_tick. by destruct (timerInterval e).
Qed.

(** X22.  The clock does not stop for a pause.  As long as the game is not
    started again, no call of the engine moves [startTime]: not [pause()],
    not [resume()], no frame and no timer.  So a tick of the interval timer
    at clock reading [now] sets the elapsed time to [now - startTime], the
    time since the start with every pause counted in, and this is the time
    a later win reports. *)
Theorem pause_does_not_stop_clock (e0 : Engine) (calls : list Call) (now : Q) :
  forallb (fun c => negb (starts_clock c)) calls = true ->
  let e := fold_left (run_call Math_pow Math_sqrt Math_sin) calls e0 in
  startTime e = startTime e0 /\
  (timerInterval e = true ->
   elapsedTime (timer_tick now e) = (now - startTime e0)%Q /\
   last (events (timer_tick now e)) = Some (onTimeUpdate (now - startTime e0)%Q)).
Proof.
  intros Hcalls. cbv zeta.
  assert (startTime (fold_left (run_call Math_pow Math_sqrt Math_sin) calls e0)
          = startTime e0) as Hstart.
  { revert e0. induction calls as [| c calls IH]; intros e0; [done |].
    cbn [forallb] in Hcalls. apply andb_true_iff in Hcalls as [Hc Hcalls].
    cbn [fold_left]. rewrite IH by done. apply run_call_startTime.
    by destruct (starts_clock c). }
  split; [done |]. intros Htimer. unfold timer_tick. rewrite Htimer, Hstart.
  split; [done |]. unfold emit. cbn [events set_events elapsedTime set_elapsedTime].
  apply last_snoc.
Qed.
End Steps.

(** ** Timeouts *)

Local Open Scope Q_scope.

#[global] Instance TimerAction_eq_dec : EqDecision TimerAction.
Proof. solve_decision. Defined.

Lemma run_action_expired type e :
  isPowerupActive type (run_action (ExpirePowerup type) e) = false.
Proof.
  unfold isPowerupActive, run_action.
  destruct (activePowerups e !! type) as [p |] eqn:E; cbn.
  - by rewrite lookup_insert_eq.
  - by rewrite E.
Qed.

Lemma run_action_other a type e :
  a <> ExpirePowerup type ->
  activePowerups (run_action a e) !! type = activePowerups e !! type.
Proof.
  intros Ha. destruct a as [type' |]; cbn; [| done].
  destruct (activePowerups e !! type') as [p |] eqn:E; cbn; [| done].
  rewrite lookup_insert_ne; [done | congruence].
Qed.

Lemma run_action_stays_inactive a type e :
  isPowerupActive type e = false -> isPowerupActive type (run_action a e) = false.
Proof.
  intros H. destruct (decide (a = ExpirePowerup type)) as [-> | Hne].
  - apply run_action_expired.
  - unfold isPowerupActive in *. by rewrite run_action_other.
Qed.

Definition run_actions (l : list Timeout) (e : Engine) : Engine :=
  fold_left (fun e t => run_action (t_action t) e) l e.

Lemma run_actions_stays_inactive l type : forall e,
  isPowerupActive type e = false -> isPowerupActive type (run_actions l e) = false.
Proof.
  induction l as [| tm l IH]; intros e H; [done |].
  apply IH. by apply run_action_stays_inactive.
Qed.

(** Once a timeout that expires [type] has run, [type] is not active. *)
Lemma run_actions_expired l type tm : forall e,
  tm ∈ l -> t_action tm = ExpirePowerup type ->
  isPowerupActive type (run_actions l e) = false.
Proof.
  induction l as [| tm' l IH]; intros e Hin Htm; [by apply elem_of_nil in Hin |].
  apply elem_of_cons in Hin as [<- | Hin].
  - cbn. apply run_actions_stays_inactive. rewrite Htm. apply run_action_expired.
  - cbn. by apply IH.
Qed.

(** Timeouts that expire other types leave [type] as it is. *)
Lemma run_actions_other l type : forall e,
  (forall tm, tm ∈ l -> t_action tm <> ExpirePowerup type) ->
  activePowerups (run_actions l e) !! type = activePowerups e !! type.
Proof.
  induction l as [| tm l IH]; intros e H; [done |].
  cbn. rewrite IH.
  - apply run_action_other, H. by left.
  - intros tm' Hin. apply H. by right.
Qed.

Lemma run_actions_timeouts l : forall e, timeouts (run_actions l e) = timeouts e.
Proof.
  induction l as [| tm l IH]; intros e; [done |].
  cbn. rewrite IH. destruct (t_action tm) as [type |]; cbn; [| done].
  by destruct (activePowerups e !! type).
Qed.

Lemma run_actions_timer l type : forall e p,
  activePowerups e !! type = Some p ->
  exists p', activePowerups (run_actions l e) !! type = Some p' /\ ap_timer p' = ap_timer p.
Proof.
  induction l as [| tm l IH]; intros e p Hp; [by exists p |].
  cbn. destruct (decide (t_action tm = ExpirePowerup type)) as [Ha | Ha].
  - rewrite Ha. cbn [run_action]. rewrite Hp.
    apply (IH _ {| ap_active := false; ap_endTime := ap_endTime p; ap_timer := ap_timer p |}).
    cbn. by rewrite lookup_insert_eq.
  - apply IH. by rewrite run_action_other.
Qed.

Lemma run_timeouts_unfold now e :
  run_timeouts now e =
    run_actions (List.filter (fun t => Qle_bool (t_due t) now) (timeouts e))
      (set_timeouts (List.filter (fun t => negb (Qle_bool (t_due t) now)) (timeouts e)) e).
Proof. reflexivity. Qed.

Lemma elem_of_filter_list {A} (P : A -> bool) (l : list A) x :
  x ∈ List.filter P l <-> x ∈ l /\ P x = true.
Proof. rewrite !list_elem_of_In. apply filter_In. Qed.

(** [timers_tracked e]: every pending timeout that expires a powerup is the
    one the powerup's entry records.  It holds while no reset has emptied
    [activePowerups] with timeouts pending. *)
Definition timers_tracked (e : Engine) : Prop :=
  forall tm type, tm ∈ timeouts e -> t_action tm = ExpirePowerup type ->
    exists p, activePowerups e !! type = Some p /\ ap_timer p = t_id tm.

Lemma run_timeouts_tracked now e : timers_tracked e -> timers_tracked (run_timeouts now e).
Proof.
  intros Htr tm type Hin Htm. rewrite run_timeouts_unfold in *.
  rewrite run_actions_timeouts in Hin. cbn in Hin.
  apply elem_of_filter_list in Hin as [Hin _].
  destruct (Htr tm type Hin Htm) as (p & Hp & Hid).
  destruct (run_actions_timer
              (List.filter (fun t => Qle_bool (t_due t) now) (timeouts e)) type
              (set_timeouts (List.filter (fun t => negb (Qle_bool (t_due t) now)) (timeouts e)) e)
              p Hp) as (p' & Hp' & Ht).
  exists p'. split; [exact Hp' | congruence].
Qed.

(** The timeouts after [activatePowerup]: the old ones, less the one the
    entry of [type] recorded, and the new one. *)
Lemma activatePowerup_timeouts now type e :
  timeouts (activatePowerup now type e) =
    match activePowerups e !! type with
    | Some old => List.filter (fun t => negb (t_id t =? ap_timer old)%nat) (timeouts e)
    | None => timeouts e
    end ++ [{| t_id := next_timer e; t_due := now + durations type;
               t_action := ExpirePowerup type |}].
Proof. unfold activatePowerup, setTimeout, clearTimeout. by case_match. Qed.

Lemma activatePowerup_active now type e :
  activePowerups (activatePowerup now type e) =
    <[type := {| ap_active := true; ap_endTime := now + durations type;
                 ap_timer := next_timer e |}]> (activePowerups e).
Proof. unfold activatePowerup, setTimeout, clearTimeout. by case_match. Qed.

(** After [activatePowerup] on tracked timers, one timeout expires [type]:
    the new one. *)
Lemma activatePowerup_one_timer now type e tm :
  timers_tracked e ->
  tm ∈ timeouts (activatePowerup now type e) -> t_action tm = ExpirePowerup type ->
  tm = {| t_id := next_timer e; t_due := now + durations type;
          t_action := ExpirePowerup type |}.
Proof.
  intros Htr Hin Htm. rewrite activatePowerup_timeouts in Hin.
  apply elem_of_app in Hin as [Hin | Hin]; [| by apply list_elem_of_singleton in Hin].
  exfalso. destruct (activePowerups e !! type) as [old |] eqn:E.
  - apply elem_of_filter_list in Hin as [Hin Hid].
    destruct (Htr tm type Hin Htm) as (p & Hp & Hpid).
    rewrite E in Hp. inversion Hp; subst p. rewrite Hpid, Nat.eqb_refl in Hid. discriminate.
  - destruct (Htr tm type Hin Htm) as (p & Hp & _). congruence.
Qed.

Lemma activatePowerup_tracked now type e :
  timers_tracked e -> timers_tracked (activatePowerup now type e).
Proof.
  intros Htr tm type' Hin Htm.
  destruct (decide (type' = type)) as [-> | Hne].
  - rewrite (activatePowerup_one_timer now type e tm Htr Hin Htm).
    rewrite activatePowerup_active, lookup_insert_eq. by eexists.
  - rewrite activatePowerup_timeouts in Hin. rewrite activatePowerup_active.
    rewrite lookup_insert_ne by done.
    apply elem_of_app in Hin as [Hin | Hin].
    + apply (Htr tm type'); [| done].
      destruct (activePowerups e !! type); [| done].
      by apply elem_of_filter_list in Hin as [Hin _].
    + apply list_elem_of_singleton in Hin. subst tm. cbn in Htm. congruence.
Qed.

(** X23.  While every pending timeout is the one its powerup records, a
    powerup lasts what [durations] says, counted from its latest pickup:
    after [activatePowerup] at clock reading [now] it is active, the
    timeouts the browser runs before [now + duration] leave it active, and
    the ones it runs from [now + duration] on end it.  Picking a powerup up
    again cancels its old timeout, so the second pickup starts the duration
    afresh. *)
Theorem powerup_lasts_its_duration (now : Q) (type : string) (e : Engine) :
  timers_tracked e ->
  let e' := activatePowerup now type e in
  timers_tracked e' /\
  isPowerupActive type e' = true /\
  (forall t, t < now + durations type -> isPowerupActive type (run_timeouts t e') = true) /\
  (forall t, now + durations type <= t -> isPowerupActive type (run_timeouts t e') = false).
Proof.
  intros Htr e'.
  assert (isPowerupActive type e' = true) as Hact.
  { unfold isPowerupActive. subst e'. by rewrite activatePowerup_active, lookup_insert_eq. }
  split; [by apply activatePowerup_tracked |]. split; [done |]. split.
  - intros t Ht. rewrite run_timeouts_unfold. unfold isPowerupActive.
    rewrite run_actions_other; [exact Hact |].
    intros tm Hin Htm. apply elem_of_filter_list in Hin as [Hin Hdue].
    rewrite (activatePowerup_one_timer now type e tm Htr Hin Htm) in Hdue. cbn in Hdue.
    apply Qle_bool_iff in Hdue. lra.
  - intros t Ht. rewrite run_timeouts_unfold.
    apply (run_actions_expired _ _
             {| t_id := next_timer e; t_due := now + durations type;
                t_action := ExpirePowerup type |}); [| done].
    apply elem_of_filter_list. split.
    + subst e'. rewrite activatePowerup_timeouts. apply elem_of_app. right. by left.
    + cbn. by apply Qle_bool_iff.
Qed.

Lemma resetBall_timers e level :
  currentLevel e = Some level ->
  forall e', resetBall e = Normal tt e' ->
    timeouts e' = timeouts e /\ activePowerups e' = ∅.
Proof.
  intros Hl e'. unfold resetBall. rewrite Hl.
  destruct (o_start level); [| discriminate]. by intros [= <-].
Qed.

(** X24.  [restart()] empties [activePowerups] and leaves the timeouts
    pending.  So when a timeout that expires a powerup is pending at a
    restart, and the powerup is picked up again after it, the old timeout
    still runs and ends the new powerup when the old one was due, however
    early in the new one's duration that is. *)
Theorem restart_keeps_old_timeouts (e e1 : Engine) (level : LevelObject) (now0 : Q)
    (tm : Timeout) (type : string) (now t : Q) :
  currentLevel e = Some level ->
  restart now0 e = Normal tt e1 ->
  tm ∈ timeouts e -> t_action tm = ExpirePowerup type ->
  t_due tm <= t ->
  timeouts e1 = timeouts e /\
  activePowerups e1 = ∅ /\
  isPowerupActive type (activatePowerup now type e1) = true /\
  isPowerupActive type (run_timeouts t (activatePowerup now type e1)) = false.
Proof.
  intros Hl Hr Hin Htm Hdue. unfold restart in Hr.
  destruct (resetBall (stop e)) as [[] e2 | e2] eqn:Hreset; [| discriminate].
  inversion Hr; subst e1; clear Hr.
  destruct (resetBall_timers (stop e) level Hl e2 Hreset) as [Ht Ha]. cbn in Ht.
  assert (timeouts (start_game now0 e2) = timeouts e) as Ht'.
  { unfold start_game. by destruct (isRunning e2). }
  assert (activePowerups (start_game now0 e2) = ∅) as Ha'.
  { unfold start_game. by destruct (isRunning e2). }
  split; [done |]. split; [done |]. split.
  - unfold isPowerupActive. by rewrite activatePowerup_active, lookup_insert_eq.
  - rewrite run_timeouts_unfold. apply (run_actions_expired _ _ tm); [| done].
    apply elem_of_filter_list. split; [| by apply Qle_bool_iff].
    rewrite activatePowerup_timeouts, Ha', lookup_empty, Ht'. apply elem_of_app. by left.
Qed.

Lemma run_action_warp_off a e :
  timeWarpActive e = false -> timeScale e = 1 ->
  timeWarpActive (run_action a e) = false /\ timeScale (run_action a e) = 1.
Proof.
  intros H1 H2. destruct a as [type |]; cbn; [| done].
  by destruct (activePowerups e !! type).
Qed.

Lemma run_actions_warp_off l : forall e,
  timeWarpActive e = false -> timeScale e = 1 ->
  timeWarpActive (run_actions l e) = false /\ timeScale (run_actions l e) = 1.
Proof.
  induction l as [| tm l IH]; intros e H1 H2; [done |].
  cbn. by apply IH; apply run_action_warp_off.
Qed.

Lemma run_actions_deactivated l tm : forall e,
  tm ∈ l -> t_action tm = DeactivateTimeWarp ->
  timeWarpActive (run_actions l e) = false /\ timeScale (run_actions l e) = 1.
Proof.
  induction l as [| tm' l IH]; intros e Hin Htm; [by apply elem_of_nil in Hin |].
  apply elem_of_cons in Hin as [<- | Hin].
  - cbn. rewrite Htm. by apply run_actions_warp_off.
  - cbn. by apply IH.
Qed.

Lemma run_actions_used l : forall e, timeWarpUsed (run_actions l e) = timeWarpUsed e.
Proof.
  induction l as [| tm l IH]; intros e; [done |].
  cbn. rewrite IH. destruct (t_action tm) as [type |]; cbn; [| done].
  by destruct (activePowerups e !! type).
Qed.

(** X25.  [loadLevel] makes the time warp available again and leaves its
    timeout pending.  So when the timeout of a time warp is pending at a
    level load, the time warp of the new level succeeds, and the old
    timeout ends it when the old one was due, however early in the new
    one's three seconds that is; the new level's time warp is then used
    up. *)
Theorem loadLevel_keeps_old_timeouts (getLevel : Z -> option LevelObject) (index : Z)
    (e e1 : Engine) (tm : Timeout) (now t : Q) :
  loadLevel getLevel index e = Normal true e1 ->
  tm ∈ timeouts e -> t_action tm = DeactivateTimeWarp ->
  t_due tm <= t ->
  timeouts e1 = timeouts e /\
  exists e2,
    activateTimeWarp true now e1 = (true, e2) /\
    timeWarpActive e2 = true /\ timeScale e2 = 0.4 /\
    timeWarpActive (run_timeouts t e2) = false /\
    timeScale (run_timeouts t e2) = 1 /\
    timeWarpUsed (run_timeouts t e2) = true.
Proof.
  intros Hload Hin Htm Hdue.
  assert (timeouts e1 = timeouts e /\ timeWarpUsed e1 = false /\ timeWarpActive e1 = false)
    as (Ht & Hu & Ha).
  { unfold loadLevel in Hload. cbn in Hload.
    destruct (getLevel index) as [level |]; [| discriminate].
    unfold resetBall in Hload. cbn in Hload.
    destruct (o_start level); [| discriminate]. by inversion Hload. }
  split; [done |]. unfold activateTimeWarp. rewrite Hu, Ha. cbn [negb].
  eexists. split; [reflexivity |]. split; [done |]. split; [done |].
  rewrite run_timeouts_unfold. rewrite run_actions_used.
  split; [| split; [| done]].
  all: apply (run_actions_deactivated _ tm); [| done].
  all: apply elem_of_filter_list; split; [| by apply Qle_bool_iff].
  all: cbn; rewrite Ht; apply elem_of_app; by left.
Qed.

Local Open Scope Z_scope.

(** ** The theorems on the engine at work *)

(** A frame of 16 ms on the small session, with the tilt of
    [example_input]; the square root is a constant, which decides what the
    ball is taken to touch. *)
Definition far_from_all : Q -> Q := fun _ => 1000%Q.
Definition on_the_coin : Q -> Q := fun _ => 23%Q.
Definition on_the_goal : Q -> Q := fun _ => 0%Q.

Lemma frame_sets_timeScale_witness :
  let e := snd (activateTimeWarp true 5 tiny_session) in
  timeScale e = 0.4%Q /\
  exists e',
    update (fun _ _ => 1%Q) far_from_all (fun _ => 0%Q) (16 # 1000) example_input e
      = Normal tt e' /\
    timeScale e' = (if isPowerupActive "slow_motion" e' then 0.4
                    else if isPowerupActive "speed_boost" e' then timeScale e else 1)%Q /\
    timeWarpActive e' = timeWarpActive e /\
    timeWarpUsed e' = timeWarpUsed e.
Proof.
  cbv zeta. split; [reflexivity |].
  eexists. split; [vm_compute; reflexivity |].
  eapply (frame_sets_timeScale (fun _ _ => 1%Q) far_from_all (fun _ => 0%Q) (16 # 1000)
            example_input); vm_compute; reflexivity.
Defined.

Lemma coins_add_up_witness :
  exists level,
    Some tiny_level = Some level /\
    let e := fold_left (run_call (fun _ _ => 1%Q) on_the_coin (fun _ => 0%Q))
               [call_start 0; call_frame 16 example_input; call_restart 100]
               (engine_of (loadLevel (fun _ => Some tiny_level) 0 new_engine)) in
    currentLevel e = Some level /\
    (coinsCollectedThisLevel e + Z.of_nat (length (levelCoins e))
     = Z.of_nat (length (default [] (o_coins level))))%Z /\
    (0 <= coinsCollectedThisLevel e <= Z.of_nat (length (default [] (o_coins level))))%Z.
Proof.
  apply (coins_add_up (fun _ _ => 1%Q) on_the_coin (fun _ => 0%Q)
           (fun _ => Some tiny_level) 0 new_engine
           (engine_of (loadLevel (fun _ => Some tiny_level) 0 new_engine))).
  vm_compute. reflexivity.
Defined.

Lemma attempt_ends_for_good_witness :
  exists e',
    update (fun _ _ => 1%Q) on_the_goal (fun _ => 0%Q) (16 # 1000) example_input tiny_session
      = Normal tt e' /\
    (last (events e') = Some onFellInHole \/
     exists stars, last (events e') = Some (onWin (elapsedTime tiny_session) stars) /\
                   (1 <= stars <= 3)%Z) /\
    timerInterval e' = false /\
    (forall timestamp inp',
        gameLoop (fun _ _ => 1%Q) on_the_goal (fun _ => 0%Q) timestamp inp' e' = Normal tt e') /\
    (forall t, timer_tick t e' = e') /\
    pause e' = e' /\
    (forall t, resume t e' = e').
Proof.
  eexists. split; [vm_compute; reflexivity |].
  eapply (attempt_ends_for_good (fun _ _ => 1%Q) on_the_goal (fun _ => 0%Q) (16 # 1000)
            example_input tiny_session); vm_compute; reflexivity.
Defined.

Lemma pause_does_not_stop_clock_witness :
  let e := fold_left (run_call (fun _ _ => 1%Q) far_from_all (fun _ => 0%Q))
             [call_pause; call_resume 5000] tiny_session in
  startTime e = startTime tiny_session /\
  (timerInterval e = true ->
   elapsedTime (timer_tick 6000 e) = (6000 - startTime tiny_session)%Q /\
   last (events (timer_tick 6000 e)) = Some (onTimeUpdate (6000 - startTime tiny_session)%Q)).
Proof.
  apply (pause_does_not_stop_clock (fun _ _ => 1%Q) far_from_all (fun _ => 0%Q) tiny_session
           [call_pause; call_resume 5000] 6000).
  reflexivity.
Defined.

Lemma timers_tracked_fresh e : timeouts e = [] -> timers_tracked e.
Proof. intros H tm type Hin. rewrite H in Hin. by apply elem_of_nil in Hin. Qed.

Lemma powerup_lasts_its_duration_witness :
  let e := activatePowerup 0 "shield" tiny_session in
  let e' := activatePowerup 3000 "shield" e in
  timers_tracked e' /\
  isPowerupActive "shield" e' = true /\
  (forall t, (t < 3000 + durations "shield")%Q ->
     isPowerupActive "shield" (run_timeouts t e') = true) /\
  (forall t, (3000 + durations "shield" <= t)%Q ->
     isPowerupActive "shield" (run_timeouts t e') = false).
Proof.
  apply (powerup_lasts_its_duration 3000 "shield" (activatePowerup 0 "shield" tiny_session)).
  apply activatePowerup_tracked, timers_tracked_fresh. reflexivity.
Defined.

Lemma restart_keeps_old_timeouts_witness :
  let e := activatePowerup 0 "slow_motion" tiny_session in
  let e1 := engine_of (restart 1000 e) in
  timeouts e1 = timeouts e /\
  activePowerups e1 = ∅ /\
  isPowerupActive "slow_motion" (activatePowerup 3000 "slow_motion" e1) = true /\
  isPowerupActive "slow_motion"
    (run_timeouts 4000 (activatePowerup 3000 "slow_motion" e1)) = false.
Proof.
  apply (restart_keeps_old_timeouts (activatePowerup 0 "slow_motion" tiny_session)
           (engine_of (restart 1000 (activatePowerup 0 "slow_motion" tiny_session)))
           tiny_level 1000
           {| t_id := 0; t_due := 4000; t_action := ExpirePowerup "slow_motion" |}
           "slow_motion" 3000 4000).
  - reflexivity.
  - vm_compute. reflexivity.
  - vm_compute. left.
  - reflexivity.
  - vm_compute. discriminate.
Defined.

Lemma loadLevel_keeps_old_timeouts_witness :
  let e := snd (activateTimeWarp true 0 tiny_session) in
  let e1 := engine_of (loadLevel (fun _ => Some tiny_level) 1 e) in
  timeouts e1 = timeouts e /\
  exists e2,
    activateTimeWarp true 2000 e1 = (true, e2) /\
    timeWarpActive e2 = true /\ timeScale e2 = 0.4%Q /\
    timeWarpActive (run_timeouts 3000 e2) = false /\
    timeScale (run_timeouts 3000 e2) = 1%Q /\
    timeWarpUsed (run_timeouts 3000 e2) = true.
Proof.
  apply (loadLevel_keeps_old_timeouts (fun _ => Some tiny_level) 1
           (snd (activateTimeWarp true 0 tiny_session))
           (engine_of (loadLevel (fun _ => Some tiny_level) 1
                         (snd (activateTimeWarp true 0 tiny_session))))
           {| t_id := 0; t_due := 3000; t_action := DeactivateTimeWarp |} 2000 3000).
  - vm_compute. reflexivity.
  - vm_compute. left.
  - reflexivity.
  - vm_compute. discriminate.
Defined.

(** * The level manager ([LevelManager]) *)

(** ** [generateAllLevels] and [getLevel] *)

(** [generateAllLevels()]: the levels 1 to 100, in this order. *)
Definition generateAllLevels (fuel : nat) : Gen (list MazeDefinition) :=
  for_each (seq 1 100)
    (fun i levels => let* m := generateLevel fuel (Z.of_nat i) in ret (levels ++ [m])) [].

Lemma for_each_levels fuel (l : list nat) :
  (220 <= fuel)%nat -> (forall i, i ∈ l -> (1 <= i)%nat) ->
  forall acc s,
    exists ms s',
      for_each l (fun i levels =>
                    let* m := generateLevel fuel (Z.of_nat i) in ret (levels ++ [m])) acc s
        = Done (acc ++ ms) s' /\
      Forall2 (fun i m => exists t, generateLevel fuel (Z.of_nat i) 0 = Done m t) l ms.
Proof.
  intros Hfuel. induction l as [| i l IH]; intros Hl acc s.
  - exists [], s. cbn. by rewrite app_nil_r.
  - destruct (generateLevel_total (Z.of_nat i) ltac:(specialize (Hl i ltac:(by left)); lia)
                fuel s Hfuel) as (m & s1 & Hgen & _).
    destruct (IH ltac:(intros j Hj; apply Hl; by right) (acc ++ [m]) s1)
      as (ms & s' & Hrun & Hall).
    exists (m :: ms), s'. split.
    + cbn [for_each]. erewrite bind_run; cycle 1.
      { erewrite bind_run by exact Hgen. reflexivity. }
      rewrite Hrun. by rewrite <- app_assoc.
    + constructor; [| done]. exists s1.
      by rewrite (generateLevel_reseeds fuel (Z.of_nat i) 0 s).
Qed.

Lemma getLevel_inside levels index m :
  0 <= index -> levels !! Z.to_nat index = Some m ->
  getLevel levels index = Some (level_object m).
Proof.
  intros H0 Hm. unfold getLevel.
  pose proof (lookup_lt_Some _ _ _ Hm).
  destruct (Z.ltb_spec index 0); [lia |].
  destruct (Z.leb_spec (Z.of_nat (length levels)) index); [lia |].
  cbn. by rewrite Hm.
Qed.

Lemma getLevel_outside levels index :
  ~ (0 <= index < Z.of_nat (length levels)) -> getLevel levels index = None.
Proof.
  intros H. unfold getLevel.
  destruct (Z.ltb_spec index 0); [done |].
  destruct (Z.leb_spec (Z.of_nat (length levels)) index); [done | lia].
Qed.

(** X17.  [generateAllLevels] returns, as soon as the unbounded loops of
    [generateLevel] are given 220 rounds each, and returns 100 levels: the
    one at index [i] is what [generateLevel(i + 1)] returns.  On these
    levels [getLevel] returns a copy of the level for the indices 0 to 99
    and [null] for every other index. *)
Theorem generateAllLevels_returns (fuel : nat) (s : Z) :
  (220 <= fuel)%nat ->
  exists levels s',
    generateAllLevels fuel s = Done levels s' /\
    length levels = 100%nat /\
    (forall index, 0 <= index < 100 ->
       exists m t,
         generateLevel fuel (index + 1) s = Done m t /\
         levels !! Z.to_nat index = Some m /\
         getLevel levels index = Some (level_object m)) /\
    (forall index, ~ (0 <= index < 100) -> getLevel levels index = None).
Proof.
  intros Hfuel.
  destruct (for_each_levels fuel (seq 1 100) Hfuel
              ltac:(intros i Hi; apply elem_of_seq in Hi; lia) [] s)
    as (levels & s' & Hrun & Hall).
  exists levels, s'. split; [exact Hrun |].
  pose proof (Forall2_length _ _ _ Hall) as Hlen. rewrite length_seq in Hlen.
  split; [done |]. split.
  - intros index Hindex.
    destruct (Forall2_lookup_l _ _ _ (Z.to_nat index) (1 + Z.to_nat index)%nat Hall)
      as (m & Hm & t & Hgen).
    { apply lookup_seq_lt. lia. }
    exists m, t. split; [| split; [done | apply getLevel_inside; [lia | done]]].
    rewrite (generateLevel_reseeds fuel (index + 1) s 0).
    by replace (index + 1) with (Z.of_nat (1 + Z.to_nat index)) by lia.
  - intros index Hindex. apply getLevel_outside. lia.
Qed.

Lemma generateAllLevels_returns_witness :
  exists levels s',
    generateAllLevels 220 12345 = Done levels s' /\
    length levels = 100%nat /\
    (forall index, 0 <= index < 100 ->
       exists m t,
         generateLevel 220 (index + 1) 12345 = Done m t /\
         levels !! Z.to_nat index = Some m /\
         getLevel levels index = Some (level_object m)) /\
    (forall index, ~ (0 <= index < 100) -> getLevel levels index = None).
Proof. apply (generateAllLevels_returns 220 12345). lia. Defined.

(** ** Loading a level of the manager *)

Section Play.
Variable Math_pow : Q -> Q -> Q.
Variable Math_sqrt : Q -> Q.
Variable Math_sin : Q -> Q.

(** A frame throws on a missing level, wall list or goal, and on nothing
    else. *)
Lemma update_returns dt inp e level :
  currentLevel e = Some level -> is_Some (o_walls level) -> is_Some (o_goal level) ->
  exists e', update Math_pow Math_sqrt Math_sin dt inp e = Normal tt e'.
Proof.
  intros Hl [ws Hws] [g Hg]. unfold update.
  pose proof (integrate_kept Math_pow Math_sqrt currentLevel dt inp e ltac:(done)) as Hi.
  destruct (integrate Math_pow Math_sqrt dt inp e) as [[e1 newX] newY]. cbn [fst] in Hi.
  unfold checkWallCollisions. rewrite Hi, Hl. cbn. rewrite Hws. cbn.
  match goal with |- context [bounce ?c newX newY inp e1] =>
    pose proof (bounce_kept currentLevel ltac:(done) c newX newY inp ltac:(done) e1) as Hb;
    set (e2 := bounce c newX newY inp e1) in *
  end.
  unfold checkHoleCollision. rewrite Hb, Hi, Hl. cbn.
  match goal with |- context [if ?b then Normal _ _ else _] => destruct b end; [eauto |].
  unfold checkGoalCollision. rewrite Hb, Hi, Hl. cbn. rewrite Hg. cbn.
  match goal with |- context [if ?b then Normal _ _ else _] => destruct b end; eauto.
Qed.

(** X18.  The engine loads exactly the levels the manager has.  For an index
    from 0 to the number of levels less one, [loadLevel] returns true, with
    the ball on the level's start and all the level's coins out; from then
    on, whatever calls follow, no frame throws.  For every other index
    [loadLevel] returns false and leaves the engine without a level. *)
Theorem every_level_loads_and_plays (levels : list MazeDefinition) (index : Z) (e : Engine) :
  (0 <= index < Z.of_nat (length levels) ->
   exists m e',
     levels !! Z.to_nat index = Some m /\
     loadLevel (getLevel levels) index e = Normal true e' /\
     currentLevel e' = Some (level_object m) /\
     ball_x (ball e') = pt_x (start m) /\ ball_y (ball e') = pt_y (start m) /\
     length (levelCoins e') = length (coins m) /\
     coinsCollectedThisLevel e' = 0 /\
     forall calls dt inp,
       exists e2,
         update Math_pow Math_sqrt Math_sin dt inp
           (fold_left (run_call Math_pow Math_sqrt Math_sin) calls e') = Normal tt e2) /\
  (~ (0 <= index < Z.of_nat (length levels)) ->
   loadLevel (getLevel levels) index e
   = Normal false (set_currentLevel None (set_levelIndex index e))).
Proof.
  split.
  - intros Hindex.
    destruct (lookup_lt_is_Some_2 levels (Z.to_nat index) ltac:(lia)) as [m Hm].
    pose proof (getLevel_inside levels index m ltac:(lia) Hm) as Hget.
    assert (exists e', loadLevel (getLevel levels) index e = Normal true e' /\
              currentLevel e' = Some (level_object m) /\
              ball_x (ball e') = pt_x (start m) /\ ball_y (ball e') = pt_y (start m) /\
              length (levelCoins e') = length (coins m) /\
              coinsCollectedThisLevel e' = 0) as (e' & Hload & Hl & Hx & Hy & Hc & Hn).
    { unfold loadLevel. cbn. rewrite Hget. unfold resetBall. cbn.
      eexists. split; [reflexivity |]. cbn. by rewrite length_map. }
    exists m, e'. repeat (split; [done |]).
    intros calls dt inp.
    destruct (loadLevel_accounted _ _ _ _ Hload) as (level & Hlevel & Hacc).
    assert (level = level_object m) as -> by congruence.
    assert (coins_accounted (level_object m)
              (fold_left (run_call Math_pow Math_sqrt Math_sin) calls e')) as (Hcur & _).
    { apply (fold_left_keeps (coins_accounted (level_object m))); [| done].
      intros e1 c. apply run_call_accounted. }
    by apply (update_returns dt inp _ (level_object m)).
  - intros Hindex. unfold loadLevel. cbn. by rewrite getLevel_outside.
Qed.
End Play.

(** ** Progress: [isLevelUnlocked] and [completeLevel] *)

(** The record of a completed level.  [completedAt], the clock reading of
    the completion, is never read and is left out. *)
Record Completed := { bestTime : Q; best_stars : Z; best_coins : Z }.

(** [this.progress]; a saved progress may lack the list of unlocked
    levels, and [completeLevel] guards both properties. *)
Record Progress := {
  unlockedLevels : option (list Z);
  completedLevels : option (gmap Z Completed);
  progress_currentLevel : Z }.

(** [isLevelUnlocked(index)] *)
Definition isLevelUnlocked (p : Progress) (index : Z) : bool :=
  if index =? 0 then true
  else bool_decide (is_Some (default ∅ (completedLevels p) !! (index - 1))).

(** [completeLevel(index, time, stars, coinsCollected)]: the bonus coins it
    returns, and hands to the storage manager, and the progress it
    leaves. *)
Definition completeLevel (levels : list MazeDefinition) (index : Z) (time : Q)
    (stars coinsCollected : Z) (p : Progress) : Z * Progress :=
  let completed := default ∅ (completedLevels p) in
  let unlocked := default [0] (unlockedLevels p) in
  let existing := completed !! index in
  let level := if index <? 0 then None else levels !! Z.to_nat index in
  let allCoins :=
    match level with
    | Some l => Z.of_nat (length (coins l)) <=? coinsCollected
    | None => false
    end in
  let newBest :=
    match existing with
    | Some old => Qltb time (bestTime old)
    | None => true
    end in
  let bonusCoins := 0 in
  let bonusCoins :=
    match existing with
    | Some _ => bonusCoins
    | None => bonusCoins + (20 + index * 2)
    end in
  let bonusCoins := if allCoins then bonusCoins + 15 else bonusCoins in
  let bonusCoins := if newBest then bonusCoins + 10 else bonusCoins in
  let bonusCoins := bonusCoins + stars * 10 in
  let bonusCoins := if (stars =? 3) && allCoins then bonusCoins + 50 else bonusCoins in
  let oldStars := match existing with Some old => best_stars old | None => 0 end in
  let oldCoins := match existing with Some old => best_coins old | None => 0 end in
  let completed :=
    if newBest then
      <[index := {| bestTime := time; best_stars := Z.max stars oldStars;
                    best_coins := Z.max coinsCollected oldCoins |}]> completed
    else
      match existing with
      | Some old =>
          if (best_stars old <? stars) || (best_coins old <? coinsCollected) then
            <[index := {| bestTime := bestTime old;
                          best_stars := Z.max stars (best_stars old);
                          best_coins := Z.max coinsCollected (best_coins old) |}]> completed
          else completed
      | None => completed
      end in
  let unlocked :=
    if index + 1 <? Z.of_nat (length levels) then
      if bool_decide (index + 1 ∈ unlocked) then unlocked else unlocked ++ [index + 1]
    else unlocked in
  (bonusCoins,
   {| unlockedLevels := Some unlocked; completedLevels := Some completed;
      progress_currentLevel := progress_currentLevel p |}).

(** The record [completeLevel] leaves for the level. *)
Lemma completeLevel_record (levels : list MazeDefinition) (index : Z) (time : Q)
    (stars coinsCollected : Z) (p : Progress) :
  let completed := default ∅ (completedLevels p) in
  let p' := (completeLevel levels index time stars coinsCollected p).2 in
  exists completed' r,
    completedLevels p' = Some completed' /\
    completed' !! index = Some r /\
    (forall j, j <> index -> completed' !! j = completed !! j) /\
    match completed !! index with
    | None =>
        r = {| bestTime := time; best_stars := Z.max stars 0;
               best_coins := Z.max coinsCollected 0 |}
    | Some old =>
        bestTime r = (if Qltb time (bestTime old) then time else bestTime old) /\
        best_stars r = Z.max stars (best_stars old) /\
        best_coins r = Z.max coinsCollected (best_coins old)
    end.
Proof.
  intros completed p'. subst p'. unfold completeLevel. cbv zeta. cbn [snd completedLevels].
  fold completed.
  destruct (completed !! index) as [old |] eqn:Hold.
  - destruct (Qltb time (bestTime old)) eqn:Hbest.
    + eexists _, _. split; [reflexivity |]. split; [apply lookup_insert_eq |].
      split; [intros j Hj; by apply lookup_insert_ne |]. done.
    + destruct (Z.ltb_spec (best_stars old) stars); cbn [orb].
      * eexists _, _. split; [reflexivity |]. split; [apply lookup_insert_eq |].
        split; [intros j Hj; by apply lookup_insert_ne |]. done.
      * destruct (Z.ltb_spec (best_coins old) coinsCollected).
        -- eexists _, _. split; [reflexivity |]. split; [apply lookup_insert_eq |].
           split; [intros j Hj; by apply lookup_insert_ne |]. done.
        -- exists completed, old. split; [reflexivity |]. split; [done |].
           split; [done |]. split; [done |]. lia.
  - eexists _, _. split; [reflexivity |]. split; [apply lookup_insert_eq |].
    split; [intros j Hj; by apply lookup_insert_ne |]. done.
Qed.

(** X26.  [completeLevel] keeps the best of each: after the call the level
    has a record that is no worse than the new result and no worse than the
    record it had: its time is at most the new time and the recorded one,
    its stars and coins are at least the new and the recorded ones; the
    records of the other levels are as they were. *)
Theorem completeLevel_keeps_the_best (levels : list MazeDefinition) (index : Z) (time : Q)
    (stars coinsCollected : Z) (p : Progress) :
  let completed := default ∅ (completedLevels p) in
  let p' := (completeLevel levels index time stars coinsCollected p).2 in
  exists completed' r,
    completedLevels p' = Some completed' /\
    completed' !! index = Some r /\
    (forall j, j <> index -> completed' !! j = completed !! j) /\
    (bestTime r <= time)%Q /\ stars <= best_stars r /\ coinsCollected <= best_coins r /\
    forall old, completed !! index = Some old ->
      (bestTime r <= bestTime old)%Q /\
      best_stars old <= best_stars r /\ best_coins old <= best_coins r.
Proof.
  intros completed p'.
  destruct (completeLevel_record levels index time stars coinsCollected p)
    as (completed' & r & Hc & Hr & Hother & Hbest).
  exists completed', r. split; [exact Hc |]. split; [exact Hr |]. split; [exact Hother |].
  fold completed in Hbest. destruct (completed !! index) as [old |].
  - destruct Hbest as (Ht & Hs & Hn). rewrite Ht, Hs, Hn.
    assert ((if Qltb time (bestTime old) then time else bestTime old) <= time /\
            (if Qltb time (bestTime old) then time else bestTime old) <= bestTime old)%Q
      as [H1 H2].
    { destruct (Qltb time (bestTime old)) eqn:E.
      - apply Qltb_lt in E. split; [apply Qle_refl | by apply Qlt_le_weak].
      - apply Qltb_ge in E. split; [done | apply Qle_refl]. }
    split; [exact H1 |]. split; [lia |]. split; [lia |].
    intros old' [= <-]. split; [exact H2 |]. lia.
  - subst r. cbn. split; [apply Qle_refl |]. split; [lia |]. split; [lia |]. done.
Qed.

Lemma isLevelUnlocked_spec p index :
  isLevelUnlocked p index = true <->
  index = 0 \/ is_Some (default ∅ (completedLevels p) !! (index - 1)).
Proof.
  unfold isLevelUnlocked. destruct (Z.eqb_spec index 0) as [-> | Hne]; [split; auto |].
  rewrite bool_decide_eq_true. split; [by right | by intros [? | ?]].
Qed.

(** X27.  [completeLevel] unlocks the next level and locks none:
    [isLevelUnlocked] is true of the level after the completed one, and of
    every level it was true of before; the list of unlocked levels keeps
    its entries, gets the next index when the manager has that level, gets
    no other entry, and stays without duplicates. *)
Theorem completeLevel_unlocks_next (levels : list MazeDefinition) (index : Z) (time : Q)
    (stars coinsCollected : Z) (p : Progress) :
  let unlocked := default [0] (unlockedLevels p) in
  let p' := (completeLevel levels index time stars coinsCollected p).2 in
  isLevelUnlocked p' (index + 1) = true /\
  (forall j, isLevelUnlocked p j = true -> isLevelUnlocked p' j = true) /\
  exists unlocked',
    unlockedLevels p' = Some unlocked' /\
    (forall j, j ∈ unlocked' <->
               j ∈ unlocked \/ (j = index + 1 /\ index + 1 < Z.of_nat (length levels))) /\
    (NoDup unlocked -> NoDup unlocked').
Proof.
  intros unlocked p'.
  destruct (completeLevel_record levels index time stars coinsCollected p)
    as (completed' & r & Hc & Hr & Hother & _).
  fold p' in Hc.
  split; [| split].
  - apply isLevelUnlocked_spec. right. rewrite Hc. cbn.
    replace (index + 1 - 1) with index by lia. by rewrite Hr.
  - intros j [-> | [old Hold]]%isLevelUnlocked_spec; apply isLevelUnlocked_spec; [by left |].
    right. rewrite Hc. cbn. destruct (decide (j - 1 = index)) as [-> | Hne].
    + by rewrite Hr.
    + by rewrite Hother, Hold.
  - subst p'. unfold completeLevel. cbv zeta. cbn [snd unlockedLevels]. fold unlocked.
    eexists. split; [reflexivity |].
    destruct (Z.ltb_spec (index + 1) (Z.of_nat (length levels))).
    + destruct (bool_decide_reflect (index + 1 ∈ unlocked)) as [Hin | Hin].
      * split; [| done]. intros j. split; [by left |]. by intros [? | [-> _]].
      * split.
        -- intros j. rewrite elem_of_app, list_elem_of_singleton. naive_solver.
        -- intros Hnd. apply NoDup_app. split; [done |]. split; [| apply NoDup_singleton].
           intros j Hj ->%list_elem_of_singleton. done.
    + split; [| done]. intros j. split; [by left |]. intros [? | [_ ?]]; [done | lia].
Qed.

(** ** The win and the manager *)

(** The call [handleWin] makes on the level manager,
    [completeLevel(this.levelIndex, time, stars)]: the fourth parameter is
    left to its default, 0. *)
Definition handleWin_completeLevel (levels : list MazeDefinition) (e : Engine)
    (p : Progress) : Z * Progress :=
  let e := stop e in
  let time := elapsedTime e in
  let stars := calculateStars e time in
  completeLevel levels (levelIndex e) time stars 0 p.

(** X28.  The coins the engine counts never reach the level manager: a win
    passes no coin count, which then is 0.  So on a level that has a coin,
    and every generated level has three or more, a win earns neither the
    bonus for all coins nor the bonus of the perfect run, whatever was
    collected, and leaves the record's coin count as it was, 0 on a first
    completion. *)
Theorem win_passes_no_coins (levels : list MazeDefinition) (e : Engine) (p : Progress)
    (fuel : nat) (s : Z) (m : MazeDefinition) (s' : Z) :
  0 <= levelIndex e ->
  levels !! Z.to_nat (levelIndex e) = Some m ->
  generateLevel fuel (levelIndex e + 1) s = Done m s' ->
  let existing := default ∅ (completedLevels p) !! levelIndex e in
  let stars := calculateStars e (elapsedTime e) in
  let result := handleWin_completeLevel levels e p in
  (3 <= length (coins m))%nat /\
  result.1 =
    match existing with
    | Some old => (if Qltb (elapsedTime e) (bestTime old) then 10 else 0) + stars * 10
    | None => 20 + levelIndex e * 2 + 10 + stars * 10
    end /\
  exists completed' r,
    completedLevels result.2 = Some completed' /\
    completed' !! levelIndex e = Some r /\
    best_coins r = match existing with Some old => Z.max 0 (best_coins old) | None => 0 end.
Proof.
  intros Hindex Hm Hgen existing stars result.
  assert (3 <= length (coins m))%nat as Hcoins.
  { destruct (generateLevel_well (levelIndex e + 1) ltac:(lia) fuel s m s' Hgen)
    as [Hstart Hgoal Hholes_count Hholes Hcoins_count Hcoins Hlives_count Hlives
      Hpowerups_count Hpowerups Hpads_count Hpads Hzones_count Hmoving_count
      Hpowerups_early Hpads_early Hzones_early Hmoving_early Hsize HballRadius
      Hzones Hmoving].
    rewrite Hcoins_count. unfold numCoins_of.
    assert (0 <= (levelIndex e + 1) / 12) by (apply Z.div_pos; lia). lia. }
  split; [done |]. split.
  - subst result. unfold handleWin_completeLevel, completeLevel. cbv zeta.
    cbn [fst levelIndex elapsedTime stop set_isRunning set_isPaused stopTimer
         set_timerInterval set_frameRequested].
    change (calculateStars (stop e) (elapsedTime e)) with stars.
    destruct (Z.ltb_spec (levelIndex e) 0); [lia |]. rewrite Hm.
    destruct (Z.leb_spec (Z.of_nat (length (coins m))) 0); [lia |].
    rewrite andb_false_r. fold existing.
    destruct existing as [old |]; [| lia].
    destruct (Qltb _ _); lia.
  - destruct (completeLevel_record levels (levelIndex e) (elapsedTime e) stars 0 p)
      as (completed' & r & Hc & Hr & _ & Hbest).
    exists completed', r. split; [exact Hc |]. split; [exact Hr |].
    fold existing in Hbest. destruct existing as [old |]; [by destruct Hbest as (_ & _ & ->) |].
    by subst r.
Qed.

(** The progress [loadProgress] sets when nothing is saved. *)
Definition fresh_progress : Progress :=
  {| unlockedLevels := Some [0]; completedLevels := Some ∅; progress_currentLevel := 0 |}.

Lemma win_passes_no_coins_witness :
  exists m s',
    generateLevel 220 1 0 = Done m s' /\
    let existing := default ∅ (completedLevels fresh_progress) !! levelIndex tiny_session in
    let stars := calculateStars tiny_session (elapsedTime tiny_session) in
    let result := handleWin_completeLevel [m] tiny_session fresh_progress in
    (3 <= length (coins m))%nat /\
    result.1 =
      match existing with
      | Some old =>
          (if Qltb (elapsedTime tiny_session) (bestTime old) then 10 else 0) + stars * 10
      | None => 20 + levelIndex tiny_session * 2 + 10 + stars * 10
      end /\
    exists completed' r,
      completedLevels result.2 = Some completed' /\
      completed' !! levelIndex tiny_session = Some r /\
      best_coins r = match existing with Some old => Z.max 0 (best_coins old) | None => 0 end.
Proof.
  eexists _, _. split; [vm_compute; reflexivity |].
  eapply (win_passes_no_coins _ tiny_session fresh_progress 220 0);
    [vm_compute; discriminate | reflexivity | vm_compute; reflexivity].
Defined.
